(** * The WHERE-clause query planner of sqlite4 (src/where.c)

    A shallow embedding of the parts of [where.c] that carry the planner's
    bookkeeping: the log-space cost arithmetic, the cursor bitmap, the
    transitive-equality scanner, the OR and LIKE term analysis, the range
    selectivity fallback, the weak-dominance insertion of candidate loops
    and the N-best merge of the join-order solver.

    Conventions.  C integers are modelled as [Z] with the wrap-around of
    their type written out ([u8], [u16], [u64]).  Bitmasks are [Z] values
    combined with [Z.land], [Z.lor] and [Z.lnot].  Arrays are lists read
    with [!!] and written with [<[i:=x]>].  Linked lists are lists in link
    order.  A C operation whose behaviour is undefined yields [None]. *)

From Stdlib Require Import ZArith List Lia Bool.
From stdpp Require Import base list strings.

Open Scope Z_scope.

(** ** Machine integers *)

Definition u8 (x : Z) : Z := x mod 256.
Definition u16 (x : Z) : Z := x mod 65536.
Definition u64 (x : Z) : Z := x mod 2 ^ 64.

(** [Bitmask] is a 64-bit unsigned integer, [BMS] its number of bits. *)
Definition BMS : Z := 64.

(** [MASKBIT(n)], that is [((Bitmask)1)<<(n)]. *)
Definition MASKBIT (n : Z) : Z := u64 (Z.shiftl 1 n).

(** [~m] on a [Bitmask]. *)
Definition bnot (m : Z) : Z := u64 (Z.lnot m).

(** Array read with the C convention that the caller stays in range; a read
    out of range yields the given default. *)
Definition aget {A} (d : A) (l : list A) (i : Z) : A :=
  if i <? 0 then d else default d (l !! Z.to_nat i).

(** ** CostArithmetic *)

Module Cost.

(** [x << s] on a [u64]; the shift is undefined in C once [s] reaches the
    width of the type. *)
Definition shl64 (x s : Z) : option Z :=
  if (0 <=? s) && (s <? 64) then Some (u64 (Z.shiftl x s)) else None.

(** [whereCostToInt]: convert a [WhereCost] (10 times log2(X)) into X. *)
Definition whereCostToInt (x : Z) : option Z :=
  if x <? 10 then Some 1
  else
    let n := x mod 10 in
    let x := x / 10 in
    let n := if n >=? 5 then n - 2 else if n >=? 1 then n - 1 else n in
    if x >=? 3 then shl64 (n + 8) (x - 3)
    else Some (Z.shiftr (n + 8) (3 - x)).

(** The lookup table [x[]] of [whereCostAdd]. *)
Definition x_tbl : list Z :=
  [ 10; 10;
    9; 9;
    8; 8;
    7; 7; 7;
    6; 6; 6;
    5; 5; 5;
    4; 4; 4; 4;
    3; 3; 3; 3; 3; 3;
    2; 2; 2; 2; 2; 2; 2 ].

(** [whereCostAdd]: the approximate sum of two [WhereCost] values.  The
    operands are promoted to [int]; the result is converted back to the
    16-bit [WhereCost]. *)
Definition whereCostAdd (a b : Z) : Z :=
  if a >=? b then
    if a >? b + 49 then u16 a
    else if a >? b + 31 then u16 (a + 1)
    else u16 (a + aget 0 x_tbl (a - b))
  else
    if b >? a + 49 then u16 b
    else if b >? a + 31 then u16 (b + 1)
    else u16 (b + aget 0 x_tbl (b - a)).

(** The part of [WhereInfo] read by the row-count accessor. *)
Record WhereInfoOut := { nRowOut : Z }.

(** [sqlite4WhereOutputRowCount]. *)
Definition sqlite4WhereOutputRowCount (pWInfo : WhereInfoOut) : option Z :=
  whereCostToInt (nRowOut pWInfo).

End Cost.

(** ** Properties of the cost arithmetic *)

Section CostFacts.
Import Cost.

Lemma x_tbl_range (d : Z) :
  0 <= d <= 31 -> 2 <= aget 0 x_tbl d <= 10.
Proof.
  intros Hd. unfold aget.
  destruct (Z.ltb_spec d 0) as [?|_]; [lia|].
  assert (Hn : (Z.to_nat d < 32)%nat) by lia.
  remember (Z.to_nat d) as n eqn:En. clear En Hd.
  do 32 (destruct n as [|n]; [cbn; lia|]).
  lia.
Qed.

Lemma u16_small (x : Z) : 0 <= x < 65536 -> u16 x = x.
Proof. intros H. unfold u16. apply Z.mod_small. lia. Qed.

Lemma whereCostAdd_ge (a b : Z) :
  0 <= b <= a -> a <= 6900 ->
  a <= whereCostAdd a b <= a + 10.
Proof.
  intros Hab Ha. unfold whereCostAdd.
  destruct (Z.geb_spec a b) as [_|?]; [|lia].
  destruct (Z.gtb_spec a (b + 49)) as [?|?].
  { rewrite u16_small by lia. lia. }
  destruct (Z.gtb_spec a (b + 31)) as [?|?].
  { rewrite u16_small by lia. lia. }
  pose proof (x_tbl_range (a - b) ltac:(lia)) as Hx.
  rewrite u16_small by lia. lia.
Qed.

Lemma whereCostAdd_diag_free (a b : Z) :
  a < b -> whereCostAdd a b = whereCostAdd b a.
Proof.
  intros Hlt. unfold whereCostAdd.
  destruct (Z.geb_spec a b) as [?|_]; [lia|].
  destruct (Z.geb_spec b a) as [_|?]; [|lia].
  reflexivity.
Qed.

(** C3.  For all costs [a], [b] not above 6900, [whereCostAdd] is symmetric
    and its result lies between [max a b] and [max a b + 10]. *)
Theorem whereCostAdd_symmetric_bounded (a b : Z) :
  0 <= a <= 6900 -> 0 <= b <= 6900 ->
  whereCostAdd a b = whereCostAdd b a
  /\ Z.max a b <= whereCostAdd a b <= Z.max a b + 10.
Proof.
  intros Ha Hb.
  destruct (Z.lt_trichotomy a b) as [Hlt|[Heq|Hgt]].
  - split; [now apply whereCostAdd_diag_free|].
    rewrite (whereCostAdd_diag_free a b Hlt), Z.max_r by lia.
    apply whereCostAdd_ge; lia.
  - subst b. split; [reflexivity|].
    rewrite Z.max_id. apply whereCostAdd_ge; lia.
  - split; [symmetry; now apply whereCostAdd_diag_free|].
    rewrite Z.max_l by lia. apply whereCostAdd_ge; lia.
Qed.

Lemma whereCostAdd_symmetric_bounded_witness :
  whereCostAdd 100 93 = whereCostAdd 93 100
  /\ Z.max 100 93 <= whereCostAdd 100 93 <= Z.max 100 93 + 10.
Proof.
  apply (whereCostAdd_symmetric_bounded 100 93); lia.
Defined.

End CostFacts.

Section CostToInt.
Import Cost.

Lemma whereCostToInt_positive (x : Z) :
  0 <= x < 640 -> exists v, whereCostToInt x = Some v /\ 1 <= v.
Proof.
  intros Hx. unfold whereCostToInt.
  destruct (Z.ltb_spec x 10) as [?|Hx10]; [exists 1; split; [reflexivity|lia]|].
  pose proof (Z.mod_pos_bound x 10 ltac:(lia)) as Hm.
  assert (Hq : 1 <= x / 10 <= 63).
  { split; [apply Z.div_le_lower_bound; lia|].
    apply Z.lt_succ_r, Z.div_lt_upper_bound; lia. }
  set (n := if x mod 10 >=? 5 then x mod 10 - 2
            else if x mod 10 >=? 1 then x mod 10 - 1 else x mod 10).
  assert (Hn : 0 <= n <= 7).
  { subst n. destruct (Z.geb_spec (x mod 10) 5); [lia|].
    destruct (Z.geb_spec (x mod 10) 1); lia. }
  destruct (Z.geb_spec (x / 10) 3) as [Hq3|Hq3].
  - unfold shl64.
    replace ((0 <=? x / 10 - 3) && (x / 10 - 3 <? 64)) with true
      by (symmetry; apply andb_true_iff; split;
          [apply Z.leb_le|apply Z.ltb_lt]; lia).
    eexists; split; [reflexivity|].
    rewrite Z.shiftl_mul_pow2 by lia.
    assert (Hp : 1 <= 2 ^ (x / 10 - 3) <= 2 ^ 60).
    { pose proof (Z.pow_pos_nonneg 2 (x / 10 - 3) ltac:(lia) ltac:(lia)).
      split; [lia|]. apply Z.pow_le_mono_r; lia. }
    change (2 ^ 60) with 1152921504606846976 in Hp.
    unfold u64. change (2 ^ 64) with 18446744073709551616.
    rewrite Z.mod_small by nia. nia.
  - eexists; split; [reflexivity|].
    rewrite Z.shiftr_div_pow2 by lia.
    assert (Hs : 3 - x / 10 = 1 \/ 3 - x / 10 = 2) by lia.
    destruct Hs as [-> | ->].
    + change (2 ^ 1) with 2. apply Z.div_le_lower_bound; lia.
    + change (2 ^ 2) with 4. apply Z.div_le_lower_bound; lia.
Qed.

(** C10.  The conversion behind the row-count accessor yields zero at the
    cost value 640: the mantissa 8 shifted left by 61 leaves the 64-bit
    result type, so the reported row count is 0 there and not at least 1. *)
Theorem whereOutputRowCount_zero_at_640 :
  sqlite4WhereOutputRowCount {| nRowOut := 640 |} = Some 0.
Proof. reflexivity. Qed.

End CostToInt.

(** ** CursorBitmap *)

Module MaskSet.

(** [struct WhereMaskSet]: [ix] is the array [int ix[BMS]]. *)
Record WhereMaskSet := mkMaskSet { n : Z; ix : list Z }.

(** The zeroed allocation followed by [initMaskSet]. *)
Definition initMaskSet : WhereMaskSet :=
  {| n := 0; ix := replicate (Z.to_nat BMS) 0 |}.

(** The loop of [getMask], from index [i] with [cnt] iterations left. *)
Fixpoint getMask_loop (a : list Z) (iCursor i : Z) (cnt : nat) : Z :=
  match cnt with
  | O => 0
  | S cnt' =>
      if aget 0 a i =? iCursor then MASKBIT i
      else getMask_loop a iCursor (i + 1) cnt'
  end.

(** [getMask]: the bitmask of the given cursor number, 0 when absent. *)
Definition getMask (pMaskSet : WhereMaskSet) (iCursor : Z) : Z :=
  getMask_loop (ix pMaskSet) iCursor 0 (Z.to_nat (n pMaskSet)).

(** [createMask]: [ix[n++] = iCursor].  Writing past the array is undefined
    (the source asserts [n < ArraySize(ix)]). *)
Definition createMask (pMaskSet : WhereMaskSet) (iCursor : Z)
  : option WhereMaskSet :=
  if (0 <=? n pMaskSet) && (n pMaskSet <? BMS) then
    Some {| n := n pMaskSet + 1;
            ix := <[Z.to_nat (n pMaskSet) := iCursor]> (ix pMaskSet) |}
  else None.

(** The loop [for(ii=0; ii<pTabList->nSrc; ii++) createMask(...)] over the
    cursors of the FROM clause, left to right. *)
Fixpoint createMasks (pMaskSet : WhereMaskSet) (cursors : list Z)
  : option WhereMaskSet :=
  match cursors with
  | [] => Some pMaskSet
  | c :: rest =>
      match createMask pMaskSet c with
      | Some ms => createMasks ms rest
      | None => None
      end
  end.

(** Outcome of the opening of [sqlite4WhereBegin]: the error message left
    in the parser context, or the populated mask set. *)
Inductive BeginResult :=
  | JoinTooWide (nMax : Z)      (* "at most %d tables in a join" *)
  | Interned (ms : WhereMaskSet)
  | Undefined.

(** [sqlite4WhereBegin] up to the assignment of bitmask bits: the test on
    the number of FROM entries, then one [createMask] per entry. *)
Definition sqlite4WhereBegin_masks (cursors : list Z) : BeginResult :=
  if Z.of_nat (length cursors) >? BMS then JoinTooWide BMS
  else
    match createMasks initMaskSet cursors with
    | Some ms => Interned ms
    | None => Undefined
    end.

(** The running union [toTheLeft] of the debug block of
    [sqlite4WhereBegin], before FROM entry [i]. *)
Definition toTheLeft (ms : WhereMaskSet) (cursors : list Z) (i : nat) : Z :=
  foldl Z.lor 0 (map (getMask ms) (take i cursors)).

(** Inclusion of bitmasks read as sets of bits. *)
Definition mask_subset (a b : Z) : Prop := Z.land a b = a.
Definition mask_strict_subset (a b : Z) : Prop := mask_subset a b /\ a <> b.

End MaskSet.

(** ** Properties of the cursor bitmap *)

Section MaskSetFacts.
Import MaskSet.

(** The mask set holds exactly the cursors [cs], in this order, in the
    first slots of its array. *)
Definition ms_holds (ms : WhereMaskSet) (cs : list Z) : Prop :=
  n ms = Z.of_nat (length cs)
  /\ length (ix ms) = Z.to_nat BMS
  /\ forall (k : nat) (c : Z), cs !! k = Some c -> ix ms !! k = Some c.

Lemma initMaskSet_holds : ms_holds initMaskSet [].
Proof.
  repeat split; try reflexivity.
  intros k c Hk. rewrite lookup_nil in Hk. discriminate.
Qed.

Lemma createMask_holds (ms : WhereMaskSet) (cs : list Z) (c : Z) :
  ms_holds ms cs -> (length cs < Z.to_nat BMS)%nat ->
  exists ms', createMask ms c = Some ms' /\ ms_holds ms' (cs ++ [c]).
Proof.
  intros (Hn & Hlen & Hix) Hlt. unfold createMask.
  assert (Hb : (0 <=? n ms) && (n ms <? BMS) = true).
  { apply andb_true_iff. split; [apply Z.leb_le|apply Z.ltb_lt]; lia. }
  rewrite Hb. eexists; split; [reflexivity|].
  repeat split; cbn [n ix].
  - rewrite length_app. cbn. lia.
  - rewrite length_insert. exact Hlen.
  - intros k d Hk. rewrite Hn, Nat2Z.id.
    destruct (decide (k = length cs)) as [->|Hne].
    + rewrite list_lookup_insert_eq by lia.
      rewrite lookup_app_r, Nat.sub_diag in Hk by lia. exact Hk.
    + rewrite list_lookup_insert_ne by lia.
      apply Hix. apply lookup_lt_Some in Hk as Hk'.
      rewrite length_app in Hk'. cbn in Hk'.
      rewrite lookup_app_l in Hk by lia. exact Hk.
Qed.

Lemma createMasks_holds (cs pre : list Z) (ms : WhereMaskSet) :
  ms_holds ms pre -> (length pre + length cs <= Z.to_nat BMS)%nat ->
  exists ms', createMasks ms cs = Some ms' /\ ms_holds ms' (pre ++ cs).
Proof.
  revert pre ms. induction cs as [|c cs IH]; intros pre ms Hms Hlen.
  - exists ms. rewrite app_nil_r. split; [reflexivity|exact Hms].
  - cbn [createMasks]. cbn [length] in Hlen.
    destruct (createMask_holds ms pre c Hms ltac:(lia)) as (ms1 & -> & H1).
    destruct (IH (pre ++ [c]) ms1 H1) as (ms2 & H2 & H3).
    { rewrite length_app. cbn. lia. }
    exists ms2. split; [exact H2|]. rewrite <- app_assoc in H3. exact H3.
Qed.

Lemma getMask_loop_found (a : list Z) (c : Z) (j : Z) (cnt : nat) (i : Z) :
  0 <= i <= j -> j < i + Z.of_nat cnt ->
  (forall k, i <= k < j -> aget 0 a k <> c) ->
  aget 0 a j = c ->
  getMask_loop a c i cnt = MASKBIT j.
Proof.
  revert i. induction cnt as [|cnt IH]; intros i Hij Hcnt Hne Hj; [lia|].
  cbn [getMask_loop].
  destruct (Z.eqb_spec (aget 0 a i) c) as [Heq|Hneq].
  - destruct (Z.eq_dec i j) as [->|Hd]; [reflexivity|].
    exfalso. apply (Hne i); [lia|exact Heq].
  - assert (i <> j) by congruence.
    apply IH; try lia. intros k Hk. apply Hne. lia.
Qed.

Lemma getMask_loop_absent (a : list Z) (c : Z) (cnt : nat) (i : Z) :
  (forall k, i <= k < i + Z.of_nat cnt -> aget 0 a k <> c) ->
  getMask_loop a c i cnt = 0.
Proof.
  revert i. induction cnt as [|cnt IH]; intros i Hne; [reflexivity|].
  cbn [getMask_loop].
  destruct (Z.eqb_spec (aget 0 a i) c) as [Heq|Hneq].
  - exfalso. apply (Hne i); [lia|exact Heq].
  - apply IH. intros k Hk. apply Hne. lia.
Qed.

Lemma aget_holds (ms : WhereMaskSet) (cs : list Z) (k : nat) (c : Z) :
  ms_holds ms cs -> cs !! k = Some c -> aget 0 (ix ms) (Z.of_nat k) = c.
Proof.
  intros (_ & _ & Hix) Hk. unfold aget.
  destruct (Z.ltb_spec (Z.of_nat k) 0); [lia|].
  rewrite Nat2Z.id, (Hix k c Hk). reflexivity.
Qed.

Lemma MASKBIT_pow2 (j : Z) : 0 <= j < 64 -> MASKBIT j = 2 ^ j.
Proof.
  intros Hj. unfold MASKBIT, u64. rewrite Z.shiftl_1_l.
  apply Z.mod_small. split; [apply Z.pow_nonneg; lia|].
  apply Z.pow_lt_mono_r; lia.
Qed.

(** [getMask] answers with the bit of the first slot holding the cursor. *)
Lemma getMask_first (ms : WhereMaskSet) (cs : list Z) (j : nat) (c : Z) :
  ms_holds ms cs -> cs !! j = Some c ->
  (forall k : nat, (k < j)%nat -> cs !! k <> Some c) ->
  getMask ms c = MASKBIT (Z.of_nat j).
Proof.
  intros Hms Hj Hfirst. pose proof Hms as (Hn & _ & _).
  apply lookup_lt_Some in Hj as Hlt.
  unfold getMask. rewrite Hn, Nat2Z.id.
  apply getMask_loop_found; try lia.
  - intros k Hk Hc.
    destruct (lookup_lt_is_Some_2 cs (Z.to_nat k) ltac:(lia)) as [d Hd].
    pose proof (aget_holds ms cs (Z.to_nat k) d Hms Hd) as Ha.
    rewrite Z2Nat.id in Ha by lia. rewrite Ha in Hc. subst d.
    apply (Hfirst (Z.to_nat k)); [lia|exact Hd].
  - eapply aget_holds; eassumption.
Qed.

Lemma getMask_holds (ms : WhereMaskSet) (cs : list Z) (j : nat) (c : Z) :
  ms_holds ms cs -> NoDup cs -> cs !! j = Some c ->
  getMask ms c = MASKBIT (Z.of_nat j).
Proof.
  intros Hms Hnd Hj. apply (getMask_first ms cs j c Hms Hj).
  intros k Hk Hd.
  pose proof (NoDup_lookup cs k j c Hnd Hd Hj). lia.
Qed.

Lemma first_occurrence (cs : list Z) (c : Z) :
  c ∈ cs ->
  exists j : nat, cs !! j = Some c
    /\ forall k : nat, (k < j)%nat -> cs !! k <> Some c.
Proof.
  induction cs as [|d cs IH]; intros Hin; [inversion Hin|].
  destruct (decide (d = c)) as [->|Hne].
  - exists 0%nat. split; [reflexivity|]. intros k Hk. lia.
  - apply elem_of_cons in Hin as [Heq|Hin]; [congruence|].
    destruct (IH Hin) as (j & Hj & Hfirst).
    exists (S j). split; [exact Hj|].
    intros [|k] Hk; cbn; [congruence|]. apply Hfirst. lia.
Qed.

Lemma lor_ones_pow2 (i : Z) :
  0 <= i -> Z.lor (Z.ones i) (2 ^ i) = Z.ones (i + 1).
Proof.
  intros Hi. rewrite <- Z.add_nocarry_lor.
  - rewrite !Z.ones_equiv, Z.pow_add_r by lia. change (2 ^ 1) with 2. lia.
  - rewrite Z.land_comm, Z.land_ones by lia. apply Z.mod_same. pose proof (Z.pow_pos_nonneg 2 i ltac:(lia) ltac:(lia)). lia.
Qed.

Lemma toTheLeft_ones (ms : WhereMaskSet) (cs : list Z) (i : nat) :
  ms_holds ms cs -> NoDup cs -> (length cs <= Z.to_nat BMS)%nat ->
  (i <= length cs)%nat ->
  toTheLeft ms cs i = Z.ones (Z.of_nat i).
Proof.
  intros Hms Hnd Hlen. unfold toTheLeft.
  induction i as [|i IH]; intros Hi; [reflexivity|].
  destruct (lookup_lt_is_Some_2 cs i ltac:(lia)) as [c Hc].
  rewrite (take_S_r _ _ _ Hc), map_app, foldl_app, IH by lia. cbn.
  rewrite (getMask_holds ms cs i c Hms Hnd Hc).
  rewrite MASKBIT_pow2 by (change BMS with 64 in Hlen; lia).
  rewrite lor_ones_pow2 by lia. f_equal. lia.
Qed.

Lemma u64_ones (i : Z) : 0 <= i <= 64 -> u64 (Z.ones i) = Z.ones i.
Proof.
  intros Hi. unfold u64. apply Z.mod_small. rewrite Z.ones_equiv.
  pose proof (Z.pow_pos_nonneg 2 i ltac:(lia) ltac:(lia)).
  pose proof (Z.pow_le_mono_r 2 i 64 ltac:(lia) ltac:(lia)). lia.
Qed.

Lemma ones_strict_subset (i j : Z) :
  0 <= i < j -> mask_strict_subset (Z.ones i) (Z.ones j).
Proof.
  intros Hij. pose proof (Z.pow_pos_nonneg 2 i ltac:(lia) ltac:(lia)).
  pose proof (Z.pow_lt_mono_r 2 i j ltac:(lia) ltac:(lia) ltac:(lia)).
  split.
  - unfold mask_subset. rewrite Z.land_ones by lia.
    apply Z.mod_small. rewrite Z.ones_equiv. lia.
  - rewrite !Z.ones_equiv. lia.
Qed.

(** C2.  With one distinct cursor per FROM entry and at most [BMS] entries,
    [sqlite4WhereBegin] interns the cursors left to right; the mask [M] of
    each entry then has [M - 1] equal to the union of the masks of the
    entries to its left, and for positions [i < j] the mask of entry [i]
    minus one is a strict subset of the mask of entry [j] minus one. *)
Theorem cursor_masks_monotone (cursors : list Z) :
  NoDup cursors -> Z.of_nat (length cursors) <= BMS ->
  exists ms,
    sqlite4WhereBegin_masks cursors = Interned ms
    /\ (forall (i : nat) (c : Z), cursors !! i = Some c ->
          u64 (getMask ms c - 1) = toTheLeft ms cursors i)
    /\ (forall (i j : nat) (ci cj : Z),
          (i < j)%nat -> cursors !! i = Some ci -> cursors !! j = Some cj ->
          mask_strict_subset (u64 (getMask ms ci - 1))
                             (u64 (getMask ms cj - 1))).
Proof.
  intros Hnd Hlen. unfold sqlite4WhereBegin_masks.
  destruct (Z.gtb_spec (Z.of_nat (length cursors)) BMS) as [?|_]; [lia|].
  destruct (createMasks_holds cursors [] initMaskSet initMaskSet_holds)
    as (ms & -> & Hms).
  { cbn [length]. change BMS with 64 in *. lia. }
  cbn [app] in Hms. exists ms. split; [reflexivity|].
  assert (Hm1 : forall (i : nat) (c : Z), cursors !! i = Some c ->
            u64 (getMask ms c - 1) = Z.ones (Z.of_nat i)).
  { intros i c Hc. apply lookup_lt_Some in Hc as Hlt.
    rewrite (getMask_holds ms cursors i c Hms Hnd Hc).
    rewrite MASKBIT_pow2 by (change BMS with 64 in Hlen; lia).
    replace (2 ^ Z.of_nat i - 1) with (Z.ones (Z.of_nat i))
      by (rewrite Z.ones_equiv; lia).
    apply u64_ones. change BMS with 64 in Hlen. lia. }
  split.
  - intros i c Hc. apply lookup_lt_Some in Hc as Hlt.
    rewrite (Hm1 i c Hc). symmetry.
    apply toTheLeft_ones; try assumption; change BMS with 64 in *; lia.
  - intros i j ci cj Hij Hi Hj.
    rewrite (Hm1 i ci Hi), (Hm1 j cj Hj).
    apply ones_strict_subset. lia.
Qed.

Lemma cursor_masks_monotone_witness :
  exists ms,
    sqlite4WhereBegin_masks [4; 9; 2] = Interned ms
    /\ (forall (i : nat) (c : Z), [4; 9; 2] !! i = Some c ->
          u64 (getMask ms c - 1) = toTheLeft ms [4; 9; 2] i)
    /\ (forall (i j : nat) (ci cj : Z),
          (i < j)%nat -> [4; 9; 2] !! i = Some ci ->
          [4; 9; 2] !! j = Some cj ->
          mask_strict_subset (u64 (getMask ms ci - 1))
                             (u64 (getMask ms cj - 1))).
Proof.
  apply (cursor_masks_monotone [4; 9; 2]).
  - apply (bool_decide_unpack _). vm_compute. exact I.
  - vm_compute. discriminate.
Defined.

(** C7, as stated, fails: interning cursor 5 a second time consumes a
    second bit of the mask set. *)
Lemma createMask_twice_consumes_two_bits :
  exists ms1 ms2,
    createMask initMaskSet 5 = Some ms1
    /\ createMask ms1 5 = Some ms2
    /\ n ms1 = 1 /\ n ms2 = 2 /\ n ms2 <> n ms1.
Proof.
  eexists; eexists.
  split; [reflexivity|]. split; [reflexivity|].
  cbn. repeat split; lia.
Qed.

(** C7, amended.  [createMask] takes the next bit on every call, also for a
    cursor that is already in the set, and [getMask] keeps answering with
    the bit of the first occurrence; a FROM clause of more than [BMS]
    entries makes [sqlite4WhereBegin] stop with the error "at most 64
    tables in a join" before any cursor is interned. *)
Theorem createMask_appends_and_join_limit
    (ms : WhereMaskSet) (cs : list Z) (c : Z) (cursors : list Z) :
  ms_holds ms cs -> Z.of_nat (length cs) < BMS ->
  Z.of_nat (length cursors) > BMS ->
  (exists ms',
      createMask ms c = Some ms'
      /\ n ms' = n ms + 1
      /\ (c ∈ cs -> getMask ms c <> 0 /\ getMask ms' c = getMask ms c))
  /\ sqlite4WhereBegin_masks cursors = JoinTooWide 64.
Proof.
  intros Hms Hlen Hwide. split.
  - destruct (createMask_holds ms cs c Hms) as (ms' & Hc & Hms').
    { change BMS with 64 in *. lia. }
    exists ms'. split; [exact Hc|]. split.
    + destruct Hms as (Hn & _), Hms' as (Hn' & _).
      rewrite Hn, Hn', length_app. cbn. lia.
    + intros Hin. destruct (first_occurrence cs c Hin) as (j & Hj & Hfirst).
      apply lookup_lt_Some in Hj as Hlt.
      rewrite (getMask_first ms cs j c Hms Hj Hfirst).
      rewrite (getMask_first ms' (cs ++ [c]) j c Hms').
      * split; [|reflexivity].
        rewrite MASKBIT_pow2 by (change BMS with 64 in Hlen; lia).
        pose proof (Z.pow_pos_nonneg 2 (Z.of_nat j)). lia.
      * rewrite lookup_app_l by lia. exact Hj.
      * intros k Hk. rewrite lookup_app_l by lia. apply Hfirst. exact Hk.
  - unfold sqlite4WhereBegin_masks.
    destruct (Z.gtb_spec (Z.of_nat (length cursors)) BMS); [reflexivity|lia].
Qed.

Lemma createMask_appends_and_join_limit_witness :
  (exists ms',
      createMask {| n := 1; ix := 5 :: replicate 63 0 |} 5 = Some ms'
      /\ n ms' = n {| n := 1; ix := 5 :: replicate 63 0 |} + 1
      /\ (5 ∈ [5] ->
          getMask {| n := 1; ix := 5 :: replicate 63 0 |} 5 <> 0
          /\ getMask ms' 5 = getMask {| n := 1; ix := 5 :: replicate 63 0 |} 5))
  /\ sqlite4WhereBegin_masks (replicate 65 7) = JoinTooWide 64.
Proof.
  apply (createMask_appends_and_join_limit
           {| n := 1; ix := 5 :: replicate 63 0 |} [5] 5 (replicate 65 7)).
  - repeat split; try reflexivity.
    intros [|k] d Hk; cbn in Hk; [exact Hk|discriminate].
  - vm_compute. reflexivity.
  - vm_compute. reflexivity.
Defined.

End MaskSetFacts.

(** ** LoopEnumerator: the pool of candidate loops *)

Module LoopPool.

Definition WHERE_INDEXED : Z := 0x200.
Definition WHERE_VIRTUALTABLE : Z := 0x400.
Definition WHERE_AUTO_INDEX : Z := 0x4000.
Definition N_OR_COST : Z := 3.

(** Test [(f & bit)!=0]. *)
Definition has (f bit : Z) : bool := negb (Z.land f bit =? 0).

Inductive RC := SQLITE4_OK | SQLITE4_NOMEM.

(** An [Index*] as far as the pool looks at it: the identity of the object
    pointed to and its root page [tnum]. *)
Record Index := mkIndex { idxAddr : Z; tnum : Z }.

(** The union [WhereLoop.u]. *)
Inductive LoopU :=
  | UBtree (nEq : Z) (pIndex : option Index)
  | UVtab (idxNum : Z) (needFree : Z) (isOrdered : Z) (omitMask : Z)
          (idxStr : option Z).

(** [u.btree.pIndex], read only where the flags say the b-tree arm is the
    live one. *)
Definition btree_pIndex (u : LoopU) : option Index :=
  match u with UBtree _ p => p | UVtab _ _ _ _ _ => None end.

(** Comparison of two [Index*] pointers. *)
Definition pIndex_eqb (p q : option Index) : bool :=
  match p, q with
  | None, None => true
  | Some x, Some y => idxAddr x =? idxAddr y
  | _, _ => false
  end.

(** [struct WhereLoop]; [aLTerm] holds the [nLTerm] terms in use, named by
    their position in the WHERE clause. *)
Record WhereLoop := mkLoop {
  prereq : Z;
  maskSelf : Z;
  iTab : Z;
  iSortIdx : Z;
  rSetup : Z;
  rRun : Z;
  nOut : Z;
  u : LoopU;
  wsFlags : Z;
  nLTerm : Z;
  nLSlot : Z;
  aLTerm : list Z
}.

(** [struct WhereOrCost] and [struct WhereOrSet]. *)
Record WhereOrCost := mkOrCost { oc_prereq : Z; oc_rRun : Z; oc_nOut : Z }.
Record WhereOrSet := mkOrSet { os_n : Z; os_a : list WhereOrCost }.

Definition zeroOrCost : WhereOrCost :=
  {| oc_prereq := 0; oc_rRun := 0; oc_nOut := 0 |}.

(** The store at label [whereOrInsert_done] into slot [i]. *)
Definition orStore (pSet : WhereOrSet) (i : nat) (pr rr no : Z) : WhereOrSet :=
  let p := default zeroOrCost (os_a pSet !! i) in
  {| os_n := os_n pSet;
     os_a := <[i := {| oc_prereq := pr; oc_rRun := rr;
                       oc_nOut := if oc_nOut p >? no then no else oc_nOut p |}]>
             (os_a pSet) |}.

(** First loop of [whereOrInsert]: [Some (inl i)] jumps to the store into
    slot [i], [Some (inr tt)] returns 0, [None] falls through. *)
Fixpoint orScan (a : list WhereOrCost) (i : nat) (cnt : nat) (pr rr : Z)
  : option (nat + unit) :=
  match cnt with
  | O => None
  | S cnt' =>
      let p := default zeroOrCost (a !! i) in
      if (rr <=? oc_rRun p) && (Z.land pr (oc_prereq p) =? pr)
      then Some (inl i)
      else if (oc_rRun p <=? rr) && (Z.land (oc_prereq p) pr =? oc_prereq p)
      then Some (inr tt)
      else orScan a (S i) cnt' pr rr
  end.

(** Second loop of [whereOrInsert]: the slot kept in [p] while [i] runs
    from 1 to [n-1]. *)
Fixpoint orPick (a : list WhereOrCost) (p : nat) (i : nat) (cnt : nat) : nat :=
  match cnt with
  | O => p
  | S cnt' =>
      let cur := default zeroOrCost (a !! p) in
      let ai := default zeroOrCost (a !! i) in
      orPick a (if oc_rRun cur >? oc_rRun ai then i else p) (S i) cnt'
  end.

(** [whereOrInsert]. *)
Definition whereOrInsert (pSet : WhereOrSet) (pr rr no : Z)
  : WhereOrSet * Z :=
  match orScan (os_a pSet) 0 (Z.to_nat (os_n pSet)) pr rr with
  | Some (inl i) => (orStore pSet i pr rr no, 1)
  | Some (inr _) => (pSet, 0)
  | None =>
      if os_n pSet <? N_OR_COST then
        let i := Z.to_nat (os_n pSet) in
        let grown :=
          {| os_n := u16 (os_n pSet + 1);
             os_a := <[i := {| oc_prereq := oc_prereq
                                  (default zeroOrCost (os_a pSet !! i));
                               oc_rRun := oc_rRun
                                  (default zeroOrCost (os_a pSet !! i));
                               oc_nOut := no |}]> (os_a pSet) |} in
        (orStore grown i pr rr no, 1)
      else
        let p := orPick (os_a pSet) 0 1 (Z.to_nat (os_n pSet) - 1) in
        if oc_rRun (default zeroOrCost (os_a pSet !! p)) <=? rr
        then (pSet, 0)
        else (orStore pSet p pr rr no, 1)
  end.

(** [whereLoopInit] applied to freshly allocated memory. *)
Definition whereLoopInit (p : WhereLoop) : WhereLoop :=
  {| prereq := prereq p; maskSelf := maskSelf p; iTab := iTab p;
     iSortIdx := iSortIdx p; rSetup := rSetup p; rRun := rRun p;
     nOut := nOut p; u := u p; wsFlags := 0; nLTerm := 0; nLSlot := 4;
     aLTerm := [] |}.

(** The content of a fresh allocation before [whereLoopInit]; every field
    that matters is overwritten before it is read. *)
Definition rawLoop : WhereLoop :=
  {| prereq := 0; maskSelf := 0; iTab := 0; iSortIdx := 0; rSetup := 0;
     rRun := 0; nOut := 0; u := UBtree 0 None; wsFlags := 0; nLTerm := 0;
     nLSlot := 0; aLTerm := [] |}.

(** [whereLoopResize]: the new slot count as the [u16] field [nLSlot]
    holds it, or [None] when the allocation fails. *)
Definition whereLoopResize (mallocOk : bool) (p : WhereLoop) (n : Z)
  : option Z :=
  if nLSlot p >=? n then Some (nLSlot p)
  else if mallocOk then Some (u16 (Z.land (n + 7) (Z.lnot 7)))
  else None.

(** [whereLoopXfer]: the content of [pFrom] moves into [pTo]; ownership of
    a virtual-table string or of an automatic index moves with it.  Yields
    the new [pTo] and the new [pFrom]. *)
Definition whereLoopXfer (mallocOk : bool) (pTo pFrom : WhereLoop)
  : RC * WhereLoop * WhereLoop :=
  match whereLoopResize mallocOk pTo (nLTerm pFrom) with
  | None => (SQLITE4_NOMEM, pTo, pFrom)
  | Some slots =>
      let pTo' :=
        {| prereq := prereq pFrom; maskSelf := maskSelf pFrom;
           iTab := iTab pFrom; iSortIdx := iSortIdx pFrom;
           rSetup := rSetup pFrom; rRun := rRun pFrom; nOut := nOut pFrom;
           u := u pFrom; wsFlags := wsFlags pFrom; nLTerm := nLTerm pFrom;
           nLSlot := slots;
           aLTerm := take (Z.to_nat (nLTerm pFrom)) (aLTerm pFrom) |} in
      let uFrom :=
        if has (wsFlags pFrom) WHERE_VIRTUALTABLE then
          match u pFrom with
          | UVtab a _ c d e => UVtab a 0 c d e
          | other => other
          end
        else if has (wsFlags pFrom) WHERE_AUTO_INDEX then
          match u pFrom with
          | UBtree k _ => UBtree k None
          | other => other
          end
        else u pFrom in
      let pFrom' :=
        {| prereq := prereq pFrom; maskSelf := maskSelf pFrom;
           iTab := iTab pFrom; iSortIdx := iSortIdx pFrom;
           rSetup := rSetup pFrom; rRun := rRun pFrom; nOut := nOut pFrom;
           u := uFrom; wsFlags := wsFlags pFrom; nLTerm := nLTerm pFrom;
           nLSlot := nLSlot pFrom; aLTerm := aLTerm pFrom |} in
      (SQLITE4_OK, pTo', pFrom')
  end.

(** The closing step of [whereLoopInsert]: an index without a root page
    (an automatic index under construction) is not kept in the pool. *)
Definition dropRootless (p : WhereLoop) : WhereLoop :=
  if has (wsFlags p) WHERE_VIRTUALTABLE then p
  else
    match u p with
    | UBtree k (Some ix) =>
        if tnum ix =? 0 then
          {| prereq := prereq p; maskSelf := maskSelf p; iTab := iTab p;
             iSortIdx := iSortIdx p; rSetup := rSetup p; rRun := rRun p;
             nOut := nOut p; u := UBtree k None; wsFlags := wsFlags p;
             nLTerm := nLTerm p; nLSlot := nLSlot p; aLTerm := aLTerm p |}
        else p
    | _ => p
    end.

(** The tests of the search loop of [whereLoopInsert] on one pool entry
    [p] against the template. *)
Definition sameSlot (p t : WhereLoop) : bool :=
  (iTab p =? iTab t) && (iSortIdx p =? iSortIdx t).

Definition poolBetter (p t : WhereLoop) : bool :=
  (Z.land (prereq p) (prereq t) =? prereq p)
  && (rSetup p <=? rSetup t) && (rRun p <=? rRun t).

Definition longerPrefix (p t : WhereLoop) : bool :=
  (nLTerm p <? nLTerm t)
  && has (wsFlags p) WHERE_INDEXED
  && has (wsFlags t) WHERE_INDEXED
  && pIndex_eqb (btree_pIndex (u p)) (btree_pIndex (u t))
  && (prereq p =? prereq t).

Definition templateBetter (p t : WhereLoop) : bool :=
  (Z.land (prereq p) (prereq t) =? prereq t)
  && (rRun p >=? rRun t) && (rSetup p >=? rSetup t).

(** Where the search loop of [whereLoopInsert] stops. *)
Inductive Search :=
  | Overwrite (i : nat)     (* [break] with [p] at position [i] *)
  | Noop                    (* [goto whereLoopInsert_noop] *)
  | Append.                 (* the loop ran off the list, [p==0] *)

(** The search loop, over the list [pWInfo->pLoops] from position [i]. *)
Fixpoint search (t : WhereLoop) (l : list WhereLoop) (i : nat) : Search :=
  match l with
  | [] => Append
  | p :: rest =>
      if negb (sameSlot p t) then search t rest (S i)
      else if poolBetter p t then
        (if longerPrefix p t then Overwrite i else Noop)
      else if templateBetter p t then Overwrite i
      else search t rest (S i)
  end.

(** The parts of [WhereLoopBuilder] and [WhereInfo] that [whereLoopInsert]
    reads and writes. *)
Record Builder := mkBuilder {
  pLoops : list WhereLoop;
  pOrSet : option WhereOrSet
}.

(** [whereLoopInsert].  [mallocOk] says whether allocations succeed.
    Yields the return code, the builder and the template afterwards. *)
Definition whereLoopInsert (mallocOk : bool) (b : Builder) (t : WhereLoop)
  : RC * Builder * WhereLoop :=
  match pOrSet b with
  | Some os =>
      let '(os', _) := whereOrInsert os (prereq t) (rRun t) (nOut t) in
      (SQLITE4_OK, {| pLoops := pLoops b; pOrSet := Some os' |}, t)
  | None =>
      match search t (pLoops b) 0 with
      | Noop => (SQLITE4_OK, b, t)
      | Overwrite i =>
          let p := default rawLoop (pLoops b !! i) in
          let '(_, p', t') := whereLoopXfer mallocOk p t in
          (SQLITE4_OK,
           {| pLoops := <[i := dropRootless p']> (pLoops b); pOrSet := None |},
           t')
      | Append =>
          if mallocOk then
            let '(_, p', t') := whereLoopXfer mallocOk
                                  (whereLoopInit rawLoop) t in
            (SQLITE4_OK,
             {| pLoops := pLoops b ++ [dropRootless p']; pOrSet := None |},
             t')
          else (SQLITE4_NOMEM, b, t)
      end
  end.

End LoopPool.

(** ** Properties of the candidate pool *)

Section LoopPoolFacts.
Import LoopPool.

(** [E] is no worse than [C] on the three axes, for the same FROM entry and
    the same sort index. *)
Definition weaklyDominates (E C : WhereLoop) : Prop :=
  iTab E = iTab C /\ iSortIdx E = iSortIdx C
  /\ Z.land (prereq E) (prereq C) = prereq E
  /\ rSetup E <= rSetup C /\ rRun E <= rRun C.

Definition comparable (E C : WhereLoop) : Prop :=
  weaklyDominates E C \/ weaklyDominates C E.

(** [E] uses fewer terms of the index that [C] uses, with the same
    prerequisites. *)
Definition shorterPrefixOf (E C : WhereLoop) : Prop :=
  nLTerm E < nLTerm C
  /\ has (wsFlags E) WHERE_INDEXED = true
  /\ has (wsFlags C) WHERE_INDEXED = true
  /\ pIndex_eqb (btree_pIndex (u E)) (btree_pIndex (u C)) = true
  /\ prereq E = prereq C.

(** What the pool holds after the template [t] went into the entry [p]. *)
Definition stored (p t : WhereLoop) : WhereLoop :=
  dropRootless (snd (fst (whereLoopXfer true p t))).

Definition poolAfter (l : list WhereLoop) (t : WhereLoop) : list WhereLoop :=
  pLoops (snd (fst (whereLoopInsert true {| pLoops := l; pOrSet := None |} t))).

Lemma poolBetter_spec (p t : WhereLoop) :
  sameSlot p t && poolBetter p t = true <-> weaklyDominates p t.
Proof.
  unfold sameSlot, poolBetter, weaklyDominates.
  rewrite !andb_true_iff, !Z.eqb_eq, !Z.leb_le. tauto.
Qed.

Lemma templateBetter_spec (p t : WhereLoop) :
  sameSlot p t && templateBetter p t = true <-> weaklyDominates t p.
Proof.
  unfold sameSlot, templateBetter, weaklyDominates.
  rewrite !andb_true_iff, !Z.eqb_eq, !Z.geb_le, (Z.land_comm (prereq t)).
  split; intros H; decompose [and] H; repeat split; congruence || lia.
Qed.

Lemma longerPrefix_spec (p t : WhereLoop) :
  longerPrefix p t = true <-> shorterPrefixOf p t.
Proof.
  unfold longerPrefix, shorterPrefixOf.
  rewrite !andb_true_iff, Z.eqb_eq, Z.ltb_lt. tauto.
Qed.

Lemma search_skip (t : WhereLoop) (l1 rest : list WhereLoop) (i : nat) :
  Forall (fun p => ~ comparable p t) l1 ->
  search t (l1 ++ rest) i = search t rest (i + length l1).
Proof.
  intros H. revert i. induction H as [|p l1 Hp _ IH]; intros i.
  - cbn. f_equal. lia.
  - cbn [app search length].
    replace (i + S (length l1))%nat with (S i + length l1)%nat by lia.
    destruct (sameSlot p t) eqn:Hs; cbn [negb]; [|apply IH].
    destruct (poolBetter p t) eqn:Hb.
    { exfalso. apply Hp. left. apply poolBetter_spec. now rewrite Hs, Hb. }
    destruct (templateBetter p t) eqn:Ht; [|apply IH].
    exfalso. apply Hp. right. apply templateBetter_spec. now rewrite Hs, Ht.
Qed.

Lemma search_append (t : WhereLoop) (l : list WhereLoop) :
  Forall (fun p => ~ comparable p t) l -> search t l 0 = Append.
Proof.
  intros H. rewrite <- (app_nil_r l), (search_skip t l [] 0 H). reflexivity.
Qed.

Lemma search_at (t E : WhereLoop) (l1 l2 : list WhereLoop) :
  Forall (fun p => ~ comparable p t) l1 ->
  search t (l1 ++ E :: l2) 0 = search t (E :: l2) (length l1).
Proof. intros H. now rewrite (search_skip t l1 (E :: l2) 0 H). Qed.

Lemma poolAfter_overwrite (t E : WhereLoop) (l1 l2 : list WhereLoop) :
  search t (l1 ++ E :: l2) 0 = Overwrite (length l1) ->
  poolAfter (l1 ++ E :: l2) t = l1 ++ stored E t :: l2.
Proof.
  intros Hs. unfold poolAfter, whereLoopInsert. cbn [pOrSet pLoops].
  rewrite Hs, list_lookup_middle by reflexivity.
  change (default rawLoop (Some E)) with E. unfold stored.
  destruct (whereLoopXfer true E t) as [[rc p'] t'].
  cbv beta iota. cbn [fst snd pLoops].
  rewrite insert_app_r_alt, Nat.sub_diag by lia. reflexivity.
Qed.

(** The loop that enters the pool carries the plan of the template. *)
Lemma stored_plan (p t : WhereLoop) :
  let s := stored p t in
  prereq s = prereq t /\ maskSelf s = maskSelf t /\ iTab s = iTab t
  /\ iSortIdx s = iSortIdx t /\ rSetup s = rSetup t /\ rRun s = rRun t
  /\ nOut s = nOut t /\ wsFlags s = wsFlags t /\ nLTerm s = nLTerm t.
Proof.
  unfold stored, whereLoopXfer, whereLoopResize.
  destruct (nLSlot p >=? nLTerm t); cbn [fst snd];
    unfold dropRootless; cbn [wsFlags u];
    destruct (has (wsFlags t) WHERE_VIRTUALTABLE);
    try (repeat split; reflexivity);
    destruct (u t) as [k [ix|]|]; try (repeat split; reflexivity);
    destruct (tnum ix =? 0); repeat split; reflexivity.
Qed.

(** C1, amended.  The pool is searched front to back and the first loop
    [E] that is comparable with the template [C] (same FROM entry and sort
    index, and one weakly dominating the other in prerequisites, setup
    cost and run cost) decides: when [E] weakly dominates [C] the template
    is dropped, unless [E] is a shorter prefix of the same index with the
    same prerequisites, in which case [C] overwrites [E]; when only [C]
    weakly dominates [E], [C] overwrites [E].  The loops behind [E] stay as
    they are.  Without a comparable loop [C] is appended. *)
Theorem whereLoopInsert_first_comparable
    (l1 l2 : list WhereLoop) (E C : WhereLoop) :
  Forall (fun p => ~ comparable p C) l1 ->
  poolAfter l1 C = l1 ++ [stored (whereLoopInit rawLoop) C]
  /\ (weaklyDominates E C -> ~ shorterPrefixOf E C ->
      poolAfter (l1 ++ E :: l2) C = l1 ++ E :: l2)
  /\ (weaklyDominates E C -> shorterPrefixOf E C ->
      poolAfter (l1 ++ E :: l2) C = l1 ++ stored E C :: l2)
  /\ (~ weaklyDominates E C -> weaklyDominates C E ->
      poolAfter (l1 ++ E :: l2) C = l1 ++ stored E C :: l2).
Proof.
  intros Hl1. split; [|split; [|split]].
  - unfold poolAfter, whereLoopInsert. cbn [pOrSet pLoops].
    rewrite (search_append C l1 Hl1). unfold stored.
    destruct (whereLoopXfer true (whereLoopInit rawLoop) C) as [[rc p'] t'].
    reflexivity.
  - intros Hd Hn. apply poolBetter_spec in Hd.
    apply andb_true_iff in Hd as [Hs Hb].
    unfold poolAfter, whereLoopInsert. cbn [pOrSet pLoops].
    rewrite (search_at C E l1 l2 Hl1). cbn [search]. rewrite Hs, Hb.
    cbn [negb]. destruct (longerPrefix E C) eqn:Hlp.
    + exfalso. apply Hn. now apply longerPrefix_spec.
    + reflexivity.
  - intros Hd Hp. apply poolBetter_spec in Hd.
    apply andb_true_iff in Hd as [Hs Hb]. apply longerPrefix_spec in Hp.
    apply poolAfter_overwrite.
    rewrite (search_at C E l1 l2 Hl1). cbn [search].
    now rewrite Hs, Hb, Hp.
  - intros Hn Hd. apply templateBetter_spec in Hd.
    apply andb_true_iff in Hd as [Hs Ht].
    apply poolAfter_overwrite.
    rewrite (search_at C E l1 l2 Hl1). cbn [search]. rewrite Hs. cbn [negb].
    destruct (poolBetter E C) eqn:Hb.
    + exfalso. apply Hn. apply poolBetter_spec. now rewrite Hs, Hb.
    + now rewrite Ht.
Qed.

(** A loop with the given prerequisites and run cost for FROM entry 0. *)
Definition plainLoop (pr rr : Z) : WhereLoop :=
  {| prereq := pr; maskSelf := 1; iTab := 0; iSortIdx := 0; rSetup := 0;
     rRun := rr; nOut := 0; u := UBtree 0 None; wsFlags := 0; nLTerm := 0;
     nLSlot := 4; aLTerm := [] |}.

Lemma whereLoopInsert_first_comparable_witness :
  poolAfter [] (plainLoop 0 5)
    = [] ++ [stored (whereLoopInit rawLoop) (plainLoop 0 5)]
  /\ (weaklyDominates (plainLoop 2 10) (plainLoop 0 5) ->
      ~ shorterPrefixOf (plainLoop 2 10) (plainLoop 0 5) ->
      poolAfter ([] ++ plainLoop 2 10 :: [plainLoop 0 20]) (plainLoop 0 5)
        = [] ++ plainLoop 2 10 :: [plainLoop 0 20])
  /\ (weaklyDominates (plainLoop 2 10) (plainLoop 0 5) ->
      shorterPrefixOf (plainLoop 2 10) (plainLoop 0 5) ->
      poolAfter ([] ++ plainLoop 2 10 :: [plainLoop 0 20]) (plainLoop 0 5)
        = [] ++ stored (plainLoop 2 10) (plainLoop 0 5) :: [plainLoop 0 20])
  /\ (~ weaklyDominates (plainLoop 2 10) (plainLoop 0 5) ->
      weaklyDominates (plainLoop 0 5) (plainLoop 2 10) ->
      poolAfter ([] ++ plainLoop 2 10 :: [plainLoop 0 20]) (plainLoop 0 5)
        = [] ++ stored (plainLoop 2 10) (plainLoop 0 5) :: [plainLoop 0 20]).
Proof.
  apply (whereLoopInsert_first_comparable
           [] [plainLoop 0 20] (plainLoop 2 10) (plainLoop 0 5)).
  constructor.
Defined.

(** C1, as stated, fails: after the loops [A] (prerequisite bit 1, run
    cost 10) and [B] (no prerequisite, run cost 20) went into an empty
    pool, inserting [C] (no prerequisite, run cost 5), which weakly
    dominates both, overwrites [A] only; [B] stays in the pool. *)
Lemma whereLoopInsert_keeps_dominated_loop :
  let A := plainLoop 2 10 in
  let B := plainLoop 0 20 in
  let C := plainLoop 0 5 in
  poolAfter [] A = [A]
  /\ poolAfter [A] B = [A; B]
  /\ poolAfter [A; B] C = [C; B]
  /\ weaklyDominates C A /\ weaklyDominates C B
  /\ B ∈ poolAfter [A; B] C.
Proof.
  cbv zeta. split; [reflexivity|]. split; [reflexivity|].
  split; [reflexivity|].
  split; [|split].
  - repeat split; cbn; lia.
  - repeat split; cbn; lia.
  - change (poolAfter [plainLoop 2 10; plainLoop 0 20] (plainLoop 0 5))
      with [plainLoop 0 5; plainLoop 0 20].
    apply list_elem_of_In. right. left. reflexivity.
Qed.

End LoopPoolFacts.

(** ** Solver: the N-best merge of [wherePathSolver] *)

Module Solver.
Import Cost LoopPool.

(** [struct WherePath]. *)
Record WherePath := mkPath {
  maskLoop : Z;
  revLoop : Z;
  nRow : Z;
  rCost : Z;
  isOrdered : Z;
  isOrderedValid : Z;
  aLoop : list WhereLoop
}.

(** [mxChoice], from the number of FROM entries to plan. *)
Definition mxChoiceOf (nLoop : Z) : Z :=
  if nLoop =? 1 then 1 else if nLoop =? 2 then 5 else 10.

(** The target generation: [aTo] lists the [nTo] valid entries of the
    array [aTo[]] (slots from [nTo] on are never read), [mxCost] is the
    variable of that name. *)
Record Gen := mkGen { aTo : list WherePath; mxCost : Z }.

Definition nTo (g : Gen) : Z := Z.of_nat (length (aTo g)).

(** The loop that looks for a path with the same [maskLoop] and the same
    [isOrderedValid]; [Some jj] on [break], [None] when [jj] reaches
    [nTo]. *)
Fixpoint findSame (a : list WherePath) (maskNew valid : Z) (jj : nat)
  : option nat :=
  match a with
  | [] => None
  | pTo :: rest =>
      if (maskLoop pTo =? maskNew) && (isOrderedValid pTo =? valid)
      then Some jj
      else findSame rest maskNew valid (S jj)
  end.

(** [for(jj=nTo-1; aTo[jj].rCost<mxCost; jj--)]: walking down from [jj];
    [None] when the walk leaves the array. *)
Fixpoint findWorst (a : list WherePath) (mx : Z) (jj : nat) : option nat :=
  match a !! jj with
  | None => None
  | Some pTo =>
      if rCost pTo <? mx then
        match jj with
        | O => None
        | S jj' => findWorst a mx jj'
        end
      else Some jj
  end.

(** The recomputation of [mxCost] over [aTo[0..mxChoice-1]]. *)
Definition maxCost (mxChoice : Z) (a : list WherePath) : Z :=
  match take (Z.to_nat mxChoice) a with
  | [] => 0
  | p :: rest =>
      fold_left (fun m q => if rCost q >? m then rCost q else m) rest (rCost p)
  end.

(** The tail of the loop body: [pTo] is written at [jj] and [mxCost] is
    refreshed once the array is full. *)
Definition writeAt (mxChoice : Z) (g : Gen) (jj : nat) (T : WherePath) : Gen :=
  let a := if (jj =? length (aTo g))%nat then aTo g ++ [T]
           else <[jj := T]> (aTo g) in
  {| aTo := a;
     mxCost := if Z.of_nat (length a) >=? mxChoice then maxCost mxChoice a
               else mxCost g |}.

(** The merge of one new path [T] into the target generation, from the
    comment "Check to see if pWLoop should be added to the mxChoice best
    so far" to the end of the loop body. *)
Definition merge (mxChoice : Z) (g : Gen) (T : WherePath) : option Gen :=
  match findSame (aTo g) (maskLoop T) (isOrderedValid T) 0 with
  | None =>
      if (nTo g >=? mxChoice) && (rCost T >=? mxCost g) then Some g
      else if nTo g <? mxChoice then
        Some (writeAt mxChoice g (length (aTo g)) T)
      else
        match findWorst (aTo g) (mxCost g) (length (aTo g) - 1) with
        | Some jj => Some (writeAt mxChoice g jj T)
        | None => None
        end
  | Some jj =>
      if rCost (default T (aTo g !! jj)) <=? rCost T then Some g
      else Some (writeAt mxChoice g jj T)
  end.

Section Generation.

(** [wherePathSatisfiesOrderBy] for the path [pFrom] extended at level
    [iLoop] by a loop: its result (1, 0 or something else) and the
    [revMask] it leaves behind. *)
Variable wherePathSatisfiesOrderBy : WherePath -> Z -> WhereLoop -> Z * Z.

(** The path [pFrom] extended by [pWLoop], or [None] when the loop is not
    a candidate for the next level. *)
Definition extend (iLoop rSortCost : Z) (pFrom : WherePath)
    (pWLoop : WhereLoop) : option WherePath :=
  if negb (Z.land (prereq pWLoop) (bnot (maskLoop pFrom)) =? 0) then None
  else if negb (Z.land (maskSelf pWLoop) (maskLoop pFrom) =? 0) then None
  else
    let c := whereCostAdd (rSetup pWLoop) (u16 (rRun pWLoop + nRow pFrom)) in
    let c := whereCostAdd c (rCost pFrom) in
    let maskNew := Z.lor (maskLoop pFrom) (maskSelf pWLoop) in
    let '(valid, ordered, c, rev) :=
      if isOrderedValid pFrom =? 0 then
        let '(r, rev) := wherePathSatisfiesOrderBy pFrom iLoop pWLoop in
        if r =? 1 then (1, 1, c, rev)
        else if r =? 0 then (1, 0, whereCostAdd c rSortCost, rev)
        else (isOrderedValid pFrom, isOrdered pFrom, c, rev)
      else (isOrderedValid pFrom, isOrdered pFrom, c, revLoop pFrom) in
    Some {| maskLoop := maskNew;
            revLoop := rev;
            nRow := u16 (nRow pFrom + nOut pWLoop);
            rCost := c;
            isOrdered := ordered;
            isOrderedValid := valid;
            aLoop := take (Z.to_nat iLoop) (aLoop pFrom) ++ [pWLoop] |}.

(** One pass of the body of the innermost [for] of the generation loop. *)
Definition tryLoop (mxChoice iLoop rSortCost : Z) (pFrom : WherePath)
    (g : option Gen) (pWLoop : WhereLoop) : option Gen :=
  match g with
  | None => None
  | Some g =>
      match extend iLoop rSortCost pFrom pWLoop with
      | None => Some g
      | Some T => merge mxChoice g T
      end
  end.

(** One generation: every path of [aFrom] against every loop of the pool,
    starting from [nTo = 0] with [mxCost] as the previous generation left
    it. *)
Definition generation (mxChoice iLoop rSortCost : Z)
    (pool : list WhereLoop) (aFrom : list WherePath) (mx : Z) : option Gen :=
  fold_left
    (fun g pFrom => fold_left (tryLoop mxChoice iLoop rSortCost pFrom) pool g)
    aFrom (Some {| aTo := []; mxCost := mx |}).

End Generation.

(** The tri-state ORDER BY status that a path's two flags encode. *)
Inductive ObStatus := Satisfied | NotSatisfied | Unknown.

Definition obStatus (p : WherePath) : ObStatus :=
  if isOrderedValid p =? 0 then Unknown
  else if isOrdered p =? 0 then NotSatisfied else Satisfied.

End Solver.

(** ** Properties of the N-best merge *)

Section SolverFacts.
Import LoopPool Solver.

(** The bookkeeping invariant of a generation: at most [M] paths, and once
    the array is full [mxCost] is the largest retained cost. *)
Definition GenInv (M : Z) (g : Gen) : Prop :=
  nTo g <= M /\ (nTo g = M -> mxCost g = maxCost M (aTo g)).

(** The key under which [merge] looks for an earlier path. *)
Definition sameKey (q T : WherePath) : Prop :=
  maskLoop q = maskLoop T /\ isOrderedValid q = isOrderedValid T.

Lemma sameKey_test (q T : WherePath) :
  (maskLoop q =? maskLoop T) && (isOrderedValid q =? isOrderedValid T) = true
  <-> sameKey q T.
Proof. unfold sameKey. rewrite andb_true_iff, !Z.eqb_eq. tauto. Qed.

Lemma findSame_first (a : list WherePath) (T T' : WherePath) (j i : nat) :
  a !! j = Some T' -> sameKey T' T ->
  (forall (k : nat) (q : WherePath),
      (k < j)%nat -> a !! k = Some q -> ~ sameKey q T) ->
  findSame a (maskLoop T) (isOrderedValid T) i = Some (i + j)%nat.
Proof.
  revert j i. induction a as [|p a IH]; intros j i Hj Hk Hfirst.
  - rewrite lookup_nil in Hj. discriminate.
  - cbn [findSame]. destruct j as [|j].
    + cbn in Hj. injection Hj as ->.
      apply sameKey_test in Hk. rewrite Hk. f_equal. lia.
    + destruct ((maskLoop p =? maskLoop T)
                && (isOrderedValid p =? isOrderedValid T)) eqn:Hp.
      * exfalso. apply (Hfirst 0%nat p); [lia|reflexivity|].
        now apply sameKey_test.
      * rewrite (IH j (S i)); [f_equal; lia|exact Hj|exact Hk|].
        intros k q Hlt Hq. apply (Hfirst (S k) q); [lia|exact Hq].
Qed.

Lemma findSame_none (a : list WherePath) (T : WherePath) (i : nat) :
  Forall (fun q => ~ sameKey q T) a ->
  findSame a (maskLoop T) (isOrderedValid T) i = None.
Proof.
  intros H. revert i. induction H as [|p a Hp _ IH]; intros i; [reflexivity|].
  cbn [findSame].
  destruct ((maskLoop p =? maskLoop T)
            && (isOrderedValid p =? isOrderedValid T)) eqn:Hk.
  - exfalso. apply Hp. now apply sameKey_test.
  - apply IH.
Qed.

Lemma findSame_range (a : list WherePath) (m v : Z) (i r : nat) :
  findSame a m v i = Some r -> (i <= r < i + length a)%nat.
Proof.
  revert i. induction a as [|p a IH]; intros i; cbn [findSame length];
    [discriminate|].
  destruct ((maskLoop p =? m) && (isOrderedValid p =? v)).
  - intros [= <-]. lia.
  - intros Hr. apply IH in Hr. lia.
Qed.

Lemma findWorst_found (a : list WherePath) (mx : Z) (jj : nat) :
  (jj < length a)%nat ->
  (exists (j : nat) (p : WherePath),
      (j <= jj)%nat /\ a !! j = Some p /\ mx <= rCost p) ->
  exists (w : nat) (W : WherePath),
    findWorst a mx jj = Some w /\ (w <= jj)%nat
    /\ a !! w = Some W /\ mx <= rCost W.
Proof.
  induction jj as [|jj IH]; intros Hlt (j & p & Hj & Hp & Hc).
  - assert (j = 0%nat) as -> by lia. cbn [findWorst]. rewrite Hp.
    destruct (Z.ltb_spec (rCost p) mx); [lia|].
    exists 0%nat, p. auto.
  - cbn [findWorst].
    destruct (lookup_lt_is_Some_2 a (S jj) Hlt) as [q Hq]. rewrite Hq.
    destruct (Z.ltb_spec (rCost q) mx) as [Hlow|Hhigh].
    + destruct (IH ltac:(lia)) as (w & W & Hw & Hle & HW & Hc').
      { exists j, p. split; [|auto].
        destruct (decide (j = S jj)) as [->|]; [|lia].
        rewrite Hq in Hp. injection Hp as ->. lia. }
      exists w, W. repeat split; auto.
    + exists (S jj), q. auto.
Qed.

Definition pick (m : Z) (q : WherePath) : Z :=
  if rCost q >? m then rCost q else m.

Lemma fold_pick_bounds (rest : list WherePath) (m0 : Z) :
  m0 <= fold_left pick rest m0
  /\ Forall (fun q => rCost q <= fold_left pick rest m0) rest
  /\ (fold_left pick rest m0 = m0
      \/ exists q, q ∈ rest /\ rCost q = fold_left pick rest m0).
Proof.
  revert m0. induction rest as [|q rest IH]; intros m0.
  - cbn. repeat split; [lia|constructor|now left].
  - cbn [fold_left]. destruct (IH (pick m0 q)) as (H1 & H2 & H3).
    assert (Hq : m0 <= pick m0 q /\ rCost q <= pick m0 q)
      by (unfold pick; destruct (Z.gtb_spec (rCost q) m0); lia).
    repeat split.
    + lia.
    + constructor; [lia|exact H2].
    + destruct H3 as [H3|(r & Hr & Hc)].
      * assert (Hp : pick m0 q = rCost q \/ pick m0 q = m0)
          by (unfold pick; destruct (rCost q >? m0); auto).
        destruct Hp as [Hp|Hp].
        -- right. exists q. split; [left|congruence].
        -- left. congruence.
      * right. exists r. split; [now right|exact Hc].
Qed.

Lemma maxCost_full (M : Z) (a : list WherePath) :
  a <> [] -> Z.of_nat (length a) <= M ->
  Forall (fun q => rCost q <= maxCost M a) a
  /\ exists q, q ∈ a /\ rCost q = maxCost M a.
Proof.
  intros Hne Hlen. unfold maxCost. rewrite take_ge by lia.
  destruct a as [|p rest]; [congruence|].
  change (fun m q => if rCost q >? m then rCost q else m) with pick.
  destruct (fold_pick_bounds rest (rCost p)) as (H1 & H2 & H3). split.
  - constructor; [exact H1|exact H2].
  - destruct H3 as [H3|(q & Hq & Hc)].
    + exists p. split; [left|now symmetry].
    + exists q. split; [now right|exact Hc].
Qed.

Lemma writeAt_inv (M : Z) (g : Gen) (jj : nat) (T : WherePath) :
  (if (jj =? length (aTo g))%nat then nTo g < M else nTo g <= M) ->
  GenInv M (writeAt M g jj T).
Proof.
  intros H. unfold GenInv, writeAt, nTo in *. cbn [aTo mxCost].
  set (a := if (jj =? length (aTo g))%nat then aTo g ++ [T]
            else <[jj:=T]> (aTo g)).
  assert (Hlen : Z.of_nat (length a) <= M).
  { subst a. destruct (jj =? length (aTo g))%nat.
    - rewrite length_app. cbn. lia.
    - rewrite length_insert. lia. }
  split; [exact Hlen|]. intros Heq.
  destruct (Z.geb_spec (Z.of_nat (length a)) M); [reflexivity|lia].
Qed.

Lemma merge_inv (M : Z) (g : Gen) (T : WherePath) :
  1 <= M -> GenInv M g -> exists g', merge M g T = Some g' /\ GenInv M g'.
Proof.
  intros HM [Hn Hmx]. unfold merge.
  destruct (findSame (aTo g) (maskLoop T) (isOrderedValid T) 0) as [jj|] eqn:Hf.
  - destruct (rCost (default T (aTo g !! jj)) <=? rCost T).
    + exists g. split; [reflexivity|split; assumption].
    + eexists. split; [reflexivity|]. apply writeAt_inv.
      apply findSame_range in Hf.
      destruct (Nat.eqb_spec jj (length (aTo g))); [lia|exact Hn].
  - destruct (Z.geb_spec (nTo g) M) as [Hfull|Hroom]; cbn [andb].
    + destruct (Z.geb_spec (rCost T) (mxCost g)) as [Hhi|Hlo].
      * exists g. split; [reflexivity|split; assumption].
      * destruct (Z.ltb_spec (nTo g) M) as [?|_]; [lia|].
        assert (Hlen : nTo g = M) by lia.
        assert (Hne : aTo g <> []).
        { intros E. unfold nTo in Hlen. rewrite E in Hlen. cbn in Hlen. lia. }
        destruct (maxCost_full M (aTo g) Hne Hn) as (_ & q & Hq & Hc).
        apply list_elem_of_lookup in Hq as [j Hj].
        apply lookup_lt_Some in Hj as Hjlt.
        destruct (findWorst_found (aTo g) (mxCost g) (length (aTo g) - 1))
          as (w & W & -> & Hw & HW & _).
        { lia. }
        { exists j, q. rewrite (Hmx Hlen). repeat split; [lia|exact Hj|lia]. }
        eexists. split; [reflexivity|]. apply writeAt_inv.
        apply lookup_lt_Some in HW.
        destruct (Nat.eqb_spec w (length (aTo g))); [lia|exact Hn].
    + destruct (Z.ltb_spec (nTo g) M) as [Hlt|?]; [|lia].
      eexists. split; [reflexivity|]. apply writeAt_inv.
      rewrite Nat.eqb_refl. exact Hlt.
Qed.

Lemma mxChoiceOf_pos (nLoop : Z) : 1 <= mxChoiceOf nLoop.
Proof.
  unfold mxChoiceOf. destruct (nLoop =? 1); [lia|].
  destruct (nLoop =? 2); lia.
Qed.

Section GenerationFacts.
Variable sat : WherePath -> Z -> WhereLoop -> Z * Z.
Variables M iLoop rSortCost : Z.
Hypothesis HM : 1 <= M.

Definition GoodGen (og : option Gen) : Prop :=
  exists g, og = Some g /\ GenInv M g.

Lemma tryLoop_inv (pFrom : WherePath) (og : option Gen) (w : WhereLoop) :
  GoodGen og -> GoodGen (tryLoop sat M iLoop rSortCost pFrom og w).
Proof.
  intros (g & -> & Hg). unfold tryLoop.
  destruct (extend sat iLoop rSortCost pFrom w) as [T|].
  - apply merge_inv; assumption.
  - exists g. auto.
Qed.

Lemma pool_inv (pFrom : WherePath) (pool : list WhereLoop) (og : option Gen) :
  GoodGen og ->
  GoodGen (fold_left (tryLoop sat M iLoop rSortCost pFrom) pool og).
Proof.
  revert og. induction pool as [|w pool IH]; intros og Hg; [exact Hg|].
  cbn [fold_left]. apply IH, tryLoop_inv, Hg.
Qed.

Lemma generation_inv (pool : list WhereLoop) (aFrom : list WherePath) (mx : Z) :
  GoodGen (generation sat M iLoop rSortCost pool aFrom mx).
Proof.
  unfold generation.
  assert (H0 : GoodGen (Some {| aTo := []; mxCost := mx |})).
  { eexists. split; [reflexivity|]. split; unfold nTo; cbn; lia. }
  revert H0. generalize (Some {| aTo := []; mxCost := mx |}) as og.
  induction aFrom as [|pFrom aFrom IH]; intros og Hg; [exact Hg|].
  cbn [fold_left]. apply IH, pool_inv, Hg.
Qed.

End GenerationFacts.

(** C4, amended.  A generation retains at most [M] paths, with [M] = 1 for
    one table, 5 for two and 10 for three or more.  A new path [T] is
    matched against the first retained path [T'] with the same [maskLoop]
    and the same [isOrderedValid] flag (ORDER BY decided or still unknown;
    a path satisfying ORDER BY and one that needs a sort share a key): [T]
    takes the place of [T'] iff its cost is smaller.  Without such a path
    [T] is appended while capacity remains; with the array full it takes
    the place of a path of the largest retained cost iff its own cost is
    below that maximum. *)
Theorem solver_merge_policy
    (sat : WherePath -> Z -> WhereLoop -> Z * Z)
    (nLoop iLoop rSortCost mx : Z)
    (pool : list WhereLoop) (aFrom : list WherePath)
    (g : Gen) (T : WherePath) :
  GenInv (mxChoiceOf nLoop) g ->
  ((nLoop = 1 -> mxChoiceOf nLoop = 1)
   /\ (nLoop = 2 -> mxChoiceOf nLoop = 5)
   /\ (3 <= nLoop -> mxChoiceOf nLoop = 10))
  /\ (exists gEnd,
        generation sat (mxChoiceOf nLoop) iLoop rSortCost pool aFrom mx
          = Some gEnd
        /\ nTo gEnd <= mxChoiceOf nLoop)
  /\ exists g',
       merge (mxChoiceOf nLoop) g T = Some g'
       /\ nTo g' <= mxChoiceOf nLoop
       /\ (forall (jj : nat) (T' : WherePath),
             aTo g !! jj = Some T' -> sameKey T' T ->
             (forall (k : nat) (q : WherePath),
                 (k < jj)%nat -> aTo g !! k = Some q -> ~ sameKey q T) ->
             aTo g' = if rCost T <? rCost T' then <[jj := T]> (aTo g)
                      else aTo g)
       /\ (Forall (fun q => ~ sameKey q T) (aTo g) ->
           (nTo g < mxChoiceOf nLoop -> aTo g' = aTo g ++ [T])
           /\ (nTo g = mxChoiceOf nLoop ->
               rCost T < maxCost (mxChoiceOf nLoop) (aTo g) ->
               exists (w : nat) (W : WherePath),
                 aTo g !! w = Some W
                 /\ rCost W = maxCost (mxChoiceOf nLoop) (aTo g)
                 /\ aTo g' = <[w := T]> (aTo g))
           /\ (nTo g = mxChoiceOf nLoop ->
               maxCost (mxChoiceOf nLoop) (aTo g) <= rCost T ->
               aTo g' = aTo g)).
Proof.
  intros Hinv. pose proof (mxChoiceOf_pos nLoop) as HM.
  split; [|split].
  - unfold mxChoiceOf. repeat split; intros H.
    + subst. reflexivity.
    + subst. reflexivity.
    + destruct (Z.eqb_spec nLoop 1); [lia|].
      destruct (Z.eqb_spec nLoop 2); [lia|reflexivity].
  - destruct (generation_inv sat (mxChoiceOf nLoop) iLoop rSortCost HM
                pool aFrom mx) as (gEnd & -> & Hn & _).
    exists gEnd. auto.
  - set (M := mxChoiceOf nLoop) in *.
    destruct (merge_inv M g T HM Hinv) as (g' & Hm & Hn' & _).
    destruct Hinv as [Hn Hmx].
    exists g'. split; [exact Hm|]. split; [exact Hn'|]. split.
    + intros jj T' Hjj Hk Hfirst. unfold merge in Hm.
      rewrite (findSame_first (aTo g) T T' jj 0 Hjj Hk Hfirst) in Hm.
      cbn [Nat.add] in Hm. rewrite Hjj in Hm. cbn [default] in Hm.
      change (id T') with T' in Hm.
      apply lookup_lt_Some in Hjj.
      destruct (Z.leb_spec (rCost T') (rCost T)) as [Hle|Hlt];
        injection Hm as <-.
      * destruct (Z.ltb_spec (rCost T) (rCost T')); [lia|reflexivity].
      * destruct (Z.ltb_spec (rCost T) (rCost T')); [|lia].
        unfold writeAt. cbn [aTo].
        destruct (Nat.eqb_spec jj (length (aTo g))); [lia|reflexivity].
    + intros Hnone. unfold merge in Hm.
      rewrite (findSame_none (aTo g) T 0 Hnone) in Hm.
      split; [|split].
      * intros Hroom.
        destruct (Z.geb_spec (nTo g) M) as [?|_]; [lia|]. cbn [andb] in Hm.
        destruct (Z.ltb_spec (nTo g) M) as [_|?]; [|lia].
        injection Hm as <-. unfold writeAt. cbn [aTo].
        now rewrite Nat.eqb_refl.
      * intros Hfull Hlow.
        destruct (Z.geb_spec (nTo g) M) as [_|?]; [|lia]. cbn [andb] in Hm.
        rewrite (Hmx Hfull) in Hm.
        destruct (Z.geb_spec (rCost T) (maxCost M (aTo g))) as [?|_]; [lia|].
        destruct (Z.ltb_spec (nTo g) M) as [?|_]; [lia|].
        assert (Hne : aTo g <> []).
        { intros E. unfold nTo in Hfull. rewrite E in Hfull. cbn in Hfull.
          lia. }
        destruct (maxCost_full M (aTo g) Hne Hn) as (Hall & q & Hq & Hc).
        apply list_elem_of_lookup in Hq as [j Hj].
        apply lookup_lt_Some in Hj as Hjlt.
        destruct (findWorst_found (aTo g) (maxCost M (aTo g))
                    (length (aTo g) - 1))
          as (w & W & Hw & Hwle & HW & HWc).
        { lia. }
        { exists j, q. repeat split; [lia|exact Hj|lia]. }
        rewrite Hw in Hm. injection Hm as <-.
        exists w, W. split; [exact HW|]. split.
        -- rewrite Forall_forall in Hall.
           assert (rCost W <= maxCost M (aTo g)).
           { apply Hall. apply list_elem_of_lookup. eauto. }
           lia.
        -- unfold writeAt. cbn [aTo]. apply lookup_lt_Some in HW.
           destruct (Nat.eqb_spec w (length (aTo g))); [lia|reflexivity].
      * intros Hfull Hhigh.
        destruct (Z.geb_spec (nTo g) M) as [_|?]; [|lia]. cbn [andb] in Hm.
        rewrite (Hmx Hfull) in Hm.
        destruct (Z.geb_spec (rCost T) (maxCost M (aTo g))) as [_|?]; [|lia].
        now injection Hm as <-.
Qed.

(** A path with the given key and cost. *)
Definition pathOf (mask cost ordered valid : Z) : WherePath :=
  {| maskLoop := mask; revLoop := 0; nRow := 0; rCost := cost;
     isOrdered := ordered; isOrderedValid := valid; aLoop := [] |}.

Lemma solver_merge_policy_witness :
  ((2 = 1 -> mxChoiceOf 2 = 1)
   /\ (2 = 2 -> mxChoiceOf 2 = 5)
   /\ (3 <= 2 -> mxChoiceOf 2 = 10))
  /\ (exists gEnd,
        generation (fun _ _ _ => (1, 0)) (mxChoiceOf 2) 0 0 [] [] 0
          = Some gEnd
        /\ nTo gEnd <= mxChoiceOf 2)
  /\ exists g',
       merge (mxChoiceOf 2) {| aTo := [pathOf 1 10 0 1]; mxCost := 0 |}
             (pathOf 1 5 1 1) = Some g'
       /\ nTo g' <= mxChoiceOf 2
       /\ (forall (jj : nat) (T' : WherePath),
             [pathOf 1 10 0 1] !! jj = Some T' ->
             sameKey T' (pathOf 1 5 1 1) ->
             (forall (k : nat) (q : WherePath),
                 (k < jj)%nat -> [pathOf 1 10 0 1] !! k = Some q ->
                 ~ sameKey q (pathOf 1 5 1 1)) ->
             aTo g' = if rCost (pathOf 1 5 1 1) <? rCost T'
                      then <[jj := pathOf 1 5 1 1]> [pathOf 1 10 0 1]
                      else [pathOf 1 10 0 1])
       /\ (Forall (fun q => ~ sameKey q (pathOf 1 5 1 1)) [pathOf 1 10 0 1] ->
           (nTo {| aTo := [pathOf 1 10 0 1]; mxCost := 0 |} < mxChoiceOf 2 ->
            aTo g' = [pathOf 1 10 0 1] ++ [pathOf 1 5 1 1])
           /\ (nTo {| aTo := [pathOf 1 10 0 1]; mxCost := 0 |} = mxChoiceOf 2 ->
               rCost (pathOf 1 5 1 1)
                 < maxCost (mxChoiceOf 2) [pathOf 1 10 0 1] ->
               exists (w : nat) (W : WherePath),
                 [pathOf 1 10 0 1] !! w = Some W
                 /\ rCost W = maxCost (mxChoiceOf 2) [pathOf 1 10 0 1]
                 /\ aTo g' = <[w := pathOf 1 5 1 1]> [pathOf 1 10 0 1])
           /\ (nTo {| aTo := [pathOf 1 10 0 1]; mxCost := 0 |} = mxChoiceOf 2 ->
               maxCost (mxChoiceOf 2) [pathOf 1 10 0 1]
                 <= rCost (pathOf 1 5 1 1) ->
               aTo g' = [pathOf 1 10 0 1])).
Proof.
  apply (solver_merge_policy (fun _ _ _ => (1, 0)) 2 0 0 0 [] []
           {| aTo := [pathOf 1 10 0 1]; mxCost := 0 |} (pathOf 1 5 1 1)).
  split; vm_compute; [discriminate|intros [=]].
Defined.

(** C4, as stated, fails: with room for five paths, a path that satisfies
    ORDER BY (cost 5) meets a retained path over the same tables that needs
    a sort (cost 10).  Their ORDER BY status differs, yet the new path is
    not appended: it overwrites the retained one. *)
Lemma merge_ignores_order_outcome :
  let T' := pathOf 1 10 0 1 in
  let T := pathOf 1 5 1 1 in
  obStatus T' = NotSatisfied /\ obStatus T = Satisfied
  /\ obStatus T <> obStatus T'
  /\ nTo {| aTo := [T']; mxCost := 0 |} < mxChoiceOf 2
  /\ merge (mxChoiceOf 2) {| aTo := [T']; mxCost := 0 |} T
     = Some {| aTo := [T]; mxCost := 0 |}
  /\ [T] <> [T'; T].
Proof.
  cbv zeta. repeat split; try reflexivity; try discriminate.
Qed.

End SolverFacts.

(** ** Expressions, terms and clauses *)

Module Ast.

(** The token codes of [parse.h] that [where.c] looks at.  The source
    relies on the layout [TK_GT = TK_EQ+1], [TK_LE = TK_EQ+2],
    [TK_LT = TK_EQ+3], [TK_GE = TK_EQ+4] (asserts of [allowedOp] and
    [exprCommute]); [tkOrd] gives that offset. *)
Inductive Token :=
  | TK_EQ | TK_GT | TK_LE | TK_LT | TK_GE
  | TK_IN | TK_ISNULL | TK_NOTNULL | TK_BETWEEN
  | TK_AND | TK_OR
  | TK_COLUMN | TK_FUNCTION | TK_STRING | TK_VARIABLE | TK_REGISTER
  | TK_MATCH | TK_NULL | TK_AS | TK_COLLATE
  | TK_OTHER (code : Z).

#[global] Instance Token_eq_dec : EqDecision Token.
Proof. solve_decision. Defined.

Definition tk_is (a b : Token) : bool := bool_decide (a = b).

Definition tkOrd (t : Token) : option Z :=
  match t with
  | TK_EQ => Some 0 | TK_GT => Some 1 | TK_LE => Some 2
  | TK_LT => Some 3 | TK_GE => Some 4
  | _ => None
  end.

(** [struct Expr], the fields read by the planner.  [fromJoin],
    [expCollate] and [xIsSelect] are the flag bits [EP_FromJoin],
    [EP_ExpCollate] and [EP_xIsSelect]; [zToken] is the text of [u.zToken]
    up to its terminator; [zColl] is the collation attached by
    [sqlite4ExprSetCollByToken]; [xList] holds the expressions of
    [x.pList], or, under [xIsSelect], the expressions of [x.pSelect] in
    the order in which [exprSelectTableUsage] visits them. *)
#[local] Unset Elimination Schemes.
Inductive Expr := mkExpr {
  op : Token;
  op2 : Token;
  iTable : Z;
  iColumn : Z;
  iRightJoinTable : Z;
  fromJoin : bool;
  expCollate : bool;
  xIsSelect : bool;
  zToken : list Z;
  zColl : option string;
  pLeft : option Expr;
  pRight : option Expr;
  xList : list Expr
}.
#[local] Set Elimination Schemes.

(** What a dereference of a null [Expr*] is taken to read. *)
Definition nullExpr : Expr :=
  mkExpr (TK_OTHER 0) (TK_OTHER 0) 0 0 0 false false false [] None
         None None [].

Definition deref (p : option Expr) : Expr := default nullExpr p.

(** Constructors used for the expressions the analyser synthesises and
    for examples. *)
Definition eColumn (cur col : Z) : Expr :=
  mkExpr TK_COLUMN (TK_OTHER 0) cur col 0 false false false [] None
         None None [].

Definition eString (z : list Z) : Expr :=
  mkExpr TK_STRING (TK_OTHER 0) 0 0 0 false false false z None None None [].

Definition eLeaf (code : Z) : Expr :=
  mkExpr (TK_OTHER code) (TK_OTHER 0) 0 0 0 false false false [] None
         None None [].

(** [sqlite4PExpr(pParse, op, pLeft, pRight, 0)]. *)
Definition sqlite4PExpr (o : Token) (l r : option Expr) : Expr :=
  mkExpr o (TK_OTHER 0) 0 0 0 false false false [] None l r [].

Definition eBin (o : Token) (l r : Expr) : Expr :=
  sqlite4PExpr o (Some l) (Some r).

(** [sqlite4ExprSkipCollate]: the walk down [pLeft] from a non-null
    expression, then the function itself on a possibly null pointer. *)
Fixpoint skipCollate (p : Expr) : option Expr :=
  match p with
  | mkExpr o _ _ _ _ _ _ _ _ _ l _ _ =>
      if tk_is o TK_COLLATE || tk_is o TK_AS then
        match l with
        | Some e => skipCollate e
        | None => None
        end
      else Some p
  end.

Definition sqlite4ExprSkipCollate (p : option Expr) : option Expr :=
  match p with
  | Some e => skipCollate e
  | None => None
  end.

(** Bits of [WhereTerm.eOperator]. *)
Definition WO_IN : Z := 0x001.
Definition WO_EQ : Z := 0x002.
Definition WO_GT : Z := 0x004.
Definition WO_LE : Z := 0x008.
Definition WO_LT : Z := 0x010.
Definition WO_GE : Z := 0x020.
Definition WO_MATCH : Z := 0x040.
Definition WO_ISNULL : Z := 0x080.
Definition WO_OR : Z := 0x100.
Definition WO_AND : Z := 0x200.
Definition WO_EQUIV : Z := 0x400.
Definition WO_NOOP : Z := 0x800.
Definition WO_ALL : Z := 0xfff.
Definition WO_SINGLE : Z := 0x0ff.

(** Bits of [WhereTerm.wtFlags]. *)
Definition TERM_DYNAMIC : Z := 0x01.
Definition TERM_VIRTUAL : Z := 0x02.
Definition TERM_CODED : Z := 0x04.
Definition TERM_COPIED : Z := 0x08.
Definition TERM_ORINFO : Z := 0x10.
Definition TERM_ANDINFO : Z := 0x20.
Definition TERM_OR_OK : Z := 0x40.

(** [TERM_VNULL] is 0x80 in a build with [SQLITE4_ENABLE_STAT3] and 0x00
    otherwise. *)
Definition TERM_VNULL (stat3 : bool) : Z := if stat3 then 0x80 else 0x00.

(** Test [(f & bit)!=0]. *)
Definition has (f bit : Z) : bool := negb (Z.land f bit =? 0).

(** Which arm of the union [WhereTerm.u] was written last. *)
Inductive UTag := ULeftColumn | UOrInfo | UAndInfo.

(** [struct WhereTerm].  The union [u] is kept as a tag with the payload
    of each arm: [leftColumn]; or the sub-clause of [pOrInfo] / [pAndInfo]
    ([subOp], [subTerms], [subOuter] for [wc.op], [wc.a], [wc.pOuter!=0])
    with [indexable]. *)
#[local] Unset Elimination Schemes.
Inductive WhereTerm := mkTerm {
  pExpr : Expr;
  iParent : Z;
  leftCursor : Z;
  uTag : UTag;
  leftColumn : Z;
  subOp : Token;
  subTerms : list WhereTerm;
  subOuter : bool;
  indexable : Z;
  eOperator : Z;
  wtFlags : Z;
  nChild : Z;
  prereqRight : Z;
  prereqAll : Z
}.
#[local] Set Elimination Schemes.

(** [struct WhereClause]: the split operator and the terms [a[0..nTerm)];
    [pOuter] says whether the clause hangs below an outer conjunction. *)
Record WhereClause := mkClause {
  wcOp : Token;
  a : list WhereTerm;
  pOuter : bool
}.

Definition nTerm (wc : WhereClause) : Z := Z.of_nat (length (a wc)).

(** Field updates. *)
Definition set_eOperator (v : Z) (t : WhereTerm) : WhereTerm :=
  mkTerm (pExpr t) (iParent t) (leftCursor t) (uTag t) (leftColumn t)
         (subOp t) (subTerms t) (subOuter t) (indexable t) v (wtFlags t)
         (nChild t) (prereqRight t) (prereqAll t).
Definition set_wtFlags (v : Z) (t : WhereTerm) : WhereTerm :=
  mkTerm (pExpr t) (iParent t) (leftCursor t) (uTag t) (leftColumn t)
         (subOp t) (subTerms t) (subOuter t) (indexable t) (eOperator t) v
         (nChild t) (prereqRight t) (prereqAll t).
Definition set_nChild (v : Z) (t : WhereTerm) : WhereTerm :=
  mkTerm (pExpr t) (iParent t) (leftCursor t) (uTag t) (leftColumn t)
         (subOp t) (subTerms t) (subOuter t) (indexable t) (eOperator t)
         (wtFlags t) v (prereqRight t) (prereqAll t).
Definition set_iParent (v : Z) (t : WhereTerm) : WhereTerm :=
  mkTerm (pExpr t) v (leftCursor t) (uTag t) (leftColumn t)
         (subOp t) (subTerms t) (subOuter t) (indexable t) (eOperator t)
         (wtFlags t) (nChild t) (prereqRight t) (prereqAll t).
Definition set_pExpr (v : Expr) (t : WhereTerm) : WhereTerm :=
  mkTerm v (iParent t) (leftCursor t) (uTag t) (leftColumn t)
         (subOp t) (subTerms t) (subOuter t) (indexable t) (eOperator t)
         (wtFlags t) (nChild t) (prereqRight t) (prereqAll t).
Definition set_left (cur col : Z) (t : WhereTerm) : WhereTerm :=
  mkTerm (pExpr t) (iParent t) cur ULeftColumn col
         (subOp t) (subTerms t) (subOuter t) (indexable t) (eOperator t)
         (wtFlags t) (nChild t) (prereqRight t) (prereqAll t).
Definition set_leftCursor (cur : Z) (t : WhereTerm) : WhereTerm :=
  mkTerm (pExpr t) (iParent t) cur (uTag t) (leftColumn t)
         (subOp t) (subTerms t) (subOuter t) (indexable t) (eOperator t)
         (wtFlags t) (nChild t) (prereqRight t) (prereqAll t).
Definition set_prereqRight (v : Z) (t : WhereTerm) : WhereTerm :=
  mkTerm (pExpr t) (iParent t) (leftCursor t) (uTag t) (leftColumn t)
         (subOp t) (subTerms t) (subOuter t) (indexable t) (eOperator t)
         (wtFlags t) (nChild t) v (prereqAll t).
Definition set_prereqAll (v : Z) (t : WhereTerm) : WhereTerm :=
  mkTerm (pExpr t) (iParent t) (leftCursor t) (uTag t) (leftColumn t)
         (subOp t) (subTerms t) (subOuter t) (indexable t) (eOperator t)
         (wtFlags t) (nChild t) (prereqRight t) v.
Definition set_sub (tag : UTag) (wc : WhereClause) (ix : Z) (t : WhereTerm)
  : WhereTerm :=
  mkTerm (pExpr t) (iParent t) (leftCursor t) tag (leftColumn t)
         (wcOp wc) (a wc) (pOuter wc) ix (eOperator t)
         (wtFlags t) (nChild t) (prereqRight t) (prereqAll t).

(** The sub-clause [u.pOrInfo->wc] or [u.pAndInfo->wc] of a term. *)
Definition subClause (t : WhereTerm) : WhereClause :=
  {| wcOp := subOp t; a := subTerms t; pOuter := subOuter t |}.

(** A slot of [WhereClause.a[]] as [whereClauseInsert] leaves it: it
    writes [pExpr], [wtFlags] and [iParent]; the fields that it leaves
    alone are those of zeroed memory here. *)
Definition freshTerm (p : Expr) (flags : Z) : WhereTerm :=
  mkTerm (deref (sqlite4ExprSkipCollate (Some p))) (-1) 0 ULeftColumn 0
         (TK_OTHER 0) [] false 0 0 flags 0 0 0.

(** What a read of a slot outside [a[0..nTerm)] is taken to yield. *)
Definition noTerm : WhereTerm := freshTerm nullExpr 0.

End Ast.

(** ** SelectivityOracle: the range estimate *)

Module Range.
Import Ast.

Inductive RC := SQLITE4_OK | SQLITE4_ERROR.

(** [whereRangeScanEst].  [stat3] says whether the build defines
    [SQLITE4_ENABLE_STAT3], [optStat3] is
    [OptimizationEnabled(db, SQLITE4_Stat3)], [nSample] is [p->nSample].
    The histogram arm is summarised by its outcome [sampleEst]: [Some d]
    when [whereSampleKeyinfo] succeeds and the samples give the divisor
    [d], [None] when it fails with [SQLITE4_ERROR].  Yields the return
    code and [*pRangeDiv]. *)
Definition whereRangeScanEst (stat3 optStat3 : bool) (nSample nEq : Z)
    (sampleEst : option Z) (pLower pUpper : option WhereTerm) : RC * Z :=
  let fallback (rc : RC) : RC * Z :=
    let d := 0 in
    let d :=
      match pLower with
      | Some lo =>
          if Z.land (wtFlags lo) (TERM_VNULL stat3) =? 0 then u16 (d + 20)
          else d
      | None => d
      end in
    let d :=
      match pUpper with
      | Some _ => u16 (d + 20)
      | None => d
      end in
    (rc, d) in
  if stat3 && (nEq =? 0) && negb (nSample =? 0) && optStat3 then
    match sampleEst with
    | Some d => (SQLITE4_OK, d)
    | None => fallback SQLITE4_ERROR
    end
  else fallback SQLITE4_OK.

(** Whether the histogram arm delivers the divisor. *)
Definition samplesUsable (stat3 optStat3 : bool) (nSample nEq : Z)
    (sampleEst : option Z) : bool :=
  stat3 && (nEq =? 0) && negb (nSample =? 0) && optStat3
  && match sampleEst with Some _ => true | None => false end.

(** What one endpoint adds to the divisor. *)
Definition lowerShare (stat3 : bool) (pLower : option WhereTerm) : Z :=
  match pLower with
  | Some lo => if Z.land (wtFlags lo) (TERM_VNULL stat3) =? 0 then 20 else 0
  | None => 0
  end.

Definition upperShare (pUpper : option WhereTerm) : Z :=
  match pUpper with Some _ => 20 | None => 0 end.

(** 20 for an endpoint that is supplied, whatever its flags. *)
Definition supplied (p : option WhereTerm) : Z :=
  match p with Some _ => 20 | None => 0 end.

End Range.

Section RangeFacts.
Import Ast Range.

(** C9, amended.  Without a usable histogram, for every index and every
    pair of optional endpoint terms, the divisor that the estimator
    returns is 20 for an upper bound and 20 for a lower bound, the lower
    bound counting only when it does not carry the [VNull] flag (the
    synthesised [x > NULL] of a build with STAT3); in a build without
    STAT3 every supplied endpoint counts.  With both endpoints counted
    the estimator returns 40, a 16-fold divisor. *)
Theorem whereRangeScanEst_without_samples
    (stat3 optStat3 : bool) (nSample nEq : Z) (sampleEst : option Z)
    (pLower pUpper : option WhereTerm) :
  samplesUsable stat3 optStat3 nSample nEq sampleEst = false ->
  let d := snd (whereRangeScanEst stat3 optStat3 nSample nEq sampleEst
                  pLower pUpper) in
  d = lowerShare stat3 pLower + upperShare pUpper
  /\ (stat3 = false ->
      d = supplied pLower + supplied pUpper)
  /\ (lowerShare stat3 pLower = 20 -> is_Some pUpper -> d = 40).
Proof.
  intros Hs. cbv zeta.
  assert (Hd : snd (whereRangeScanEst stat3 optStat3 nSample nEq sampleEst
                      pLower pUpper)
               = lowerShare stat3 pLower + upperShare pUpper).
  { unfold whereRangeScanEst, samplesUsable in *.
    destruct (stat3 && (nEq =? 0) && negb (nSample =? 0) && optStat3);
      cbn [andb] in Hs;
      [destruct sampleEst; [discriminate|]|];
      unfold lowerShare, upperShare; cbn [snd];
      destruct pLower as [lo|], pUpper as [up|];
      try destruct (Z.land (wtFlags lo) (TERM_VNULL stat3) =? 0);
      reflexivity. }
  rewrite Hd. split; [reflexivity|]. split.
  - intros ->. unfold lowerShare, upperShare, supplied, TERM_VNULL.
    destruct pLower as [lo|], pUpper; try reflexivity;
      rewrite Z.land_0_r; reflexivity.
  - intros Hl [up ->]. rewrite Hl. reflexivity.
Qed.

(** The term [x > NULL] that [exprAnalyze] adds for [x IS NOT NULL]. *)
Definition vnullTerm : WhereTerm :=
  set_left 3 1
    (set_eOperator WO_GT
       (freshTerm (eBin TK_GT (eColumn 3 1) (sqlite4PExpr TK_NULL None None))
                  (Z.lor (Z.lor TERM_VIRTUAL TERM_DYNAMIC) (TERM_VNULL true)))).

(** A plain [x > 7]. *)
Definition gtTerm : WhereTerm :=
  set_left 3 1
    (set_eOperator WO_GT (freshTerm (eBin TK_GT (eColumn 3 1) (eLeaf 7)) 0)).

Lemma whereRangeScanEst_without_samples_witness :
  let d := snd (whereRangeScanEst true true 0 0 None
                  (Some gtTerm) (Some gtTerm)) in
  d = lowerShare true (Some gtTerm) + upperShare (Some gtTerm)
  /\ (true = false ->
      d = supplied (Some gtTerm) + supplied (Some gtTerm))
  /\ (lowerShare true (Some gtTerm) = 20 -> is_Some (Some gtTerm) -> d = 40).
Proof.
  apply (whereRangeScanEst_without_samples true true 0 0 None
           (Some gtTerm) (Some gtTerm)).
  reflexivity.
Defined.

(** C9, as stated, fails: in a build with STAT3, for a range on the second
    column of an index ([nEq = 1], so no histogram applies) whose lower
    bound is the [x > NULL] term of an [IS NOT NULL], the divisor is 0 and
    not 20; together with an upper bound it is 20 and not 40. *)
Lemma whereRangeScanEst_vnull_lower_not_counted :
  whereRangeScanEst true true 0 1 None (Some vnullTerm) None
    = (SQLITE4_OK, 0)
  /\ whereRangeScanEst true true 0 1 None (Some vnullTerm) (Some gtTerm)
    = (SQLITE4_OK, 20)
  /\ has (eOperator vnullTerm) WO_GT = true.
Proof. repeat split. Qed.

End RangeFacts.

(** ** TermAnalyser: the transitive-equality scanner *)

Module Scan.
Import Ast.

(** The columns of an index key: [nColumn], [aiColumn[]], [azColl[]]. *)
Record IndexKey := mkIndexKey {
  nColumn : Z;
  aiColumn : list Z;
  azColl : list string
}.

(** An [Index*] as [whereScanInit] uses it: its own key, the affinities
    [pTable->aCol[].affinity], the primary key that
    [sqlite4FindPrimaryKey(pIdx->pTable, 0)] returns, and whether that
    primary key is the index itself. *)
Record Index := mkIndex {
  key : IndexKey;
  aColAffinity : list Z;
  pPk : option IndexKey;
  pkIsSelf : bool
}.

(** [idxColumnNumber]. *)
Definition idxColumnNumber (pIdx : IndexKey) (pk : option IndexKey)
    (iIdxCol : Z) : Z :=
  if iIdxCol <? nColumn pIdx then aget 0 (aiColumn pIdx) iIdxCol
  else
    match pk with
    | Some p =>
        if iIdxCol <? nColumn pIdx + nColumn p
        then aget 0 (aiColumn p) (iIdxCol - nColumn pIdx)
        else -2
    | None => -2
    end.

(** [idxColumnCollation]; the empty name stands for the value the source
    leaves unset when no arm applies. *)
Definition idxColumnCollation (pIdx : IndexKey) (pk : option IndexKey)
    (iIdxCol : Z) : string :=
  if iIdxCol <? nColumn pIdx then aget EmptyString (azColl pIdx) iIdxCol
  else
    match pk with
    | Some p =>
        if iIdxCol <? nColumn pIdx + nColumn p
        then aget EmptyString (azColl p) (iIdxCol - nColumn pIdx)
        else EmptyString
    | None => EmptyString
    end.

(** [idxColumnCount]. *)
Definition idxColumnCount (pIdx : Index) : Z :=
  nColumn (key pIdx)
  + match pPk pIdx with
    | None => 0
    | Some p => if pkIsSelf pIdx then 0 else nColumn p
    end.

(** A clause with its chain of outer conjunctions: the terms of the
    clause itself first, then those of [pOuter], and so on. *)
Definition Chain := list (list WhereTerm).

(** [struct WhereScan]; [aEquiv] is the array [int aEquiv[22]]. *)
Record WhereScan := mkScan {
  pOrigWC : Chain;
  pWC : Chain;
  zCollName : option string;
  idxaff : Z;
  nEquiv : Z;
  iEquiv : Z;
  opMask : Z;
  k : Z;
  aEquiv : list Z
}.

Definition set_pWC (c : Chain) (s : WhereScan) : WhereScan :=
  mkScan (pOrigWC s) c (zCollName s) (idxaff s) (nEquiv s) (iEquiv s)
         (opMask s) (k s) (aEquiv s).
Definition set_k (v : Z) (s : WhereScan) : WhereScan :=
  mkScan (pOrigWC s) (pWC s) (zCollName s) (idxaff s) (nEquiv s) (iEquiv s)
         (opMask s) v (aEquiv s).
Definition set_iEquiv (v : Z) (s : WhereScan) : WhereScan :=
  mkScan (pOrigWC s) (pWC s) (zCollName s) (idxaff s) (nEquiv s) v
         (opMask s) (k s) (aEquiv s).

(** [ArraySize(pScan->aEquiv)]. *)
Definition nEquivSlots : Z := 22.

(** The loop [for(j=0; j<pScan->nEquiv; j+=2)] that looks for the pair
    [(iTab, iCol)]; yields the [j] at which it stops. *)
Fixpoint findEquiv (aE : list Z) (nE iTab iCol : Z) (j : Z) (cnt : nat) : Z :=
  match cnt with
  | O => j
  | S cnt' =>
      if j <? nE then
        if (aget 0 aE j =? iTab) && (aget 0 aE (j + 1) =? iCol) then j
        else findEquiv aE nE iTab iCol (j + 2) cnt'
      else j
  end.

(** The block guarded by [WO_EQUIV]: the right-hand column of the term
    joins [aEquiv[]] unless it is there already. *)
Definition noteEquiv (s : WhereScan) (pTerm : WhereTerm) : WhereScan :=
  if has (eOperator pTerm) WO_EQUIV && (nEquiv s <? nEquivSlots) then
    let pX := deref (sqlite4ExprSkipCollate (pRight (pExpr pTerm))) in
    let j := findEquiv (aEquiv s) (nEquiv s) (iTable pX) (iColumn pX) 0
               (Z.to_nat (nEquiv s)) in
    if j =? nEquiv s then
      mkScan (pOrigWC s) (pWC s) (zCollName s) (idxaff s)
             (u8 (nEquiv s + 2)) (iEquiv s) (opMask s) (k s)
             (<[Z.to_nat (j + 1) := iColumn pX]>
                (<[Z.to_nat j := iTable pX]> (aEquiv s)))
    else s
  else s.

Section Scanner.

(** The collaborators of the scanner outside [where.c]:
    [sqlite4IndexAffinityOk], the name of the collating sequence that
    [sqlite4BinaryCompareCollSeq] picks for a comparison (the default
    collation of the connection when it picks none), and
    [sqlite4_stricmp]. *)
Variable sqlite4IndexAffinityOk : Expr -> Z -> bool.
Variable compareCollName : Expr -> string.
Variable sqlite4_stricmp : string -> string -> Z.

(** The test "Verify the affinity and collating sequence match": [true]
    when the term is skipped. *)
Definition collMismatch (s : WhereScan) (pTerm : WhereTerm) : bool :=
  match zCollName s with
  | Some zName =>
      if Z.land (eOperator pTerm) WO_ISNULL =? 0 then
        if negb (sqlite4IndexAffinityOk (pExpr pTerm) (idxaff s)) then true
        else negb (sqlite4_stricmp (compareCollName (pExpr pTerm)) zName =? 0)
      else false
  | None => false
  end.

(** The test that skips [X = X'] when [X'] is the column the scan started
    from. *)
Definition selfEquality (s : WhereScan) (pTerm : WhereTerm) : bool :=
  let pX := deref (pRight (pExpr pTerm)) in
  has (eOperator pTerm) WO_EQ
  && tk_is (op pX) TK_COLUMN
  && (iTable pX =? aget 0 (aEquiv s) 0)
  && (iColumn pX =? aget 0 (aEquiv s) 1).

(** The [for] loop over the terms of one clause, entered at term number
    [kk] with [terms] the terms from there on. *)
Fixpoint scanTerms (s : WhereScan) (iCur iCol : Z)
    (terms : list WhereTerm) (kk : Z) : option WhereTerm * WhereScan :=
  match terms with
  | [] => (None, s)
  | pTerm :: rest =>
      if (leftCursor pTerm =? iCur) && (leftColumn pTerm =? iCol) then
        let s1 := noteEquiv s pTerm in
        if has (eOperator pTerm) (opMask s1) then
          if collMismatch s1 pTerm then scanTerms s1 iCur iCol rest (kk + 1)
          else if selfEquality s1 pTerm
          then scanTerms s1 iCur iCol rest (kk + 1)
          else (Some pTerm, set_k (kk + 1) s1)
        else scanTerms s1 iCur iCol rest (kk + 1)
      else scanTerms s iCur iCol rest (kk + 1)
  end.

(** The loop [while( (pWC = pScan->pWC)!=0 )] over the clause and its
    outer conjunctions. *)
Fixpoint scanChain (s : WhereScan) (iCur iCol : Z) (chain : Chain) (kk : Z)
  : option WhereTerm * WhereScan :=
  match chain with
  | [] => (None, set_pWC [] s)
  | wc :: outer =>
      match scanTerms (set_pWC chain s) iCur iCol
              (drop (Z.to_nat kk) wc) kk with
      | (Some t, s') => (Some t, s')
      | (None, s') => scanChain s' iCur iCol outer 0
      end
  end.

(** The loop [while( pScan->iEquiv<=pScan->nEquiv )]; [None] when the
    fuel does not cover its iterations. *)
Fixpoint scanEquiv (fuel : nat) (s : WhereScan) (kk : Z)
  : option (option WhereTerm * WhereScan) :=
  match fuel with
  | O => None
  | S fuel' =>
      if iEquiv s <=? nEquiv s then
        let iCur := aget 0 (aEquiv s) (iEquiv s - 2) in
        let iCol := aget 0 (aEquiv s) (iEquiv s - 1) in
        match scanChain s iCur iCol (pWC s) kk with
        | (Some t, s') => Some (Some t, s')
        | (None, s') =>
            scanEquiv fuel'
              (set_iEquiv (u8 (iEquiv s' + 2)) (set_pWC (pOrigWC s') s')) 0
        end
      else Some (None, s)
  end.

(** [whereScanNext]. *)
Definition whereScanNext (fuel : nat) (pScan : WhereScan)
  : option (option WhereTerm * WhereScan) :=
  scanEquiv fuel pScan (k pScan).

(** The loop of [whereScanInit] that locates [iColumn] in the index. *)
Fixpoint findIdxCol (pIdx : Index) (iColumn j : Z) (fuel : nat) : option Z :=
  match fuel with
  | O => None
  | S fuel' =>
      if idxColumnNumber (key pIdx) (pPk pIdx) j =? iColumn then Some j
      else if j >=? idxColumnCount pIdx then None
      else findIdxCol pIdx iColumn (j + 1) fuel'
  end.

(** [whereScanInit], on a scan object whose previous content is [s0]
    (the source does not clear it). *)
Definition whereScanInit (fuel : nat) (s0 : WhereScan) (wc : Chain)
    (iCur iColumn : Z) (mask : Z) (pIdx : option Index)
  : option (option WhereTerm * WhereScan) :=
  let start (aff : Z) (zName : option string) :=
    whereScanNext fuel
      (mkScan wc wc zName aff 2 2 mask 0
              (<[1%nat := iColumn]> (<[0%nat := iCur]> (aEquiv s0)))) in
  match pIdx with
  | Some ix =>
      if iColumn >=? 0 then
        let aff := aget 0 (aColAffinity ix) iColumn in
        match findIdxCol ix iColumn 0 (S (Z.to_nat (idxColumnCount ix))) with
        | Some j =>
            start aff (Some (idxColumnCollation (key ix) (pPk ix) j))
        | None =>
            Some (None,
                  mkScan wc wc (zCollName s0) aff (nEquiv s0) (iEquiv s0)
                         (opMask s0) (k s0) (aEquiv s0))
        end
      else start 0 None
  | None => start 0 None
  end.

(** The [while( p )] loop of [findTerm], with [p] the term in hand. *)
Fixpoint findTerm_loop (loops fuel : nat) (scan : WhereScan)
    (p : option WhereTerm) (notReady : Z) (pResult : option WhereTerm)
  : option (option WhereTerm) :=
  match p with
  | None => Some pResult
  | Some t =>
      match loops with
      | O => None
      | S loops' =>
          let ready := Z.land (prereqRight t) notReady =? 0 in
          if ready && (prereqRight t =? 0) && has (eOperator t) WO_EQ
          then Some (Some t)
          else
            let pResult' :=
              if ready then
                match pResult with None => Some t | Some _ => pResult end
              else pResult in
            match whereScanNext fuel scan with
            | Some (p', scan') =>
                findTerm_loop loops' fuel scan' p' notReady pResult'
            | None => None
            end
      end
  end.

(** [findTerm]; [loops] bounds the rounds of its loop, [fuel] those of the
    scanner. *)
Definition findTerm (loops fuel : nat) (s0 : WhereScan) (wc : Chain)
    (iCur iColumn notReady opm : Z) (pIdx : option Index)
  : option (option WhereTerm) :=
  match whereScanInit fuel s0 wc iCur iColumn opm pIdx with
  | Some (p, scan) => findTerm_loop loops fuel scan p notReady None
  | None => None
  end.

End Scanner.

End Scan.

(** ** Properties of the transitive-equality scanner *)

Section ScanFacts.
Import Ast Scan.

Variable sqlite4IndexAffinityOk : Expr -> Z -> bool.
Variable compareCollName : Expr -> string.
Variable sqlite4_stricmp : string -> string -> Z.

(** The clause chain that is scanned and the column the scan starts
    from. *)
Variable C : Chain.
Variable x0 : Z * Z.

Definition inChain (t : WhereTerm) : Prop :=
  exists wc, wc ∈ C /\ t ∈ wc.

(** The right-hand column of a term of the form [X = Y]. *)
Definition rightColumn (t : WhereTerm) : Z * Z :=
  let pX := deref (sqlite4ExprSkipCollate (pRight (pExpr t))) in
  (iTable pX, iColumn pX).

(** One hop: a term [p = q] of the chain that carries [WO_EQUIV]. *)
Definition equivHop (p q : Z * Z) : Prop :=
  exists t, inChain t
    /\ (leftCursor t, leftColumn t) = p
    /\ has (eOperator t) WO_EQUIV = true
    /\ rightColumn t = q.

(** [reach n q]: [q] is tied to the start column by [n] hops. *)
Inductive reach : nat -> Z * Z -> Prop :=
  | reach_start : reach 0 x0
  | reach_hop (n : nat) (p q : Z * Z) :
      reach n p -> equivHop p q -> reach (S n) q.

(** The [i]-th pair of [aEquiv[]]. *)
Definition pairAt (aE : list Z) (i : nat) : Z * Z :=
  (aget 0 aE (2 * Z.of_nat i), aget 0 aE (2 * Z.of_nat i + 1)).

(** The state of the equivalence array: 22 slots, between one and eleven
    pairs in use, the first being the start column, the pair in place [i]
    at most [i] hops away from it. *)
Definition EquivInv (s : WhereScan) : Prop :=
  length (aEquiv s) = 22%nat
  /\ pairAt (aEquiv s) 0 = x0
  /\ exists m : nat,
       nEquiv s = 2 * Z.of_nat m /\ (1 <= m <= 11)%nat
       /\ forall i : nat, (i < m)%nat ->
            exists n : nat, (n <= i)%nat /\ reach n (pairAt (aEquiv s) i).

(** The slots in use are only ever extended. *)
Definition extends (s s' : WhereScan) : Prop :=
  nEquiv s <= nEquiv s'
  /\ (forall j, 0 <= j < nEquiv s -> aget 0 (aEquiv s') j = aget 0 (aEquiv s) j)
  /\ (nEquiv s = 22 -> aEquiv s' = aEquiv s /\ nEquiv s' = 22).

Lemma extends_refl (s : WhereScan) : extends s s.
Proof. repeat split; auto; lia. Qed.

Lemma extends_same (s s' : WhereScan) :
  aEquiv s' = aEquiv s -> nEquiv s' = nEquiv s -> extends s s'.
Proof. intros Ha Hn. unfold extends. rewrite Ha, Hn. repeat split; lia. Qed.

Lemma extends_trans (s1 s2 s3 : WhereScan) :
  extends s1 s2 -> extends s2 s3 -> extends s1 s3.
Proof.
  intros (H1 & H2 & H3) (K1 & K2 & K3). split; [lia|]. split.
  - intros j Hj. rewrite K2 by lia. apply H2. lia.
  - intros H. destruct (H3 H) as [E1 E2]. destruct (K3 E2) as [E3 E4].
    split; congruence.
Qed.

Lemma aget_insert_eq (l : list Z) (j v : Z) :
  0 <= j < Z.of_nat (length l) -> aget 0 (<[Z.to_nat j := v]> l) j = v.
Proof.
  intros Hj. unfold aget. destruct (Z.ltb_spec j 0); [lia|].
  rewrite list_lookup_insert_eq by lia. reflexivity.
Qed.

Lemma aget_insert_ne (l : list Z) (j j' v : Z) :
  0 <= j -> 0 <= j' -> j <> j' ->
  aget 0 (<[Z.to_nat j := v]> l) j' = aget 0 l j'.
Proof.
  intros Hj Hj' Hne. unfold aget. destruct (Z.ltb_spec j' 0); [lia|].
  rewrite list_lookup_insert_ne by lia. reflexivity.
Qed.

Lemma pairAt_extends (s s' : WhereScan) (i : nat) :
  extends s s' -> 2 * Z.of_nat i + 1 < nEquiv s ->
  pairAt (aEquiv s') i = pairAt (aEquiv s) i.
Proof.
  intros (_ & H & _) Hi. unfold pairAt. rewrite !H by lia. reflexivity.
Qed.

(** Fields of the scan that the equivalence bookkeeping leaves alone. *)
Definition sameCursor (s s' : WhereScan) : Prop :=
  pOrigWC s' = pOrigWC s /\ pWC s' = pWC s /\ iEquiv s' = iEquiv s
  /\ opMask s' = opMask s.

Lemma noteEquiv_inv (s : WhereScan) (t : WhereTerm) (i : nat) :
  EquivInv s -> inChain t ->
  2 * Z.of_nat i + 1 < nEquiv s ->
  (leftCursor t, leftColumn t) = pairAt (aEquiv s) i ->
  EquivInv (noteEquiv s t) /\ extends s (noteEquiv s t)
  /\ sameCursor s (noteEquiv s t).
Proof.
  intros (Hlen & H0 & m & Hm & Hmr & Hreach) Hin Hi Hleft.
  unfold noteEquiv.
  destruct (has (eOperator t) WO_EQUIV) eqn:Heq; cbn [andb];
    [|split; [|split; [apply extends_refl|repeat split]];
      repeat split; eauto].
  destruct (Z.ltb_spec (nEquiv s) nEquivSlots) as [Hroom|Hfull];
    [|split; [|split; [apply extends_refl|repeat split]];
      repeat split; eauto].
  unfold nEquivSlots in Hroom.
  set (pX := deref (sqlite4ExprSkipCollate (pRight (pExpr t)))).
  set (j := findEquiv (aEquiv s) (nEquiv s) (iTable pX) (iColumn pX) 0
              (Z.to_nat (nEquiv s))).
  destruct (Z.eqb_spec j (nEquiv s)) as [Hj|Hj];
    [|split; [|split; [apply extends_refl|repeat split]];
      repeat split; eauto].
  rewrite Hj. clear j Hj.
  assert (Hu8 : u8 (nEquiv s + 2) = 2 * Z.of_nat (S m)).
  { unfold u8. rewrite Z.mod_small by lia. lia. }
  assert (Hold : forall j, 0 <= j < nEquiv s ->
            aget 0 (<[Z.to_nat (nEquiv s + 1) := iColumn pX]>
                      (<[Z.to_nat (nEquiv s) := iTable pX]> (aEquiv s))) j
            = aget 0 (aEquiv s) j).
  { intros j Hj. rewrite !aget_insert_ne by lia. reflexivity. }
  split; [|split].
  - split; [cbn [aEquiv]; now rewrite !length_insert|]. split.
    + cbn [aEquiv]. unfold pairAt in *. rewrite !Hold by lia. exact H0.
    + exists (S m). cbn [nEquiv aEquiv]. split; [exact Hu8|].
      split; [lia|]. intros i' Hi'.
      destruct (decide (i' = m)) as [->|Hne].
      * destruct (Hreach i ltac:(lia)) as (n & Hn & Hr).
        exists (S n). split; [lia|].
        apply (reach_hop n (pairAt (aEquiv s) i)); [exact Hr|].
        exists t. split; [exact Hin|]. split; [exact Hleft|].
        split; [exact Heq|].
        unfold rightColumn, pairAt. fold pX. rewrite <- Hm.
        rewrite aget_insert_ne by lia.
        rewrite aget_insert_eq by lia.
        rewrite aget_insert_eq by (rewrite length_insert; lia).
        reflexivity.
      * destruct (Hreach i' ltac:(lia)) as (n & Hn & Hr).
        exists n. split; [exact Hn|].
        unfold pairAt in *. rewrite !Hold by lia. exact Hr.
  - split; [cbn [nEquiv]; lia|]. split; [exact Hold|]. lia.
  - repeat split.
Qed.

Lemma scanTerms_inv (terms : list WhereTerm) (s : WhereScan) (i : nat)
    (kk : Z) :
  EquivInv s -> Forall inChain terms ->
  2 * Z.of_nat i + 1 < nEquiv s ->
  let p := pairAt (aEquiv s) i in
  let r := scanTerms sqlite4IndexAffinityOk compareCollName sqlite4_stricmp
             s (fst p) (snd p) terms kk in
  EquivInv (snd r) /\ extends s (snd r) /\ sameCursor s (snd r)
  /\ forall t, fst r = Some t ->
       inChain t /\ (leftCursor t, leftColumn t) = p.
Proof.
  intros Hinv Hall. revert s kk Hinv.
  induction Hall as [|t terms Ht _ IH]; intros s kk Hinv Hi; cbv zeta.
  - cbn. split; [exact Hinv|]. split; [apply extends_refl|].
    split; [repeat split|]. discriminate.
  - cbn [scanTerms].
    set (p := pairAt (aEquiv s) i).
    destruct ((leftCursor t =? fst p) && (leftColumn t =? snd p)) eqn:Hl.
    + apply andb_true_iff in Hl as [Hl1 Hl2].
      apply Z.eqb_eq in Hl1, Hl2.
      assert (Hleft : (leftCursor t, leftColumn t) = p)
        by (rewrite Hl1, Hl2; now destruct p).
      destruct (noteEquiv_inv s t i Hinv Ht Hi Hleft) as (Hinv1 & Hext1 & Hc1).
      assert (Hp1 : pairAt (aEquiv (noteEquiv s t)) i = p)
        by (apply pairAt_extends; assumption).
      assert (Hi1 : 2 * Z.of_nat i + 1 < nEquiv (noteEquiv s t))
        by (destruct Hext1; lia).
      pose proof (IH (noteEquiv s t) (kk + 1) Hinv1 Hi1) as IH1.
      cbv zeta in IH1. rewrite Hp1 in IH1.
      destruct IH1 as (Ha & Hb & Hc & Hd).
      assert (Hrec :
        let r := scanTerms sqlite4IndexAffinityOk compareCollName
                   sqlite4_stricmp (noteEquiv s t) (fst p) (snd p)
                   terms (kk + 1) in
        EquivInv (snd r) /\ extends s (snd r) /\ sameCursor s (snd r)
        /\ forall t', fst r = Some t' ->
             inChain t' /\ (leftCursor t', leftColumn t') = p).
      { cbv zeta. split; [exact Ha|]. split.
        - eapply extends_trans; eassumption.
        - split; [|exact Hd].
          destruct Hc1 as (?&?&?&?), Hc as (?&?&?&?).
          repeat split; congruence. }
      destruct (has (eOperator t) (opMask (noteEquiv s t))); [|exact Hrec].
      destruct (collMismatch _ _ _ _ _); [exact Hrec|].
      destruct (selfEquality _ _); [exact Hrec|].
      cbn [fst snd]. split; [exact Hinv1|]. split; [exact Hext1|].
      split; [exact Hc1|]. intros t' [= <-]. auto.
    + pose proof (IH s (kk + 1) Hinv Hi) as IH1. exact IH1.
Qed.

#[local] Abbreviation scanTerms' := (scanTerms sqlite4IndexAffinityOk compareCollName
                          sqlite4_stricmp).
#[local] Abbreviation scanChain' := (scanChain sqlite4IndexAffinityOk compareCollName
                          sqlite4_stricmp).
#[local] Abbreviation scanEquiv' := (scanEquiv sqlite4IndexAffinityOk compareCollName
                          sqlite4_stricmp).
#[local] Abbreviation whereScanNext' := (whereScanNext sqlite4IndexAffinityOk
                              compareCollName sqlite4_stricmp).
#[local] Abbreviation whereScanInit' := (whereScanInit sqlite4IndexAffinityOk
                              compareCollName sqlite4_stricmp).

(** Every clause of a chain is a clause of [C]. *)
Definition chainOk (c : Chain) : Prop := Forall (fun wc => wc ∈ C) c.

Lemma chainOk_terms (wc : list WhereTerm) (kk : nat) :
  wc ∈ C -> Forall inChain (drop kk wc).
Proof.
  intros Hwc. apply Forall_forall. intros t Ht.
  exists wc. split; [exact Hwc|].
  apply list_elem_of_In. apply list_elem_of_In in Ht.
  rewrite <- (take_drop kk wc). apply in_or_app. now right.
Qed.

Lemma scanChain_inv (chain : Chain) (s : WhereScan) (i : nat) (kk : Z) :
  EquivInv s -> chainOk chain ->
  2 * Z.of_nat i + 1 < nEquiv s ->
  let p := pairAt (aEquiv s) i in
  let r := scanChain' s (fst p) (snd p) chain kk in
  EquivInv (snd r) /\ extends s (snd r)
  /\ pOrigWC (snd r) = pOrigWC s /\ iEquiv (snd r) = iEquiv s
  /\ chainOk (pWC (snd r))
  /\ forall t, fst r = Some t ->
       inChain t /\ (leftCursor t, leftColumn t) = p.
Proof.
  intros Hinv Hok. revert s kk Hinv.
  induction Hok as [|wc outer Hwc Hout IH]; intros s kk Hinv Hi; cbv zeta.
  - cbn. split; [exact Hinv|]. split; [now apply extends_same|].
    repeat split; [constructor|discriminate|discriminate].
  - cbn [scanChain]. set (p := pairAt (aEquiv s) i).
    pose proof (scanTerms_inv (drop (Z.to_nat kk) wc) (set_pWC (wc :: outer) s)
                  i kk Hinv (chainOk_terms wc _ Hwc) Hi) as H.
    cbv zeta in H. cbn [aEquiv set_pWC] in H. fold p in H.
    destruct (scanTerms' (set_pWC (wc :: outer) s) (fst p) (snd p)
                (drop (Z.to_nat kk) wc) kk) as [[t|] s1];
      cbn [fst snd] in H; destruct H as (H1 & H2 & (H3 & H4 & H5 & _) & H6);
      cbn [pOrigWC pWC iEquiv set_pWC] in H3, H4, H5.
    + cbn [fst snd]. split; [exact H1|]. split; [exact H2|].
      split; [exact H3|]. split; [exact H5|]. split; [|exact H6].
      rewrite H4. constructor; assumption.
    + assert (Hi1 : 2 * Z.of_nat i + 1 < nEquiv s1).
      { destruct H2 as (H2 & _). cbn [nEquiv set_pWC] in H2. lia. }
      assert (Hp1 : pairAt (aEquiv s1) i = p)
        by (apply (pairAt_extends (set_pWC (wc :: outer) s) s1 i H2 Hi)).
      pose proof (IH s1 0 H1 Hi1) as IH1. cbv zeta in IH1.
      rewrite Hp1 in IH1.
      destruct IH1 as (K1 & K2 & K3 & K4 & K5 & K6).
      split; [exact K1|]. split.
      { apply (extends_trans (set_pWC (wc :: outer) s) s1 _ H2 K2). }
      split; [congruence|]. split; [congruence|]. split; assumption.
Qed.

(** What holds of a term that the scanner hands out. *)
Definition withinTenHops (t : WhereTerm) : Prop :=
  inChain t
  /\ exists n : nat, (n <= 10)%nat /\ reach n (leftCursor t, leftColumn t).

(** The invariant of the scan object between calls. *)
Definition ScanInv (s : WhereScan) : Prop :=
  EquivInv s /\ chainOk (pOrigWC s) /\ chainOk (pWC s)
  /\ exists e : nat, iEquiv s = 2 * Z.of_nat e /\ (1 <= e)%nat.

Lemma scanChain_at (s : WhereScan) (kk : Z) (e : nat) :
  ScanInv s -> iEquiv s = 2 * Z.of_nat e -> iEquiv s <= nEquiv s ->
  let r := scanChain' s (aget 0 (aEquiv s) (iEquiv s - 2))
             (aget 0 (aEquiv s) (iEquiv s - 1)) (pWC s) kk in
  EquivInv (snd r) /\ extends s (snd r)
  /\ pOrigWC (snd r) = pOrigWC s /\ iEquiv (snd r) = iEquiv s
  /\ chainOk (pWC (snd r))
  /\ forall t, fst r = Some t -> withinTenHops t.
Proof.
  intros (He & Ho & Hw & e' & Hie' & Hepos) Hie Hle. cbv zeta.
  assert (e' = e) as -> by lia.
  pose proof He as (Hlen & H0 & m & Hm & Hmr & Hreach).
  assert (Hi : 2 * Z.of_nat (e - 1) + 1 < nEquiv s) by lia.
  pose proof (scanChain_inv (pWC s) s (e - 1) kk He Hw Hi) as H.
  cbv zeta in H. unfold pairAt in H. cbn [fst snd] in H.
  replace (2 * Z.of_nat (e - 1)) with (iEquiv s - 2) in H by lia.
  replace (iEquiv s - 2 + 1) with (iEquiv s - 1) in H by lia.
  destruct H as (H1 & H2 & H3 & H4 & H5 & H6).
  split; [exact H1|]. split; [exact H2|]. split; [exact H3|].
  split; [exact H4|]. split; [exact H5|].
  intros t Ht. destruct (H6 t Ht) as [Hin Hleft]. split; [exact Hin|].
  destruct (Hreach (e - 1)%nat ltac:(lia)) as (n & Hn & Hr).
  exists n. split; [lia|]. rewrite Hleft. unfold pairAt in Hr.
  replace (2 * Z.of_nat (e - 1)) with (iEquiv s - 2) in Hr by lia.
  replace (iEquiv s - 2 + 1) with (iEquiv s - 1) in Hr by lia.
  exact Hr.
Qed.

(** The scan object as the outer loop leaves it for its next round. *)
Lemma nextRound_inv (s s1 : WhereScan) (e : nat) :
  ScanInv s -> iEquiv s = 2 * Z.of_nat e -> iEquiv s <= nEquiv s ->
  EquivInv s1 -> pOrigWC s1 = pOrigWC s -> iEquiv s1 = iEquiv s ->
  let s2 := set_iEquiv (u8 (iEquiv s1 + 2)) (set_pWC (pOrigWC s1) s1) in
  ScanInv s2 /\ iEquiv s2 = 2 * Z.of_nat (S e) /\ extends s1 s2.
Proof.
  intros (He & Ho & Hw & e' & Hie' & Hepos) Hie Hle H1 H3 H4. cbv zeta.
  destruct He as (_ & _ & m & Hm & Hmr & _).
  assert (Hu : u8 (iEquiv s1 + 2) = 2 * Z.of_nat (S e)).
  { rewrite H4. unfold u8. rewrite Z.mod_small by lia. lia. }
  split; [|split; [exact Hu|now apply extends_same]].
  split; [exact H1|]. cbn [pOrigWC pWC set_iEquiv set_pWC iEquiv].
  rewrite H3. split; [exact Ho|]. split; [exact Ho|].
  exists (S e). split; [exact Hu|lia].
Qed.

Lemma scanEquiv_sound (fuel : nat) (s : WhereScan) (kk : Z)
    (r : option WhereTerm) (s' : WhereScan) :
  ScanInv s -> scanEquiv' fuel s kk = Some (r, s') ->
  ScanInv s' /\ extends s s' /\ forall t, r = Some t -> withinTenHops t.
Proof.
  revert s kk. induction fuel as [|fuel IH]; intros s kk Hinv Hrun;
    [discriminate|].
  cbn [scanEquiv] in Hrun.
  destruct (Z.leb_spec (iEquiv s) (nEquiv s)) as [Hle|Hgt].
  - pose proof Hinv as (He & Ho & Hw & e & Hie & Hepos).
    pose proof (scanChain_at s kk e Hinv Hie Hle) as H. cbv zeta in H.
    destruct (scanChain' s (aget 0 (aEquiv s) (iEquiv s - 2))
                (aget 0 (aEquiv s) (iEquiv s - 1)) (pWC s) kk)
      as [[t|] s1]; cbn [fst snd] in H;
      destruct H as (H1 & H2 & H3 & H4 & H5 & H6).
    + injection Hrun as <- <-. split.
      { split; [exact H1|]. split; [now rewrite H3|]. split; [exact H5|].
        exists e. split; [congruence|exact Hepos]. }
      split; [exact H2|]. intros t' [= <-]. now apply H6.
    + destruct (nextRound_inv s s1 e Hinv Hie Hle H1 H3 H4) as (N1 & N2 & N3).
      apply IH in Hrun; [|exact N1].
      destruct Hrun as (K1 & K2 & K3). split; [exact K1|].
      split; [|exact K3].
      apply (extends_trans s s1 s' H2).
      apply (extends_trans s1 _ s' N3 K2).
  - injection Hrun as <- <-. split; [exact Hinv|].
    split; [apply extends_refl|discriminate].
Qed.

Lemma scanEquiv_total (fuel : nat) (s : WhereScan) (kk : Z) (e : nat) :
  ScanInv s -> iEquiv s = 2 * Z.of_nat e ->
  (13 <= fuel + e)%nat -> (1 <= fuel)%nat ->
  exists r s', scanEquiv' fuel s kk = Some (r, s').
Proof.
  revert s kk e. induction fuel as [|fuel IH]; intros s kk e Hinv Hie Hf H1;
    [lia|].
  cbn [scanEquiv].
  destruct (Z.leb_spec (iEquiv s) (nEquiv s)) as [Hle|Hgt]; [|eauto].
  pose proof (scanChain_at s kk e Hinv Hie Hle) as H. cbv zeta in H.
  destruct (scanChain' s (aget 0 (aEquiv s) (iEquiv s - 2))
              (aget 0 (aEquiv s) (iEquiv s - 1)) (pWC s) kk)
    as [[t|] s1]; cbn [fst snd] in H; [eauto|].
  destruct H as (K1 & K2 & K3 & K4 & K5 & K6).
  destruct (nextRound_inv s s1 e Hinv Hie Hle K1 K3 K4) as (N1 & N2 & N3).
  assert (e <= 11)%nat.
  { destruct Hinv as ((_ & _ & m & Hm & Hmr & _) & _). lia. }
  apply (IH _ 0 (S e) N1 N2); lia.
Qed.

(** The scan objects a caller can hold: the one [whereScanInit] leaves
    behind with its first term, and those [whereScanNext] leaves behind
    with a further term. *)
Inductive ScanState : WhereScan -> Prop :=
  | ss_init (fuel : nat) (s0 : WhereScan) (mask : Z) (pIdx : option Index)
            (t : WhereTerm) (s : WhereScan) :
      length (aEquiv s0) = 22%nat ->
      whereScanInit' fuel s0 C (fst x0) (snd x0) mask pIdx = Some (Some t, s) ->
      ScanState s
  | ss_next (fuel : nat) (s : WhereScan) (t : WhereTerm) (s' : WhereScan) :
      ScanState s ->
      whereScanNext' fuel s = Some (Some t, s') ->
      ScanState s'.

Lemma chainOk_self : chainOk C.
Proof. apply Forall_forall. auto. Qed.

(** The scan object that [whereScanInit] passes to [whereScanNext]. *)
Definition startScan (s0 : WhereScan) (mask aff : Z) (zName : option string)
  : WhereScan :=
  mkScan C C zName aff 2 2 mask 0
         (<[1%nat := snd x0]> (<[0%nat := fst x0]> (aEquiv s0))).

Lemma startScan_inv (s0 : WhereScan) (mask aff : Z) (zName : option string) :
  length (aEquiv s0) = 22%nat -> ScanInv (startScan s0 mask aff zName).
Proof.
  intros Hlen. unfold startScan.
  destruct (aEquiv s0) as [|z0 [|z1 rest]] eqn:Ha; try discriminate.
  split; [|split; [apply chainOk_self|split; [apply chainOk_self|]]].
  - split; [exact Hlen|]. split; [now destruct x0|].
    exists 1%nat. split; [reflexivity|]. split; [lia|].
    intros i Hi. assert (i = 0%nat) as -> by lia.
    exists 0%nat. split; [lia|].
    replace (pairAt _ 0) with x0 by now destruct x0.
    constructor.
  - exists 1%nat. split; [reflexivity|lia].
Qed.

Lemma whereScanInit_cases (fuel : nat) (s0 : WhereScan) (mask : Z)
    (pIdx : option Index) :
  (exists aff zName,
      whereScanInit' fuel s0 C (fst x0) (snd x0) mask pIdx
      = whereScanNext' fuel (startScan s0 mask aff zName))
  \/ (exists s1,
        whereScanInit' fuel s0 C (fst x0) (snd x0) mask pIdx
        = Some (None, s1)).
Proof.
  unfold whereScanInit. fold (startScan s0 mask 0 None).
  destruct pIdx as [ix|]; [|left; eauto].
  destruct (snd x0 >=? 0); [|left; eauto].
  destruct (findIdxCol _ _ _ _) as [j|]; [left|right]; eauto.
Qed.

Lemma ScanState_inv (s : WhereScan) : ScanState s -> ScanInv s.
Proof.
  induction 1 as [fuel s0 mask pIdx t s Hlen Hrun|fuel s t s' _ IH Hrun].
  - destruct (whereScanInit_cases fuel s0 mask pIdx)
      as [(aff & zName & E)|(s1 & E)]; rewrite E in Hrun; [|discriminate].
    apply scanEquiv_sound in Hrun; [tauto|].
    now apply startScan_inv.
  - apply scanEquiv_sound in Hrun; tauto.
Qed.

Lemma ScanInv_total (s : WhereScan) :
  ScanInv s -> exists r s', whereScanNext' 12 s = Some (r, s').
Proof.
  intros Hinv. pose proof Hinv as (_ & _ & _ & e & He & Hpos).
  apply (scanEquiv_total 12 s (k s) e Hinv He); lia.
Qed.

(** C8.  The working set [aEquiv] of a scan never holds more than eleven
    (cursor, column) pairs in its 22 slots.  [whereScanInit] and
    [whereScanNext] always return, and every term they return belongs to
    the scanned clauses and has on its left a column that at most ten
    [WO_EQUIV] equalities tie to the column the scan started from.  Once
    the array is full, further equivalences leave it unchanged. *)
Theorem whereScan_equivalences_capped
    (s0 : WhereScan) (mask : Z) (pIdx : option Index) (s : WhereScan) :
  length (aEquiv s0) = 22%nat -> ScanState s ->
  (exists r s1,
      whereScanInit' 12 s0 C (fst x0) (snd x0) mask pIdx = Some (r, s1)
      /\ forall t, r = Some t -> withinTenHops t)
  /\ length (aEquiv s) = 22%nat /\ nEquiv s <= 22
  /\ exists r s',
       whereScanNext' 12 s = Some (r, s')
       /\ length (aEquiv s') = 22%nat /\ nEquiv s' <= 22
       /\ (forall t, r = Some t -> withinTenHops t)
       /\ (nEquiv s = 22 -> aEquiv s' = aEquiv s /\ nEquiv s' = 22).
Proof.
  intros Hlen Hst.
  assert (Hcap : forall s1, ScanInv s1 ->
            length (aEquiv s1) = 22%nat /\ nEquiv s1 <= 22).
  { intros s1 ((Hl & _ & m & Hm & Hmr & _) & _). split; [exact Hl|lia]. }
  split; [|split; [|split]].
  - destruct (whereScanInit_cases 12 s0 mask pIdx)
      as [(aff & zName & E)|(s1 & E)]; rewrite E.
    + pose proof (startScan_inv s0 mask aff zName Hlen) as Hinv.
      destruct (ScanInv_total _ Hinv) as (r & s1 & Hrun).
      exists r, s1. split; [exact Hrun|].
      apply scanEquiv_sound in Hrun; tauto.
    + exists None, s1. split; [reflexivity|discriminate].
  - apply Hcap, ScanState_inv, Hst.
  - apply Hcap, ScanState_inv, Hst.
  - pose proof (ScanState_inv s Hst) as Hinv.
    destruct (ScanInv_total s Hinv) as (r & s' & Hrun).
    exists r, s'. split; [exact Hrun|].
    apply scanEquiv_sound in Hrun; [|exact Hinv].
    destruct Hrun as (Hinv' & (_ & _ & Hfull) & Hterm).
    destruct (Hcap s' Hinv') as [Hl Hn]. auto.
Qed.

End ScanFacts.

(** *** The cap at work *)

Section ScanExamples.
Import Ast Scan.

(** The term [c1.0 = c2.0] between two columns, and [c.0 = 5]. *)
Definition equivTerm (c1 c2 : Z) : WhereTerm :=
  set_prereqRight 1
    (set_left c1 0
       (set_eOperator (Z.lor WO_EQ WO_EQUIV)
          (freshTerm (eBin TK_EQ (eColumn c1 0) (eColumn c2 0)) 0))).

Definition constTerm (c : Z) : WhereTerm :=
  set_left c 0
    (set_eOperator WO_EQ (freshTerm (eBin TK_EQ (eColumn c 0) (eLeaf 5)) 0)).

(** A scan object in zeroed memory. *)
Definition zeroScan : WhereScan :=
  mkScan [] [] None 0 0 0 0 0 (replicate 22 0).

Definition anyAffinity : Expr -> Z -> bool := fun _ _ => true.
Definition binaryColl : Expr -> string := fun _ => "BINARY"%string.
Definition sameName : string -> string -> Z := fun _ _ => 0.

(** [c1 = c2 AND c2 = 5], scanned for [c1]. *)
Definition shortChain : Chain := [[equivTerm 1 2; constTerm 2]].

Definition shortScan : WhereScan :=
  match whereScanInit anyAffinity binaryColl sameName 12 zeroScan
          shortChain 1 0 WO_EQ None with
  | Some (_, s) => s
  | None => zeroScan
  end.

Lemma whereScan_equivalences_capped_witness :
  (exists r s1,
      whereScanInit anyAffinity binaryColl sameName 12 zeroScan shortChain
        (fst (1, 0)) (snd (1, 0)) WO_EQ None = Some (r, s1)
      /\ forall t, r = Some t -> withinTenHops shortChain (1, 0) t)
  /\ length (aEquiv shortScan) = 22%nat /\ nEquiv shortScan <= 22
  /\ exists r s',
       whereScanNext anyAffinity binaryColl sameName 12 shortScan
         = Some (r, s')
       /\ length (aEquiv s') = 22%nat /\ nEquiv s' <= 22
       /\ (forall t, r = Some t -> withinTenHops shortChain (1, 0) t)
       /\ (nEquiv shortScan = 22 ->
           aEquiv s' = aEquiv shortScan /\ nEquiv s' = 22).
Proof.
  apply (whereScan_equivalences_capped anyAffinity binaryColl sameName
           shortChain (1, 0) zeroScan WO_EQ None shortScan).
  - reflexivity.
  - apply (ss_init anyAffinity binaryColl sameName shortChain (1, 0)
             12 zeroScan WO_EQ None (equivTerm 1 2) shortScan).
    + reflexivity.
    + vm_compute. reflexivity.
Defined.

(** [c1 = c2 AND c2 = c3 AND ... AND c12 = c13]: twelve equalities in a
    row, followed by one constant constraint on column [c]. *)
Definition longChain (c : Z) : Chain :=
  [ map (fun i => equivTerm i (i + 1)) [1; 2; 3; 4; 5; 6; 7; 8; 9; 10; 11; 12]
    ++ [constTerm c] ].

(** The constant on [c11], ten hops from [c1], is found; the constant on
    [c12], eleven hops away, is not: the search falls back on [c1 = c2]. *)
Example findTerm_ten_hops :
  findTerm anyAffinity binaryColl sameName 40 12 zeroScan (longChain 11)
    1 0 0 WO_EQ None = Some (Some (constTerm 11)).
Proof. vm_compute. reflexivity. Qed.

Example findTerm_eleven_hops :
  findTerm anyAffinity binaryColl sameName 40 12 zeroScan (longChain 12)
    1 0 0 WO_EQ None = Some (Some (equivTerm 1 2)).
Proof. vm_compute. reflexivity. Qed.

End ScanExamples.

(** ** TermAnalyser: [exprAnalyze] and its helpers *)

Module Analyse.
Import Ast MaskSet.

(** The collaborators of the analyser outside [where.c], and the state of
    the compilation it reads: the mask set of the [WhereInfo];
    [sqlite4ExprAffinity] and the value of [SQLITE4_AFF_TEXT]; whether
    [sqlite4ExprCollSeq] finds a collating sequence;
    [sqlite4IsLikeFunction] with the [noCase] flag and the three wildcard
    bytes it reports; [IsVirtual] on the table of a column;
    [sqlite4ExprSetCollByToken]; the text bound to a variable in the
    statement under re-preparation; the byte table [sqlite4UpperToLower];
    [sqlite4_stricmp] against the name "match"; the switches
    [SQLITE4_Transitive] and [SQLITE4_Stat3] and the build option
    [SQLITE4_ENABLE_STAT3]. *)
Record Env := mkEnv {
  sMaskSet : WhereMaskSet;
  sqlite4ExprAffinity : Expr -> Z;
  SQLITE4_AFF_TEXT : Z;
  sqlite4ExprCollSeq : Expr -> bool;
  sqlite4IsLikeFunction : Expr -> option (bool * (Z * Z * Z));
  IsVirtual : Expr -> bool;
  sqlite4ExprSetCollByToken : Expr -> string -> Expr;
  boundText : Z -> option (list Z);
  sqlite4UpperToLower : Z -> Z;
  isMatchName : list Z -> bool;
  optTransitive : bool;
  optStat3 : bool;
  buildStat3 : bool
}.

(** [exprTableUsage], [exprListTableUsage] and, through the flattened
    [xList], [exprSelectTableUsage]. *)
Fixpoint exprTableUsage (ms : WhereMaskSet) (p : Expr) : Z :=
  match p with
  | mkExpr o _ it _ _ _ _ _ _ _ l r xs =>
      if tk_is o TK_COLUMN then getMask ms it
      else
        let mask := match r with Some e => exprTableUsage ms e | None => 0 end in
        let mask :=
          Z.lor mask (match l with Some e => exprTableUsage ms e | None => 0 end) in
        Z.lor mask
          ((fix listUsage (es : list Expr) : Z :=
              match es with
              | [] => 0
              | e :: rest => Z.lor (exprTableUsage ms e) (listUsage rest)
              end) xs)
  end.

Definition exprUsage (ms : WhereMaskSet) (p : option Expr) : Z :=
  match p with Some e => exprTableUsage ms e | None => 0 end.

Definition exprListTableUsage (ms : WhereMaskSet) (es : list Expr) : Z :=
  fold_right (fun e m => Z.lor (exprTableUsage ms e) m) 0 es.

(** [allowedOp]. *)
Definition allowedOp (o : Token) : bool :=
  match o with
  | TK_IN | TK_EQ | TK_GT | TK_LE | TK_LT | TK_GE | TK_ISNULL => true
  | _ => false
  end.

(** [operatorMask], on an allowed operator. *)
Definition operatorMask (o : Token) : Z :=
  match o with
  | TK_IN => WO_IN
  | TK_ISNULL => WO_ISNULL
  | _ =>
      match tkOrd o with
      | Some d => u16 (Z.shiftl WO_EQ d)
      | None => 0
      end
  end.

Definition set_expCollate (v : bool) (e : Expr) : Expr :=
  mkExpr (op e) (op2 e) (iTable e) (iColumn e) (iRightJoinTable e)
         (fromJoin e) v (xIsSelect e) (zToken e) (zColl e)
         (pLeft e) (pRight e) (xList e).

(** [((op-TK_GT)^2)+TK_GT] on the operators from [TK_GT] to [TK_GE]. *)
Definition commuteOp (o : Token) : Token :=
  match o with
  | TK_GT => TK_LT
  | TK_LT => TK_GT
  | TK_LE => TK_GE
  | TK_GE => TK_LE
  | other => other
  end.

(** [exprCommute]. *)
Definition exprCommute (env : Env) (e : Expr) : Expr :=
  let r := deref (pRight e) in
  let l := deref (pLeft e) in
  let '(l, r) :=
    if eqb (expCollate r) (expCollate l) then
      if expCollate r then (l, set_expCollate false r)
      else if sqlite4ExprCollSeq env l then (set_expCollate true l, r)
      else (l, r)
    else (l, r) in
  mkExpr (commuteOp (op e)) (op2 e) (iTable e) (iColumn e)
         (iRightJoinTable e) (fromJoin e) (expCollate e) (xIsSelect e)
         (zToken e) (zColl e) (Some r) (Some l) (xList e).

(** [whereClauseInsert], with the allocation succeeding: the new clause
    and the index of the new term. *)
Definition whereClauseInsert (pWC : WhereClause) (p : Expr) (flags : Z)
  : WhereClause * nat :=
  ({| wcOp := wcOp pWC; a := a pWC ++ [freshTerm p flags];
      pOuter := pOuter pWC |},
   length (a pWC)).

(** [whereSplit]: the terms that the split of [pExpr] by [o] appends. *)
Fixpoint splitTerms (o : Token) (pExpr : Expr) : list WhereTerm :=
  match pExpr with
  | mkExpr eo _ _ _ _ _ _ _ _ _ l r _ =>
      if negb (tk_is eo o) then [freshTerm pExpr 0]
      else
        (match l with Some e => splitTerms o e | None => [] end)
        ++ (match r with Some e => splitTerms o e | None => [] end)
  end.

Definition whereSplit (pWC : WhereClause) (pExpr : option Expr) (o : Token)
  : WhereClause :=
  {| wcOp := o;
     a := a pWC ++ match pExpr with Some e => splitTerms o e | None => [] end;
     pOuter := pOuter pWC |}.

(** [whereClauseInit]. *)
Definition whereClauseInit : WhereClause :=
  {| wcOp := TK_OTHER 0; a := []; pOuter := false |}.

(** Update of the term [pWC->a[i]]. *)
Definition updTerm (pWC : WhereClause) (i : nat) (f : WhereTerm -> WhereTerm)
  : WhereClause :=
  {| wcOp := wcOp pWC; a := alter f i (a pWC); pOuter := pOuter pWC |}.

Definition getTerm (pWC : WhereClause) (i : nat) : WhereTerm :=
  default noTerm (a pWC !! i).

(** The byte [z[i]] of a C string kept as the list of its bytes. *)
Definition byteAt (z : list Z) (i : Z) : Z := aget 0 z i.

(** The loop of [isLikeOrGlob] that counts the bytes before the first
    wildcard. *)
Fixpoint prefixLen (w0 w1 w2 : Z) (z : list Z) : Z :=
  match z with
  | [] => 0
  | c :: rest =>
      if negb (c =? 0) && negb (c =? w0) && negb (c =? w1) && negb (c =? w2)
      then 1 + prefixLen w0 w1 w2 rest
      else 0
  end.

(** The text [z] that [isLikeOrGlob] reads off the right operand: the
    text bound to a variable, or the token of a string literal. *)
Definition likePattern (env : Env) (pRight : Expr) : option (list Z) :=
  let o := if tk_is (op pRight) TK_REGISTER then op2 pRight
           else op pRight in
  if tk_is o TK_VARIABLE then boundText env (iColumn pRight)
  else if tk_is o TK_STRING then Some (zToken pRight)
  else None.

(** [isLikeOrGlob]: [Some (pPrefix, isComplete, noCase)] when it returns
    true. *)
Definition isLikeOrGlob (env : Env) (pExpr : Expr)
  : option (Expr * bool * bool) :=
  match sqlite4IsLikeFunction env pExpr with
  | None => None
  | Some (noCase, (w0, w1, w2)) =>
      let pLeft := default nullExpr (xList pExpr !! 1%nat) in
      if negb (tk_is (op pLeft) TK_COLUMN)
         || negb (sqlite4ExprAffinity env pLeft =? SQLITE4_AFF_TEXT env)
         || IsVirtual env pLeft
      then None
      else
        let pRight := default nullExpr (xList pExpr !! 0%nat) in
        match likePattern env pRight with
        | None => None
        | Some z =>
            let cnt := prefixLen w0 w1 w2 z in
            if negb (cnt =? 0) && negb (255 =? u8 (byteAt z (cnt - 1))) then
              let c := byteAt z cnt in
              let isComplete := (c =? w0) && (byteAt z (cnt + 1) =? 0) in
              Some (eString (take (Z.to_nat cnt) z), isComplete, noCase)
            else None
        end
  end.

(** [isMatchOfColumn]. *)
Definition isMatchOfColumn (env : Env) (pExpr : Expr) : bool :=
  tk_is (op pExpr) TK_FUNCTION
  && isMatchName env (zToken pExpr)
  && (length (xList pExpr) =? 2)%nat
  && tk_is (op (default nullExpr (xList pExpr !! 1%nat))) TK_COLUMN.

(** [transferJoinMarkings]. *)
Definition transferJoinMarkings (pDerived pBase : Expr) : Expr :=
  mkExpr (op pDerived) (op2 pDerived) (iTable pDerived) (iColumn pDerived)
         (iRightJoinTable pBase) (fromJoin pDerived || fromJoin pBase)
         (expCollate pDerived) (xIsSelect pDerived) (zToken pDerived)
         (zColl pDerived) (pLeft pDerived) (pRight pDerived) (xList pDerived).

(** [wtFlags &= ~bit] and [wtFlags |= bit] on the 8-bit flag byte. *)
Definition clearFlag (bit : Z) (t : WhereTerm) : WhereTerm :=
  set_wtFlags (Z.land (wtFlags t) (Z.lnot bit)) t.
Definition raiseFlag (bit : Z) (t : WhereTerm) : WhereTerm :=
  set_wtFlags (Z.lor (wtFlags t) bit) t.

(** The arm of [exprAnalyze] for an allowed operator: the left column,
    and the commuted copy or the commutation in place when the right-hand
    side is a column.  The commutation in place (left side not a column)
    writes to the [Expr] that the enclosing expression points to as well;
    here only the expression of the term changes, the terms holding their
    expressions by value.  The properties below concern terms whose left
    side is a column of a cursor [>= 0], which take the copy. *)
Definition analyzeCompare (env : Env) (pWC : WhereClause) (idxTerm : nat)
    (prereqLeft prereqAll extraRight : Z) : WhereClause :=
  let pTerm := getTerm pWC idxTerm in
  let pExpr := pExpr pTerm in
  let pLeft := deref (sqlite4ExprSkipCollate (pLeft pExpr)) in
  let pRight := sqlite4ExprSkipCollate (pRight pExpr) in
  let opMask :=
    if Z.land (prereqRight pTerm) prereqLeft =? 0 then WO_ALL else WO_EQUIV in
  let wc1 :=
    if tk_is (op pLeft) TK_COLUMN then
      updTerm pWC idxTerm
        (fun t => set_eOperator (Z.land (operatorMask (op pExpr)) opMask)
                    (set_left (iTable pLeft) (iColumn pLeft) t))
    else pWC in
  match pRight with
  | None => wc1
  | Some pR =>
      if negb (tk_is (op pR) TK_COLUMN) then wc1
      else
        let '(wc2, target, eExtraOp) :=
          if leftCursor (getTerm wc1 idxTerm) >=? 0 then
            let '(wcA, idxNew) :=
              whereClauseInsert wc1 pExpr (Z.lor TERM_VIRTUAL TERM_DYNAMIC) in
            let wcB := updTerm wcA idxNew (set_iParent (Z.of_nat idxTerm)) in
            let wcC :=
              updTerm wcB idxTerm
                (fun t => raiseFlag TERM_COPIED (set_nChild 1 t)) in
            if tk_is (op pExpr) TK_EQ && negb (fromJoin pExpr)
               && optTransitive env
            then (updTerm wcC idxTerm
                    (fun t => set_eOperator (Z.lor (eOperator t) WO_EQUIV) t),
                  idxNew, WO_EQUIV)
            else (wcC, idxNew, 0)
          else (wc1, idxTerm, 0) in
        let pDup := exprCommute env pExpr in
        let pL := deref (sqlite4ExprSkipCollate (Ast.pLeft pDup)) in
        updTerm wc2 target
          (fun t =>
             set_eOperator
               (Z.land (operatorMask (op pDup) + eExtraOp) opMask)
               (set_prereqAll prereqAll
                  (set_prereqRight (Z.lor prereqLeft extraRight)
                     (set_left (iTable pL) (iColumn pL)
                        (set_pExpr pDup t)))))
  end.

(** [sqlite4Strlen30] on the bytes of a token. *)
Definition strlen30 (z : list Z) : Z := prefixLen 0 0 0 z.

(** The term that the MATCH and IS NOT NULL arms fill in by hand. *)
Definition handTerm (cur col eOp parent pr pa : Z) (t : WhereTerm)
  : WhereTerm :=
  set_prereqAll pa
    (set_iParent parent
       (set_eOperator eOp (set_left cur col (set_prereqRight pr t)))).

Section OrTerm.

Variable env : Env.

(** The analyser for the terms of a clause, as the recursive calls see
    it; [None] when its fuel runs out. *)
Variable analyze : WhereClause -> nat -> option WhereClause.

(** The flags of a synthesised term. *)
Definition vd : Z := Z.lor TERM_VIRTUAL TERM_DYNAMIC.

(** [whereClauseInsert] followed by [exprAnalyze] on the new term. *)
Definition child (wc : WhereClause) (e : Expr) (flags : Z)
  : option (WhereClause * nat) :=
  let '(wcA, idxNew) := whereClauseInsert wc e flags in
  match analyze wcA idxNew with
  | Some wcB => Some (wcB, idxNew)
  | None => None
  end.

(** The opening of [exprAnalyze]: [prereqLeft], [pTerm->prereqRight],
    [prereqAll] and [extraRight] of the expression of the term. *)
Definition prereqLeftOf (e : Expr) : Z := exprUsage (sMaskSet env) (pLeft e).

Definition prereqRightOf (e : Expr) : Z :=
  if tk_is (op e) TK_IN then exprListTableUsage (sMaskSet env) (xList e)
  else if tk_is (op e) TK_ISNULL then 0
  else exprUsage (sMaskSet env) (pRight e).

Definition prereqAllOf (e : Expr) : Z :=
  if fromJoin e
  then Z.lor (exprTableUsage (sMaskSet env) e)
             (getMask (sMaskSet env) (iRightJoinTable e))
  else exprTableUsage (sMaskSet env) e.

Definition extraRightOf (e : Expr) : Z :=
  if fromJoin e then u64 (getMask (sMaskSet env) (iRightJoinTable e) - 1)
  else 0.

(** The fields that [exprAnalyze] sets before it looks at the operator. *)
Definition beginTerm (e : Expr) (t : WhereTerm) : WhereTerm :=
  set_eOperator 0
    (set_iParent (-1)
       (set_leftCursor (-1)
          (set_prereqAll (prereqAllOf e) (set_prereqRight (prereqRightOf e) t)))).

(** The BETWEEN arm. *)
Definition betweenArm (wc0 : WhereClause) (idxTerm : nat) (e : Expr)
  : option WhereClause :=
  let lo := default nullExpr (xList e !! 0%nat) in
  let hi := default nullExpr (xList e !! 1%nat) in
  match child wc0 (sqlite4PExpr TK_GE (pLeft e) (Some lo)) vd with
  | None => None
  | Some (wcA, i1) =>
      let wcA := updTerm wcA i1 (set_iParent (Z.of_nat idxTerm)) in
      match child wcA (sqlite4PExpr TK_LE (pLeft e) (Some hi)) vd with
      | None => None
      | Some (wcB, i2) =>
          let wcB := updTerm wcB i2 (set_iParent (Z.of_nat idxTerm)) in
          Some (updTerm wcB idxTerm (set_nChild 2))
      end
  end.

(** The upper bound of the LIKE rewrite: the prefix with its last byte,
    folded to lower case under [noCase], incremented. *)
Definition likeUpper (noCase : bool) (z : list Z) : list Z :=
  let iC := strlen30 z - 1 in
  let c := u8 (byteAt z iC) in
  let c := if noCase then u8 (sqlite4UpperToLower env c) else c in
  if iC <? 0 then z else <[Z.to_nat iC := u8 (c + 1)]> z.

Definition likeCollation (noCase : bool) : string :=
  if noCase then "NOCASE"%string else "BINARY"%string.

(** The LIKE arm, for a term of a clause split by [wcOp]. *)
Definition likeArm (wcOp : Token) (wc1 : WhereClause) (idxTerm : nat)
  : option WhereClause :=
  let e := pExpr (getTerm wc1 idxTerm) in
  if tk_is wcOp TK_AND then
    match isLikeOrGlob env e with
    | None => Some wc1
    | Some (pStr1, isComplete, noCase) =>
        let pL := default nullExpr (xList e !! 1%nat) in
        let z := zToken pStr1 in
        let c := u8 (byteAt z (strlen30 z - 1)) in
        let isComplete := if noCase && (c =? 64) then false else isComplete in
        let pStr2 := eString (likeUpper noCase z) in
        let lhs := sqlite4ExprSetCollByToken env pL (likeCollation noCase) in
        match child wc1 (sqlite4PExpr TK_GE (Some lhs) (Some pStr1)) vd with
        | None => None
        | Some (wcA, i1) =>
            match child wcA (sqlite4PExpr TK_LT (Some lhs) (Some pStr2)) vd with
            | None => None
            | Some (wcB, i2) =>
                if isComplete then
                  Some (updTerm
                          (updTerm
                             (updTerm wcB i1 (set_iParent (Z.of_nat idxTerm)))
                             i2 (set_iParent (Z.of_nat idxTerm)))
                          idxTerm (set_nChild 2))
                else Some wcB
            end
        end
    end
  else Some wc1.

(** The MATCH arm. *)
Definition matchArm (wc2 : WhereClause) (idxTerm : nat) : WhereClause :=
  let e := pExpr (getTerm wc2 idxTerm) in
  if isMatchOfColumn env e then
    let pR := default nullExpr (xList e !! 0%nat) in
    let pL := default nullExpr (xList e !! 1%nat) in
    let prereqExpr := exprTableUsage (sMaskSet env) pR in
    let prereqColumn := exprTableUsage (sMaskSet env) pL in
    if Z.land prereqExpr prereqColumn =? 0 then
      let '(wcA, idxNew) :=
        whereClauseInsert wc2 (sqlite4PExpr TK_MATCH None (Some pR)) vd in
      let wcB :=
        updTerm wcA idxTerm
          (fun t => raiseFlag TERM_COPIED (set_nChild 1 t)) in
      updTerm wcB idxNew
        (handTerm (iTable pL) (iColumn pL) WO_MATCH (Z.of_nat idxTerm)
                  prereqExpr (prereqAll (getTerm wcB idxTerm)))
    else wc2
  else wc2.

(** The IS NOT NULL arm of a build with [SQLITE4_ENABLE_STAT3]. *)
Definition notNullArm (wc3 : WhereClause) (idxTerm : nat) : WhereClause :=
  let e := pExpr (getTerm wc3 idxTerm) in
  if buildStat3 env
     && tk_is (op e) TK_NOTNULL
     && tk_is (op (deref (pLeft e))) TK_COLUMN
     && (iColumn (deref (pLeft e)) >=? 0)
     && optStat3 env
  then
    let pL := deref (pLeft e) in
    let '(wcA, idxNew) :=
      whereClauseInsert wc3
        (sqlite4PExpr TK_GT (Some pL) (Some (sqlite4PExpr TK_NULL None None)))
        (Z.lor vd (TERM_VNULL (buildStat3 env))) in
    if (idxNew =? 0)%nat then wcA
    else
      let wcB :=
        updTerm wcA idxTerm
          (fun t => raiseFlag TERM_COPIED (set_nChild 1 t)) in
      updTerm wcB idxNew
        (handTerm (iTable pL) (iColumn pL) WO_GT (Z.of_nat idxTerm) 0
                  (prereqAll (getTerm wcB idxTerm)))
  else wc3.

(** [exprAnalyzeAll]: the terms [n-1] down to 0. *)
Fixpoint analyzeFrom (n : nat) (pWC : WhereClause) : option WhereClause :=
  match n with
  | O => Some pWC
  | S i =>
      match analyze pWC i with
      | Some wc' => analyzeFrom i wc'
      | None => None
      end
  end.

Definition exprAnalyzeAll (pWC : WhereClause) : option WhereClause :=
  analyzeFrom (length (a pWC)) pWC.

(** The mask [b] of an AND sub-term: the tables of its conjuncts with an
    allowed operator. *)
Definition andMask (terms : list WhereTerm) : Z :=
  fold_left
    (fun b t =>
       if allowedOp (op (pExpr t))
       then Z.lor b (getMask (sMaskSet env) (leftCursor t)) else b)
    terms 0.

(** The loop "Compute the set of tables that might satisfy cases 1 or 2"
    from sub-term [i], with [cnt] sub-terms left.  Yields the sub-terms,
    [indexable] and [chngToIN]. *)
Fixpoint orTermsLoop (cnt : nat) (terms : list WhereTerm) (i : nat)
    (indexable chngToIN : Z) : option (list WhereTerm * Z * Z) :=
  match cnt with
  | O => Some (terms, indexable, chngToIN)
  | S cnt' =>
      if indexable =? 0 then Some (terms, indexable, chngToIN)
      else
        let pOrTerm := default noTerm (terms !! i) in
        if Z.land (eOperator pOrTerm) WO_SINGLE =? 0 then
          match exprAnalyzeAll
                  (whereSplit whereClauseInit (Some (pExpr pOrTerm)) TK_AND)
          with
          | None => None
          | Some andWC =>
              let andWC := {| wcOp := wcOp andWC; a := a andWC;
                              pOuter := true |} in
              let b := andMask (a andWC) in
              let t' :=
                set_eOperator WO_AND
                  (raiseFlag TERM_ANDINFO (set_sub UAndInfo andWC 0 pOrTerm)) in
              orTermsLoop cnt' (<[i := t']> terms) (S i)
                          (Z.land indexable b) 0
          end
        else if has (wtFlags pOrTerm) TERM_COPIED then
          orTermsLoop cnt' terms (S i) indexable chngToIN
        else
          let b := getMask (sMaskSet env) (leftCursor pOrTerm) in
          let b :=
            if has (wtFlags pOrTerm) TERM_VIRTUAL then
              let pOther :=
                default noTerm
                  (if iParent pOrTerm <? 0 then None
                   else terms !! Z.to_nat (iParent pOrTerm)) in
              Z.lor b (getMask (sMaskSet env) (leftCursor pOther))
            else b in
          orTermsLoop cnt' terms (S i) (Z.land indexable b)
            (if Z.land (eOperator pOrTerm) WO_EQ =? 0 then 0
             else Z.land chngToIN b)
  end.

(** The search for a candidate table and column from sub-term [i] on;
    [Some i] on [break], [None] when the loop runs out ([i<0]). *)
Fixpoint findCandidate (cnt : nat) (terms : list WhereTerm) (i : nat)
    (iCursor chngToIN : Z) : list WhereTerm * option nat :=
  match cnt with
  | O => (terms, None)
  | S cnt' =>
      let pOrTerm := clearFlag TERM_OR_OK (default noTerm (terms !! i)) in
      let terms := <[i := pOrTerm]> terms in
      if leftCursor pOrTerm =? iCursor
      then findCandidate cnt' terms (S i) iCursor chngToIN
      else if Z.land chngToIN (getMask (sMaskSet env) (leftCursor pOrTerm)) =? 0
      then findCandidate cnt' terms (S i) iCursor chngToIN
      else (terms, Some i)
  end.

(** The check that the candidate is common to every sub-term, from
    sub-term [i] on; yields [okToChngToIN]. *)
Fixpoint checkCandidate (cnt : nat) (terms : list WhereTerm) (i : nat)
    (iCursor iColumn : Z) : list WhereTerm * bool :=
  match cnt with
  | O => (terms, true)
  | S cnt' =>
      let pOrTerm := default noTerm (terms !! i) in
      if negb (leftCursor pOrTerm =? iCursor) then
        checkCandidate cnt' (<[i := clearFlag TERM_OR_OK pOrTerm]> terms)
                       (S i) iCursor iColumn
      else if negb (leftColumn pOrTerm =? iColumn) then (terms, false)
      else
        let affRight :=
          sqlite4ExprAffinity env (deref (pRight (pExpr pOrTerm))) in
        let affLeft :=
          sqlite4ExprAffinity env (deref (pLeft (pExpr pOrTerm))) in
        if negb (affRight =? 0) && negb (affRight =? affLeft)
        then (terms, false)
        else
          checkCandidate cnt' (<[i := raiseFlag TERM_OR_OK pOrTerm]> terms)
                         (S i) iCursor iColumn
  end.

(** One round of the loop [for(j=0; j<2 && !okToChngToIN; j++)]: the
    sub-terms, [okToChngToIN], [iCursor] and [iColumn] afterwards, and
    whether the round left the loop by [break]. *)
Definition candidateRound (terms : list WhereTerm) (iCursor iColumn : Z)
    (chngToIN : Z) : list WhereTerm * bool * Z * Z * bool :=
  match findCandidate (length terms) terms 0 iCursor chngToIN with
  | (terms1, None) => (terms1, false, iCursor, iColumn, true)
  | (terms1, Some i) =>
      let c := default noTerm (terms1 !! i) in
      let '(terms2, ok) :=
        checkCandidate (length terms1 - i) terms1 i
                       (leftCursor c) (leftColumn c) in
      (terms2, ok, leftCursor c, leftColumn c, false)
  end.

(** The two rounds. *)
Definition chooseColumn (terms : list WhereTerm) (chngToIN : Z)
  : list WhereTerm * bool * Z * Z :=
  let '(terms1, ok, iCursor, iColumn, stop) :=
    candidateRound terms (-1) (-1) chngToIN in
  if stop || ok then (terms1, ok, iCursor, iColumn)
  else
    let '(terms2, ok2, iCursor2, iColumn2, _) :=
      candidateRound terms1 iCursor iColumn chngToIN in
    (terms2, ok2, iCursor2, iColumn2).

(** The list and the left-hand side of the IN operator, collected from
    the sub-terms that carry [TERM_OR_OK]. *)
Definition inOperands (terms : list WhereTerm) : list Expr * option Expr :=
  fold_left
    (fun acc t =>
       if has (wtFlags t) TERM_OR_OK
       then (fst acc ++ [deref (pRight (pExpr t))], pLeft (pExpr t))
       else acc)
    terms ([], None).

(** The expression [pNew] of the virtual IN term. *)
Definition inExpr (pExpr : Expr) (terms : list WhereTerm) : Expr :=
  let '(pList, pLeft) := inOperands terms in
  let pNew := sqlite4PExpr TK_IN pLeft None in
  let pNew := transferJoinMarkings pNew pExpr in
  mkExpr (op pNew) (op2 pNew) (iTable pNew) (iColumn pNew)
         (iRightJoinTable pNew) (fromJoin pNew) (expCollate pNew)
         (xIsSelect pNew) (zToken pNew) (zColl pNew) (Ast.pLeft pNew)
         (pRight pNew) pList.

(** The OR term with its [pOrInfo] holding the sub-terms [terms]. *)
Definition storeOrInfo (pOrWc : WhereClause) (terms : list WhereTerm)
    (indexable : Z) (t : WhereTerm) : WhereTerm :=
  set_sub UOrInfo
    {| wcOp := wcOp pOrWc; a := terms; pOuter := pOuter pOrWc |}
    indexable (raiseFlag TERM_ORINFO t).

(** [exprAnalyzeOrTerm], with every allocation succeeding.  The
    sub-terms hold their expressions by value: a disjunct that
    [exprCommute] turns around in place shows turned in its sub-term,
    while the expression of the OR term keeps it as it was. *)
Definition exprAnalyzeOrTerm (pWC : WhereClause) (idxTerm : nat)
  : option WhereClause :=
  let pExpr := pExpr (getTerm pWC idxTerm) in
  match exprAnalyzeAll (whereSplit whereClauseInit (Some pExpr) TK_OR) with
  | None => None
  | Some pOrWc =>
      match orTermsLoop (length (a pOrWc)) (a pOrWc) 0
              (bnot 0) (bnot 0) with
      | None => None
      | Some (terms, indexable, chngToIN) =>
          let eOp := if indexable =? 0 then 0 else WO_OR in
          if chngToIN =? 0 then
            Some (updTerm pWC idxTerm
                    (fun t => set_eOperator eOp
                                (storeOrInfo pOrWc terms indexable t)))
          else
            let '(terms, ok, _, _) := chooseColumn terms chngToIN in
            let wc0 :=
              updTerm pWC idxTerm
                (fun t => set_eOperator eOp
                            (storeOrInfo pOrWc terms indexable t)) in
            if ok then
              let '(wc1, idxNew) :=
                whereClauseInsert wc0 (inExpr pExpr terms)
                                  (Z.lor TERM_VIRTUAL TERM_DYNAMIC) in
              match analyze wc1 idxNew with
              | None => None
              | Some wc2 =>
                  let wc3 :=
                    updTerm wc2 idxNew (set_iParent (Z.of_nat idxTerm)) in
                  let wc4 := updTerm wc3 idxTerm (set_nChild 1) in
                  Some (updTerm wc4 idxTerm (set_eOperator WO_NOOP))
              end
            else Some wc0
      end
  end.

(** The body of [exprAnalyze] around its recursive calls. *)
Definition analyzeStep (pWC : WhereClause) (idxTerm : nat)
  : option WhereClause :=
  let e := pExpr (getTerm pWC idxTerm) in
  let wc0 := updTerm pWC idxTerm (beginTerm e) in
  let first :=
    if allowedOp (op e) then
      Some (analyzeCompare env wc0 idxTerm (prereqLeftOf e) (prereqAllOf e)
                           (extraRightOf e))
    else if tk_is (op e) TK_BETWEEN && tk_is (wcOp pWC) TK_AND then
      betweenArm wc0 idxTerm e
    else if tk_is (op e) TK_OR then exprAnalyzeOrTerm wc0 idxTerm
    else Some wc0 in
  match first with
  | None => None
  | Some wc1 =>
      match likeArm (wcOp pWC) wc1 idxTerm with
      | None => None
      | Some wc2 =>
          Some (updTerm (notNullArm (matchArm wc2 idxTerm) idxTerm) idxTerm
                  (fun t => set_prereqRight
                              (Z.lor (prereqRight t) (extraRightOf e)) t))
      end
  end.

End OrTerm.

(** [exprAnalyze], with every allocation succeeding; [None] when the fuel
    does not cover the nesting of the expression. *)
Fixpoint exprAnalyze (fuel : nat) (env : Env) (pWC : WhereClause)
    (idxTerm : nat) {struct fuel} : option WhereClause :=
  match fuel with
  | O => None
  | S fuel' => analyzeStep env (exprAnalyze fuel' env) pWC idxTerm
  end.

End Analyse.

(** ** Properties of the term analyser *)

Section AnalyseBasics.
Import Ast MaskSet Analyse.

Lemma getTerm_lookup (wc : WhereClause) (i : nat) (t : WhereTerm) :
  a wc !! i = Some t -> getTerm wc i = t.
Proof. intros H. unfold getTerm. now rewrite H. Qed.

Lemma lookup_updTerm_eq (wc : WhereClause) (i : nat) (f : WhereTerm -> WhereTerm)
    (t : WhereTerm) :
  a wc !! i = Some t -> a (updTerm wc i f) !! i = Some (f t).
Proof. intros H. cbn [a updTerm]. now rewrite list_lookup_alter_eq, H. Qed.

Lemma lookup_updTerm_ne (wc : WhereClause) (i j : nat)
    (f : WhereTerm -> WhereTerm) :
  i <> j -> a (updTerm wc i f) !! j = a wc !! j.
Proof. intros H. cbn [a updTerm]. now apply list_lookup_alter_ne. Qed.

Lemma length_updTerm (wc : WhereClause) (i : nat) (f : WhereTerm -> WhereTerm) :
  length (a (updTerm wc i f)) = length (a wc).
Proof. cbn [a updTerm]. apply length_alter. Qed.

Lemma updTerm_updTerm (wc : WhereClause) (i : nat)
    (f g : WhereTerm -> WhereTerm) :
  updTerm (updTerm wc i f) i g = updTerm wc i (g ∘ f).
Proof.
  unfold updTerm. cbn [wcOp a pOuter]. f_equal.
  apply list_alter_alter_eq.
Qed.

(** An update that leaves the expression, the flags and the child count
    of a term alone. *)
Definition keepsExpr (h : WhereTerm -> WhereTerm) : Prop :=
  forall t, pExpr (h t) = pExpr t /\ wtFlags (h t) = wtFlags t
            /\ nChild (h t) = nChild t.

Lemma skipCollate_plain (e : Expr) :
  tk_is (op e) TK_COLLATE = false -> tk_is (op e) TK_AS = false ->
  skipCollate e = Some e.
Proof. destruct e. cbn. intros -> ->. reflexivity. Qed.

Lemma tk_is_eq (o o' : Token) : o = o' -> tk_is o o' = true.
Proof. intros ->. unfold tk_is. now apply bool_decide_eq_true. Qed.

Lemma pExpr_freshTerm (e : Expr) (fl : Z) :
  tk_is (op e) TK_COLLATE = false -> tk_is (op e) TK_AS = false ->
  pExpr (freshTerm e fl) = e.
Proof.
  intros H1 H2. unfold freshTerm. cbn [pExpr sqlite4ExprSkipCollate].
  now rewrite skipCollate_plain.
Qed.

End AnalyseBasics.

Section AnalyseLeaf.
Import Ast MaskSet Analyse.

Variable env : Env.
Variable analyze : WhereClause -> nat -> option WhereClause.

(** What is assumed of [sqlite4IsLikeFunction]: it declines every
    expression that is not a function call. *)
Definition likeOnlyFunctions : Prop :=
  forall x, tk_is (op x) TK_FUNCTION = false ->
            sqlite4IsLikeFunction env x = None.

(** The term that [exprAnalyze] leaves for [X <op> expr] when the
    right-hand side is not a column. *)
Definition simpleResult (e : Expr) (t : WhereTerm) : WhereTerm :=
  let t0 := beginTerm env e t in
  let pL := deref (sqlite4ExprSkipCollate (pLeft e)) in
  let opMask :=
    if Z.land (prereqRightOf env e) (prereqLeftOf env e) =? 0 then WO_ALL
    else WO_EQUIV in
  let t1 :=
    if tk_is (op pL) TK_COLUMN then
      set_eOperator (Z.land (operatorMask (op e)) opMask)
        (set_left (iTable pL) (iColumn pL) t0)
    else t0 in
  set_prereqRight (Z.lor (prereqRight t1) (extraRightOf env e)) t1.

Lemma simpleResult_keeps (e : Expr) : keepsExpr (simpleResult e).
Proof.
  intros t. unfold simpleResult.
  destruct (tk_is (op (deref (sqlite4ExprSkipCollate (pLeft e)))) TK_COLUMN);
    cbn; auto.
Qed.

Lemma allowedOp_not_special (o : Token) :
  allowedOp o = true ->
  tk_is o TK_FUNCTION = false /\ tk_is o TK_NOTNULL = false.
Proof. destruct o; cbn; try discriminate; auto. Qed.

Lemma likeArm_declines (o : Token) (wc : WhereClause) (i : nat) :
  likeOnlyFunctions ->
  tk_is (op (pExpr (getTerm wc i))) TK_FUNCTION = false ->
  likeArm env analyze o wc i = Some wc.
Proof.
  intros Hlike Hop. unfold likeArm. destruct (tk_is o TK_AND); [|reflexivity].
  unfold isLikeOrGlob. now rewrite (Hlike _ Hop).
Qed.

Lemma matchArm_declines (wc : WhereClause) (i : nat) :
  isMatchOfColumn env (pExpr (getTerm wc i)) = false ->
  matchArm env wc i = wc.
Proof. intros H. unfold matchArm. now rewrite H. Qed.

Lemma notNullArm_declines (wc : WhereClause) (i : nat) :
  tk_is (op (pExpr (getTerm wc i))) TK_NOTNULL = false ->
  notNullArm env wc i = wc.
Proof.
  intros H. unfold notNullArm. rewrite H.
  now destruct (buildStat3 env).
Qed.

Lemma isMatchOfColumn_function (e : Expr) :
  tk_is (op e) TK_FUNCTION = false -> isMatchOfColumn env e = false.
Proof. intros H. unfold isMatchOfColumn. now rewrite H. Qed.

Lemma analyzeStep_simple (wc : WhereClause) (i : nat) (t : WhereTerm) :
  likeOnlyFunctions ->
  a wc !! i = Some t ->
  allowedOp (op (pExpr t)) = true ->
  (sqlite4ExprSkipCollate (pRight (pExpr t)) = None
   \/ exists r, sqlite4ExprSkipCollate (pRight (pExpr t)) = Some r
                /\ tk_is (op r) TK_COLUMN = false) ->
  analyzeStep env analyze wc i
  = Some (updTerm wc i (simpleResult (pExpr t))).
Proof.
  intros Hlike Ht Hop Hright.
  destruct (allowedOp_not_special _ Hop) as [Hf Hn].
  unfold analyzeStep. rewrite (getTerm_lookup wc i t Ht), Hop.
  set (e := pExpr t) in *.
  set (wc0 := updTerm wc i (beginTerm env e)).
  assert (H0 : a wc0 !! i = Some (beginTerm env e t))
    by (apply lookup_updTerm_eq; exact Ht).
  assert (Hcmp : analyzeCompare env wc0 i (prereqLeftOf env e)
                   (prereqAllOf env e) (extraRightOf env e)
                 = updTerm wc i
                     (fun t =>
                        let t0 := beginTerm env e t in
                        let pL := deref (sqlite4ExprSkipCollate (pLeft e)) in
                        let opMask :=
                          if Z.land (prereqRightOf env e) (prereqLeftOf env e)
                             =? 0 then WO_ALL else WO_EQUIV in
                        if tk_is (op pL) TK_COLUMN then
                          set_eOperator (Z.land (operatorMask (op e)) opMask)
                            (set_left (iTable pL) (iColumn pL) t0)
                        else t0)).
  { unfold analyzeCompare. rewrite (getTerm_lookup wc0 i _ H0).
    cbn [pExpr beginTerm set_eOperator set_iParent set_leftCursor
         set_prereqAll set_prereqRight prereqRight]. fold e.
    assert (Hw : (if tk_is (op (deref (sqlite4ExprSkipCollate (pLeft e))))
                       TK_COLUMN
                  then updTerm wc0 i
                         (fun t0 =>
                            set_eOperator
                              (Z.land (operatorMask (op e))
                                 (if Z.land (prereqRightOf env e)
                                       (prereqLeftOf env e) =? 0
                                  then WO_ALL else WO_EQUIV))
                              (set_left
                                 (iTable (deref (sqlite4ExprSkipCollate (pLeft e))))
                                 (iColumn (deref (sqlite4ExprSkipCollate (pLeft e))))
                                 t0))
                  else wc0)
                 = updTerm wc i
                     (fun t =>
                        if tk_is (op (deref (sqlite4ExprSkipCollate (pLeft e))))
                             TK_COLUMN
                        then set_eOperator
                               (Z.land (operatorMask (op e))
                                  (if Z.land (prereqRightOf env e)
                                        (prereqLeftOf env e) =? 0
                                   then WO_ALL else WO_EQUIV))
                               (set_left
                                  (iTable (deref (sqlite4ExprSkipCollate (pLeft e))))
                                  (iColumn (deref (sqlite4ExprSkipCollate (pLeft e))))
                                  (beginTerm env e t))
                        else beginTerm env e t)).
    { destruct (tk_is (op (deref (sqlite4ExprSkipCollate (pLeft e)))) TK_COLUMN).
      - unfold wc0. now rewrite updTerm_updTerm.
      - reflexivity. }
    destruct Hright as [Hr|(r & Hr & Hrc)]; rewrite Hr.
    - exact Hw.
    - rewrite Hrc. cbn [negb]. exact Hw. }
  rewrite Hcmp. clear Hcmp.
  match goal with |- context [updTerm wc i ?h] => set (h1 := h) end.
  assert (H1 : a (updTerm wc i h1) !! i = Some (h1 t))
    by (apply lookup_updTerm_eq; exact Ht).
  assert (He1 : pExpr (getTerm (updTerm wc i h1) i) = e).
  { rewrite (getTerm_lookup _ _ _ H1). subst h1. cbv beta zeta.
    destruct (tk_is (op (deref (sqlite4ExprSkipCollate (pLeft e)))) TK_COLUMN);
      reflexivity. }
  rewrite likeArm_declines by (try assumption; now rewrite He1).
  rewrite matchArm_declines
    by (apply isMatchOfColumn_function; now rewrite He1).
  rewrite notNullArm_declines by now rewrite He1.
  rewrite updTerm_updTerm. f_equal.
Qed.

End AnalyseLeaf.

(** ** The LIKE prefix rewrite *)

Section LikeRewrite.
Import Ast MaskSet Analyse.

Variable env : Env.

(** The clause with one more term at its end. *)
Definition pushTerm (wc : WhereClause) (t : WhereTerm) : WhereClause :=
  {| wcOp := wcOp wc; a := a wc ++ [t]; pOuter := pOuter wc |}.

Lemma updTerm_pushTerm (wc : WhereClause) (t : WhereTerm)
    (h : WhereTerm -> WhereTerm) :
  updTerm (pushTerm wc t) (length (a wc)) h = pushTerm wc (h t).
Proof.
  unfold updTerm, pushTerm. cbn [wcOp a pOuter]. f_equal.
  rewrite alter_app_r_alt by lia. now rewrite Nat.sub_diag.
Qed.

Lemma exprAnalyze_S (f : nat) (wc : WhereClause) (i : nat) :
  exprAnalyze (S f) env wc i = analyzeStep env (exprAnalyze f env) wc i.
Proof. reflexivity. Qed.

(** A synthesised comparison against something that is not a column is
    appended and analysed in one level of recursion. *)
Lemma child_simple (f : nat) (wc : WhereClause) (e' r : Expr) (fl : Z) :
  likeOnlyFunctions env ->
  tk_is (op e') TK_COLLATE = false -> tk_is (op e') TK_AS = false ->
  allowedOp (op e') = true ->
  sqlite4ExprSkipCollate (pRight e') = Some r ->
  tk_is (op r) TK_COLUMN = false ->
  child (exprAnalyze (S f) env) wc e' fl
  = Some (pushTerm wc (simpleResult env e' (freshTerm e' fl)),
          length (a wc)).
Proof.
  intros Hlike Hc Has Hop Hr Hrc. unfold child.
  change (whereClauseInsert wc e' fl)
    with (pushTerm wc (freshTerm e' fl), length (a wc)).
  cbv beta iota. rewrite exprAnalyze_S.
  assert (Hnew : a (pushTerm wc (freshTerm e' fl)) !! length (a wc)
                 = Some (freshTerm e' fl)).
  { cbn [a pushTerm]. rewrite lookup_app_r, Nat.sub_diag by lia.
    reflexivity. }
  assert (He : pExpr (freshTerm e' fl) = e') by now apply pExpr_freshTerm.
  rewrite (analyzeStep_simple env _ _ _ _ Hlike Hnew).
  - rewrite He, updTerm_pushTerm. reflexivity.
  - now rewrite He.
  - right. exists r. now rewrite He.
Qed.

Lemma prefixLen_nonneg (w0 w1 w2 : Z) (z : list Z) : 0 <= prefixLen w0 w1 w2 z.
Proof.
  induction z as [|c rest IH]; cbn [prefixLen]; [lia|].
  destruct (negb (c =? 0) && negb (c =? w0) && negb (c =? w1)
            && negb (c =? w2)); lia.
Qed.

(** The prefix that [isLikeOrGlob] cuts off holds no terminator, so its
    [sqlite4Strlen30] is its length. *)
Lemma strlen30_prefix (w0 w1 w2 : Z) (z : list Z) :
  strlen30 (take (Z.to_nat (prefixLen w0 w1 w2 z)) z) = prefixLen w0 w1 w2 z.
Proof.
  unfold strlen30. induction z as [|c rest IH]; cbn [prefixLen]; [reflexivity|].
  destruct (negb (c =? 0) && negb (c =? w0) && negb (c =? w1)
            && negb (c =? w2)) eqn:Hc.
  - pose proof (prefixLen_nonneg w0 w1 w2 rest) as Hn.
    replace (Z.to_nat (1 + prefixLen w0 w1 w2 rest))
      with (S (Z.to_nat (prefixLen w0 w1 w2 rest))) by lia.
    cbn [take prefixLen].
    assert (H0 : negb (c =? 0) = true).
    { destruct (negb (c =? 0)); [reflexivity|discriminate]. }
    rewrite H0. cbn [andb]. now rewrite IH.
  - reflexivity.
Qed.

Lemma byteAt_prefix (k : Z) (z : list Z) (i : Z) :
  0 <= i < k -> byteAt (take (Z.to_nat k) z) i = byteAt z i.
Proof.
  intros Hi. unfold byteAt, aget.
  destruct (i <? 0); [reflexivity|].
  now rewrite lookup_take_lt by lia.
Qed.

(** The last byte of the prefix, folded to lower case under [noCase]. *)
Definition foldedLast (noCase : bool) (last : Z) : Z :=
  if noCase then u8 (sqlite4UpperToLower env last) else last.

Lemma likeUpper_prefix (noCase : bool) (w0 w1 w2 : Z) (z : list Z) :
  prefixLen w0 w1 w2 z <> 0 ->
  let cnt := prefixLen w0 w1 w2 z in
  let prefix := take (Z.to_nat cnt) z in
  likeUpper env noCase prefix
  = <[Z.to_nat (cnt - 1) :=
        u8 (foldedLast noCase (u8 (byteAt z (cnt - 1))) + 1)]> prefix.
Proof.
  intros Hne cnt prefix. pose proof (prefixLen_nonneg w0 w1 w2 z) as Hn.
  unfold likeUpper. subst prefix cnt. rewrite strlen30_prefix.
  destruct (prefixLen w0 w1 w2 z - 1 <? 0) eqn:Hlt; [lia|].
  rewrite byteAt_prefix by lia. reflexivity.
Qed.

(** What [isLikeOrGlob] answers for a LIKE or GLOB call on a text column
    of an ordinary table whose pattern has the text [z]. *)
Lemma isLikeOrGlob_cases (e col pat : Expr) (noCase : bool) (w0 w1 w2 : Z)
    (z : list Z) :
  sqlite4IsLikeFunction env e = Some (noCase, (w0, w1, w2)) ->
  xList e !! 0%nat = Some pat -> xList e !! 1%nat = Some col ->
  op col = TK_COLUMN ->
  sqlite4ExprAffinity env col = SQLITE4_AFF_TEXT env ->
  IsVirtual env col = false ->
  likePattern env pat = Some z ->
  let cnt := prefixLen w0 w1 w2 z in
  isLikeOrGlob env e
  = if negb (cnt =? 0) && negb (255 =? u8 (byteAt z (cnt - 1)))
    then Some (eString (take (Z.to_nat cnt) z),
               (byteAt z cnt =? w0) && (byteAt z (cnt + 1) =? 0), noCase)
    else None.
Proof.
  intros Hfn Hpat Hcol Hop Haff Hvirt Hz cnt. unfold isLikeOrGlob.
  rewrite Hfn, Hcol, Hpat.
  change (default nullExpr (Some col)) with col.
  change (default nullExpr (Some pat)) with pat.
  rewrite (tk_is_eq _ _ Hop), Haff, Z.eqb_refl, Hvirt. cbn [negb orb].
  rewrite Hz. reflexivity.
Qed.

(** The shape of a clause of [n] terms that has grown by two: what holds
    of the two new terms and of the term [i]. *)
Definition grownByTwo (P1 P2 P0 : WhereTerm -> Prop) (n i : nat)
    (wc : WhereClause) : Prop :=
  length (a wc) = S (S n)
  /\ exists t1 t2 t0,
       a wc !! n = Some t1 /\ a wc !! S n = Some t2 /\ a wc !! i = Some t0
       /\ P1 t1 /\ P2 t2 /\ P0 t0.

Lemma grownByTwo_updTerm (P1 P2 P0 : WhereTerm -> Prop) (n i j : nat)
    (h : WhereTerm -> WhereTerm) (wc : WhereClause) :
  (forall t, P1 t -> P1 (h t)) -> (forall t, P2 t -> P2 (h t)) ->
  (forall t, P0 t -> P0 (h t)) ->
  grownByTwo P1 P2 P0 n i wc -> grownByTwo P1 P2 P0 n i (updTerm wc j h).
Proof.
  intros H1 H2 H0 (Hlen & t1 & t2 & t0 & L1 & L2 & L0 & Q1 & Q2 & Q0).
  split; [now rewrite length_updTerm|].
  exists (if decide (j = n) then h t1 else t1),
         (if decide (j = S n) then h t2 else t2),
         (if decide (j = i) then h t0 else t0).
  repeat split.
  - destruct (decide (j = n)) as [->|Hne];
      [now apply lookup_updTerm_eq | now rewrite lookup_updTerm_ne].
  - destruct (decide (j = S n)) as [->|Hne];
      [now apply lookup_updTerm_eq | now rewrite lookup_updTerm_ne].
  - destruct (decide (j = i)) as [->|Hne];
      [now apply lookup_updTerm_eq | now rewrite lookup_updTerm_ne].
  - destruct (decide (j = n)); auto.
  - destruct (decide (j = S n)); auto.
  - destruct (decide (j = i)); auto.
Qed.

(** C6, amended.  A LIKE or GLOB call that is a term of a clause split by
    AND, on a text column of an ordinary table, with a pattern text [z]
    (a string literal, or the text bound to a variable): when the prefix of
    [z] before the first wildcard is not empty and its last byte is not
    0xFF, the analyser appends two terms flagged Virtual|Dynamic,
    [x >= prefix] and [x < upper], with the collation NOCASE or BINARY set
    on both left sides, where [upper] is the prefix with its last byte,
    folded to lower case first under NOCASE, incremented by one, and the
    LIKE term stays in place with its expression; when the prefix is empty
    or its last byte is 0xFF no term is appended and the LIKE term keeps
    its expression, flags and child count. *)
Theorem like_prefix_rewrite (f : nat) (wc : WhereClause) (i : nat)
    (t : WhereTerm) (col pat : Expr) (noCase : bool) (w0 w1 w2 : Z)
    (z : list Z) :
  likeOnlyFunctions env ->
  a wc !! i = Some t ->
  wcOp wc = TK_AND ->
  sqlite4IsLikeFunction env (pExpr t) = Some (noCase, (w0, w1, w2)) ->
  isMatchName env (zToken (pExpr t)) = false ->
  xList (pExpr t) !! 0%nat = Some pat ->
  xList (pExpr t) !! 1%nat = Some col ->
  op col = TK_COLUMN ->
  sqlite4ExprAffinity env col = SQLITE4_AFF_TEXT env ->
  IsVirtual env col = false ->
  likePattern env pat = Some z ->
  let cnt := prefixLen w0 w1 w2 z in
  let prefix := take (Z.to_nat cnt) z in
  let last := u8 (byteAt z (cnt - 1)) in
  let upper := <[Z.to_nat (cnt - 1) := u8 (foldedLast noCase last + 1)]> prefix in
  let lhs := sqlite4ExprSetCollByToken env col (likeCollation noCase) in
  (cnt <> 0 /\ last <> 255 ->
   exists wc',
     exprAnalyze (S (S f)) env wc i = Some wc'
     /\ grownByTwo
          (fun t1 => pExpr t1 = sqlite4PExpr TK_GE (Some lhs)
                                  (Some (eString prefix))
                     /\ wtFlags t1 = vd)
          (fun t2 => pExpr t2 = sqlite4PExpr TK_LT (Some lhs)
                                  (Some (eString upper))
                     /\ wtFlags t2 = vd)
          (fun t0 => pExpr t0 = pExpr t /\ eOperator t0 = 0
                     /\ wtFlags t0 = wtFlags t)
          (length (a wc)) i wc')
  /\ (cnt = 0 \/ last = 255 ->
      exists wc' t0,
        exprAnalyze (S f) env wc i = Some wc'
        /\ length (a wc') = length (a wc)
        /\ a wc' !! i = Some t0
        /\ pExpr t0 = pExpr t /\ wtFlags t0 = wtFlags t
        /\ nChild t0 = nChild t).
Proof.
  intros Hlike Ht Hand Hfn Hmatch Hpat Hcol Hop Haff Hvirt Hz
         cnt prefix last upper lhs.
  set (e := pExpr t) in *.
  assert (Hfun : tk_is (op e) TK_FUNCTION = true).
  { destruct (tk_is (op e) TK_FUNCTION) eqn:E; [reflexivity|].
    rewrite (Hlike e E) in Hfn. discriminate. }
  assert (Hope : op e = TK_FUNCTION).
  { unfold tk_is in Hfun. now apply bool_decide_eq_true in Hfun. }
  assert (Hnomatch : isMatchOfColumn env e = false).
  { unfold isMatchOfColumn. rewrite Hmatch. now rewrite andb_false_r. }
  assert (Hi : (i < length (a wc))%nat) by (eapply lookup_lt_Some; eauto).
  pose proof (isLikeOrGlob_cases e col pat noCase w0 w1 w2 z
                Hfn Hpat Hcol Hop Haff Hvirt Hz) as Hlg.
  cbv zeta in Hlg. fold cnt in Hlg.
  set (wc0 := updTerm wc i (beginTerm env e)).
  assert (H0 : a wc0 !! i = Some (beginTerm env e t))
    by (apply lookup_updTerm_eq; exact Ht).
  assert (Hstart : forall g,
             analyzeStep env g wc i
             = match likeArm env g TK_AND wc0 i with
               | None => None
               | Some wc2 =>
                   Some (updTerm (notNullArm env (matchArm env wc2 i) i) i
                           (fun t => set_prereqRight
                                       (Z.lor (prereqRight t)
                                          (extraRightOf env e)) t))
               end).
  { intros g. unfold analyzeStep. rewrite (getTerm_lookup wc i t Ht).
    fold e. rewrite Hope, Hand. reflexivity. }
  split.
  - intros [Hcnt Hlast].
    assert (Hyes : isLikeOrGlob env e
                   = Some (eString prefix,
                           (byteAt z cnt =? w0) && (byteAt z (cnt + 1) =? 0),
                           noCase)).
    { rewrite Hlg.
      destruct (cnt =? 0) eqn:E1; [lia|].
      fold last. destruct (255 =? last) eqn:E2; [lia|]. reflexivity. }
    rewrite exprAnalyze_S, Hstart. unfold likeArm.
    rewrite (getTerm_lookup wc0 i _ H0).
    change (pExpr (beginTerm env e t)) with e.
    change (tk_is TK_AND TK_AND) with true. cbv iota.
    rewrite Hyes, Hcol.
    change (default nullExpr (Some col)) with col.
    change (zToken (eString prefix)) with prefix.
    fold lhs.
    pose proof (likeUpper_prefix noCase w0 w1 w2 z Hcnt) as Hup.
    cbv zeta in Hup. fold cnt prefix last upper in Hup. rewrite Hup.
    rewrite (child_simple f wc0 _ (eString prefix) vd Hlike)
      by reflexivity.
    cbv beta iota.
    rewrite (child_simple f _ _ (eString upper) vd Hlike) by reflexivity.
    cbv beta iota.
    set (ge := sqlite4PExpr TK_GE (Some lhs) (Some (eString prefix))).
    set (lt := sqlite4PExpr TK_LT (Some lhs) (Some (eString upper))).
    set (g1 := simpleResult env ge (freshTerm ge vd)).
    set (g2 := simpleResult env lt (freshTerm lt vd)).
    set (wcB := pushTerm (pushTerm wc0 g1) g2).
    set (P1 := fun t1 => pExpr t1 = ge /\ wtFlags t1 = vd).
    set (P2 := fun t2 => pExpr t2 = lt /\ wtFlags t2 = vd).
    set (P0 := fun t0 => pExpr t0 = e /\ eOperator t0 = 0
                         /\ wtFlags t0 = wtFlags t).
    assert (Hlen0 : length (a wc0) = length (a wc))
      by apply length_updTerm.
    assert (HB : grownByTwo P1 P2 P0 (length (a wc)) i wcB).
    { split.
      - unfold wcB. cbn [a pushTerm]. rewrite !length_app, Hlen0.
        cbn [length]. lia.
      - exists g1, g2, (beginTerm env e t). unfold wcB. cbn [a pushTerm].
        repeat split.
        + rewrite lookup_app_l by (rewrite length_app, Hlen0; cbn; lia).
          rewrite lookup_app_r by lia. now rewrite Hlen0, Nat.sub_diag.
        + rewrite lookup_app_r by (rewrite length_app, Hlen0; cbn; lia).
          rewrite length_app, Hlen0. cbn [length].
          now replace (S (length (a wc)) - (length (a wc) + 1))%nat
            with 0%nat by lia.
        + rewrite <- app_assoc. now rewrite lookup_app_l by lia.
        + destruct (simpleResult_keeps env ge (freshTerm ge vd)) as (K & _).
          unfold g1. now rewrite K.
        + destruct (simpleResult_keeps env ge (freshTerm ge vd))
            as (_ & K & _).
          unfold g1. now rewrite K.
        + destruct (simpleResult_keeps env lt (freshTerm lt vd)) as (K & _).
          unfold g2. now rewrite K.
        + destruct (simpleResult_keeps env lt (freshTerm lt vd))
            as (_ & K & _).
          unfold g2. now rewrite K. }
    assert (Hupd : forall j h wcX,
               (forall t, pExpr (h t) = pExpr t /\ wtFlags (h t) = wtFlags t
                          /\ eOperator (h t) = eOperator t) ->
               grownByTwo P1 P2 P0 (length (a wc)) i wcX ->
               grownByTwo P1 P2 P0 (length (a wc)) i (updTerm wcX j h)).
    { intros j h wcX Hk. apply grownByTwo_updTerm.
      - intros x [A1 A2]. destruct (Hk x) as (K1 & K2 & _).
        split; congruence.
      - intros x [A1 A2]. destruct (Hk x) as (K1 & K2 & _).
        split; congruence.
      - intros x (A1 & A2 & A3). destruct (Hk x) as (K1 & K2 & K3).
        repeat split; congruence. }
    match goal with
    | |- context [match (if ?c then Some ?x else Some wcB) with _ => _ end] =>
        set (wc2 := if c then x else wcB);
        replace (if c then Some x else Some wcB) with (Some wc2)
          by (unfold wc2; now destruct c)
    end.
    assert (H2 : grownByTwo P1 P2 P0 (length (a wc)) i wc2).
    { unfold wc2.
      match goal with |- context [if ?c then _ else _] => destruct c end;
        [|exact HB].
      do 3 (apply Hupd; [intros x; cbn; auto|]). exact HB. }
    assert (He2 : pExpr (getTerm wc2 i) = e).
    { destruct H2 as (_ & t1 & t2 & t0 & _ & _ & L0 & _ & _ & Q0 & _).
      now rewrite (getTerm_lookup _ _ _ L0). }
    rewrite matchArm_declines by now rewrite He2.
    rewrite notNullArm_declines
      by (rewrite He2, Hope; reflexivity).
    eexists. split; [reflexivity|].
    apply Hupd; [intros x; cbn; auto | exact H2].
  - intros Hno.
    assert (Hnone : isLikeOrGlob env e = None).
    { rewrite Hlg. fold last.
      destruct Hno as [Hc|Hl].
      - rewrite Hc. reflexivity.
      - rewrite Hl. cbn. now rewrite andb_false_r. }
    rewrite exprAnalyze_S, Hstart. unfold likeArm.
    rewrite (getTerm_lookup wc0 i _ H0).
    change (pExpr (beginTerm env e t)) with e.
    change (tk_is TK_AND TK_AND) with true. cbv iota.
    rewrite Hnone.
    assert (He0 : pExpr (getTerm wc0 i) = e)
      by now rewrite (getTerm_lookup wc0 i _ H0).
    rewrite matchArm_declines by now rewrite He0.
    rewrite notNullArm_declines by (rewrite He0, Hope; reflexivity).
    eexists. eexists. split; [reflexivity|]. split.
    + rewrite length_updTerm. apply length_updTerm.
    + split; [apply lookup_updTerm_eq; exact H0|]. cbn. auto.
Qed.

End LikeRewrite.

Section AnalyseExamples.
Import Ast MaskSet Analyse.

(** A mask set with the cursors 7 and 9, the lower-case table of ASCII,
    and a [sqlite4ExprSetCollByToken] that records the name on the
    expression. *)
Definition twoTables : WhereMaskSet :=
  {| n := 2; ix := 7 :: 9 :: replicate 62 0 |}.

Definition asciiFold (c : Z) : Z :=
  if (65 <=? c) && (c <=? 90) then c + 32 else c.

Definition markCollation (e : Expr) (name : string) : Expr :=
  mkExpr (op e) (op2 e) (iTable e) (iColumn e) (iRightJoinTable e)
         (fromJoin e) true (xIsSelect e) (zToken e) (Some name)
         (pLeft e) (pRight e) (xList e).

(** Columns have text affinity (97), every function call is a LIKE with
    the wildcards [%] and [_], no table is virtual, nothing is bound. *)
Definition likeEnv (noCase : bool) : Env :=
  mkEnv twoTables (fun e => if tk_is (op e) TK_COLUMN then 97 else 0) 97
        (fun _ => false)
        (fun e => if tk_is (op e) TK_FUNCTION
                  then Some (noCase, (37, 95, 0)) else None)
        (fun _ => false) markCollation (fun _ => None) asciiFold
        (fun _ => false) true false false.

(** [t7.c1 LIKE z] as the only term of a WHERE clause. *)
Definition likeCall (z : list Z) : Expr :=
  mkExpr TK_FUNCTION (TK_OTHER 0) 0 0 0 false false false
         [108; 105; 107; 101] None None None [eString z; eColumn 7 1].

Definition likeClause (z : list Z) : WhereClause :=
  whereSplit whereClauseInit (Some (likeCall z)) TK_AND.

Lemma likeEnv_likeOnlyFunctions (noCase : bool) :
  likeOnlyFunctions (likeEnv noCase).
Proof. intros x H. cbn. now rewrite H. Qed.

Lemma like_prefix_rewrite_witness :
  exists wc',
    exprAnalyze 2 (likeEnv false) (likeClause [97; 98; 99; 37]) 0 = Some wc'
    /\ length (a wc') = 3%nat.
Proof.
  destruct (like_prefix_rewrite (likeEnv false) 0
              (likeClause [97; 98; 99; 37]) 0
              (freshTerm (likeCall [97; 98; 99; 37]) 0)
              (eColumn 7 1) (eString [97; 98; 99; 37]) false 37 95 0
              [97; 98; 99; 37]) as [Hyes _].
  - apply likeEnv_likeOnlyFunctions.
  - reflexivity.
  - reflexivity.
  - reflexivity.
  - reflexivity.
  - reflexivity.
  - reflexivity.
  - reflexivity.
  - reflexivity.
  - reflexivity.
  - reflexivity.
  - destruct Hyes as (wc' & E & L & _).
    + split; vm_compute; discriminate.
    + exists wc'. split; [exact E | exact L].
Defined.

(** C6, as stated, fails under NOCASE: for [t7.c1 LIKE 'AZ%'] the two
    appended bounds are 'AZ' and 'A{', the last byte being folded to 'z'
    before it is incremented, and not 'A[' as the increment of the last
    prefix byte would give. *)
Lemma like_nocase_upper_bound_folds :
  option_map
    (fun wc' => map (fun t => (op (pExpr t),
                               zToken (deref (pRight (pExpr t)))))
                    (drop 1 (a wc')))
    (exprAnalyze 2 (likeEnv true) (likeClause [65; 90; 37]) 0)
  = Some [(TK_GE, [65; 90]); (TK_LT, [65; 123])]
  /\ [65; 123] <> [65; 90 + 1].
Proof. split; [vm_compute; reflexivity | discriminate]. Qed.

End AnalyseExamples.

(** ** The OR-to-IN rewrite *)

Section OrToIn.
Import Ast MaskSet Analyse.

Variable env : Env.

(** The table [T] and the column [C] that every disjunct constrains. *)
Variables (T C : Z).

(** A disjunct [T.C = R]: the left side is the column itself, [R] uses
    no column of [T], and the affinity of [R] is none or that of the
    column. *)
Definition eqOnColumn (e : Expr) : bool :=
  tk_is (op e) TK_EQ
  && match pLeft e, pRight e with
     | Some L, Some R =>
         tk_is (op L) TK_COLUMN && (iTable L =? T) && (iColumn L =? C)
         && (Z.land (exprTableUsage (sMaskSet env) R)
                    (getMask (sMaskSet env) T) =? 0)
         && ((sqlite4ExprAffinity env R =? 0)
             || (sqlite4ExprAffinity env R =? sqlite4ExprAffinity env L))
     | _, _ => false
     end.

Lemma eqOnColumn_inv (e : Expr) :
  eqOnColumn e = true ->
  op e = TK_EQ
  /\ exists L R,
       pLeft e = Some L /\ pRight e = Some R
       /\ op L = TK_COLUMN /\ iTable L = T /\ iColumn L = C
       /\ Z.land (exprTableUsage (sMaskSet env) R)
                 (getMask (sMaskSet env) T) = 0
       /\ (sqlite4ExprAffinity env R = 0
           \/ sqlite4ExprAffinity env R = sqlite4ExprAffinity env L).
Proof.
  unfold eqOnColumn. intros H.
  apply andb_true_iff in H as [H1 H].
  destruct (pLeft e) as [L|]; [|discriminate].
  destruct (pRight e) as [R|]; [|discriminate].
  repeat (apply andb_true_iff in H as [H ?]).
  split.
  { unfold tk_is in H1. now apply bool_decide_eq_true in H1. }
  exists L, R. repeat split; try lia.
  unfold tk_is in H. now apply bool_decide_eq_true in H.
Qed.

(** The usage of an expression covers the usage of what
    [sqlite4ExprSkipCollate] finds below it. *)
Fixpoint skipCollate_usage (R : Expr) :
  forall R', skipCollate R = Some R' ->
    Z.land (exprTableUsage (sMaskSet env) R)
           (exprTableUsage (sMaskSet env) R')
    = exprTableUsage (sMaskSet env) R'.
Proof.
  destruct R as [o o2 it ic ir fj ec xs zt zc l r xl].
  intros R' H. cbn [skipCollate] in H.
  destruct (tk_is o TK_COLLATE || tk_is o TK_AS) eqn:E.
  - destruct l as [e|]; [|discriminate].
    pose proof (skipCollate_usage e R' H) as IH.
    assert (Ho : tk_is o TK_COLUMN = false).
    { destruct o; try reflexivity; discriminate. }
    cbn [exprTableUsage]. rewrite Ho.
    set (u := exprTableUsage (sMaskSet env) R') in *.
    set (ue := exprTableUsage (sMaskSet env) e) in *.
    apply Z.bits_inj'. intros k Hk.
    assert (Hb := f_equal (fun x => Z.testbit x k) IH). cbn beta in Hb.
    rewrite !Z.land_spec in *. rewrite !Z.lor_spec.
    destruct (Z.testbit u k); [|now rewrite !andb_false_r].
    rewrite andb_true_r in *. rewrite Hb. now rewrite orb_true_r.
  - injection H as <-. apply Z.land_diag.
Qed.

Lemma lookup_updTerm_same (wc : WhereClause) (i : nat)
    (f : WhereTerm -> WhereTerm) :
  a (updTerm wc i f) !! i = f <$> a wc !! i.
Proof. cbn [a updTerm]. apply list_lookup_alter_eq. Qed.

Lemma lookup_pushTerm_old (wc : WhereClause) (t : WhereTerm) (j : nat) :
  (j < length (a wc))%nat -> a (pushTerm wc t) !! j = a wc !! j.
Proof. intros H. cbn [a pushTerm]. now apply lookup_app_l. Qed.

Lemma lookup_pushTerm_new (wc : WhereClause) (t : WhereTerm) :
  a (pushTerm wc t) !! length (a wc) = Some t.
Proof.
  cbn [a pushTerm]. rewrite lookup_app_r, Nat.sub_diag by lia. reflexivity.
Qed.

Lemma length_pushTerm (wc : WhereClause) (t : WhereTerm) :
  length (a (pushTerm wc t)) = S (length (a wc)).
Proof. cbn [a pushTerm]. rewrite length_app. cbn [length]. lia. Qed.

(** What the analysis leaves of a disjunct [T.C = R], and of the
    commuted copy that it appends when [R] is a column. *)
Definition MainOk (e : Expr) (m : WhereTerm) : Prop :=
  pExpr m = e /\ leftCursor m = T /\ leftColumn m = C
  /\ (eOperator m = WO_EQ \/ eOperator m = Z.lor WO_EQ WO_EQUIV)
  /\ (wtFlags m = 0 \/ wtFlags m = TERM_COPIED).

Definition TwinOk (n : nat) (tw : WhereTerm) : Prop :=
  wtFlags tw = vd
  /\ (eOperator tw = WO_EQ \/ eOperator tw = Z.lor WO_EQ WO_EQUIV)
  /\ leftCursor tw <> T
  /\ 0 <= iParent tw < Z.of_nat n.

Lemma skipCollate_set_expCollate (b : bool) (R : Expr) :
  iTable (deref (skipCollate (set_expCollate b R)))
  = iTable (deref (skipCollate R))
  /\ iColumn (deref (skipCollate (set_expCollate b R)))
    = iColumn (deref (skipCollate R)).
Proof.
  destruct R as [o o2 it ic ir fj ec xs zt zc l r xl].
  cbn [set_expCollate skipCollate op op2 iTable iColumn iRightJoinTable
       fromJoin xIsSelect zToken zColl pLeft pRight xList].
  destruct (tk_is o TK_COLLATE || tk_is o TK_AS); [|split; reflexivity].
  destruct l; split; reflexivity.
Qed.

(** The cursor of the column that [exprCommute] moves to the left. *)
Lemma exprCommute_left (e R : Expr) :
  pRight e = Some R ->
  iTable (deref (sqlite4ExprSkipCollate (pLeft (exprCommute env e))))
  = iTable (deref (skipCollate R)).
Proof.
  intros HR. unfold exprCommute. rewrite HR.
  change (deref (Some R)) with R.
  destruct (eqb (expCollate R) (expCollate (deref (pLeft e))));
    [destruct (expCollate R);
     [|destruct (sqlite4ExprCollSeq env (deref (pLeft e)))]|];
    cbn [pLeft sqlite4ExprSkipCollate]; try reflexivity.
  apply skipCollate_set_expCollate.
Qed.

Hypothesis T_cursor : 0 <= T.
Hypothesis T_known : getMask (sMaskSet env) T <> 0.

(** A column found under [R] by [sqlite4ExprSkipCollate] is not a column
    of [T] when [R] uses no column of [T]. *)
Lemma skipped_column_elsewhere (R R' : Expr) :
  Z.land (exprTableUsage (sMaskSet env) R) (getMask (sMaskSet env) T) = 0 ->
  skipCollate R = Some R' -> tk_is (op R') TK_COLUMN = true ->
  iTable R' <> T.
Proof.
  intros Hdis Hskip Hcol Heq.
  pose proof (skipCollate_usage R R' Hskip) as Hu.
  assert (HR' : exprTableUsage (sMaskSet env) R'
                = getMask (sMaskSet env) T).
  { destruct R'. cbn [exprTableUsage]. cbn [op] in Hcol. rewrite Hcol.
    cbn [iTable] in Heq. now rewrite Heq. }
  rewrite HR' in Hu. rewrite Hu in Hdis. contradiction.
Qed.

Ltac split_ands := repeat match goal with |- _ /\ _ => split end.

(** What one step of [exprAnalyzeAll] on the disjunct [i] does to the
    clause of the disjuncts: the disjunct is analysed in place, the other
    terms stay, and what is appended is a commuted copy. *)
Definition SubOk (n : nat) (e : Expr) (i : nat) (wcX wcY : WhereClause)
  : Prop :=
  wcOp wcY = wcOp wcX
  /\ (i < length (a wcX))%nat
  /\ (length (a wcX) <= length (a wcY))%nat
  /\ (forall j, j <> i -> (j < length (a wcX))%nat ->
                 a wcY !! j = a wcX !! j)
  /\ (exists m, a wcY !! i = Some m /\ MainOk e m)
  /\ (forall j tw, (length (a wcX) <= j)%nat -> a wcY !! j = Some tw ->
                    TwinOk n tw).

Lemma SubOk_updTerm (n : nat) (e : Expr) (i : nat) (wcX wcY : WhereClause)
    (h : WhereTerm -> WhereTerm) :
  (forall m, MainOk e m -> MainOk e (h m)) ->
  SubOk n e i wcX wcY -> SubOk n e i wcX (updTerm wcY i h).
Proof.
  intros Hh (H1 & H2 & H3 & H4 & (m & Hm & Hok) & H6).
  unfold SubOk. split_ands.
  - exact H1.
  - exact H2.
  - now rewrite length_updTerm.
  - intros j Hj Hlt. rewrite lookup_updTerm_ne by congruence. now apply H4.
  - exists (h m). split; [|now apply Hh].
    now rewrite lookup_updTerm_same, Hm.
  - intros j tw Hj Hlk. rewrite lookup_updTerm_ne in Hlk by lia.
    now apply (H6 j).
Qed.

Lemma analyzeCompare_disjunct (wc0 : WhereClause) (i n : nat) (e L R : Expr)
    (t0 : WhereTerm) (pa er : Z) :
  (i < n)%nat ->
  a wc0 !! i = Some t0 ->
  pExpr t0 = e -> wtFlags t0 = 0 ->
  prereqRight t0 = exprTableUsage (sMaskSet env) R ->
  op e = TK_EQ -> pLeft e = Some L -> pRight e = Some R ->
  op L = TK_COLUMN -> iTable L = T -> iColumn L = C ->
  Z.land (exprTableUsage (sMaskSet env) R) (getMask (sMaskSet env) T) = 0 ->
  SubOk n e i wc0
    (analyzeCompare env wc0 i (getMask (sMaskSet env) T) pa er).
Proof.
  intros Hin H0 He Hfl Hpr Hop HL HR HLop HLt HLc Hdis.
  assert (Hi : (i < length (a wc0))%nat) by (eapply lookup_lt_Some; eauto).
  assert (HskipL : skipCollate L = Some L).
  { apply skipCollate_plain; rewrite HLop; reflexivity. }
  unfold analyzeCompare. rewrite (getTerm_lookup wc0 i t0 H0).
  rewrite He, HL, HR, Hpr, Hdis, Hop.
  cbn [sqlite4ExprSkipCollate]. rewrite HskipL.
  change (deref (Some L)) with L.
  rewrite (tk_is_eq _ _ HLop), HLt, HLc.
  change (0 =? 0) with true. cbv iota.
  change (Z.land (operatorMask TK_EQ) WO_ALL) with WO_EQ.
  set (h1 := fun t => set_eOperator WO_EQ (set_left T C t)).
  set (wc1 := updTerm wc0 i h1).
  assert (Hplain : SubOk n e i wc0 wc1).
  { unfold SubOk. split_ands; try (reflexivity || assumption).
    - unfold wc1. now rewrite length_updTerm.
    - intros j Hj _. unfold wc1. now rewrite lookup_updTerm_ne by congruence.
    - exists (h1 t0). split.
      + unfold wc1. now rewrite lookup_updTerm_same, H0.
      + unfold MainOk, h1. cbn. rewrite He, Hfl. split_ands; auto.
    - intros j tw Hj Hlk. apply lookup_lt_Some in Hlk.
      unfold wc1 in Hlk. rewrite length_updTerm in Hlk. lia. }
  destruct (skipCollate R) as [pR|] eqn:HskipR; [|exact Hplain].
  destruct (tk_is (op pR) TK_COLUMN) eqn:HpR; [|exact Hplain].
  cbn [negb].
  assert (H1 : a wc1 !! i = Some (h1 t0)).
  { unfold wc1. now rewrite lookup_updTerm_same, H0. }
  rewrite (getTerm_lookup wc1 i _ H1).
  change (leftCursor (h1 t0)) with T.
  destruct (T >=? 0) eqn:HT; [|lia].
  change (whereClauseInsert wc1 e (Z.lor TERM_VIRTUAL TERM_DYNAMIC))
    with (pushTerm wc1 (freshTerm e vd), length (a wc1)).
  cbv beta iota.
  assert (Hlen1 : length (a wc1) = length (a wc0)).
  { unfold wc1. apply length_updTerm. }
  pose proof (skipped_column_elsewhere R pR Hdis HskipR HpR) as Hne.
  assert (HcL : iTable (deref (sqlite4ExprSkipCollate
                                 (pLeft (exprCommute env e)))) <> T).
  { rewrite (exprCommute_left e R HR), HskipR. exact Hne. }
  assert (HcOp : op (exprCommute env e) = TK_EQ).
  { unfold exprCommute.
    destruct (if eqb _ _ then _ else _) as [l r]. cbn [op]. now rewrite Hop. }
  rewrite HcOp.
  set (wcA := pushTerm wc1 (freshTerm e vd)).
  set (wcB := updTerm wcA (length (a wc1)) (set_iParent (Z.of_nat i))).
  set (wcC := updTerm wcB i (fun t => raiseFlag TERM_COPIED (set_nChild 1 t))).
  set (htw := fun eo t =>
                set_eOperator (Z.land (operatorMask TK_EQ + eo) WO_ALL)
                  (set_prereqAll pa
                     (set_prereqRight (Z.lor (getMask (sMaskSet env) T) er)
                        (set_left
                           (iTable (deref (sqlite4ExprSkipCollate
                                             (pLeft (exprCommute env e)))))
                           (iColumn (deref (sqlite4ExprSkipCollate
                                              (pLeft (exprCommute env e)))))
                           (set_pExpr (exprCommute env e) t))))).
  assert (Hgen : forall hm eo,
             (forall m, MainOk e m -> MainOk e (hm m)) ->
             (Z.land (operatorMask TK_EQ + eo) WO_ALL = WO_EQ
              \/ Z.land (operatorMask TK_EQ + eo) WO_ALL
                 = Z.lor WO_EQ WO_EQUIV) ->
             SubOk n e i wc0
               (updTerm (updTerm wcC i hm) (length (a wc1)) (htw eo))).
  2:{ change (tk_is TK_EQ TK_EQ) with true. cbn [andb].
      destruct (negb (fromJoin e) && optTransitive env); cbv beta iota.
      - apply (Hgen (fun t => set_eOperator (Z.lor (eOperator t) WO_EQUIV) t)
                    WO_EQUIV); [|right; reflexivity].
        intros m (M1 & M2 & M3 & M4 & M5). unfold MainOk. cbn.
        split_ands; auto.
        destruct M4 as [-> | ->]; right; reflexivity.
      - replace wcC with (updTerm wcC i (fun t => t)) at 1.
        + apply (Hgen (fun t => t) 0); [auto | left; reflexivity].
        + unfold updTerm. cbn [wcOp a pOuter].
          rewrite list_alter_id by reflexivity. now destruct wcC. }
  intros hm eo Hhm Heo.
  assert (HlenA : length (a wcA) = S (length (a wc0))).
  { unfold wcA. now rewrite length_pushTerm, Hlen1. }
  assert (HlenC : length (a wcC) = S (length (a wc0))).
  { unfold wcC, wcB. now rewrite !length_updTerm. }
  assert (HCold : forall j, j <> i -> (j < length (a wc0))%nat ->
                            a wcC !! j = a wc0 !! j).
  { intros j Hj Hlt. unfold wcC. rewrite lookup_updTerm_ne by congruence.
    unfold wcB. rewrite lookup_updTerm_ne by lia.
    unfold wcA. rewrite lookup_pushTerm_old by lia.
    unfold wc1. now rewrite lookup_updTerm_ne by congruence. }
  assert (HCmain : a wcC !! i
                   = Some (raiseFlag TERM_COPIED (set_nChild 1 (h1 t0)))).
  { unfold wcC. rewrite lookup_updTerm_same.
    unfold wcB. rewrite lookup_updTerm_ne by lia.
    unfold wcA. rewrite lookup_pushTerm_old by lia. now rewrite H1. }
  assert (HCnew : a wcC !! length (a wc0)
                  = Some (set_iParent (Z.of_nat i) (freshTerm e vd))).
  { unfold wcC. rewrite lookup_updTerm_ne by lia.
    unfold wcB. rewrite Hlen1, lookup_updTerm_same.
    unfold wcA. now rewrite <- Hlen1, lookup_pushTerm_new. }
  rewrite Hlen1. unfold SubOk. split_ands.
  - reflexivity.
  - exact Hi.
  - rewrite !length_updTerm. lia.
  - intros j Hj Hlt.
    rewrite lookup_updTerm_ne by lia.
    rewrite lookup_updTerm_ne by congruence. now apply HCold.
  - exists (hm (raiseFlag TERM_COPIED (set_nChild 1 (h1 t0)))). split.
    + rewrite lookup_updTerm_ne by lia.
      now rewrite lookup_updTerm_same, HCmain.
    + apply Hhm. unfold MainOk, h1. cbn. rewrite He, Hfl. split_ands; auto.
  - intros j tw Hj Hlk.
    destruct (decide (j = length (a wc0))) as [->|Hne'].
    + rewrite lookup_updTerm_same in Hlk.
      rewrite lookup_updTerm_ne in Hlk by lia.
      rewrite HCnew in Hlk.
      cbn [fmap option_fmap option_map] in Hlk. injection Hlk as <-.
      unfold TwinOk, htw. cbn. split_ands; auto; lia.
    + apply lookup_lt_Some in Hlk. rewrite !length_updTerm in Hlk. lia.
Qed.

Lemma analyzeStep_disjunct (g : WhereClause -> nat -> option WhereClause)
    (wcX : WhereClause) (i n : nat) (e : Expr) :
  wcOp wcX = TK_OR ->
  a wcX !! i = Some (freshTerm e 0) ->
  eqOnColumn e = true ->
  (i < n)%nat ->
  exists wcY, analyzeStep env g wcX i = Some wcY /\ SubOk n e i wcX wcY.
Proof.
  intros Hwc Hlk Heq Hin.
  destruct (eqOnColumn_inv e Heq)
    as (Hop & L & R & HL & HR & HLop & HLt & HLc & Hdis & Haff).
  assert (He : pExpr (freshTerm e 0) = e).
  { apply pExpr_freshTerm; rewrite Hop; reflexivity. }
  unfold analyzeStep. rewrite (getTerm_lookup wcX i _ Hlk), He, Hop, Hwc.
  cbn [allowedOp].
  set (wc0 := updTerm wcX i (beginTerm env e)).
  assert (H0 : a wc0 !! i = Some (beginTerm env e (freshTerm e 0))).
  { unfold wc0. now rewrite lookup_updTerm_same, Hlk. }
  assert (HpL : prereqLeftOf env e = getMask (sMaskSet env) T).
  { unfold prereqLeftOf. rewrite HL. cbn [exprUsage].
    destruct L. cbn [exprTableUsage]. cbn [op] in HLop. rewrite HLop.
    cbn [iTable] in HLt. now rewrite HLt. }
  assert (HpR : prereqRightOf env e = exprTableUsage (sMaskSet env) R).
  { unfold prereqRightOf. now rewrite Hop, HR. }
  rewrite HpL.
  pose proof (analyzeCompare_disjunct wc0 i n e L R
                (beginTerm env e (freshTerm e 0))
                (prereqAllOf env e) (extraRightOf env e)
                Hin H0 He eq_refl HpR Hop HL HR HLop HLt HLc Hdis) as Hcmp.
  set (wc1 := analyzeCompare env wc0 i (getMask (sMaskSet env) T)
                (prereqAllOf env e) (extraRightOf env e)) in *.
  unfold likeArm. change (tk_is TK_OR TK_AND) with false. cbv iota.
  assert (He1 : pExpr (getTerm wc1 i) = e).
  { destruct Hcmp as (_ & _ & _ & _ & (m & Hm & Hok) & _).
    rewrite (getTerm_lookup _ _ _ Hm). apply Hok. }
  rewrite matchArm_declines
    by (apply isMatchOfColumn_function; rewrite He1, Hop; reflexivity).
  rewrite notNullArm_declines by (rewrite He1, Hop; reflexivity).
  eexists. split; [reflexivity|].
  apply SubOk_updTerm.
  - intros m (M1 & M2 & M3 & M4 & M5). unfold MainOk. cbn.
    split_ands; auto.
  - destruct Hcmp as (S1 & S2 & S3 & S4 & S5 & S6).
    unfold SubOk. unfold wc0 in S1, S2, S3, S4, S6.
    rewrite length_updTerm in S2, S3, S4, S6. cbn [wcOp updTerm] in S1.
    split_ands; auto.
    intros j Hj Hlt. rewrite (S4 j Hj Hlt).
    now rewrite lookup_updTerm_ne by congruence.
Qed.

(** The disjuncts [es] in a clause: those before [k] still as
    [whereSplit] left them, those from [k] on analysed, and commuted
    copies behind them. *)
Definition Disjuncts (es : list Expr) (k : nat) (wcX : WhereClause) : Prop :=
  wcOp wcX = TK_OR
  /\ (length es <= length (a wcX))%nat
  /\ (forall j e, (j < k)%nat -> es !! j = Some e ->
                   a wcX !! j = Some (freshTerm e 0))
  /\ (forall j e, (k <= j)%nat -> es !! j = Some e ->
                   exists m, a wcX !! j = Some m /\ MainOk e m)
  /\ (forall j tw, (length es <= j)%nat -> a wcX !! j = Some tw ->
                    TwinOk (length es) tw).

Lemma analyzeFrom_disjuncts (g : WhereClause -> nat -> option WhereClause)
    (es : list Expr) (k : nat) (wcX : WhereClause) :
  forallb eqOnColumn es = true ->
  (k <= length es)%nat ->
  Disjuncts es k wcX ->
  exists wcY, analyzeFrom (analyzeStep env g) k wcX = Some wcY
              /\ Disjuncts es 0 wcY.
Proof.
  intros Hes. revert wcX.
  induction k as [|k IH]; intros wcX Hk Hinv.
  - exists wcX. split; [reflexivity | exact Hinv].
  - destruct Hinv as (D1 & D2 & D3 & D4 & D5).
    destruct (lookup_lt_is_Some_2 es k) as [e He]; [lia|].
    assert (Heq : eqOnColumn e = true).
    { rewrite forallb_forall in Hes. apply Hes.
      apply list_elem_of_In. apply list_elem_of_lookup. eauto. }
    destruct (analyzeStep_disjunct g wcX k (length es) e D1
                (D3 k e (Nat.lt_succ_diag_r k) He) Heq)
      as (wcY & Hstep & S1 & S2 & S3 & S4 & (m & Hm & Hok) & S6); [lia|].
    cbn [analyzeFrom]. rewrite Hstep. apply IH; [lia|].
    unfold Disjuncts. split_ands.
    + congruence.
    + lia.
    + intros j e' Hj He'. rewrite S4 by lia. apply D3; [lia | exact He'].
    + intros j e' Hj He'.
      destruct (decide (j = k)) as [->|Hne].
      * assert (e' = e) by congruence. subst e'. eauto.
      * assert (Hjl : (j < length es)%nat) by (eapply lookup_lt_Some; eauto).
        rewrite S4 by lia. apply D4; [lia | exact He'].
    + intros j tw Hj Hlk.
      destruct (decide (j < length (a wcX))%nat) as [Hlt|Hge].
      * rewrite S4 in Hlk by lia. now apply (D5 j).
      * apply (S6 j); [lia | exact Hlk].
Qed.

Lemma land_lor_same (x m : Z) : Z.land (Z.lor x m) m = m.
Proof.
  apply Z.bits_inj'. intros k _. rewrite Z.land_spec, Z.lor_spec.
  destruct (Z.testbit x k), (Z.testbit m k); reflexivity.
Qed.

Lemma land_keeps (x b m : Z) :
  Z.land x m = m -> Z.land b m = m -> Z.land (Z.land x b) m = m.
Proof. intros Hx Hb. now rewrite <- Z.land_assoc, Hb. Qed.

Lemma land_covers_nonzero (x m : Z) : Z.land x m = m -> m <> 0 -> x <> 0.
Proof. intros H Hm ->. rewrite Z.land_0_l in H. congruence. Qed.

(** The loop over the analysed disjuncts changes none of them and leaves
    the table [T] in [indexable] and in [chngToIN]. *)
Lemma orTermsLoop_disjuncts (g : WhereClause -> nat -> option WhereClause)
    (es : list Expr) (wcX : WhereClause) :
  Disjuncts es 0 wcX ->
  forall cnt i ind chg,
    (i + cnt = length (a wcX))%nat ->
    Z.land ind (getMask (sMaskSet env) T) = getMask (sMaskSet env) T ->
    Z.land chg (getMask (sMaskSet env) T) = getMask (sMaskSet env) T ->
    exists ind' chg',
      orTermsLoop env g cnt (a wcX) i ind chg = Some (a wcX, ind', chg')
      /\ Z.land ind' (getMask (sMaskSet env) T) = getMask (sMaskSet env) T
      /\ Z.land chg' (getMask (sMaskSet env) T) = getMask (sMaskSet env) T.
Proof.
  intros (D1 & D2 & D3 & D4 & D5).
  set (mT := getMask (sMaskSet env) T) in *.
  induction cnt as [|cnt IH]; intros i ind chg Hlen Hind Hchg.
  - exists ind, chg. auto.
  - cbn [orTermsLoop].
    pose proof (land_covers_nonzero ind mT Hind T_known) as Hnz.
    destruct (ind =? 0) eqn:E0; [lia|].
    destruct (lookup_lt_is_Some_2 (a wcX) i) as [t Ht]; [lia|].
    rewrite Ht. change (default noTerm (Some t)) with t.
    destruct (decide (i < length es)%nat) as [Hmain|Htwin].
    + destruct (lookup_lt_is_Some_2 es i Hmain) as [e He].
      destruct (D4 i e (Nat.le_0_l i) He) as (m & Hm & M1 & M2 & M3 & M4 & M5).
      assert (m = t) by congruence. subst m.
      assert (Hs : (Z.land (eOperator t) WO_SINGLE =? 0) = false)
        by (destruct M4 as [-> | ->]; reflexivity).
      assert (Hq : (Z.land (eOperator t) WO_EQ =? 0) = false)
        by (destruct M4 as [-> | ->]; reflexivity).
      rewrite Hs.
      destruct M5 as [M5|M5]; rewrite M5.
      * change (has 0 TERM_COPIED) with false.
        change (has 0 TERM_VIRTUAL) with false. cbv iota.
        rewrite Hq, M2. fold mT.
        apply IH; [lia | | ]; apply land_keeps; auto using Z.land_diag.
      * change (has TERM_COPIED TERM_COPIED) with true. cbv iota.
        apply IH; [lia | assumption | assumption].
    + destruct (D5 i t) as (W1 & W2 & W3 & W4); [lia | assumption |].
      assert (Hs : (Z.land (eOperator t) WO_SINGLE =? 0) = false)
        by (destruct W2 as [-> | ->]; reflexivity).
      assert (Hq : (Z.land (eOperator t) WO_EQ =? 0) = false)
        by (destruct W2 as [-> | ->]; reflexivity).
      rewrite Hs, W1.
      change (has vd TERM_COPIED) with false.
      change (has vd TERM_VIRTUAL) with true. cbv iota.
      destruct (iParent t <? 0) eqn:Ep; [lia|].
      destruct (lookup_lt_is_Some_2 es (Z.to_nat (iParent t))) as [e He];
        [lia|].
      destruct (D4 _ e (Nat.le_0_l _) He) as (m & Hm & M1 & M2 & M3 & M4 & M5).
      rewrite Hm. change (default noTerm (Some m)) with m.
      rewrite Hq, M2. fold mT.
      apply IH; [lia | | ]; apply land_keeps; auto using land_lor_same.
Qed.

(** The disjuncts while the candidate column is checked: those before
    [k] that constrain [T.C] carry [TERM_OR_OK]; the commuted copies never
    do. *)
Definition Checked (es : list Expr) (k : nat) (terms : list WhereTerm)
  : Prop :=
  (length es <= length terms)%nat
  /\ (forall j e, es !! j = Some e ->
                   exists m, terms !! j = Some m /\ pExpr m = e
                             /\ leftCursor m = T /\ leftColumn m = C
                             /\ ((j < k)%nat ->
                                 has (wtFlags m) TERM_OR_OK = true))
  /\ (forall j tw, (length es <= j)%nat -> terms !! j = Some tw ->
                    leftCursor tw <> T /\ wtFlags tw = vd).

Lemma Disjuncts_Checked (es : list Expr) (wcX : WhereClause) :
  Disjuncts es 0 wcX -> Checked es 0 (a wcX).
Proof.
  intros (D1 & D2 & D3 & D4 & D5). unfold Checked. split_ands.
  - exact D2.
  - intros j e He.
    destruct (D4 j e (Nat.le_0_l j) He) as (m & Hm & M1 & M2 & M3 & _).
    exists m. split_ands; auto. lia.
  - intros j tw Hj Hlk. destruct (D5 j tw Hj Hlk) as (W1 & _ & W3 & _). auto.
Qed.

Lemma Checked_insert (es : list Expr) (k k' j : nat)
    (terms : list WhereTerm) (t t' : WhereTerm) :
  Checked es k terms -> terms !! j = Some t ->
  pExpr t' = pExpr t -> leftCursor t' = leftCursor t ->
  leftColumn t' = leftColumn t ->
  ((j < length es)%nat -> (j < k')%nat -> has (wtFlags t') TERM_OR_OK = true) ->
  ((length es <= j)%nat -> wtFlags t' = vd) ->
  (forall x, (x < k')%nat -> x <> j -> (x < k)%nat) ->
  Checked es k' (<[j := t']> terms).
Proof.
  intros (K1 & K2 & K3) Ht E1 E2 E3 Hok Hvd Hk.
  assert (Hj : (j < length terms)%nat) by (eapply lookup_lt_Some; eauto).
  unfold Checked. split_ands.
  - now rewrite length_insert.
  - intros x e He. destruct (K2 x e He) as (m & Hm & M1 & M2 & M3 & M4).
    destruct (decide (x = j)) as [->|Hne].
    + exists t'. rewrite list_lookup_insert_eq by lia.
      assert (m = t) by congruence. subst m.
      split_ands; try congruence.
      intros Hlt. apply Hok; [eapply lookup_lt_Some; eauto | exact Hlt].
    + exists m. rewrite list_lookup_insert_ne by congruence.
      split_ands; auto.
  - intros x tw Hx Hlk.
    destruct (decide (x = j)) as [->|Hne].
    + rewrite list_lookup_insert_eq in Hlk by lia. injection Hlk as <-.
      destruct (K3 j t Hx Ht) as [W1 W2]. split; [congruence | auto].
    + rewrite list_lookup_insert_ne in Hlk by congruence. now apply (K3 x).
Qed.

Lemma has_raised (f bit : Z) : bit <> 0 -> has (Z.lor f bit) bit = true.
Proof.
  intros Hb. unfold has. rewrite land_lor_same.
  destruct (bit =? 0) eqn:E; [lia | reflexivity].
Qed.

(** Every disjunct passes the check of the candidate [T.C]. *)
Lemma checkCandidate_disjuncts (es : list Expr) :
  forallb eqOnColumn es = true ->
  forall cnt k terms,
    (k + cnt = length terms)%nat ->
    Checked es k terms ->
    exists terms',
      checkCandidate env cnt terms k T C = (terms', true)
      /\ Checked es (length terms') terms'.
Proof.
  intros Hes. induction cnt as [|cnt IH]; intros k terms Hlen Hck.
  - exists terms. split; [reflexivity|].
    now replace (length terms) with k by lia.
  - cbn [checkCandidate].
    destruct (lookup_lt_is_Some_2 terms k) as [t Ht]; [lia|].
    rewrite Ht. change (default noTerm (Some t)) with t.
    pose proof Hck as (K1 & K2 & K3).
    destruct (decide (k < length es)%nat) as [Hmain|Htwin].
    + destruct (lookup_lt_is_Some_2 es k Hmain) as [e He].
      destruct (K2 k e He) as (m & Hm & M1 & M2 & M3 & _).
      assert (m = t) by congruence. subst m.
      assert (Heq : eqOnColumn e = true).
      { rewrite forallb_forall in Hes. apply Hes.
        apply list_elem_of_In. apply list_elem_of_lookup. eauto. }
      destruct (eqOnColumn_inv e Heq)
        as (Hop & L & R & HL & HR & HLop & HLt & HLc & Hdis & Haff).
      rewrite M1, M2, M3, !Z.eqb_refl, HL, HR. cbn [negb].
      change (deref (Some R)) with R. change (deref (Some L)) with L.
      assert (Ha : negb (sqlite4ExprAffinity env R =? 0)
                   && negb (sqlite4ExprAffinity env R
                            =? sqlite4ExprAffinity env L) = false).
      { destruct Haff as [-> | ->]; rewrite ?Z.eqb_refl;
          [reflexivity | now rewrite andb_false_r]. }
      rewrite Ha.
      destruct (IH (S k) (<[k := raiseFlag TERM_OR_OK t]> terms))
        as (terms' & Hrun & Hck').
      * rewrite length_insert. lia.
      * apply (Checked_insert es k (S k) k terms t);
          [exact Hck | exact Ht | reflexivity | reflexivity | reflexivity
          | | | ].
        -- intros _ _. cbn. now apply has_raised.
        -- intros Hge. lia.
        -- intros x Hx Hne. lia.
      * exists terms'. auto.
    + destruct (K3 k t) as [W1 W2]; [lia | assumption |].
      assert (Hc : (leftCursor t =? T) = false) by lia.
      rewrite Hc. cbn [negb].
      destruct (IH (S k) (<[k := clearFlag TERM_OR_OK t]> terms))
        as (terms' & Hrun & Hck').
      * rewrite length_insert. lia.
      * apply (Checked_insert es k (S k) k terms t);
          [exact Hck | exact Ht | reflexivity | reflexivity | reflexivity
          | | | ].
        -- intros Hlt. lia.
        -- intros _. cbn. now rewrite W2.
        -- intros x Hx Hne. lia.
      * exists terms'. auto.
Qed.

(** The two rounds settle on [T.C] in the first. *)
Lemma chooseColumn_disjuncts (es : list Expr) (wcX : WhereClause) (chg : Z) :
  forallb eqOnColumn es = true ->
  es <> [] ->
  Disjuncts es 0 wcX ->
  Z.land chg (getMask (sMaskSet env) T) = getMask (sMaskSet env) T ->
  exists terms',
    chooseColumn env (a wcX) chg = (terms', true, T, C)
    /\ Checked es (length terms') terms'.
Proof.
  intros Hes Hne Hd Hchg.
  pose proof (Disjuncts_Checked es wcX Hd) as Hck.
  pose proof Hck as (K1 & K2 & K3).
  destruct es as [|e0 es']; [congruence|]. clear Hne.
  destruct (K2 0%nat e0 eq_refl) as (t0 & Ht0 & M1 & M2 & M3 & _).
  unfold chooseColumn, candidateRound.
  destruct (length (a wcX)) as [|len] eqn:Hlen;
    [cbn [length] in K1; lia|].
  cbn [findCandidate]. rewrite Ht0.
  change (default noTerm (Some t0)) with t0.
  change (leftCursor (clearFlag TERM_OR_OK t0)) with (leftCursor t0).
  rewrite M2.
  destruct (T =? -1) eqn:E1; [lia|].
  destruct (Z.land chg (getMask (sMaskSet env) T) =? 0) eqn:E2; [lia|].
  set (terms1 := <[0%nat := clearFlag TERM_OR_OK t0]> (a wcX)).
  assert (H1 : terms1 !! 0%nat = Some (clearFlag TERM_OR_OK t0)).
  { unfold terms1. apply list_lookup_insert_eq. lia. }
  rewrite H1.
  change (default noTerm (Some (clearFlag TERM_OR_OK t0)))
    with (clearFlag TERM_OR_OK t0).
  change (leftCursor (clearFlag TERM_OR_OK t0)) with (leftCursor t0).
  change (leftColumn (clearFlag TERM_OR_OK t0)) with (leftColumn t0).
  rewrite M2, M3.
  assert (Hck1 : Checked (e0 :: es') 0 terms1).
  { apply (Checked_insert (e0 :: es') 0 0 0 (a wcX) t0);
      [exact Hck | exact Ht0 | reflexivity | reflexivity | reflexivity
      | | | ].
    - intros _ Hlt. lia.
    - cbn [length]. lia.
    - intros x Hx. lia. }
  destruct (checkCandidate_disjuncts (e0 :: es') Hes
              (length terms1 - 0) 0 terms1) as (terms' & Hrun & Hck');
    [lia | exact Hck1 |].
  rewrite Hrun. cbn [orb]. exists terms'. auto.
Qed.

(** The operands of the IN operator: the right sides of the disjuncts
    that carry [TERM_OR_OK], and the left side of the last of them. *)
Lemma inOperands_unmarked (l : list WhereTerm) (acc : list Expr * option Expr) :
  Forall (fun t => has (wtFlags t) TERM_OR_OK = false) l ->
  fold_left
    (fun acc t =>
       if has (wtFlags t) TERM_OR_OK
       then (fst acc ++ [deref (pRight (pExpr t))], pLeft (pExpr t))
       else acc) l acc = acc.
Proof.
  intros H. revert acc.
  induction H as [|t l Ht _ IH]; intros acc; [reflexivity|].
  cbn [fold_left]. rewrite Ht. apply IH.
Qed.

Lemma inOperands_marked (es : list Expr) (l : list WhereTerm)
    (acc : list Expr * option Expr) :
  Forall2 (fun e t => pExpr t = e /\ has (wtFlags t) TERM_OR_OK = true) es l ->
  fold_left
    (fun acc t =>
       if has (wtFlags t) TERM_OR_OK
       then (fst acc ++ [deref (pRight (pExpr t))], pLeft (pExpr t))
       else acc) l acc
  = (fst acc ++ map (fun e => deref (pRight e)) es,
     match last es with Some e => pLeft e | None => snd acc end).
Proof.
  intros H. revert acc.
  induction H as [|e t es' l' [He Ht] _ IH]; intros acc.
  - cbn. rewrite app_nil_r. now destruct acc.
  - cbn [fold_left]. rewrite Ht, IH, He. cbn [fst snd map].
    rewrite <- app_assoc. cbn [app]. f_equal.
    rewrite last_cons. now destruct (last es').
Qed.

Lemma inOperands_checked (es : list Expr) (terms : list WhereTerm) :
  Checked es (length terms) terms ->
  inOperands terms
  = (map (fun e => deref (pRight e)) es,
     match last es with Some e => pLeft e | None => None end).
Proof.
  intros (K1 & K2 & K3). unfold inOperands.
  rewrite <- (take_drop (length es) terms) at 1.
  rewrite fold_left_app.
  rewrite (inOperands_marked es (take (length es) terms)).
  - apply inOperands_unmarked. apply Forall_lookup_2. intros j t Hj.
    rewrite lookup_drop in Hj.
    destruct (K3 (length es + j)%nat t) as [_ W]; [lia | exact Hj |].
    now rewrite W.
  - apply Forall2_same_length_lookup_2.
    + rewrite length_take. lia.
    + intros j e t He Ht.
      assert (Hj : (j < length es)%nat) by (eapply lookup_lt_Some; eauto).
      rewrite lookup_take_lt in Ht by lia.
      destruct (K2 j e He) as (m & Hm & M1 & _ & _ & M4).
      assert (m = t) by congruence. subst m. split; [exact M1|].
      apply M4. lia.
Qed.

Lemma getMask_loop_u64 (l : list Z) (c i : Z) (cnt : nat) :
  u64 (getMask_loop l c i cnt) = getMask_loop l c i cnt.
Proof.
  revert i. induction cnt as [|cnt IH]; intros i; [reflexivity|].
  cbn [getMask_loop]. destruct (aget 0 l i =? c); [|apply IH].
  unfold MASKBIT, u64. apply Z.mod_mod. lia.
Qed.

Lemma land_all_getMask (c : Z) :
  Z.land (bnot 0) (getMask (sMaskSet env) c) = getMask (sMaskSet env) c.
Proof.
  change (bnot 0) with (Z.ones 64). rewrite Z.land_comm, Z.land_ones by lia.
  apply getMask_loop_u64.
Qed.

(** The right sides of the disjuncts together use no column of [T]. *)
Lemma right_sides_elsewhere (es : list Expr) :
  forallb eqOnColumn es = true ->
  Z.land (exprListTableUsage (sMaskSet env)
            (map (fun e => deref (pRight e)) es))
         (getMask (sMaskSet env) T) = 0.
Proof.
  induction es as [|e es IH]; intros Hes; [reflexivity|].
  cbn [forallb] in Hes. apply andb_true_iff in Hes as [He Hes].
  destruct (eqOnColumn_inv e He) as (_ & L & R & _ & HR & _ & _ & _ & Hdis & _).
  cbn [map exprListTableUsage fold_right]. rewrite HR.
  change (deref (Some R)) with R.
  rewrite Z.land_lor_distr_l, Hdis. unfold exprListTableUsage in IH.
  now rewrite (IH Hes).
Qed.

(** The virtual term of the rewrite. *)
Definition InTerm (es : list Expr) (i : nat) (tIN : WhereTerm) : Prop :=
  op (pExpr tIN) = TK_IN
  /\ (exists L, pLeft (pExpr tIN) = Some L /\ op L = TK_COLUMN
                 /\ iTable L = T /\ iColumn L = C)
  /\ xList (pExpr tIN) = map (fun e => deref (pRight e)) es
  /\ wtFlags tIN = vd
  /\ iParent tIN = Z.of_nat i
  /\ leftCursor tIN = T /\ leftColumn tIN = C
  /\ eOperator tIN = WO_IN.

(** The OR term after the rewrite. *)
Definition OrTermDone (E : Expr) (tOR : WhereTerm) : Prop :=
  pExpr tOR = E /\ eOperator tOR = WO_NOOP /\ nChild tOR = 1
  /\ has (wtFlags tOR) TERM_ORINFO = true.

(** The clause after the rewrite of its term [i]. *)
Definition Rewritten (es : list Expr) (E : Expr) (i : nat)
    (wcX wcY : WhereClause) : Prop :=
  wcOp wcY = wcOp wcX
  /\ length (a wcY) = S (length (a wcX))
  /\ (exists tOR, a wcY !! i = Some tOR /\ OrTermDone E tOR)
  /\ (exists tIN, a wcY !! length (a wcX) = Some tIN /\ InTerm es i tIN)
  /\ (forall j, j <> i -> (j < length (a wcX))%nat ->
                 a wcY !! j = a wcX !! j).

Lemma split_disjuncts (E : Expr) (es : list Expr) :
  splitTerms TK_OR E = map (fun e => freshTerm e 0) es ->
  Disjuncts es (length es) (whereSplit whereClauseInit (Some E) TK_OR).
Proof.
  intros Hsplit. unfold Disjuncts, whereSplit.
  cbn [wcOp a pOuter whereClauseInit app]. rewrite Hsplit.
  split_ands.
  - reflexivity.
  - now rewrite length_map.
  - intros j e _ He. now rewrite list_lookup_fmap, He.
  - intros j e Hj He. apply lookup_lt_Some in He. lia.
  - intros j tw Hj Hlk. apply lookup_lt_Some in Hlk.
    rewrite length_map in Hlk. lia.
Qed.

Lemma exprAnalyzeOrTerm_to_in (f : nat) (wc0 : WhereClause) (i : nat)
    (t0 : WhereTerm) (es : list Expr) :
  likeOnlyFunctions env ->
  a wc0 !! i = Some t0 ->
  splitTerms TK_OR (pExpr t0) = map (fun e => freshTerm e 0) es ->
  es <> [] ->
  forallb eqOnColumn es = true ->
  exists wcR,
    exprAnalyzeOrTerm env (exprAnalyze (S f) env) wc0 i = Some wcR
    /\ Rewritten es (pExpr t0) i wc0 wcR.
Proof.
  intros Hlike H0 Hsplit Hne Hes.
  assert (Hi : (i < length (a wc0))%nat) by (eapply lookup_lt_Some; eauto).
  unfold exprAnalyzeOrTerm. rewrite (getTerm_lookup wc0 i t0 H0).
  set (E := pExpr t0) in *.
  unfold exprAnalyzeAll.
  change (exprAnalyze (S f) env) with (analyzeStep env (exprAnalyze f env)).
  pose proof (split_disjuncts E es Hsplit) as Hd0.
  assert (Hlen0 : length (a (whereSplit whereClauseInit (Some E) TK_OR))
                  = length es).
  { unfold whereSplit. cbn [a whereClauseInit app].
    now rewrite Hsplit, length_map. }
  rewrite Hlen0.
  destruct (analyzeFrom_disjuncts (exprAnalyze f env) es (length es) _
              Hes (Nat.le_refl _) Hd0) as (pOrWc & Hall & Hd).
  rewrite Hall.
  destruct (orTermsLoop_disjuncts
              (analyzeStep env (exprAnalyze f env)) es pOrWc Hd
              (length (a pOrWc)) 0 (bnot 0) (bnot 0) eq_refl
              (land_all_getMask T) (land_all_getMask T))
    as (ind & chg & Hloop & Hind & Hchg).
  rewrite Hloop.
  pose proof (land_covers_nonzero chg _ Hchg T_known) as Hchg0.
  destruct (chg =? 0) eqn:Ec; [lia|].
  destruct (chooseColumn_disjuncts es pOrWc chg Hes Hne Hd Hchg)
    as (terms' & Hchoose & Hck).
  rewrite Hchoose.
  set (hOr := fun t => set_eOperator (if ind =? 0 then 0 else WO_OR)
                         (storeOrInfo pOrWc terms' ind t)).
  set (wcA := updTerm wc0 i hOr).
  set (inE := inExpr E terms').
  change (whereClauseInsert wcA inE (Z.lor TERM_VIRTUAL TERM_DYNAMIC))
    with (pushTerm wcA (freshTerm inE vd), length (a wcA)).
  cbv beta iota.
  (* the expression of the IN operator *)
  destruct (last es) as [eL|] eqn:HeL.
  2:{ destruct es; [congruence|]. rewrite last_cons in HeL.
      destruct (last es); discriminate. }
  assert (HeLin : eqOnColumn eL = true).
  { rewrite forallb_forall in Hes. apply Hes.
    apply list_elem_of_In. eapply last_Some_elem_of. exact HeL. }
  destruct (eqOnColumn_inv eL HeLin)
    as (_ & L & RL & HL & _ & HLop & HLt & HLc & _ & _).
  assert (HinE : inE = mkExpr TK_IN (TK_OTHER 0) 0 0 (iRightJoinTable E)
                         (fromJoin E) false false [] None (Some L) None
                         (map (fun e => deref (pRight e)) es)).
  { unfold inE, inExpr. rewrite (inOperands_checked es terms' Hck), HeL, HL.
    reflexivity. }
  assert (Hfresh : pExpr (freshTerm inE vd) = inE).
  { apply pExpr_freshTerm; rewrite HinE; reflexivity. }
  assert (HlenA : length (a wcA) = length (a wc0)).
  { unfold wcA. apply length_updTerm. }
  rewrite (analyzeStep_simple env (exprAnalyze f env)
             (pushTerm wcA (freshTerm inE vd)) (length (a wcA))
             (freshTerm inE vd) Hlike (lookup_pushTerm_new _ _)).
  2:{ rewrite Hfresh, HinE. reflexivity. }
  2:{ left. rewrite Hfresh, HinE. reflexivity. }
  rewrite Hfresh, updTerm_pushTerm.
  set (tIN := simpleResult env inE (freshTerm inE vd)).
  assert (HtIN : pExpr tIN = inE /\ wtFlags tIN = vd
                 /\ leftCursor tIN = T /\ leftColumn tIN = C
                 /\ eOperator tIN = WO_IN).
  { unfold tIN, simpleResult.
    assert (HpL : deref (sqlite4ExprSkipCollate (pLeft inE)) = L).
    { rewrite HinE. cbn [pLeft sqlite4ExprSkipCollate].
      rewrite skipCollate_plain by (rewrite HLop; reflexivity).
      reflexivity. }
    assert (Hmask : Z.land (prereqRightOf env inE) (prereqLeftOf env inE)
                    = 0).
    { unfold prereqRightOf, prereqLeftOf. rewrite HinE.
      cbn [op pLeft xList exprUsage].
      change (tk_is TK_IN TK_IN) with true. cbv iota.
      replace (exprTableUsage (sMaskSet env) L)
        with (getMask (sMaskSet env) T).
      - now apply right_sides_elsewhere.
      - destruct L. cbn [exprTableUsage]. cbn [op] in HLop.
        rewrite HLop. cbn [iTable] in HLt. now rewrite HLt. }
    rewrite HpL, Hmask, (tk_is_eq _ _ HLop), HLt, HLc.
    change (0 =? 0) with true. cbv iota zeta.
    cbn [pExpr wtFlags leftCursor leftColumn eOperator set_prereqRight
         set_eOperator set_left beginTerm set_iParent set_leftCursor
         set_prereqAll].
    rewrite Hfresh. split_ands; try reflexivity.
    rewrite HinE. reflexivity. }
  destruct HtIN as (I1 & I2 & I3 & I4 & I5). clearbody tIN.
  eexists. split; [reflexivity|].
  set (wcB := pushTerm wcA tIN).
  assert (HBi : a wcB !! i = Some (hOr t0)).
  { unfold wcB. rewrite lookup_pushTerm_old by lia.
    unfold wcA. now rewrite lookup_updTerm_same, H0. }
  assert (HBn : a wcB !! length (a wcA) = Some tIN)
    by apply lookup_pushTerm_new.
  unfold Rewritten. split_ands.
  - reflexivity.
  - rewrite !length_updTerm. unfold wcB. rewrite length_pushTerm. lia.
  - eexists. split.
    + rewrite lookup_updTerm_same, lookup_updTerm_same.
      rewrite lookup_updTerm_ne by lia. rewrite HBi. reflexivity.
    + unfold OrTermDone, hOr. cbn. split_ands; try reflexivity.
      apply has_raised. discriminate.
  - eexists. split.
    + rewrite lookup_updTerm_ne by lia. rewrite lookup_updTerm_ne by lia.
      rewrite <- HlenA, lookup_updTerm_same, HBn. reflexivity.
    + unfold InTerm. cbn. rewrite I1, I2, I3, I4, I5, HinE. cbn.
      split_ands; try reflexivity.
      exists L. auto.
  - intros j Hj Hlt.
    rewrite lookup_updTerm_ne by congruence.
    rewrite lookup_updTerm_ne by congruence.
    rewrite lookup_updTerm_ne by lia.
    unfold wcB. rewrite lookup_pushTerm_old by lia.
    unfold wcA. now rewrite lookup_updTerm_ne by congruence.
Qed.

(** C5, amended.  Let the term [i] of a clause be an OR whose disjuncts
    [es] are all of the form [T.C = R] for one column [C] of one table [T]
    of the FROM clause, where no [R] uses a column of [T] and the affinity
    of each [R] is none or that of the column.  Then the analyser appends
    one term flagged Virtual|Dynamic for [T.C IN (R1, ..., Rn)], analysed
    (cursor [T], column [C], operator IN) and with the OR term as its
    parent; the OR term keeps its expression, has one child, and its
    operator is NOOP and not OR, so that the IN term and not the OR union
    is what the planner sees. *)
Theorem or_to_in_rewrite (f : nat) (wc : WhereClause) (i : nat)
    (t : WhereTerm) (es : list Expr) :
  likeOnlyFunctions env ->
  a wc !! i = Some t ->
  op (pExpr t) = TK_OR ->
  splitTerms TK_OR (pExpr t) = map (fun e => freshTerm e 0) es ->
  es <> [] ->
  forallb eqOnColumn es = true ->
  exists wc',
    exprAnalyze (S (S f)) env wc i = Some wc'
    /\ Rewritten es (pExpr t) i wc wc'.
Proof.
  intros Hlike Ht Hop Hsplit Hne Hes.
  assert (Hi : (i < length (a wc))%nat) by (eapply lookup_lt_Some; eauto).
  rewrite exprAnalyze_S. unfold analyzeStep.
  rewrite (getTerm_lookup wc i t Ht), Hop.
  cbn [allowedOp]. change (tk_is TK_OR TK_BETWEEN) with false.
  cbn [andb]. change (tk_is TK_OR TK_OR) with true. cbv iota.
  set (E := pExpr t) in *.
  set (wc0 := updTerm wc i (beginTerm env E)).
  assert (H0 : a wc0 !! i = Some (beginTerm env E t)).
  { unfold wc0. now rewrite lookup_updTerm_same, Ht. }
  destruct (exprAnalyzeOrTerm_to_in f wc0 i (beginTerm env E t) es
              Hlike H0 Hsplit Hne Hes)
    as (wcR & Hrun & R1 & R2 & (tOR & HtOR & O1 & O2 & O3 & O4)
        & (tIN & HtIN & Hin) & R5).
  rewrite Hrun.
  change (pExpr (beginTerm env E t)) with E in O1.
  assert (HeR : pExpr (getTerm wcR i) = E)
    by now rewrite (getTerm_lookup _ _ _ HtOR).
  rewrite likeArm_declines by (try assumption; rewrite HeR, Hop; reflexivity).
  rewrite matchArm_declines
    by (apply isMatchOfColumn_function; rewrite HeR, Hop; reflexivity).
  rewrite notNullArm_declines by (rewrite HeR, Hop; reflexivity).
  assert (Hlen0 : length (a wc0) = length (a wc))
    by apply length_updTerm.
  eexists. split; [reflexivity|].
  unfold Rewritten. split_ands.
  - exact R1.
  - rewrite length_updTerm. lia.
  - eexists. split; [now rewrite lookup_updTerm_same, HtOR|].
    unfold OrTermDone. cbn. auto.
  - exists tIN. split; [|exact Hin].
    rewrite lookup_updTerm_ne by lia. now rewrite <- Hlen0.
  - intros j Hj Hlt. rewrite lookup_updTerm_ne by congruence.
    rewrite R5 by lia. unfold wc0.
    now rewrite lookup_updTerm_ne by congruence.
Qed.

End OrToIn.

Section OrToInExamples.
Import Ast MaskSet Analyse.

(** [t7.c0 = 1 OR t7.c0 = t9.c2 OR t7.c0 = 3] as the only term of a WHERE
    clause. *)
Definition inDisjuncts : list Expr :=
  [eBin TK_EQ (eColumn 7 0) (eLeaf 1);
   eBin TK_EQ (eColumn 7 0) (eColumn 9 2);
   eBin TK_EQ (eColumn 7 0) (eLeaf 3)].

Definition orOfEqualities : Expr :=
  eBin TK_OR
    (eBin TK_OR (eBin TK_EQ (eColumn 7 0) (eLeaf 1))
                (eBin TK_EQ (eColumn 7 0) (eColumn 9 2)))
    (eBin TK_EQ (eColumn 7 0) (eLeaf 3)).

Definition orClause : WhereClause :=
  whereSplit whereClauseInit (Some orOfEqualities) TK_AND.

Lemma or_to_in_rewrite_witness :
  exists wc',
    exprAnalyze 2 (likeEnv false) orClause 0 = Some wc'
    /\ Rewritten 7 0 inDisjuncts orOfEqualities 0 orClause wc'.
Proof.
  apply (or_to_in_rewrite (likeEnv false) 7 0 ltac:(lia)
           ltac:(vm_compute; discriminate) 0 orClause 0
           (freshTerm orOfEqualities 0) inDisjuncts).
  - apply likeEnv_likeOnlyFunctions.
  - reflexivity.
  - reflexivity.
  - reflexivity.
  - discriminate.
  - reflexivity.
Defined.

(** C5, as stated, fails when a right side names the table itself: in
    [t7.c0 = t7.c1 OR t7.c0 = 5] every disjunct is an equality on [t7.c0]
    and the affinities agree, yet no IN term is appended and the OR term
    keeps the operator OR with no child. *)
Lemma or_with_same_table_right_side_kept :
  forallb (fun e => tk_is (op e) TK_EQ
                    && tk_is (op (deref (pLeft e))) TK_COLUMN
                    && (iTable (deref (pLeft e)) =? 7)
                    && (iColumn (deref (pLeft e)) =? 0))
    [eBin TK_EQ (eColumn 7 0) (eColumn 7 1);
     eBin TK_EQ (eColumn 7 0) (eLeaf 5)] = true
  /\ sqlite4ExprAffinity (likeEnv false) (eColumn 7 1)
     = sqlite4ExprAffinity (likeEnv false) (eColumn 7 0)
  /\ sqlite4ExprAffinity (likeEnv false) (eLeaf 5) = 0
  /\ option_map
       (fun wc' => map (fun t => (op (pExpr t), eOperator t, nChild t))
                       (a wc'))
       (exprAnalyze 3 (likeEnv false)
          (whereSplit whereClauseInit
             (Some (eBin TK_OR (eBin TK_EQ (eColumn 7 0) (eColumn 7 1))
                               (eBin TK_EQ (eColumn 7 0) (eLeaf 5))))
             TK_AND) 0)
     = Some [(TK_OR, WO_OR, 0)].
Proof. repeat apply conj; vm_compute; reflexivity. Qed.

End OrToInExamples.

(** * The keyword table of the tokenizer (keywordhash.h) *)

Module Keyword.

(** The token codes that [aCode] names, and [TK_ID]. *)
Inductive Code :=
  | TK_ID
  | TK_REINDEX | TK_INDEXED | TK_INDEX | TK_DESC | TK_ESCAPE
  | TK_EACH | TK_CHECK | TK_KEY | TK_BEFORE | TK_FOREIGN
  | TK_FOR | TK_IGNORE | TK_LIKE_KW | TK_EXPLAIN | TK_INSTEAD
  | TK_ADD | TK_DATABASE | TK_AS | TK_SELECT | TK_TABLE
  | TK_JOIN_KW | TK_THEN | TK_END | TK_DEFERRABLE | TK_ELSE
  | TK_EXCEPT | TK_TRANSACTION | TK_ACTION | TK_ON | TK_ALTER
  | TK_RAISE | TK_EXCLUSIVE | TK_EXISTS | TK_SAVEPOINT | TK_INTERSECT
  | TK_TRIGGER | TK_REFERENCES | TK_CONSTRAINT | TK_INTO | TK_OFFSET
  | TK_OF | TK_SET | TK_TEMP | TK_OR | TK_UNIQUE
  | TK_QUERY | TK_ATTACH | TK_HAVING | TK_GROUP | TK_UPDATE
  | TK_BEGIN | TK_RELEASE | TK_BETWEEN | TK_NOTNULL | TK_NOT
  | TK_NO | TK_NULL | TK_CASCADE | TK_ASC | TK_DELETE
  | TK_CASE | TK_COLLATE | TK_CREATE | TK_CTIME_KW | TK_DETACH
  | TK_IMMEDIATE | TK_JOIN | TK_INSERT | TK_MATCH | TK_PLAN
  | TK_ANALYZE | TK_PRAGMA | TK_ABORT | TK_VALUES | TK_WHEN
  | TK_WHERE | TK_RENAME | TK_AFTER | TK_REPLACE | TK_AND
  | TK_DEFAULT | TK_AUTOINCR | TK_TO | TK_IN | TK_CAST
  | TK_COLUMNKW | TK_COMMIT | TK_CONFLICT | TK_COVERING | TK_BY
  | TK_PRIMARY | TK_DEFERRED | TK_DISTINCT | TK_IS | TK_DROP
  | TK_FAIL | TK_LIMIT | TK_FROM | TK_IF | TK_ISNULL
  | TK_ORDER | TK_RESTRICT | TK_ROLLBACK | TK_ROW | TK_UNION
  | TK_USING | TK_VIEW | TK_INITIALLY | TK_ALL.

(** [zText]: the keywords, overlapped, as bytes. *)
Definition zTextString : string :=
  ("REINDEXEDESCAPEACHECKEYBEFOREIGNOREGEXPLAINSTEADDATABASELECT"
   ++ "ABLEFTHENDEFERRABLELSEXCEPTRANSACTIONATURALTERAISEXCLUSIVEXI"
   ++ "STSAVEPOINTERSECTRIGGEREFERENCESCONSTRAINTOFFSETEMPORARYUNIQ"
   ++ "UERYATTACHAVINGROUPDATEBEGINNERELEASEBETWEENOTNULLIKECASCADE"
   ++ "LETECASECOLLATECREATECURRENT_DATEDETACHIMMEDIATEJOINSERTMATC"
   ++ "HPLANALYZEPRAGMABORTVALUESWHENWHERENAMEAFTEREPLACEANDEFAULTA"
   ++ "UTOINCREMENTCASTCOLUMNCOMMITCONFLICTCOVERINGLOBYCROSSCURRENT"
   ++ "_TIMESTAMPRIMARYDEFERREDISTINCTDROPFAILIMITFROMFULLIFISNULLO"
   ++ "RDERESTRICTOUTERIGHTROLLBACKROWUNIONUSINGVIEWINITIALLY")%string.

Definition zText : list Z :=
  map (fun c => Z.of_N (Ascii.N_of_ascii c)) (String.list_ascii_of_string zTextString).

Definition aHash : list Z :=
  [
    72; 102; 114; 70; 0; 45; 0; 0; 78; 0; 73; 0; 0;
    42; 12; 74; 15; 0; 113; 79; 50; 108; 0; 19; 0; 0;
    35; 0; 116; 111; 0; 22; 87; 0; 9; 0; 0; 66; 67;
    0; 65; 6; 0; 48; 84; 99; 0; 115; 98; 0; 93; 44;
    0; 100; 24; 0; 17; 0; 118; 49; 23; 0; 5; 94; 25;
    90; 0; 0; 120; 103; 56; 119; 53; 28; 51; 0; 85; 0;
    97; 26; 0; 96; 0; 0; 0; 89; 86; 91; 82; 107; 14;
    39; 106; 0; 77; 0; 18; 83; 95; 32; 0; 117; 76; 109;
    58; 46; 105; 0; 0; 88; 40; 0; 112; 0; 36; 0; 0;
    29; 0; 80; 59; 60; 0; 20; 57; 0; 52 ].

Definition aNext : list Z :=
  [
    0; 0; 0; 0; 4; 0; 0; 0; 0; 0; 0; 0; 0;
    0; 2; 0; 0; 0; 0; 0; 0; 13; 0; 0; 0; 0;
    0; 7; 0; 0; 0; 0; 0; 0; 0; 0; 0; 0; 0;
    0; 0; 0; 0; 33; 0; 21; 0; 0; 0; 43; 3; 47;
    0; 0; 0; 0; 30; 0; 54; 0; 38; 0; 0; 0; 1;
    62; 0; 0; 63; 0; 41; 0; 0; 0; 0; 0; 0; 0;
    0; 0; 0; 31; 55; 16; 34; 10; 0; 0; 0; 0; 0;
    0; 0; 0; 81; 0; 11; 68; 75; 0; 8; 0; 101; 92;
    0; 0; 104; 0; 71; 0; 0; 110; 27; 37; 69; 61; 0;
    64; 0; 0 ].

Definition aLen : list Z :=
  [
    7; 7; 5; 4; 6; 4; 5; 3; 6; 7; 3; 6; 6;
    7; 7; 3; 8; 2; 6; 5; 4; 4; 3; 10; 4; 6;
    11; 6; 2; 7; 5; 5; 9; 6; 9; 9; 7; 10; 10;
    4; 6; 2; 3; 9; 4; 2; 6; 5; 6; 6; 5; 6;
    5; 5; 7; 7; 7; 3; 2; 4; 4; 7; 3; 6; 4;
    7; 6; 12; 6; 9; 4; 6; 5; 4; 7; 6; 5; 6;
    4; 5; 6; 5; 7; 3; 7; 13; 2; 2; 4; 6; 6;
    8; 8; 4; 2; 5; 17; 12; 7; 8; 8; 2; 4; 4;
    5; 4; 4; 2; 6; 5; 8; 5; 5; 8; 3; 5; 5;
    4; 9; 3 ].

Definition aOffset : list Z :=
  [
    0; 2; 2; 8; 9; 14; 16; 20; 23; 25; 25; 29; 33;
    36; 41; 46; 48; 53; 54; 59; 62; 65; 67; 69; 78; 81;
    86; 91; 95; 96; 101; 105; 109; 117; 122; 128; 136; 142; 152;
    159; 162; 162; 165; 167; 167; 171; 176; 179; 184; 189; 194; 197;
    203; 206; 210; 217; 223; 223; 223; 226; 229; 233; 234; 238; 244;
    248; 255; 261; 273; 279; 288; 290; 296; 301; 303; 310; 315; 320;
    326; 330; 333; 339; 343; 350; 352; 359; 361; 363; 372; 376; 382;
    388; 396; 403; 406; 408; 413; 413; 429; 436; 443; 444; 451; 455;
    458; 463; 467; 471; 473; 479; 483; 491; 495; 500; 508; 511; 516;
    521; 525; 530 ].

Definition aCode : list Code :=
  [
    TK_REINDEX; TK_INDEXED; TK_INDEX; TK_DESC; TK_ESCAPE;
    TK_EACH; TK_CHECK; TK_KEY; TK_BEFORE; TK_FOREIGN;
    TK_FOR; TK_IGNORE; TK_LIKE_KW; TK_EXPLAIN; TK_INSTEAD;
    TK_ADD; TK_DATABASE; TK_AS; TK_SELECT; TK_TABLE;
    TK_JOIN_KW; TK_THEN; TK_END; TK_DEFERRABLE; TK_ELSE;
    TK_EXCEPT; TK_TRANSACTION; TK_ACTION; TK_ON; TK_JOIN_KW;
    TK_ALTER; TK_RAISE; TK_EXCLUSIVE; TK_EXISTS; TK_SAVEPOINT;
    TK_INTERSECT; TK_TRIGGER; TK_REFERENCES; TK_CONSTRAINT; TK_INTO;
    TK_OFFSET; TK_OF; TK_SET; TK_TEMP; TK_TEMP;
    TK_OR; TK_UNIQUE; TK_QUERY; TK_ATTACH; TK_HAVING;
    TK_GROUP; TK_UPDATE; TK_BEGIN; TK_JOIN_KW; TK_RELEASE;
    TK_BETWEEN; TK_NOTNULL; TK_NOT; TK_NO; TK_NULL;
    TK_LIKE_KW; TK_CASCADE; TK_ASC; TK_DELETE; TK_CASE;
    TK_COLLATE; TK_CREATE; TK_CTIME_KW; TK_DETACH; TK_IMMEDIATE;
    TK_JOIN; TK_INSERT; TK_MATCH; TK_PLAN; TK_ANALYZE;
    TK_PRAGMA; TK_ABORT; TK_VALUES; TK_WHEN; TK_WHERE;
    TK_RENAME; TK_AFTER; TK_REPLACE; TK_AND; TK_DEFAULT;
    TK_AUTOINCR; TK_TO; TK_IN; TK_CAST; TK_COLUMNKW;
    TK_COMMIT; TK_CONFLICT; TK_COVERING; TK_LIKE_KW; TK_BY;
    TK_JOIN_KW; TK_CTIME_KW; TK_CTIME_KW; TK_PRIMARY; TK_DEFERRED;
    TK_DISTINCT; TK_IS; TK_DROP; TK_FAIL; TK_LIMIT;
    TK_FROM; TK_JOIN_KW; TK_IF; TK_ISNULL; TK_ORDER;
    TK_RESTRICT; TK_JOIN_KW; TK_JOIN_KW; TK_ROLLBACK; TK_ROW;
    TK_UNION; TK_USING; TK_VIEW; TK_INITIALLY; TK_ALL ].

(** [&zText[aOffset[i]]]: the text of keyword [i] and what follows it. *)
Definition keywordAt (i : Z) : list Z :=
  drop (Z.to_nat (aget 0 aOffset i)) zText.

Section Lookup.

(** The macro [charMap] (the byte table [sqlite4UpperToLower] read at
    [(unsigned char)X]) and [sqlite4_strnicmp] live outside this file. *)
Variable charMap : Z -> Z.
Variable sqlite4_strnicmp : list Z -> list Z -> Z -> Z.

(** The loop [for(i=aHash[h]-1; i>=0; i=aNext[i]-1)] from entry [i];
    [None] when the fuel runs out before the chain ends. *)
Fixpoint keywordLoop (fuel : nat) (i : Z) (z : list Z) (n : Z)
  : option Code :=
  match fuel with
  | O => None
  | S fuel' =>
      if i <? 0 then Some TK_ID
      else if (aget 0 aLen i =? n)
              && (sqlite4_strnicmp (keywordAt i) z n =? 0)
      then Some (aget TK_ID aCode i)
      else keywordLoop fuel' (aget 0 aNext i - 1) z n
  end.

(** The hash of the first byte, the last byte and the length. *)
Definition keywordHash (z : list Z) (n : Z) : Z :=
  Z.rem (Z.lxor (Z.lxor (charMap (aget 0 z 0) * 4)
                        (charMap (aget 0 z (n - 1)) * 3)) n) 127.

(** [keywordCode]. *)
Definition keywordCode (z : list Z) (n : Z) : option Code :=
  if n <? 2 then Some TK_ID
  else keywordLoop 121 (aget 0 aHash (keywordHash z n) - 1) z n.

(** [sqlite4KeywordCode]. *)
Definition sqlite4KeywordCode (z : list Z) (n : Z) : option Code :=
  keywordCode z n.

End Lookup.

(** [SQLITE4_N_KEYWORD]. *)
Definition SQLITE4_N_KEYWORD : Z := 120.

End Keyword.

(** ** Properties of the keyword lookup *)

Section KeywordFacts.
Import Keyword.

(** ASCII lower-casing, and a comparison of the first [n] bytes under it:
    what [charMap] and [sqlite4_strnicmp] are for ASCII text. *)
Definition asciiLower (c : Z) : Z :=
  if (65 <=? c) && (c <=? 90) then c + 32 else c.

Definition sameFolded (a b : list Z) (n : Z) : bool :=
  forallb (fun k => asciiLower (aget 0 a (Z.of_nat k))
                    =? asciiLower (aget 0 b (Z.of_nat k)))
          (seq 0 (Z.to_nat n)).

Definition asciiStrnicmp (a b : list Z) (n : Z) : Z :=
  if sameFolded a b n then 0 else 1.

(** The number of entries on the chain from [i]; [None] when the fuel
    does not reach its end. *)
Fixpoint chainLength (fuel : nat) (i : Z) : option nat :=
  match fuel with
  | O => None
  | S fuel' =>
      if i <? 0 then Some 0%nat
      else option_map S (chainLength fuel' (aget 0 aNext i - 1))
  end.

(** Every bucket of [aHash] starts a chain of at most three entries. *)
Lemma chains_short :
  forallb (fun h => match chainLength 4 (aget 0 aHash (Z.of_nat h) - 1) with
                    | Some _ => true
                    | None => false
                    end) (seq 0 127) = true.
Proof. vm_compute. reflexivity. Qed.

Lemma chain_ends (h : Z) :
  exists k, chainLength 4 (aget 0 aHash h - 1) = Some k.
Proof.
  destruct (Z.ltb_spec h 0) as [Hneg|Hpos].
  { exists 0%nat. unfold aget. destruct (Z.ltb_spec h 0); [reflexivity|lia]. }
  destruct (Z.ltb_spec h 127) as [Hlt|Hge].
  - pose proof chains_short as H. rewrite forallb_forall in H.
    specialize (H (Z.to_nat h)). rewrite Z2Nat.id in H by lia.
    destruct (chainLength 4 (aget 0 aHash h - 1)) as [k|]; [eauto|].
    discriminate H. apply in_seq. lia.
  - exists 0%nat. unfold aget. destruct (Z.ltb_spec h 0); [lia|].
    rewrite lookup_ge_None_2 by (change (length aHash) with 127%nat; lia).
    reflexivity.
Qed.

Section Abstract.

Variable charMap : Z -> Z.
Variable sqlite4_strnicmp : list Z -> list Z -> Z -> Z.

Lemma keywordLoop_ends (fuel : nat) (i : Z) (k : nat) (z : list Z) (n : Z) :
  chainLength fuel i = Some k ->
  exists c, keywordLoop sqlite4_strnicmp fuel i z n = Some c.
Proof.
  revert i k. induction fuel as [|fuel IH]; intros i k Hk; [discriminate|].
  cbn [chainLength keywordLoop] in *.
  destruct (i <? 0); [eauto|].
  destruct ((aget 0 aLen i =? n)
            && (sqlite4_strnicmp (keywordAt i) z n =? 0)); [eauto|].
  destruct (chainLength fuel (aget 0 aNext i - 1)) as [k'|] eqn:E;
    [|discriminate].
  eapply IH. exact E.
Qed.

Lemma keywordLoop_more_fuel (fuel extra : nat) (i : Z) (z : list Z) (n : Z)
    (c : Code) :
  keywordLoop sqlite4_strnicmp fuel i z n = Some c ->
  keywordLoop sqlite4_strnicmp (fuel + extra) i z n = Some c.
Proof.
  revert i. induction fuel as [|fuel IH]; intros i H; [discriminate|].
  cbn [keywordLoop Nat.add] in *.
  destruct (i <? 0); [exact H|].
  destruct ((aget 0 aLen i =? n)
            && (sqlite4_strnicmp (keywordAt i) z n =? 0)); [exact H|].
  now apply IH.
Qed.

(** X1.  [keywordCode] returns for every text and every length, also for
    bytes outside ASCII and whatever the comparison answers: the chains
    of [aNext] end, after at most three entries.  A length below 2 gives
    [TK_ID]. *)
Theorem keywordCode_returns (z : list Z) (n : Z) :
  (exists c, keywordCode charMap sqlite4_strnicmp z n = Some c)
  /\ (n < 2 -> keywordCode charMap sqlite4_strnicmp z n = Some TK_ID)
  /\ keywordLoop sqlite4_strnicmp 4
       (aget 0 aHash (keywordHash charMap z n) - 1) z n
     = keywordLoop sqlite4_strnicmp 121
         (aget 0 aHash (keywordHash charMap z n) - 1) z n.
Proof.
  destruct (chain_ends (keywordHash charMap z n)) as [k Hk].
  destruct (keywordLoop_ends 4 _ k z n Hk) as [c Hc].
  pose proof (keywordLoop_more_fuel 4 117 _ z n c Hc) as Hc'.
  change (4 + 117)%nat with 121%nat in Hc'.
  split; [|split].
  - unfold keywordCode. destruct (n <? 2); eauto.
  - intros Hn. unfold keywordCode.
    destruct (Z.ltb_spec n 2); [reflexivity|lia].
  - now rewrite Hc, Hc'.
Qed.

(** What is taken from [sqlite4_strnicmp]: on a left operand without a
    terminator among its first [n] bytes it answers 0 exactly when the
    first [n] bytes of both operands agree under [charMap]. *)
Definition strnicmpFolds : Prop :=
  forall (a b : list Z) (n : Z),
    (forall k, 0 <= k < n -> aget 0 a k <> 0) ->
    (sqlite4_strnicmp a b n = 0
     <-> forall k, 0 <= k < n -> charMap (aget 0 a k) = charMap (aget 0 b k)).

(** The bytes of keyword [i] are upper-case letters or the underscore. *)
Definition keywordByte (c : Z) : bool :=
  ((65 <=? c) && (c <=? 90)) || (c =? 95).

Lemma keyword_bytes :
  forallb (fun i => forallb
                      (fun k => keywordByte
                                  (aget 0 (keywordAt (Z.of_nat i))
                                        (Z.of_nat k)))
                      (seq 0 (Z.to_nat (aget 0 aLen (Z.of_nat i)))))
          (seq 0 120) = true.
Proof. vm_compute. reflexivity. Qed.

Lemma aLen_outside (i : Z) : ~ (0 <= i < 120) -> aget 0 aLen i = 0.
Proof.
  intros H. unfold aget. destruct (Z.ltb_spec i 0); [reflexivity|].
  rewrite lookup_ge_None_2 by (change (length aLen) with 120%nat; lia).
  reflexivity.
Qed.

Lemma keyword_byte_at (i k : Z) :
  0 <= i < 120 -> 0 <= k < aget 0 aLen i ->
  keywordByte (aget 0 (keywordAt i) k) = true.
Proof.
  intros Hi Hk. pose proof keyword_bytes as H.
  rewrite forallb_forall in H. specialize (H (Z.to_nat i)).
  rewrite Z2Nat.id in H by lia.
  rewrite forallb_forall in H by (apply in_seq; lia).
  specialize (H ltac:(apply in_seq; lia) (Z.to_nat k)).
  rewrite Z2Nat.id in H by lia. apply H. apply in_seq. lia.
Qed.

Lemma keyword_no_terminator (i n k : Z) :
  2 <= n -> aget 0 aLen i = n -> 0 <= k < n ->
  aget 0 (keywordAt i) k <> 0.
Proof.
  intros Hn Hlen Hk.
  assert (Hi : 0 <= i < 120).
  { destruct (Z.ltb_spec i 0) as [?|?];
      [rewrite aLen_outside in Hlen by lia; lia|].
    destruct (Z.ltb_spec i 120) as [?|?]; [lia|].
    rewrite aLen_outside in Hlen by lia. lia. }
  pose proof (keyword_byte_at i k Hi ltac:(lia)) as Hb.
  unfold keywordByte in Hb. intros H0. rewrite H0 in Hb. discriminate.
Qed.

(** Two texts that agree under [charMap] on their first [n] bytes. *)
Definition foldAlike (z1 z2 : list Z) (n : Z) : Prop :=
  forall k, 0 <= k < n -> charMap (aget 0 z1 k) = charMap (aget 0 z2 k).

Lemma keywordLoop_foldAlike (fuel : nat) (i : Z) (z1 z2 : list Z) (n : Z) :
  strnicmpFolds -> 2 <= n -> foldAlike z1 z2 n ->
  keywordLoop sqlite4_strnicmp fuel i z1 n
  = keywordLoop sqlite4_strnicmp fuel i z2 n.
Proof.
  intros Hcmp Hn Hz. revert i.
  induction fuel as [|fuel IH]; intros i; [reflexivity|].
  cbn [keywordLoop]. destruct (i <? 0); [reflexivity|].
  destruct (Z.eqb_spec (aget 0 aLen i) n) as [Hlen|Hlen];
    [|cbn [andb]; apply IH].
  cbn [andb].
  pose proof (Hcmp (keywordAt i) z1 n
                (fun k Hk => keyword_no_terminator i n k Hn Hlen Hk)) as H1.
  pose proof (Hcmp (keywordAt i) z2 n
                (fun k Hk => keyword_no_terminator i n k Hn Hlen Hk)) as H2.
  assert (Hsame : (sqlite4_strnicmp (keywordAt i) z1 n =? 0)
                  = (sqlite4_strnicmp (keywordAt i) z2 n =? 0)).
  { destruct (Z.eqb_spec (sqlite4_strnicmp (keywordAt i) z1 n) 0) as [E1|E1],
             (Z.eqb_spec (sqlite4_strnicmp (keywordAt i) z2 n) 0) as [E2|E2];
      try reflexivity; exfalso.
    - apply E2, H2. intros k Hk. rewrite <- (Hz k Hk). now apply H1.
    - apply E1, H1. intros k Hk. rewrite (Hz k Hk). now apply H2. }
  rewrite Hsame.
  destruct (sqlite4_strnicmp (keywordAt i) z2 n =? 0); [reflexivity|apply IH].
Qed.

(** X2.  The lookup does not see the case of its input: two texts whose
    first [n] bytes agree under [charMap] get the same code. *)
Theorem keywordCode_case_blind (z1 z2 : list Z) (n : Z) :
  strnicmpFolds -> foldAlike z1 z2 n ->
  keywordCode charMap sqlite4_strnicmp z1 n
  = keywordCode charMap sqlite4_strnicmp z2 n.
Proof.
  intros Hcmp Hz. unfold keywordCode.
  destruct (Z.ltb_spec n 2) as [?|Hn]; [reflexivity|].
  assert (Hh : keywordHash charMap z1 n = keywordHash charMap z2 n).
  { unfold keywordHash. now rewrite (Hz 0), (Hz (n - 1)) by lia. }
  rewrite Hh. now apply keywordLoop_foldAlike.
Qed.

Lemma keywordLoop_sound (fuel : nat) (i : Z) (z : list Z) (n : Z) (c : Code) :
  strnicmpFolds -> 2 <= n ->
  keywordLoop sqlite4_strnicmp fuel i z n = Some c ->
  c = TK_ID
  \/ exists j, 0 <= j < 120 /\ aget 0 aLen j = n
               /\ aget TK_ID aCode j = c
               /\ foldAlike (keywordAt j) z n.
Proof.
  intros Hcmp Hn. revert i.
  induction fuel as [|fuel IH]; intros i H; [discriminate|].
  cbn [keywordLoop] in H. destruct (i <? 0) eqn:Ei.
  { injection H as <-. now left. }
  destruct (Z.eqb_spec (aget 0 aLen i) n) as [Hlen|Hlen];
    [|cbn [andb] in H; now apply (IH _ H)].
  cbn [andb] in H.
  destruct (Z.eqb_spec (sqlite4_strnicmp (keywordAt i) z n) 0) as [E|E];
    [|now apply (IH _ H)].
  injection H as <-. right. exists i.
  assert (Hi : 0 <= i < 120).
  { destruct (Z.ltb_spec i 0) as [?|?]; [discriminate|].
    destruct (Z.ltb_spec i 120) as [?|?]; [lia|].
    rewrite aLen_outside in Hlen by lia. lia. }
  split; [exact Hi|]. split; [exact Hlen|]. split; [reflexivity|].
  unfold foldAlike. apply (Hcmp (keywordAt i) z n); [|exact E].
  intros k Hk. now apply (keyword_no_terminator i n k).
Qed.

(** X3.  A code other than [TK_ID] is only given to a text that is one of
    the 120 keywords up to case: some entry of the table has the length
    [n], the code returned, and the first [n] bytes of the text under
    [charMap]. *)
Theorem keywordCode_sound (z : list Z) (n : Z) (c : Code) :
  strnicmpFolds ->
  keywordCode charMap sqlite4_strnicmp z n = Some c -> c <> TK_ID ->
  2 <= n
  /\ exists j, 0 <= j < 120 /\ aget 0 aLen j = n
               /\ aget TK_ID aCode j = c
               /\ foldAlike (keywordAt j) z n.
Proof.
  intros Hcmp H Hc. unfold keywordCode in H.
  destruct (Z.ltb_spec n 2) as [?|Hn]; [congruence|].
  split; [exact Hn|].
  destruct (keywordLoop_sound _ _ z n c Hcmp Hn H) as [?|?];
    [contradiction | assumption].
Qed.

(** What is taken from the table behind [charMap]: upper-case ASCII
    letters map to their lower-case letters and the underscore to
    itself. *)
Definition charMapAscii : Prop :=
  forall c, keywordByte c = true -> charMap c = asciiLower c.

Lemma sameFolded_spec (a b : list Z) (n : Z) :
  sameFolded a b n = true
  <-> forall k, 0 <= k < n ->
                asciiLower (aget 0 a k) = asciiLower (aget 0 b k).
Proof.
  unfold sameFolded. rewrite forallb_forall. split.
  - intros H k Hk. specialize (H (Z.to_nat k)).
    rewrite Z2Nat.id in H by lia. apply Z.eqb_eq, H, in_seq. lia.
  - intros H k Hk. apply in_seq in Hk. apply Z.eqb_eq, H. lia.
Qed.

Lemma keywordLoop_ascii (fuel : nat) (i i0 : Z) :
  strnicmpFolds -> charMapAscii ->
  0 <= i0 < 120 -> 2 <= aget 0 aLen i0 ->
  keywordLoop sqlite4_strnicmp fuel i (keywordAt i0) (aget 0 aLen i0)
  = keywordLoop asciiStrnicmp fuel i (keywordAt i0) (aget 0 aLen i0).
Proof.
  intros Hcmp Hmap Hi0 Hn. revert i.
  induction fuel as [|fuel IH]; intros i; [reflexivity|].
  cbn [keywordLoop]. destruct (i <? 0) eqn:Ei; [reflexivity|].
  destruct (Z.eqb_spec (aget 0 aLen i) (aget 0 aLen i0)) as [Hlen|Hlen];
    [|cbn [andb]; apply IH].
  cbn [andb].
  assert (Hi : 0 <= i < 120).
  { destruct (Z.ltb_spec i 0) as [?|?]; [discriminate|].
    destruct (Z.ltb_spec i 120) as [?|?]; [lia|].
    rewrite aLen_outside in Hlen by lia. lia. }
  pose proof (Hcmp (keywordAt i) (keywordAt i0) (aget 0 aLen i0)
                (fun k Hk => keyword_no_terminator i _ k Hn Hlen Hk)) as H1.
  assert (Hsame : (sqlite4_strnicmp (keywordAt i) (keywordAt i0)
                     (aget 0 aLen i0) =? 0)
                  = (asciiStrnicmp (keywordAt i) (keywordAt i0)
                       (aget 0 aLen i0) =? 0)).
  { assert (Hfold : forall k, 0 <= k < aget 0 aLen i0 ->
              (charMap (aget 0 (keywordAt i) k)
               = charMap (aget 0 (keywordAt i0) k)
               <-> asciiLower (aget 0 (keywordAt i) k)
                   = asciiLower (aget 0 (keywordAt i0) k))).
    { intros k Hk.
      rewrite (Hmap _ (keyword_byte_at i k Hi ltac:(lia))).
      rewrite (Hmap _ (keyword_byte_at i0 k Hi0 Hk)). reflexivity. }
    unfold asciiStrnicmp.
    destruct (sameFolded (keywordAt i) (keywordAt i0) (aget 0 aLen i0))
      eqn:Es.
    - apply Z.eqb_eq, H1. intros k Hk. apply Hfold; [exact Hk|].
      now apply (proj1 (sameFolded_spec _ _ _) Es).
    - change (1 =? 0) with false. apply Z.eqb_neq. intros E.
      assert (Ht : sameFolded (keywordAt i) (keywordAt i0) (aget 0 aLen i0)
                   = true).
      { apply sameFolded_spec. intros k Hk. apply Hfold; [exact Hk|].
        apply H1; assumption. }
      congruence. }
  rewrite Hsame.
  destruct (asciiStrnicmp (keywordAt i) (keywordAt i0) (aget 0 aLen i0)
            =? 0); [reflexivity|apply IH].
Qed.

End Abstract.

(** Under ASCII folding every keyword of the table is found at its own
    entry. *)
Lemma keywords_found (i : nat) :
  (i < 120)%nat ->
  2 <= aget 0 aLen (Z.of_nat i)
  /\ keywordCode asciiLower asciiStrnicmp (keywordAt (Z.of_nat i))
                 (aget 0 aLen (Z.of_nat i))
     = Some (aget TK_ID aCode (Z.of_nat i)).
Proof.
  intros Hi.
  do 120 (destruct i as [|i]; [split; [vm_compute; discriminate
                                      | vm_compute; reflexivity]|]).
  lia.
Qed.

Lemma asciiStrnicmp_folds : strnicmpFolds asciiLower asciiStrnicmp.
Proof.
  intros a b n _. unfold asciiStrnicmp.
  destruct (sameFolded a b n) eqn:E.
  - split; [intros _|reflexivity]. exact (proj1 (sameFolded_spec a b n) E).
  - split; [discriminate|]. intros H.
    apply sameFolded_spec in H. congruence.
Qed.

Lemma asciiLower_ascii : charMapAscii asciiLower.
Proof. intros c _. reflexivity. Qed.

(** X4.  Every one of the 120 keywords is recognised in any mix of
    cases: a text whose first bytes agree under [charMap] with keyword
    [i], looked up with the length of that keyword, gets the code
    [aCode[i]]. *)
Theorem keywordCode_complete (charMap : Z -> Z)
    (sqlite4_strnicmp : list Z -> list Z -> Z -> Z) (i : Z) (z : list Z) :
  strnicmpFolds charMap sqlite4_strnicmp -> charMapAscii charMap ->
  0 <= i < 120 ->
  foldAlike charMap (keywordAt i) z (aget 0 aLen i) ->
  keywordCode charMap sqlite4_strnicmp z (aget 0 aLen i)
  = Some (aget TK_ID aCode i).
Proof.
  intros Hcmp Hmap Hi Hz.
  destruct (keywords_found (Z.to_nat i) ltac:(lia)) as [Hn Hfound].
  rewrite Z2Nat.id in Hn, Hfound by lia.
  rewrite <- Hfound. unfold keywordCode.
  destruct (Z.ltb_spec (aget 0 aLen i) 2) as [?|_]; [lia|].
  assert (Hz0 : keywordHash charMap z (aget 0 aLen i)
                = keywordHash charMap (keywordAt i) (aget 0 aLen i)).
  { unfold keywordHash.
    now rewrite (Hz 0), (Hz (aget 0 aLen i - 1)) by lia. }
  rewrite Hz0.
  rewrite <- (keywordLoop_foldAlike charMap sqlite4_strnicmp 121 _
                (keywordAt i) z _ Hcmp Hn Hz).
  assert (Hh : keywordHash charMap (keywordAt i) (aget 0 aLen i)
               = keywordHash asciiLower (keywordAt i) (aget 0 aLen i)).
  { unfold keywordHash.
    rewrite (Hmap _ (keyword_byte_at i 0 Hi ltac:(lia))).
    rewrite (Hmap _ (keyword_byte_at i (aget 0 aLen i - 1) Hi ltac:(lia))).
    reflexivity. }
  rewrite Hh. now apply (keywordLoop_ascii charMap).
Qed.

(** The bytes of a text given as a string. *)
Definition bytesOf (s : string) : list Z :=
  map (fun c => Z.of_N (Ascii.N_of_ascii c)) (String.list_ascii_of_string s).

Lemma sameFolded_foldAlike (z1 z2 : list Z) (n : Z) :
  sameFolded z1 z2 n = true -> foldAlike asciiLower z1 z2 n.
Proof. intros H. exact (proj1 (sameFolded_spec z1 z2 n) H). Qed.

Lemma keywordCode_case_blind_witness :
  keywordCode asciiLower asciiStrnicmp (bytesOf "Select") 6
  = keywordCode asciiLower asciiStrnicmp (bytesOf "SELECT") 6.
Proof.
  apply (keywordCode_case_blind asciiLower asciiStrnicmp
           (bytesOf "Select") (bytesOf "SELECT") 6).
  - apply asciiStrnicmp_folds.
  - apply sameFolded_foldAlike. vm_compute. reflexivity.
Defined.

Lemma keywordCode_sound_witness :
  2 <= 5
  /\ exists j, 0 <= j < 120 /\ aget 0 aLen j = 5
               /\ aget TK_ID aCode j = TK_WHERE
               /\ foldAlike asciiLower (keywordAt j) (bytesOf "where") 5.
Proof.
  apply (keywordCode_sound asciiLower asciiStrnicmp (bytesOf "where") 5
           TK_WHERE).
  - apply asciiStrnicmp_folds.
  - vm_compute. reflexivity.
  - discriminate.
Defined.

Lemma keywordCode_complete_witness :
  keywordCode asciiLower asciiStrnicmp (bytesOf "between") (aget 0 aLen 55)
  = Some (aget TK_ID aCode 55).
Proof.
  apply (keywordCode_complete asciiLower asciiStrnicmp 55 (bytesOf "between")).
  - apply asciiStrnicmp_folds.
  - apply asciiLower_ascii.
  - lia.
  - apply sameFolded_foldAlike. vm_compute. reflexivity.
Defined.

End KeywordFacts.

(** * More of the planner (where.c) *)

(** ** The integer-to-cost conversion *)

Module Estimate.
Import Cost.

(** The table [a[]] of [whereCost]. *)
Definition a_tbl : list Z := [0; 2; 3; 5; 6; 7; 8; 9].

(** [while( x<8 ){ y -= 10; x <<= 1; }]; [x] is below 8 when it is
    shifted, so the shift stays inside [tRowcnt] whatever its width.
    [None] when the fuel runs out. *)
Fixpoint costUp (fuel : nat) (y x : Z) : option (Z * Z) :=
  match fuel with
  | O => None
  | S fuel' =>
      if x <? 8 then costUp fuel' (u16 (y - 10)) (Z.shiftl x 1)
      else Some (y, x)
  end.

(** [while( x>255 ){ y += 40; x >>= 4; }]. *)
Fixpoint costDown4 (fuel : nat) (y x : Z) : option (Z * Z) :=
  match fuel with
  | O => None
  | S fuel' =>
      if x >? 255 then costDown4 fuel' (u16 (y + 40)) (Z.shiftr x 4)
      else Some (y, x)
  end.

(** [while( x>15 ){ y += 10; x >>= 1; }]. *)
Fixpoint costDown1 (fuel : nat) (y x : Z) : option (Z * Z) :=
  match fuel with
  | O => None
  | S fuel' =>
      if x >? 15 then costDown1 fuel' (u16 (y + 10)) (Z.shiftr x 1)
      else Some (y, x)
  end.

(** [whereCost]: an approximation of 10*log2(x), on an unsigned [x].  The
    loops get as much fuel as [x] has bits. *)
Definition whereCost (x : Z) : option Z :=
  let fuel := S (Z.to_nat (Z.log2 x)) in
  let finish (yx : Z * Z) :=
    u16 (aget 0 a_tbl (Z.land (snd yx) 7) + fst yx - 10) in
  if x <? 8 then
    if x <? 2 then Some 0
    else option_map finish (costUp 3 40 x)
  else
    match costDown4 fuel 40 x with
    | Some (y, x1) => option_map finish (costDown1 5 y x1)
    | None => None
    end.

(** [estLog]. *)
Definition estLog (N : Z) : option Z :=
  match whereCost N with
  | Some x => Some (if x >? 33 then x - 33 else 0)
  | None => None
  end.

End Estimate.

Section EstimateFacts.
Import Cost Estimate.

Lemma log2_shiftr_ge (x s : Z) :
  0 <= s -> s <= Z.log2 x -> Z.log2 (Z.shiftr x s) = Z.log2 x - s.
Proof.
  intros Hs Hl. destruct (Z.ltb_spec 0 x) as [Hx|Hx].
  - rewrite Z.log2_shiftr by lia. lia.
  - rewrite (Z.log2_nonpos x) in * by lia.
    replace s with 0 by lia. now rewrite Z.shiftr_0_r, Z.log2_nonpos by lia.
Qed.

Lemma log2_ge (x k : Z) : 0 <= k -> 2 ^ k <= x -> k <= Z.log2 x.
Proof.
  intros Hk Hx. rewrite <- (Z.log2_pow2 k Hk). now apply Z.log2_le_mono.
Qed.

Lemma log2_lt (x k : Z) : 0 < x -> 0 <= k -> x < 2 ^ k -> Z.log2 x < k.
Proof. intros Hx Hk Hlt. apply Z.log2_lt_pow2; assumption. Qed.

Lemma costDown4_spec (fuel : nat) (y x : Z) :
  8 <= x -> Z.log2 x < Z.of_nat fuel ->
  0 <= y -> y + 10 * Z.log2 x < 65536 ->
  exists t, 0 <= t /\ 4 * t <= Z.log2 x - 3
            /\ costDown4 fuel y x = Some (y + 40 * t, Z.shiftr x (4 * t))
            /\ 8 <= Z.shiftr x (4 * t) <= 255.
Proof.
  revert y x. induction fuel as [|fuel IH]; intros y x Hx Hf Hy Hw.
  { pose proof (Z.log2_nonneg x). lia. }
  cbn [costDown4]. destruct (Z.gtb_spec x 255) as [Hbig|Hsmall].
  - assert (Hl : 8 <= Z.log2 x) by (apply log2_ge; [lia|cbn; lia]).
    assert (Hl4 : Z.log2 (Z.shiftr x 4) = Z.log2 x - 4)
      by (apply log2_shiftr_ge; lia).
    assert (Hx4 : 16 <= Z.shiftr x 4).
    { rewrite Z.shiftr_div_pow2 by lia. change (2 ^ 4) with 16.
      apply Z.div_le_lower_bound; lia. }
    rewrite u16_small by lia.
    destruct (IH (y + 40) (Z.shiftr x 4)) as (t & Ht & Ht4 & Hrun & Hr);
      try lia.
    exists (t + 1). split; [lia|]. split; [lia|].
    rewrite Z.shiftr_shiftr in Hrun, Hr by lia.
    replace (4 * (t + 1)) with (4 + 4 * t) by lia.
    replace (y + 40 * (t + 1)) with (y + 40 + 40 * t) by lia.
    split; [exact Hrun | exact Hr].
  - exists 0. split; [lia|].
    assert (Hl : 3 <= Z.log2 x) by (apply log2_ge; [lia|cbn; lia]).
    split; [lia|]. rewrite Z.mul_0_r, Z.add_0_r, Z.shiftr_0_r.
    split; [reflexivity|lia].
Qed.

Lemma costDown1_spec (fuel : nat) (y x : Z) :
  8 <= x -> Z.log2 x - 3 < Z.of_nat fuel ->
  0 <= y -> y + 10 * Z.log2 x < 65536 ->
  costDown1 fuel y x
  = Some (y + 10 * (Z.log2 x - 3), Z.shiftr x (Z.log2 x - 3))
  /\ 8 <= Z.shiftr x (Z.log2 x - 3) <= 15.
Proof.
  revert y x. induction fuel as [|fuel IH]; intros y x Hx Hf Hy Hw.
  { assert (3 <= Z.log2 x) by (apply log2_ge; [lia|cbn; lia]). lia. }
  cbn [costDown1]. destruct (Z.gtb_spec x 15) as [Hbig|Hsmall].
  - assert (Hl : 4 <= Z.log2 x) by (apply log2_ge; [lia|cbn; lia]).
    assert (Hl1 : Z.log2 (Z.shiftr x 1) = Z.log2 x - 1)
      by (apply log2_shiftr_ge; lia).
    assert (Hx1 : 8 <= Z.shiftr x 1).
    { rewrite Z.shiftr_div_pow2 by lia. change (2 ^ 1) with 2.
      apply Z.div_le_lower_bound; lia. }
    rewrite u16_small by lia.
    destruct (IH (y + 10) (Z.shiftr x 1)) as [Hrun Hr]; try lia.
    rewrite Hl1, Z.shiftr_shiftr in Hrun, Hr by lia.
    replace (1 + (Z.log2 x - 1 - 3)) with (Z.log2 x - 3) in Hrun, Hr by lia.
    replace (y + 10 + 10 * (Z.log2 x - 1 - 3))
      with (y + 10 * (Z.log2 x - 3)) in Hrun by lia.
    split; [exact Hrun | exact Hr].
  - assert (Hl : Z.log2 x = 3).
    { apply Z.log2_unique; cbn; lia. }
    rewrite Hl. change (3 - 3) with 0.
    rewrite Z.mul_0_r, Z.add_0_r, Z.shiftr_0_r. split; [reflexivity|lia].
Qed.

(** The closed form of [whereCost] from 8 on: the three bits below the
    leading one pick the entry of [a[]], the position of the leading bit
    gives the tens. *)
Lemma whereCost_closed (x : Z) :
  8 <= x < 2 ^ 64 ->
  whereCost x
  = Some (aget 0 a_tbl (Z.land (Z.shiftr x (Z.log2 x - 3)) 7)
          + 30 + 10 * (Z.log2 x - 3))
  /\ 8 <= Z.shiftr x (Z.log2 x - 3) <= 15
  /\ 3 <= Z.log2 x < 64.
Proof.
  intros Hx.
  assert (Hl : 3 <= Z.log2 x < 64).
  { split; [apply log2_ge; [lia|cbn; lia] | apply log2_lt; lia]. }
  unfold whereCost. destruct (Z.ltb_spec x 8) as [?|_]; [lia|].
  destruct (costDown4_spec (S (Z.to_nat (Z.log2 x))) 40 x)
    as (t & Ht & Ht4 & Hrun & Hr); try lia.
  rewrite Hrun.
  assert (Hl4 : Z.log2 (Z.shiftr x (4 * t)) = Z.log2 x - 4 * t)
    by (apply log2_shiftr_ge; lia).
  assert (Hl7 : Z.log2 (Z.shiftr x (4 * t)) < 8)
    by (apply log2_lt; lia).
  destruct (costDown1_spec 5 (40 + 40 * t) (Z.shiftr x (4 * t)))
    as [Hrun1 Hr1]; try lia.
  rewrite Hl4, Z.shiftr_shiftr in Hrun1, Hr1 by lia.
  replace (4 * t + (Z.log2 x - 4 * t - 3)) with (Z.log2 x - 3)
    in Hrun1, Hr1 by lia.
  rewrite Hrun1. cbn [option_map fst snd].
  split; [|split; [exact Hr1 | exact Hl]].
  f_equal.
  set (m := Z.shiftr x (Z.log2 x - 3)) in *. clearbody m.
  assert (Ha : 0 <= aget 0 a_tbl (Z.land m 7) <= 9).
  { assert (Hm : m = 8 \/ m = 9 \/ m = 10 \/ m = 11 \/ m = 12 \/ m = 13
                 \/ m = 14 \/ m = 15) by lia.
    destruct Hm as [-> | [-> | [-> | [-> | [-> | [-> | [-> | ->]]]]]]];
      vm_compute; split; discriminate. }
  rewrite u16_small by lia. lia.
Qed.

(** X5.  Converting a row count to a cost and back keeps its four leading
    bits and clears the rest: for [1 <= x < 2^64] the round trip through
    [whereCost] and [whereCostToInt] gives [x] rounded down to a multiple
    of [2^j], [j = max 0 (log2 x - 3)].  So it is never above [x], falls
    short by less than an eighth of itself, and is exact up to 15 and on
    the powers of two. *)
Theorem whereCost_round_trip (x : Z) :
  1 <= x < 2 ^ 64 ->
  let j := Z.max 0 (Z.log2 x - 3) in
  let r := Z.shiftl (Z.shiftr x j) j in
  (exists c, whereCost x = Some c /\ whereCostToInt c = Some r)
  /\ r <= x /\ 8 * (x - r) < r
  /\ (x <= 15 -> r = x)
  /\ (forall k, x = 2 ^ k -> r = x).
Proof.
  intros Hx j r.
  assert (Hj : 0 <= j) by (unfold j; lia).
  assert (Hr : r = x - x mod 2 ^ j).
  { unfold r. rewrite Z.shiftl_mul_pow2, Z.shiftr_div_pow2 by lia.
    pose proof (Z.pow_pos_nonneg 2 j ltac:(lia) Hj).
    rewrite (Z.div_mod x (2 ^ j)) at 2 by lia. lia. }
  destruct (Z.ltb_spec x 8) as [Hsmall|Hbig].
  - assert (Hl : Z.log2 x < 3) by (apply log2_lt; lia).
    assert (Hj0 : j = 0) by (unfold j; lia).
    assert (Hrx : r = x).
    { rewrite Hr, Hj0. change (2 ^ 0) with 1. rewrite Z.mod_1_r. lia. }
    rewrite Hrx. split; [|repeat split; lia].
    assert (Hc : x = 1 \/ x = 2 \/ x = 3 \/ x = 4 \/ x = 5 \/ x = 6 \/ x = 7)
      by lia.
    destruct Hc as [-> | [-> | [-> | [-> | [-> | [-> | ->]]]]]];
      eexists; split; reflexivity.
  - destruct (whereCost_closed x ltac:(lia)) as (Hc & Hm & Hl).
    assert (Hj3 : j = Z.log2 x - 3) by (unfold j; lia).
    set (m := Z.shiftr x (Z.log2 x - 3)) in *.
    assert (Hrm : r = Z.shiftl m j) by (unfold r, m; now rewrite Hj3).
    assert (Hle : r <= x).
    { rewrite Hr. pose proof (Z.mod_pos_bound x (2 ^ j)
                                ltac:(apply Z.pow_pos_nonneg; lia)). lia. }
    assert (Hp : 0 < 2 ^ j) by (apply Z.pow_pos_nonneg; lia).
    assert (Hr8 : 8 * 2 ^ j <= r).
    { rewrite Hrm, Z.shiftl_mul_pow2 by lia. nia. }
    assert (Hmod : 0 <= x mod 2 ^ j < 2 ^ j) by (apply Z.mod_pos_bound; lia).
    split.
    + eexists. split; [exact Hc|]. rewrite <- Hj3.
      assert (Hcases : m = 8 \/ m = 9 \/ m = 10 \/ m = 11 \/ m = 12
                       \/ m = 13 \/ m = 14 \/ m = 15) by lia.
      assert (Hdec : forall a n,
                 0 <= a < 10 -> a + 30 + 10 * j = 10 * (3 + j) + a ->
                 (if a >=? 5 then a - 2 else if a >=? 1 then a - 1 else a)
                 = n ->
                 n + 8 = m ->
                 whereCostToInt (a + 30 + 10 * j) = Some r).
      { intros a n Ha Heq Hn Hnm. unfold whereCostToInt.
        destruct (Z.ltb_spec (a + 30 + 10 * j) 10) as [?|_]; [lia|].
        assert (Hq : (a + 30 + 10 * j) / 10 = 3 + j)
          by (symmetry; apply (Z.div_unique _ 10 (3 + j) a); lia).
        assert (Hrem : (a + 30 + 10 * j) mod 10 = a)
          by (symmetry; apply (Z.mod_unique _ 10 (3 + j) a); lia).
        rewrite Hq, Hrem, Hn.
        destruct (Z.geb_spec (3 + j) 3) as [_|?]; [|lia].
        unfold shl64. replace (3 + j - 3) with j by lia.
        destruct (Z.leb_spec 0 j) as [_|?]; [|lia].
        destruct (Z.ltb_spec j 64) as [_|?]; [|lia].
        cbn [andb]. rewrite Hnm, <- Hrm. f_equal.
        unfold u64. apply Z.mod_small. lia. }
      destruct Hcases as [E|[E|[E|[E|[E|[E|[E|E]]]]]]]; rewrite E;
        [ apply (Hdec 0 0) | apply (Hdec 2 1) | apply (Hdec 3 2)
        | apply (Hdec 5 3) | apply (Hdec 6 4) | apply (Hdec 7 5)
        | apply (Hdec 8 6) | apply (Hdec 9 7) ]; try reflexivity; lia.
    + split; [exact Hle|]. split; [lia|]. split.
      * intros H15. assert (Hl3 : Z.log2 x = 3)
          by (apply Z.log2_unique; cbn; lia).
        rewrite Hr, Hj3, Hl3. change (2 ^ (3 - 3)) with 1.
        rewrite Z.mod_1_r. lia.
      * intros k Hk.
        assert (Hk0 : 0 <= k).
        { destruct (Z.ltb_spec k 0) as [Hneg|?]; [|lia].
          rewrite Z.pow_neg_r in Hk by lia. lia. }
        assert (Hlk : Z.log2 x = k) by (rewrite Hk; now apply Z.log2_pow2).
        rewrite Hr, Hk, Hj3, Hlk.
        replace k with ((k - (k - 3)) + (k - 3)) at 2 by lia.
        rewrite Z.pow_add_r by lia.
        rewrite Z.mod_mul by (apply Z.pow_nonzero; lia). lia.
Qed.

Lemma whereCost_round_trip_witness :
  (exists c, whereCost 1000 = Some c /\ whereCostToInt c = Some 960)
  /\ 960 <= 1000.
Proof.
  destruct (whereCost_round_trip 1000 ltac:(cbn; lia))
    as (Hc & Hle & _).
  split; [exact Hc | exact Hle].
Defined.

Lemma a_tbl_range (m : Z) :
  8 <= m <= 15 -> 0 <= aget 0 a_tbl (Z.land m 7) <= 9.
Proof.
  intros Hm.
  assert (H : m = 8 \/ m = 9 \/ m = 10 \/ m = 11 \/ m = 12 \/ m = 13
              \/ m = 14 \/ m = 15) by lia.
  destruct H as [-> | [-> | [-> | [-> | [-> | [-> | [-> | ->]]]]]]];
    vm_compute; split; discriminate.
Qed.

Lemma a_tbl_mono (m m' : Z) :
  8 <= m -> m <= m' -> m' <= 15 ->
  aget 0 a_tbl (Z.land m 7) <= aget 0 a_tbl (Z.land m' 7).
Proof.
  intros H8 Hle H15.
  assert (H : m = 8 \/ m = 9 \/ m = 10 \/ m = 11 \/ m = 12 \/ m = 13
              \/ m = 14 \/ m = 15) by lia.
  assert (H' : m' = 8 \/ m' = 9 \/ m' = 10 \/ m' = 11 \/ m' = 12 \/ m' = 13
               \/ m' = 14 \/ m' = 15) by lia.
  destruct H as [E | [E | [E | [E | [E | [E | [E | E]]]]]]];
    destruct H' as [E' | [E' | [E' | [E' | [E' | [E' | [E' | E']]]]]]];
    try lia; rewrite E, E'; apply Z.leb_le; reflexivity.
Qed.

Lemma whereCost_small (x : Z) :
  0 <= x < 8 -> exists c, whereCost x = Some c /\ 0 <= c <= 28
                          /\ (forall x', x <= x' < 8 ->
                               exists c', whereCost x' = Some c' /\ c <= c').
Proof.
  intros Hx.
  assert (Hv : forall v, 0 <= v < 8 ->
             whereCost v
             = Some (aget 0 [0; 0; 10; 16; 20; 23; 26; 28] v)).
  { intros v Hv.
    assert (H : v = 0 \/ v = 1 \/ v = 2 \/ v = 3 \/ v = 4 \/ v = 5
                \/ v = 6 \/ v = 7) by lia.
    destruct H as [-> | [-> | [-> | [-> | [-> | [-> | [-> | ->]]]]]]];
      reflexivity. }
  eexists. split; [apply Hv; lia|].
  assert (H : x = 0 \/ x = 1 \/ x = 2 \/ x = 3 \/ x = 4 \/ x = 5
              \/ x = 6 \/ x = 7) by lia.
  split.
  - destruct H as [-> | [-> | [-> | [-> | [-> | [-> | [-> | ->]]]]]]];
      vm_compute; split; discriminate.
  - intros x' Hx'. eexists. split; [apply Hv; lia|].
    assert (H' : x' = 0 \/ x' = 1 \/ x' = 2 \/ x' = 3 \/ x' = 4 \/ x' = 5
                 \/ x' = 6 \/ x' = 7) by lia.
    destruct H as [E | [E | [E | [E | [E | [E | [E | E]]]]]]];
      destruct H' as [E' | [E' | [E' | [E' | [E' | [E' | [E' | E']]]]]]];
      try lia; rewrite E, E'; apply Z.leb_le; reflexivity.
Qed.

(** X6.  [whereCost] never decreases when the row count grows, over the
    whole range of an unsigned 64-bit count, and it returns for every
    such count. *)
Theorem whereCost_monotone (x x' : Z) :
  0 <= x -> x <= x' -> x' < 2 ^ 64 ->
  exists c c', whereCost x = Some c /\ whereCost x' = Some c' /\ c <= c'.
Proof.
  intros H0 Hle Hmax.
  destruct (Z.ltb_spec x 8) as [Hs|Hb].
  - destruct (whereCost_small x ltac:(lia)) as (c & Hc & Hr & Hm).
    destruct (Z.ltb_spec x' 8) as [Hs'|Hb'].
    + destruct (Hm x' ltac:(lia)) as (c' & Hc' & Hcc). eauto.
    + destruct (whereCost_closed x' ltac:(lia)) as (Hc' & Hm' & Hl').
      pose proof (a_tbl_range _ Hm'). eexists. eexists.
      split; [exact Hc|]. split; [exact Hc'|]. lia.
  - destruct (whereCost_closed x ltac:(lia)) as (Hc & Hm & Hl).
    destruct (whereCost_closed x' ltac:(lia)) as (Hc' & Hm' & Hl').
    pose proof (a_tbl_range _ Hm) as Ha.
    pose proof (a_tbl_range _ Hm') as Ha'.
    pose proof (Z.log2_le_mono x x' Hle) as Hlog.
    eexists. eexists. split; [exact Hc|]. split; [exact Hc'|].
    destruct (Z.eq_dec (Z.log2 x) (Z.log2 x')) as [Heq|Hneq].
    + rewrite <- Heq in *.
      assert (Hmm : Z.shiftr x (Z.log2 x - 3) <= Z.shiftr x' (Z.log2 x - 3)).
      { rewrite !Z.shiftr_div_pow2 by lia.
        apply Z.div_le_mono; [apply Z.pow_pos_nonneg; lia | exact Hle]. }
      pose proof (a_tbl_mono _ _ (proj1 Hm) Hmm (proj2 Hm')). lia.
    + lia.
Qed.

Lemma whereCost_monotone_witness :
  exists c c', whereCost 1000 = Some c /\ whereCost 4096 = Some c' /\ c <= c'.
Proof.
  apply (whereCost_monotone 1000 4096); [lia | lia | cbn; lia].
Defined.

(** X7.  Below the cost 640 the conversion to a row count is defined and
    gives at least one row and less than [2^64]. *)
Theorem whereCostToInt_in_range (x : Z) :
  0 <= x < 640 ->
  exists v, whereCostToInt x = Some v /\ 1 <= v < 2 ^ 64.
Proof.
  intros Hx. destruct (whereCostToInt_positive x Hx) as (v & Hv & Hpos).
  exists v. split; [exact Hv|]. split; [exact Hpos|].
  unfold whereCostToInt in Hv.
  destruct (Z.ltb_spec x 10) as [?|Hx10];
    [injection Hv as <-; reflexivity|].
  set (n := if x mod 10 >=? 5 then x mod 10 - 2
            else if x mod 10 >=? 1 then x mod 10 - 1 else x mod 10) in *.
  pose proof (Z.mod_pos_bound x 10 ltac:(lia)) as Hm.
  assert (Hn : 0 <= n <= 7).
  { subst n. destruct (Z.geb_spec (x mod 10) 5); [lia|].
    destruct (Z.geb_spec (x mod 10) 1); lia. }
  destruct (Z.geb_spec (x / 10) 3) as [Hq3|Hq3].
  - unfold shl64 in Hv.
    destruct ((0 <=? x / 10 - 3) && (x / 10 - 3 <? 64)); [|discriminate].
    injection Hv as <-. unfold u64. apply Z.mod_pos_bound. reflexivity.
  - injection Hv as <-. rewrite Z.shiftr_div_pow2 by lia.
    assert (Hp : 1 <= 2 ^ (3 - x / 10))
      by (pose proof (Z.pow_pos_nonneg 2 (3 - x / 10)); lia).
    assert ((n + 8) / 2 ^ (3 - x / 10) <= n + 8).
    { apply Z.div_le_upper_bound; nia. }
    change (2 ^ 64) with 18446744073709551616. lia.
Qed.

Lemma whereCostToInt_in_range_witness :
  exists v, whereCostToInt 639 = Some v /\ 1 <= v < 2 ^ 64.
Proof. apply (whereCostToInt_in_range 639). lia. Defined.

End EstimateFacts.

(** ** The set of OR costs *)

Section OrSetFacts.
Import LoopPool.

Lemma orScan_found (a : list WhereOrCost) (pr rr : Z) (cnt i j : nat) :
  orScan a i cnt pr rr = Some (inl j) -> (i <= j < i + cnt)%nat.
Proof.
  revert i. induction cnt as [|cnt IH]; intros i H; [discriminate|].
  cbn [orScan] in H.
  destruct ((rr <=? oc_rRun (default zeroOrCost (a !! i)))
            && (Z.land pr (oc_prereq (default zeroOrCost (a !! i))) =? pr)).
  { injection H as <-. lia. }
  destruct ((oc_rRun (default zeroOrCost (a !! i)) <=? rr)
            && (Z.land (oc_prereq (default zeroOrCost (a !! i))) pr
                =? oc_prereq (default zeroOrCost (a !! i))));
    [discriminate|].
  apply IH in H. lia.
Qed.

Lemma orScan_rejected (a : list WhereOrCost) (pr rr : Z) (cnt i : nat)
    (x : unit) :
  orScan a i cnt pr rr = Some (inr x) ->
  exists j, (i <= j < i + cnt)%nat
            /\ oc_rRun (default zeroOrCost (a !! j)) <= rr
            /\ Z.land (oc_prereq (default zeroOrCost (a !! j))) pr
               = oc_prereq (default zeroOrCost (a !! j)).
Proof.
  revert i. induction cnt as [|cnt IH]; intros i H; [discriminate|].
  cbn [orScan] in H.
  destruct ((rr <=? oc_rRun (default zeroOrCost (a !! i)))
            && (Z.land pr (oc_prereq (default zeroOrCost (a !! i))) =? pr));
    [discriminate|].
  destruct ((oc_rRun (default zeroOrCost (a !! i)) <=? rr)
            && (Z.land (oc_prereq (default zeroOrCost (a !! i))) pr
                =? oc_prereq (default zeroOrCost (a !! i)))) eqn:E.
  - apply andb_true_iff in E as [E1 E2]. exists i. split; [lia|]. lia.
  - destruct (IH _ H) as (j & Hj & Hr). exists j. split; [lia|exact Hr].
Qed.

Lemma orPick_range (a : list WhereOrCost) (cnt p i : nat) :
  (p < i)%nat -> (orPick a p i cnt < i + cnt)%nat.
Proof.
  revert p i. induction cnt as [|cnt IH]; intros p i Hp; cbn [orPick]; [lia|].
  destruct (oc_rRun (default zeroOrCost (a !! p))
            >? oc_rRun (default zeroOrCost (a !! i)));
    [specialize (IH i (S i)) | specialize (IH p (S i))]; lia.
Qed.

(** X8.  [whereOrInsert] on a set of at most [N_OR_COST] entries: the set
    never grows past [N_OR_COST] and never shrinks; on an empty set the
    entry is always taken; a return of 0 leaves the set as it was and
    some entry of it runs at no more than the cost offered; a return of 1
    leaves an entry with the prerequisites and the cost offered and an
    output count no larger than the one offered. *)
Theorem whereOrInsert_outcome (s : WhereOrSet) (pr rr no : Z) :
  0 <= os_n s <= N_OR_COST -> length (os_a s) = Z.to_nat N_OR_COST ->
  let s' := fst (whereOrInsert s pr rr no) in
  let r := snd (whereOrInsert s pr rr no) in
  (r = 0 \/ r = 1)
  /\ os_n s <= os_n s' <= N_OR_COST
  /\ length (os_a s') = Z.to_nat N_OR_COST
  /\ (os_n s = 0 -> r = 1 /\ os_n s' = 1)
  /\ (r = 0 ->
      s' = s
      /\ exists i e, (Z.of_nat i < os_n s) /\ os_a s !! i = Some e
                     /\ oc_rRun e <= rr)
  /\ (r = 1 ->
      exists i e, (Z.of_nat i < os_n s') /\ os_a s' !! i = Some e
                  /\ oc_prereq e = pr /\ oc_rRun e = rr /\ oc_nOut e <= no).
Proof.
  intros Hn Hlen. unfold N_OR_COST in *. cbv zeta.
  assert (Hstore : forall (t : WhereOrSet) (i : nat),
             length (os_a t) = 3%nat -> (i < 3)%nat ->
             exists e, os_a (orStore t i pr rr no) !! i = Some e
                       /\ oc_prereq e = pr /\ oc_rRun e = rr
                       /\ oc_nOut e <= no).
  { intros t i Ht Hi. unfold orStore. cbn [os_a].
    rewrite list_lookup_insert_eq by lia. eexists. split; [reflexivity|].
    cbn. repeat split.
    destruct (Z.gtb_spec (oc_nOut (default zeroOrCost (os_a t !! i))) no);
      lia. }
  unfold whereOrInsert.
  destruct (orScan (os_a s) 0 (Z.to_nat (os_n s)) pr rr) as [[i|x]|] eqn:Es.
  - apply orScan_found in Es. cbn [fst snd].
    destruct (Hstore s i Hlen ltac:(lia)) as (e & He & Hf).
    split; [now right|]. split; [cbn; lia|].
    split; [unfold orStore; cbn [os_a]; now rewrite length_insert|].
    split; [intros H0; rewrite H0 in Es; cbn in Es; lia|].
    split; [discriminate|]. intros _. exists i, e. cbn [os_n orStore].
    split; [lia|]. split; [exact He | exact Hf].
  - destruct (orScan_rejected _ _ _ _ _ _ Es) as (j & Hj & Hr & _).
    cbn [fst snd]. split; [now left|]. split; [lia|]. split; [exact Hlen|].
    split; [intros H0; rewrite H0 in Hj; cbn in Hj; lia|].
    split; [|discriminate]. intros _. split; [reflexivity|].
    destruct (lookup_lt_is_Some_2 (os_a s) j ltac:(lia)) as [e He].
    rewrite He in Hr. exists j, e. split; [lia|]. split; [exact He|exact Hr].
  - destruct (Z.ltb_spec (os_n s) N_OR_COST) as [Hroom|Hfull];
      unfold N_OR_COST in *.
    + cbv zeta. cbn [fst snd].
      set (i := Z.to_nat (os_n s)).
      match goal with
      | |- context [orStore ?g i pr rr no] => set (grown := g)
      end.
      assert (Hg : length (os_a grown) = 3%nat)
        by (unfold grown; cbn [os_a]; now rewrite length_insert).
      destruct (Hstore grown i Hg ltac:(lia)) as (e & He & Hf).
      assert (Hn' : os_n (orStore grown i pr rr no) = os_n s + 1).
      { cbn. apply u16_small. lia. }
      split; [now right|]. rewrite Hn'. split; [lia|].
      split; [unfold orStore; cbn [os_a]; now rewrite length_insert|].
      split; [intros H0; split; [reflexivity|lia]|].
      split; [discriminate|]. intros _. exists i, e.
      split; [lia|]. split; [exact He | exact Hf].
    + set (p := orPick (os_a s) 0 1 (Z.to_nat (os_n s) - 1)).
      assert (Hp : (p < 3)%nat).
      { pose proof (orPick_range (os_a s) (Z.to_nat (os_n s) - 1) 0 1
                      ltac:(lia)). fold p in H. lia. }
      destruct (lookup_lt_is_Some_2 (os_a s) p ltac:(lia)) as [e He].
      cbv zeta. fold p. rewrite He.
      change (default zeroOrCost (Some e)) with e.
      destruct (Z.leb_spec (oc_rRun e) rr) as [Hle|Hgt]; cbn [fst snd].
      * split; [now left|]. split; [lia|]. split; [exact Hlen|].
        split; [lia|]. split; [|discriminate]. intros _.
        split; [reflexivity|]. exists p, e. split; [lia|]. auto.
      * destruct (Hstore s p Hlen Hp) as (e' & He' & Hf).
        split; [now right|]. split; [cbn; lia|].
        split; [unfold orStore; cbn [os_a]; now rewrite length_insert|].
        split; [lia|]. split; [discriminate|]. intros _.
        exists p, e'. cbn [os_n orStore]. split; [lia|].
        split; [exact He' | exact Hf].
Qed.

Lemma whereOrInsert_outcome_witness :
  snd (whereOrInsert {| os_n := 0; os_a := replicate 3 zeroOrCost |} 5 40 12)
  = 1.
Proof.
  destruct (whereOrInsert_outcome
              {| os_n := 0; os_a := replicate 3 zeroOrCost |} 5 40 12)
    as (_ & _ & _ & H0 & _).
  - cbn. unfold N_OR_COST. lia.
  - reflexivity.
  - apply H0. reflexivity.
Defined.

End OrSetFacts.

(** ** Disabling terms that an index satisfies *)

Module Disable.
Import Ast.

(** [disableTerm].  [ts] is [pTerm->pWC->a], [pTerm] the index of the term
    in it ([None] for a null pointer) and [iLeftJoin] is
    [pLevel->iLeftJoin].  [wtFlags] and [nChild] are [u8] fields.  A
    pointer or a parent index outside the array has no defined
    behaviour; the fuel bounds the depth of the recursion. *)
Fixpoint disableTerm (fuel : nat) (iLeftJoin : Z) (ts : list WhereTerm)
    (pTerm : option nat) : option (list WhereTerm) :=
  match fuel with
  | O => None
  | S fuel =>
      match pTerm with
      | None => Some ts
      | Some i =>
          match ts !! i with
          | None => None
          | Some t =>
              if (Z.land (wtFlags t) TERM_CODED =? 0)
                 && ((iLeftJoin =? 0) || fromJoin (pExpr t))
              then
                let ts1 :=
                  <[i := set_wtFlags (u8 (Z.lor (wtFlags t) TERM_CODED)) t]>
                    ts in
                if 0 <=? iParent t then
                  let ip := Z.to_nat (iParent t) in
                  match ts1 !! ip with
                  | None => None
                  | Some pOther =>
                      let n := u8 (nChild pOther - 1) in
                      let ts2 := <[ip := set_nChild n pOther]> ts1 in
                      if n =? 0
                      then disableTerm fuel iLeftJoin ts2 (Some ip)
                      else Some ts2
                  end
                else Some ts1
              else Some ts
          end
      end
  end.

End Disable.

Section DisableFacts.
Import Ast Disable.

Variable iLeftJoin : Z.

(** Every parent index points into the array. *)
Definition parentsInside (ts : list WhereTerm) : Prop :=
  forall j t, ts !! j = Some t -> 0 <= iParent t ->
              (Z.to_nat (iParent t) < length ts)%nat.

(** [disableTerm] may code the term [t]. *)
Definition mayDisable (t : WhereTerm) : bool :=
  (iLeftJoin =? 0) || fromJoin (pExpr t).

(** What a call may do to one term: only [wtFlags] and [nChild] change,
    and [wtFlags] changes only by gaining [TERM_CODED] on a term that was
    not coded and that [mayDisable]. *)
Definition touched (t t' : WhereTerm) : Prop :=
  t' = set_nChild (nChild t') (set_wtFlags (wtFlags t') t)
  /\ (wtFlags t' = wtFlags t
      \/ (has (wtFlags t) TERM_CODED = false /\ mayDisable t = true
          /\ wtFlags t' = u8 (Z.lor (wtFlags t) TERM_CODED))).

Definition touchedAll (ts ts' : list WhereTerm) : Prop :=
  length ts' = length ts
  /\ forall j t, ts !! j = Some t ->
                 exists t', ts' !! j = Some t' /\ touched t t'.

Fixpoint uncoded (ts : list WhereTerm) : nat :=
  match ts with
  | [] => O
  | t :: r => ((if has (wtFlags t) TERM_CODED then 0 else 1) + uncoded r)%nat
  end.

Lemma uncoded_le (ts : list WhereTerm) : (uncoded ts <= length ts)%nat.
Proof.
  induction ts as [|t r IH]; cbn; [lia|].
  destruct (has (wtFlags t) TERM_CODED); lia.
Qed.

Lemma uncoded_insert (ts : list WhereTerm) (i : nat) (t t' : WhereTerm) :
  ts !! i = Some t ->
  (uncoded (<[i := t']> ts) + (if has (wtFlags t) TERM_CODED then 0 else 1)
   = uncoded ts + (if has (wtFlags t') TERM_CODED then 0 else 1))%nat.
Proof.
  revert i. induction ts as [|x r IH]; intros [|i] H; try discriminate.
  - injection H as ->. cbn.
    destruct (has (wtFlags t) TERM_CODED), (has (wtFlags t') TERM_CODED);
      lia.
  - cbn in H. specialize (IH _ H).
    change (<[S i := t']> (x :: r)) with (x :: <[i := t']> r).
    cbn [uncoded]. revert IH.
    destruct (has (wtFlags t) TERM_CODED), (has (wtFlags t') TERM_CODED),
      (has (wtFlags x) TERM_CODED); lia.
Qed.

Lemma has_coded_u8 (f : Z) : has (u8 (Z.lor f TERM_CODED)) TERM_CODED = true.
Proof.
  unfold has, u8, TERM_CODED.
  destruct (Z.eqb_spec (Z.land (Z.lor f 4 mod 256) 4) 0) as [E|E];
    [|reflexivity].
  assert (H : Z.testbit (Z.land (Z.lor f 4 mod 256) 4) 2 = true).
  { rewrite Z.land_spec. change 256 with (2 ^ 8).
    rewrite Z.mod_pow2_bits_low by lia. rewrite Z.lor_spec.
    change (Z.testbit 4 2) with true. now rewrite orb_true_r. }
  rewrite E in H. discriminate.
Qed.

Lemma touched_refl (t : WhereTerm) : touched t t.
Proof. split; [now destruct t | now left]. Qed.

Lemma touched_trans (t1 t2 t3 : WhereTerm) :
  touched t1 t2 -> touched t2 t3 -> touched t1 t3.
Proof.
  intros [E1 F1] [E2 F2]. split.
  - rewrite E2 at 1. rewrite E1. now destruct t1.
  - assert (Hm : mayDisable t2 = mayDisable t1)
      by (rewrite E1; now destruct t1).
    destruct F2 as [F2|(H2 & M2 & F2)].
    + rewrite F2. exact F1.
    + destruct F1 as [F1|(H1 & M1 & F1)].
      * right. rewrite <- F1. rewrite <- Hm. auto.
      * rewrite F1, has_coded_u8 in H2. discriminate.
Qed.

Lemma touchedAll_refl (ts : list WhereTerm) : touchedAll ts ts.
Proof.
  split; [reflexivity|]. intros j t H. exists t. split; [exact H|].
  apply touched_refl.
Qed.

Lemma touchedAll_trans (a1 a2 a3 : list WhereTerm) :
  touchedAll a1 a2 -> touchedAll a2 a3 -> touchedAll a1 a3.
Proof.
  intros [L1 H1] [L2 H2]. split; [congruence|]. intros j t H.
  destruct (H1 _ _ H) as (t2 & G2 & T2).
  destruct (H2 _ _ G2) as (t3 & G3 & T3).
  exists t3. split; [exact G3|]. eapply touched_trans; eauto.
Qed.

Lemma touchedAll_insert (ts : list WhereTerm) (i : nat) (t t' : WhereTerm) :
  ts !! i = Some t -> touched t t' -> touchedAll ts (<[i := t']> ts).
Proof.
  intros H T. split; [apply length_insert|]. intros j x Hx.
  destruct (decide (j = i)) as [->|Hne].
  - rewrite H in Hx. injection Hx as <-. exists t'.
    split; [|exact T]. apply list_lookup_insert_eq.
    now apply lookup_lt_Some in H.
  - exists x. rewrite list_lookup_insert_ne by congruence.
    split; [exact Hx | apply touched_refl].
Qed.

Lemma parentsInside_touched (ts ts' : list WhereTerm) :
  touchedAll ts ts' -> parentsInside ts -> parentsInside ts'.
Proof.
  intros [L H] W j t' Hj Hp.
  destruct (lookup_lt_is_Some_2 ts j) as [t Ht].
  { rewrite <- L. now apply lookup_lt_Some in Hj. }
  destruct (H _ _ Ht) as (t2 & G & [E _]).
  rewrite Hj in G. injection G as <-.
  assert (Hpar : iParent t' = iParent t) by (rewrite E; now destruct t).
  rewrite L, Hpar. apply (W j t Ht). now rewrite <- Hpar.
Qed.

(** The outcome of a call with enough fuel. *)
Lemma disableTerm_general (fuel : nat) :
  forall (ts : list WhereTerm) (p : option nat),
    parentsInside ts -> (uncoded ts < fuel)%nat ->
    (forall i, p = Some i -> (i < length ts)%nat) ->
    exists ts',
      disableTerm fuel iLeftJoin ts p = Some ts'
      /\ touchedAll ts ts'
      /\ (forall i t, p = Some i -> ts !! i = Some t ->
                      mayDisable t = true ->
                      exists t', ts' !! i = Some t'
                                 /\ has (wtFlags t') TERM_CODED = true).
Proof.
  induction fuel as [|fuel IH]; intros ts p W Hf Hp; [lia|].
  destruct p as [i|]; cbn [disableTerm].
  2:{ exists ts. split; [reflexivity|]. split; [apply touchedAll_refl|].
      discriminate. }
  destruct (lookup_lt_is_Some_2 ts i (Hp i eq_refl)) as [t Ht].
  rewrite Ht.
  assert (Hkeep : forall ts', touchedAll ts ts' ->
            has (wtFlags t) TERM_CODED = true ->
            exists t', ts' !! i = Some t'
                       /\ has (wtFlags t') TERM_CODED = true).
  { intros ts' [_ H] Hc. destruct (H _ _ Ht) as (t' & G & _ & F).
    exists t'. split; [exact G|].
    destruct F as [F|(F & _)]; congruence. }
  fold (mayDisable t).
  destruct (Z.eqb_spec (Z.land (wtFlags t) TERM_CODED) 0) as [Hc|Hc];
    cbn [andb].
  2:{ exists ts. split; [reflexivity|]. split; [apply touchedAll_refl|].
      intros i' t' [= <-] Ht' _. apply Hkeep; [apply touchedAll_refl|].
      unfold has. destruct (Z.eqb_spec (Z.land (wtFlags t) TERM_CODED) 0);
        [contradiction | reflexivity]. }
  destruct (mayDisable t) eqn:Hm.
  2:{ exists ts. split; [reflexivity|]. split; [apply touchedAll_refl|].
      intros i' t' [= <-] Ht'. rewrite Ht in Ht'. injection Ht' as <-.
      congruence. }
  assert (Hun : has (wtFlags t) TERM_CODED = false)
    by (unfold has; now rewrite Hc).
  set (t1 := set_wtFlags (u8 (Z.lor (wtFlags t) TERM_CODED)) t).
  set (ts1 := <[i := t1]> ts).
  assert (T1 : touchedAll ts ts1).
  { apply (touchedAll_insert ts i t t1 Ht). split.
    - unfold t1. now destruct t.
    - right. split; [exact Hun|]. split; [exact Hm|]. reflexivity. }
  assert (G1 : ts1 !! i = Some t1).
  { apply list_lookup_insert_eq. now apply lookup_lt_Some in Ht. }
  assert (C1 : has (wtFlags t1) TERM_CODED = true) by apply has_coded_u8.
  assert (U1 : (uncoded ts1 + 1 = uncoded ts)%nat).
  { pose proof (uncoded_insert ts i t t1 Ht) as H. fold ts1 in H.
    rewrite Hun, C1 in H. lia. }
  assert (Hdone : forall ts', touchedAll ts1 ts' ->
            forall i' x, Some i = Some i' -> ts !! i' = Some x ->
              mayDisable x = true ->
              exists t', ts' !! i' = Some t'
                         /\ has (wtFlags t') TERM_CODED = true).
  { intros ts' [_ H] i' x [= <-] _ _.
    destruct (H _ _ G1) as (t' & G & _ & F). exists t'. split; [exact G|].
    destruct F as [F|(F & _)]; congruence. }
  destruct (Z.leb_spec 0 (iParent t)) as [Hpar|Hpar].
  2:{ exists ts1. split; [reflexivity|]. split; [exact T1|].
      apply Hdone, touchedAll_refl. }
  set (ip := Z.to_nat (iParent t)).
  assert (Hip : (ip < length ts1)%nat).
  { destruct T1 as [L _]. rewrite L. exact (W i t Ht Hpar). }
  destruct (lookup_lt_is_Some_2 ts1 ip Hip) as [o Ho]. rewrite Ho.
  set (n := u8 (nChild o - 1)).
  set (ts2 := <[ip := set_nChild n o]> ts1).
  assert (T2 : touchedAll ts1 ts2).
  { apply (touchedAll_insert ts1 ip o _ Ho). split.
    - now destruct o.
    - now left. }
  assert (U2 : uncoded ts2 = uncoded ts1).
  { pose proof (uncoded_insert ts1 ip o (set_nChild n o) Ho) as H.
    fold ts2 in H. cbn [wtFlags set_nChild] in H.
    destruct (has (wtFlags o) TERM_CODED); lia. }
  destruct (n =? 0).
  - destruct (IH ts2 (Some ip)) as (ts' & R & T3 & _).
    + eapply parentsInside_touched; [|exact W].
      eapply touchedAll_trans; eauto.
    + lia.
    + intros ? [= <-]. destruct T2 as [L _]. now rewrite L.
    + exists ts'. split; [exact R|].
      split; [eauto using touchedAll_trans|].
      apply Hdone. eapply touchedAll_trans; eauto.
  - exists ts2. split; [reflexivity|].
    split; [eauto using touchedAll_trans|]. apply Hdone, T2.
Qed.

(** One level of the cascade, written out: the child [i] is coded and the
    count of its parent [p] drops by one; a parent that still has children
    is left at that. *)
Lemma disableTerm_sibling_left (f : nat) (ts : list WhereTerm) (i p : nat)
    (t o : WhereTerm) :
  ts !! i = Some t -> has (wtFlags t) TERM_CODED = false ->
  mayDisable t = true ->
  iParent t = Z.of_nat p -> p <> i -> ts !! p = Some o ->
  2 <= nChild o <= 255 ->
  disableTerm (S f) iLeftJoin ts (Some i)
  = Some (<[p := set_nChild (nChild o - 1) o]>
            (<[i := set_wtFlags (u8 (Z.lor (wtFlags t) TERM_CODED)) t]> ts)).
Proof.
  intros Ht Hun Hm Hpar Hne Ho Hn. cbn [disableTerm]. rewrite Ht.
  fold (mayDisable t). rewrite Hm.
  unfold has in Hun. apply negb_false_iff in Hun. rewrite Hun. cbn [andb].
  rewrite Hpar, Nat2Z.id.
  destruct (Z.leb_spec 0 (Z.of_nat p)); [|lia].
  rewrite list_lookup_insert_ne by congruence. rewrite Ho.
  assert (E : u8 (nChild o - 1) = nChild o - 1)
    by (unfold u8; apply Z.mod_small; lia).
  rewrite E. destruct (Z.eqb_spec (nChild o - 1) 0); [lia | reflexivity].
Qed.

(** The last child: the parent [p], itself without a parent, is coded in
    the same call. *)
Lemma disableTerm_last_sibling (f : nat) (ts : list WhereTerm) (i p : nat)
    (t o : WhereTerm) :
  ts !! i = Some t -> has (wtFlags t) TERM_CODED = false ->
  mayDisable t = true ->
  iParent t = Z.of_nat p -> p <> i -> ts !! p = Some o ->
  nChild o = 1 -> has (wtFlags o) TERM_CODED = false ->
  mayDisable o = true -> iParent o < 0 ->
  disableTerm (S (S f)) iLeftJoin ts (Some i)
  = Some (<[p := set_wtFlags (u8 (Z.lor (wtFlags o) TERM_CODED))
                   (set_nChild 0 o)]>
            (<[i := set_wtFlags (u8 (Z.lor (wtFlags t) TERM_CODED)) t]> ts)).
Proof.
  intros Ht Hun Hm Hpar Hne Ho Hn Huo Hmo Hpo.
  assert (Hi : (i < length ts)%nat) by (eapply lookup_lt_Some; eauto).
  assert (Hp : (p < length ts)%nat) by (eapply lookup_lt_Some; eauto).
  cbn [disableTerm]. rewrite Ht.
  fold (mayDisable t). rewrite Hm.
  unfold has in Hun. apply negb_false_iff in Hun. rewrite Hun. cbn [andb].
  rewrite Hpar, Nat2Z.id.
  destruct (Z.leb_spec 0 (Z.of_nat p)); [|lia].
  rewrite list_lookup_insert_ne by congruence. rewrite Ho, Hn.
  change (u8 (1 - 1) =? 0) with true. cbv iota.
  rewrite list_lookup_insert_eq by (rewrite length_insert; lia).
  cbn [wtFlags set_nChild pExpr iParent].
  change (fromJoin (pExpr (set_nChild (u8 (1 - 1)) o)))
    with (fromJoin (pExpr o)).
  fold (mayDisable o). rewrite Hmo.
  unfold has in Huo. apply negb_false_iff in Huo. rewrite Huo. cbn [andb].
  destruct (Z.leb_spec 0 (iParent o)); [lia|].
  rewrite list_insert_insert_eq. reflexivity.
Qed.

(** X9.  [disableTerm] on a term of a clause whose parent indices point
    into the clause returns, whatever the depth of the cascade, once the
    fuel exceeds the number of terms.  The clause keeps its length and
    every term keeps all its fields but [wtFlags] and [nChild]; [wtFlags]
    either stays or gains [TERM_CODED]; a term that was coded keeps its
    flags, and under a left join ([iLeftJoin] not 0) so does every term
    whose expression is not from the ON clause, also when the cascade
    reaches it as a parent.  The term asked for ends up coded when
    [iLeftJoin] is 0 or its expression is from the ON clause. *)
Theorem disableTerm_only_codes (ts : list WhereTerm) (i : nat) :
  parentsInside ts -> (i < length ts)%nat ->
  exists ts',
    disableTerm (S (length ts)) iLeftJoin ts (Some i) = Some ts'
    /\ length ts' = length ts
    /\ (forall j t, ts !! j = Some t ->
          exists t',
            ts' !! j = Some t'
            /\ t' = set_nChild (nChild t') (set_wtFlags (wtFlags t') t)
            /\ (wtFlags t' = wtFlags t
                \/ wtFlags t' = u8 (Z.lor (wtFlags t) TERM_CODED))
            /\ (has (wtFlags t) TERM_CODED = true -> wtFlags t' = wtFlags t)
            /\ (iLeftJoin <> 0 -> fromJoin (pExpr t) = false ->
                wtFlags t' = wtFlags t)
            /\ (j = i -> iLeftJoin = 0 \/ fromJoin (pExpr t) = true ->
                has (wtFlags t') TERM_CODED = true)).
Proof.
  intros W Hi.
  destruct (disableTerm_general (S (length ts)) ts (Some i) W) as
    (ts' & R & [L T] & Hc).
  { pose proof (uncoded_le ts). lia. }
  { now intros ? [= <-]. }
  exists ts'. split; [exact R|]. split; [exact L|]. intros j t Hj.
  destruct (T _ _ Hj) as (t' & G & E & F). exists t'.
  split; [exact G|]. split; [exact E|].
  split; [destruct F as [F|(_ & _ & F)]; auto|].
  split; [intros Hcd; destruct F as [F|(F & _)]; congruence|].
  split.
  - intros Hl Hf. destruct F as [F|(_ & F & _)]; [exact F|].
    unfold mayDisable in F. rewrite Hf, orb_false_r in F. lia.
  - intros -> Hm. destruct (Hc i t eq_refl Hj) as (x & Gx & Hx).
    + unfold mayDisable. destruct Hm as [-> | ->]; [reflexivity|].
      apply orb_true_r.
    + congruence.
Qed.

(** X10.  The cascade of [disableTerm]: when the term disabled is the last
    child that its parent waits for ([nChild] of the parent is 1), the
    parent is coded by the same call, provided the parent may be disabled
    at this level; when the parent waits for more children, the call
    only lowers its [nChild] by one and leaves its flags. *)
Theorem disableTerm_last_child (ts : list WhereTerm) (i p : nat)
    (t o : WhereTerm) :
  parentsInside ts ->
  ts !! i = Some t -> has (wtFlags t) TERM_CODED = false ->
  mayDisable t = true ->
  iParent t = Z.of_nat p -> p <> i -> ts !! p = Some o ->
  1 <= nChild o <= 255 ->
  exists ts' t' o',
    disableTerm (S (length ts)) iLeftJoin ts (Some i) = Some ts'
    /\ ts' !! i = Some t' /\ ts' !! p = Some o'
    /\ has (wtFlags t') TERM_CODED = true
    /\ (nChild o = 1 -> mayDisable o = true ->
        has (wtFlags o') TERM_CODED = true)
    /\ (2 <= nChild o ->
        wtFlags o' = wtFlags o /\ nChild o' = nChild o - 1).
Proof.
  intros W Ht Hun Hm Hpar Hne Ho Hn.
  assert (Hi : (i < length ts)%nat) by (eapply lookup_lt_Some; eauto).
  assert (Hp : (p < length ts)%nat) by (eapply lookup_lt_Some; eauto).
  set (t1 := set_wtFlags (u8 (Z.lor (wtFlags t) TERM_CODED)) t).
  assert (C1 : has (wtFlags t1) TERM_CODED = true) by apply has_coded_u8.
  destruct (Z.eq_dec (nChild o) 1) as [H1|H1].
  - (* the recursion on the parent *)
    set (ts1 := <[i := t1]> ts).
    set (ts2 := <[p := set_nChild 0 o]> ts1).
    assert (T1 : touchedAll ts ts1).
    { apply (touchedAll_insert ts i t t1 Ht). split.
      - unfold t1. now destruct t.
      - right. split; [exact Hun|]. split; [exact Hm|]. reflexivity. }
    assert (Ho1 : ts1 !! p = Some o)
      by (unfold ts1; now rewrite list_lookup_insert_ne by congruence).
    assert (T2 : touchedAll ts1 ts2).
    { apply (touchedAll_insert ts1 p o _ Ho1). split.
      - now destruct o.
      - now left. }
    assert (L2 : length ts2 = length ts)
      by (unfold ts2, ts1; now rewrite !length_insert).
    assert (Hstep : disableTerm (S (length ts)) iLeftJoin ts (Some i)
                    = disableTerm (length ts) iLeftJoin ts2 (Some p)).
    { cbn [disableTerm]. rewrite Ht. fold (mayDisable t). rewrite Hm.
      pose proof Hun as Hun'. unfold has in Hun'.
      apply negb_false_iff in Hun'. rewrite Hun'. cbn [andb].
      rewrite Hpar, Nat2Z.id.
      destruct (Z.leb_spec 0 (Z.of_nat p)); [|lia].
      fold t1. fold ts1. rewrite Ho1, H1. reflexivity. }
    destruct (disableTerm_general (length ts) ts2 (Some p)) as
      (ts' & R & T3 & Hc).
    + eapply parentsInside_touched; [|exact W].
      eapply touchedAll_trans; eauto.
    + pose proof (uncoded_insert ts i t t1 Ht) as U1. fold ts1 in U1.
      rewrite Hun, C1 in U1.
      pose proof (uncoded_insert ts1 p o (set_nChild 0 o) Ho1) as U2.
      fold ts2 in U2. cbn [wtFlags set_nChild] in U2.
      pose proof (uncoded_le ts).
      destruct (has (wtFlags o) TERM_CODED); lia.
    + intros ? [= <-]. now rewrite L2.
    + assert (G2i : ts2 !! i = Some t1).
      { unfold ts2. rewrite list_lookup_insert_ne by congruence.
        unfold ts1. now rewrite list_lookup_insert_eq. }
      assert (G2p : ts2 !! p = Some (set_nChild 0 o)).
      { unfold ts2. apply list_lookup_insert_eq.
        unfold ts1. now rewrite length_insert. }
      destruct T3 as [L3 T3].
      destruct (T3 _ _ G2i) as (t' & Gi & _ & Fi).
      destruct (T3 _ _ G2p) as (o' & Gp & Ep & Fp).
      exists ts', t', o'. split; [now rewrite Hstep|].
      split; [exact Gi|]. split; [exact Gp|].
      split; [destruct Fi as [Fi|(Fi & _)]; congruence|].
      split; [|lia]. intros _ Hmo.
      destruct (Hc p _ eq_refl G2p) as (x & Gx & Hx).
      { unfold mayDisable in *. exact Hmo. }
      rewrite Gp in Gx. now injection Gx as <-.
  - assert (H2 : 2 <= nChild o <= 255) by lia.
    pose proof (disableTerm_sibling_left (length ts) ts i p t o
                  Ht Hun Hm Hpar Hne Ho H2) as R.
    fold t1 in R.
    exists (<[p := set_nChild (nChild o - 1) o]> (<[i := t1]> ts)),
           t1, (set_nChild (nChild o - 1) o).
    split; [exact R|].
    split.
    { rewrite list_lookup_insert_ne by congruence.
      now rewrite list_lookup_insert_eq. }
    split; [apply list_lookup_insert_eq; now rewrite length_insert|].
    split; [exact C1|]. split; [lia|]. intros _. split; reflexivity.
Qed.

End DisableFacts.

(** ** The BETWEEN rewrite and the terms it lets an index satisfy *)

Section BetweenRewrite.
Import Ast MaskSet Analyse Disable.

Variable env : Env.

(** The term that the analyser leaves for a bound [x >= lo] or [x <= hi]
    of a BETWEEN term at index [i]. *)
Definition boundTerm (i : nat) (e : Expr) : WhereTerm :=
  set_iParent (Z.of_nat i) (simpleResult env e (freshTerm e vd)).

(** The clause that [exprAnalyze] makes of a BETWEEN term [t] at [i]. *)
Definition betweenResult (wc : WhereClause) (i : nat) (t : WhereTerm)
    (lo hi : Expr) : WhereClause :=
  let e := pExpr t in
  let ge := sqlite4PExpr TK_GE (pLeft e) (Some lo) in
  let le := sqlite4PExpr TK_LE (pLeft e) (Some hi) in
  updTerm
    (pushTerm (pushTerm (updTerm wc i (beginTerm env e)) (boundTerm i ge))
       (boundTerm i le))
    i (fun t => set_prereqRight (Z.lor (prereqRight t) (extraRightOf env e))
                  (set_nChild 2 t)).

Lemma exprAnalyze_between (f : nat) (wc : WhereClause) (i : nat)
    (t : WhereTerm) (lo hi rlo rhi : Expr) :
  likeOnlyFunctions env ->
  a wc !! i = Some t ->
  wcOp wc = TK_AND ->
  op (pExpr t) = TK_BETWEEN ->
  xList (pExpr t) !! 0%nat = Some lo ->
  xList (pExpr t) !! 1%nat = Some hi ->
  sqlite4ExprSkipCollate (Some lo) = Some rlo ->
  tk_is (op rlo) TK_COLUMN = false ->
  sqlite4ExprSkipCollate (Some hi) = Some rhi ->
  tk_is (op rhi) TK_COLUMN = false ->
  exprAnalyze (S (S f)) env wc i = Some (betweenResult wc i t lo hi).
Proof.
  intros Hlike Ht Hand Hop Hlo Hhi Hrlo Hclo Hrhi Hchi.
  set (e := pExpr t) in *.
  assert (Hi : (i < length (a wc))%nat) by (eapply lookup_lt_Some; eauto).
  set (wc0 := updTerm wc i (beginTerm env e)).
  assert (H0 : a wc0 !! i = Some (beginTerm env e t))
    by (apply lookup_updTerm_eq; exact Ht).
  assert (Hlen0 : length (a wc0) = length (a wc)) by apply length_updTerm.
  rewrite exprAnalyze_S. unfold analyzeStep.
  rewrite (getTerm_lookup wc i t Ht). fold e. fold wc0.
  rewrite Hop, Hand.
  change (allowedOp TK_BETWEEN) with false.
  change (tk_is TK_BETWEEN TK_BETWEEN && tk_is TK_AND TK_AND) with true.
  cbv iota. unfold betweenArm. rewrite Hlo, Hhi.
  change (default nullExpr (Some lo)) with lo.
  change (default nullExpr (Some hi)) with hi.
  set (ge := sqlite4PExpr TK_GE (pLeft e) (Some lo)).
  set (le := sqlite4PExpr TK_LE (pLeft e) (Some hi)).
  rewrite (child_simple env f wc0 ge rlo vd Hlike)
    by (try reflexivity; assumption).
  cbv beta iota zeta.
  rewrite updTerm_pushTerm.
  rewrite (child_simple env f _ le rhi vd Hlike)
    by (try reflexivity; assumption).
  cbv beta iota zeta.
  rewrite updTerm_pushTerm.
  fold (boundTerm i ge). fold (boundTerm i le).
  set (wcB := pushTerm (pushTerm wc0 (boundTerm i ge)) (boundTerm i le)).
  assert (HBi : a wcB !! i = Some (beginTerm env e t)).
  { unfold wcB. rewrite lookup_pushTerm_old
      by (rewrite length_pushTerm; lia).
    rewrite lookup_pushTerm_old by lia. exact H0. }
  set (wc1 := updTerm wcB i (set_nChild 2)).
  assert (H1 : a wc1 !! i = Some (set_nChild 2 (beginTerm env e t)))
    by (apply lookup_updTerm_eq; exact HBi).
  assert (He1 : pExpr (getTerm wc1 i) = e)
    by (rewrite (getTerm_lookup _ _ _ H1); reflexivity).
  assert (Hnf : tk_is (op e) TK_FUNCTION = false) by now rewrite Hop.
  rewrite likeArm_declines by (try exact Hlike; now rewrite He1).
  rewrite matchArm_declines
    by (apply isMatchOfColumn_function; now rewrite He1).
  rewrite notNullArm_declines by (rewrite He1; now rewrite Hop).
  unfold wc1. rewrite updTerm_updTerm. reflexivity.
Qed.

Lemma betweenResult_lookups (wc : WhereClause) (i : nat) (t : WhereTerm)
    (lo hi : Expr) :
  a wc !! i = Some t ->
  let e := pExpr t in
  let n := length (a wc) in
  let wc' := betweenResult wc i t lo hi in
  length (a wc') = S (S n)
  /\ a wc' !! n
     = Some (boundTerm i (sqlite4PExpr TK_GE (pLeft e) (Some lo)))
  /\ a wc' !! S n
     = Some (boundTerm i (sqlite4PExpr TK_LE (pLeft e) (Some hi)))
  /\ a wc' !! i
     = Some (set_prereqRight
               (Z.lor (prereqRight (beginTerm env e t)) (extraRightOf env e))
               (set_nChild 2 (beginTerm env e t)))
  /\ (forall j, (j < n)%nat -> j <> i -> a wc' !! j = a wc !! j).
Proof.
  intros Ht e n wc'.
  assert (Hi : (i < n)%nat) by (eapply lookup_lt_Some; eauto).
  set (wc0 := updTerm wc i (beginTerm env e)).
  assert (Hlen0 : length (a wc0) = n) by apply length_updTerm.
  unfold wc', betweenResult. fold e. fold wc0.
  set (g1 := boundTerm i (sqlite4PExpr TK_GE (pLeft e) (Some lo))).
  set (g2 := boundTerm i (sqlite4PExpr TK_LE (pLeft e) (Some hi))).
  assert (L1 : length (a (pushTerm wc0 g1)) = S n)
    by (rewrite length_pushTerm; lia).
  split; [rewrite length_updTerm, length_pushTerm; lia|].
  split.
  { rewrite lookup_updTerm_ne by lia.
    rewrite lookup_pushTerm_old by lia.
    rewrite <- Hlen0. apply lookup_pushTerm_new. }
  split.
  { rewrite lookup_updTerm_ne by lia.
    rewrite <- L1. apply lookup_pushTerm_new. }
  split.
  { rewrite (lookup_updTerm_eq _ i _ (beginTerm env e t)); [reflexivity|].
    rewrite lookup_pushTerm_old by lia.
    rewrite lookup_pushTerm_old by lia.
    apply lookup_updTerm_eq. exact Ht. }
  intros j Hj Hne.
  rewrite lookup_updTerm_ne by congruence.
  rewrite lookup_pushTerm_old by lia.
  rewrite lookup_pushTerm_old by lia.
  apply lookup_updTerm_ne. congruence.
Qed.

(** X11.  The BETWEEN rewrite.  For a term [x BETWEEN lo AND hi] of a
    clause split by AND whose bounds are not columns, the analyser
    appends the two terms [x >= lo] and [x <= hi], flagged
    Virtual|Dynamic, with the BETWEEN term as their parent; the BETWEEN
    term stays in place with its expression and flags, operator 0, no
    parent and a child count of 2, and no other term of the clause
    changes.  When [x] is a column the new terms constrain that column
    with the operators GE and LE, or with no operator when the bound uses
    the table of the column. *)
Theorem between_rewrite (f : nat) (wc : WhereClause) (i : nat)
    (t : WhereTerm) (lo hi rlo rhi : Expr) :
  likeOnlyFunctions env ->
  a wc !! i = Some t ->
  wcOp wc = TK_AND ->
  op (pExpr t) = TK_BETWEEN ->
  xList (pExpr t) !! 0%nat = Some lo ->
  xList (pExpr t) !! 1%nat = Some hi ->
  sqlite4ExprSkipCollate (Some lo) = Some rlo ->
  tk_is (op rlo) TK_COLUMN = false ->
  sqlite4ExprSkipCollate (Some hi) = Some rhi ->
  tk_is (op rhi) TK_COLUMN = false ->
  let x := pLeft (pExpr t) in
  let n := length (a wc) in
  let bound (o : Token) (wo : Z) (b : Expr) (tb : WhereTerm) : Prop :=
    pExpr tb = sqlite4PExpr o x (Some b)
    /\ wtFlags tb = vd /\ iParent tb = Z.of_nat i
    /\ (forall col, x = Some col -> op col = TK_COLUMN ->
          leftCursor tb = iTable col /\ leftColumn tb = iColumn col
          /\ eOperator tb
             = if Z.land (exprTableUsage (sMaskSet env) b)
                         (exprTableUsage (sMaskSet env) col) =? 0
               then wo else 0) in
  exists wc',
    exprAnalyze (S (S f)) env wc i = Some wc'
    /\ grownByTwo (bound TK_GE WO_GE lo) (bound TK_LE WO_LE hi)
         (fun t0 => pExpr t0 = pExpr t /\ wtFlags t0 = wtFlags t
                    /\ eOperator t0 = 0 /\ iParent t0 = -1
                    /\ nChild t0 = 2)
         n i wc'
    /\ (forall j, (j < n)%nat -> j <> i -> a wc' !! j = a wc !! j).
Proof.
  intros Hlike Ht Hand Hop Hlo Hhi Hrlo Hclo Hrhi Hchi x n bound.
  exists (betweenResult wc i t lo hi).
  split; [eapply exprAnalyze_between; eauto|].
  destruct (betweenResult_lookups wc i t lo hi Ht)
    as (L & G1 & G2 & G0 & Hframe).
  cbv zeta in L, G1, G2, G0, Hframe. fold x in G1, G2.
  split; [|exact Hframe].
  assert (Hb : forall o wo b,
             allowedOp o = true -> tk_is o TK_COLLATE = false ->
             tk_is o TK_AS = false -> tk_is o TK_IN = false ->
             tk_is o TK_ISNULL = false -> operatorMask o = wo ->
             (Z.land wo WO_ALL = wo) -> (Z.land wo WO_EQUIV = 0) ->
             bound o wo b (boundTerm i (sqlite4PExpr o x (Some b)))).
  { intros o wo b Hao Hco Has Hin Hnull Hmask Hall Heq.
    unfold bound, boundTerm.
    set (eb := sqlite4PExpr o x (Some b)).
    assert (Hfresh : pExpr (freshTerm eb vd) = eb)
      by (apply pExpr_freshTerm; assumption).
    destruct (simpleResult_keeps env eb (freshTerm eb vd))
      as (K1 & K2 & K3).
    split; [cbn [pExpr set_iParent]; now rewrite K1|].
    split; [cbn [wtFlags set_iParent]; now rewrite K2|].
    split; [reflexivity|].
    intros col Hx Hcol. unfold simpleResult.
    change (pLeft eb) with x. rewrite Hx.
    assert (Hsk : sqlite4ExprSkipCollate (Some col) = Some col).
    { cbn [sqlite4ExprSkipCollate]. apply skipCollate_plain;
        now rewrite Hcol. }
    rewrite Hsk. change (deref (Some col)) with col.
    rewrite (tk_is_eq _ _ Hcol).
    change (op eb) with o. rewrite Hmask.
    unfold prereqRightOf, prereqLeftOf.
    change (op eb) with o.
    rewrite Hin, Hnull.
    change (pRight eb) with (Some b). change (pLeft eb) with x.
    rewrite Hx. cbn [exprUsage].
    cbn [leftCursor leftColumn eOperator set_iParent set_prereqRight
         set_eOperator set_left].
    split; [reflexivity|]. split; [reflexivity|].
    destruct (Z.land (exprTableUsage (sMaskSet env) b)
                (exprTableUsage (sMaskSet env) col) =? 0); assumption. }
  split; [exact L|].
  eexists _, _, _. split; [exact G1|]. split; [exact G2|].
  split; [exact G0|].
  split; [apply Hb; reflexivity|]. split; [apply Hb; reflexivity|].
  cbn. auto.
Qed.

(** X12.  The children of a BETWEEN term disable it.  After the BETWEEN
    rewrite, outside a left join, [disableTerm] on the one bound codes
    that bound and leaves the BETWEEN term uncoded with one child to
    wait for; [disableTerm] on the other bound then codes the BETWEEN
    term as well. *)
Theorem between_bounds_disable_parent (f : nat) (wc : WhereClause) (i : nat)
    (t : WhereTerm) (lo hi rlo rhi : Expr) :
  likeOnlyFunctions env ->
  a wc !! i = Some t ->
  wcOp wc = TK_AND ->
  op (pExpr t) = TK_BETWEEN ->
  xList (pExpr t) !! 0%nat = Some lo ->
  xList (pExpr t) !! 1%nat = Some hi ->
  sqlite4ExprSkipCollate (Some lo) = Some rlo ->
  tk_is (op rlo) TK_COLUMN = false ->
  sqlite4ExprSkipCollate (Some hi) = Some rhi ->
  tk_is (op rhi) TK_COLUMN = false ->
  has (wtFlags t) TERM_CODED = false ->
  let n := length (a wc) in
  let coded (ts : list WhereTerm) (j : nat) : Prop :=
    exists tj, ts !! j = Some tj /\ has (wtFlags tj) TERM_CODED = true in
  exists wc' ts1 ts2 t1,
    exprAnalyze (S (S f)) env wc i = Some wc'
    /\ disableTerm (S (length (a wc'))) 0 (a wc') (Some n) = Some ts1
    /\ coded ts1 n
    /\ ts1 !! i = Some t1
    /\ wtFlags t1 = wtFlags t /\ nChild t1 = 1
    /\ disableTerm (S (length ts1)) 0 ts1 (Some (S n)) = Some ts2
    /\ coded ts2 n /\ coded ts2 (S n) /\ coded ts2 i.
Proof.
  intros Hlike Ht Hand Hop Hlo Hhi Hrlo Hclo Hrhi Hchi Hun n coded.
  assert (Hi : (i < n)%nat) by (eapply lookup_lt_Some; eauto).
  set (wc' := betweenResult wc i t lo hi).
  destruct (betweenResult_lookups wc i t lo hi Ht)
    as (L & G1 & G2 & G0 & _).
  cbv zeta in L, G1, G2, G0. fold wc' n in L, G1, G2, G0.
  set (e := pExpr t) in *.
  set (g1 := boundTerm i (sqlite4PExpr TK_GE (pLeft e) (Some lo))) in *.
  set (g2 := boundTerm i (sqlite4PExpr TK_LE (pLeft e) (Some hi))) in *.
  set (t0 := set_prereqRight
               (Z.lor (prereqRight (beginTerm env e t)) (extraRightOf env e))
               (set_nChild 2 (beginTerm env e t))) in *.
  assert (Hflags : forall o b,
            wtFlags (boundTerm i (sqlite4PExpr o (pLeft e) (Some b))) = vd).
  { intros o b. unfold boundTerm. cbn [wtFlags set_iParent].
    now destruct (simpleResult_keeps env (sqlite4PExpr o (pLeft e) (Some b))
                    (freshTerm (sqlite4PExpr o (pLeft e) (Some b)) vd))
      as (_ & -> & _). }
  set (c1 := set_wtFlags (u8 (Z.lor (wtFlags g1) TERM_CODED)) g1).
  set (c2 := set_wtFlags (u8 (Z.lor (wtFlags g2) TERM_CODED)) g2).
  set (ts1 := <[i := set_nChild (nChild t0 - 1) t0]> (<[n := c1]> (a wc'))).
  set (o1 := set_nChild (nChild t0 - 1) t0).
  set (ts2 := <[i := set_wtFlags (u8 (Z.lor (wtFlags o1) TERM_CODED))
                       (set_nChild 0 o1)]> (<[S n := c2]> ts1)).
  assert (Lts1 : length ts1 = S (S n))
    by (unfold ts1; now rewrite !length_insert).
  assert (R1 : disableTerm (S (length (a wc'))) 0 (a wc') (Some n)
               = Some ts1).
  { apply (disableTerm_sibling_left 0 _ (a wc') n i g1 t0);
      try assumption; try reflexivity; try lia.
    - unfold g1. now rewrite Hflags.
    - cbn. lia. }
  assert (H1n : ts1 !! n = Some c1).
  { unfold ts1. rewrite list_lookup_insert_ne by lia.
    apply list_lookup_insert_eq. lia. }
  assert (H1i : ts1 !! i = Some o1).
  { unfold ts1. apply list_lookup_insert_eq. rewrite length_insert. lia. }
  assert (H1s : ts1 !! S n = Some g2).
  { unfold ts1. rewrite !list_lookup_insert_ne by lia. exact G2. }
  assert (R2 : disableTerm (S (length ts1)) 0 ts1 (Some (S n)) = Some ts2).
  { rewrite Lts1.
    apply (disableTerm_last_sibling 0 _ ts1 (S n) i g2 o1);
      try assumption; try reflexivity; try lia.
    - unfold g2. now rewrite Hflags. }
  exists wc', ts1, ts2, o1.
  split; [eapply exprAnalyze_between; eauto|].
  split; [exact R1|].
  split; [exists c1; split; [exact H1n | apply has_coded_u8]|].
  split; [exact H1i|]. split; [reflexivity|]. split; [reflexivity|].
  split; [exact R2|].
  split.
  { exists c1. split; [|apply has_coded_u8]. unfold ts2.
    rewrite !list_lookup_insert_ne by lia. exact H1n. }
  split.
  { exists c2. split; [|apply has_coded_u8]. unfold ts2.
    rewrite list_lookup_insert_ne by lia.
    apply list_lookup_insert_eq. lia. }
  eexists. split.
  - unfold ts2. apply list_lookup_insert_eq. rewrite length_insert. lia.
  - apply has_coded_u8.
Qed.

End BetweenRewrite.

Section DisableExamples.
Import Ast MaskSet Analyse Disable.

(** A term that waits for one child, and that child. *)
Definition familyTerms : list WhereTerm :=
  [set_nChild 1 (freshTerm (eLeaf 1) 0);
   set_iParent 0 (freshTerm (eLeaf 2) vd)].

Lemma familyTerms_parentsInside : parentsInside familyTerms.
Proof.
  intros j t H Hp. destruct j as [|[|j]]; cbn in H; try discriminate;
    injection H as <-; cbn in *; lia.
Qed.

Lemma disableTerm_only_codes_witness :
  exists ts',
    disableTerm 3 0 familyTerms (Some 1%nat) = Some ts'
    /\ length ts' = 2%nat.
Proof.
  destruct (disableTerm_only_codes 0 familyTerms 1) as (ts' & R & L & _).
  - exact familyTerms_parentsInside.
  - cbn. lia.
  - exists ts'. split; [exact R | exact L].
Defined.

Lemma disableTerm_last_child_witness :
  exists ts' o',
    disableTerm 3 0 familyTerms (Some 1%nat) = Some ts'
    /\ ts' !! 0%nat = Some o'
    /\ has (wtFlags o') TERM_CODED = true.
Proof.
  destruct (disableTerm_last_child 0 familyTerms 1 0
              (set_iParent 0 (freshTerm (eLeaf 2) vd))
              (set_nChild 1 (freshTerm (eLeaf 1) 0)))
    as (ts' & t' & o' & R & _ & G & _ & H1 & _).
  - exact familyTerms_parentsInside.
  - reflexivity.
  - reflexivity.
  - reflexivity.
  - reflexivity.
  - discriminate.
  - reflexivity.
  - cbn. lia.
  - exists ts', o'. split; [exact R|]. split; [exact G|].
    apply H1; reflexivity.
Defined.

(** [t7.c1 BETWEEN 3 AND 9] as the only term of a WHERE clause. *)
Definition betweenCall : Expr :=
  mkExpr TK_BETWEEN (TK_OTHER 0) 0 0 0 false false false [] None
         (Some (eColumn 7 1)) None [eLeaf 3; eLeaf 9].

Definition betweenClause : WhereClause :=
  whereSplit whereClauseInit (Some betweenCall) TK_AND.

Lemma between_rewrite_witness :
  exists wc',
    exprAnalyze 2 (likeEnv false) betweenClause 0 = Some wc'
    /\ length (a wc') = 3%nat.
Proof.
  destruct (between_rewrite (likeEnv false) 0 betweenClause 0
              (freshTerm betweenCall 0) (eLeaf 3) (eLeaf 9)
              (eLeaf 3) (eLeaf 9))
    as (wc' & E & (L & _) & _).
  - apply likeEnv_likeOnlyFunctions.
  - reflexivity.
  - reflexivity.
  - reflexivity.
  - reflexivity.
  - reflexivity.
  - reflexivity.
  - reflexivity.
  - reflexivity.
  - reflexivity.
  - exists wc'. split; [exact E | exact L].
Defined.

Lemma between_bounds_disable_parent_witness :
  exists wc' ts1 ts2 t0,
    exprAnalyze 2 (likeEnv false) betweenClause 0 = Some wc'
    /\ disableTerm (S (length (a wc'))) 0 (a wc') (Some 1%nat) = Some ts1
    /\ disableTerm (S (length ts1)) 0 ts1 (Some 2%nat) = Some ts2
    /\ ts2 !! 0%nat = Some t0
    /\ has (wtFlags t0) TERM_CODED = true.
Proof.
  destruct (between_bounds_disable_parent (likeEnv false) 0 betweenClause 0
              (freshTerm betweenCall 0) (eLeaf 3) (eLeaf 9)
              (eLeaf 3) (eLeaf 9))
    as (wc' & ts1 & ts2 & t1 & E & R1 & _ & _ & _ & _ & R2 & _ & _
        & (t0 & G & H)).
  - apply likeEnv_likeOnlyFunctions.
  - reflexivity.
  - reflexivity.
  - reflexivity.
  - reflexivity.
  - reflexivity.
  - reflexivity.
  - reflexivity.
  - reflexivity.
  - reflexivity.
  - reflexivity.
  - exists wc', ts1, ts2, t0. repeat split; assumption.
Defined.

End DisableExamples.

(** ** Comparisons with a column on the right *)

Section Comparison.
Import Ast MaskSet Analyse.

Variable env : Env.

(** The comparison operators that [exprCommute] accepts. *)
Definition isComparison (o : Token) : bool :=
  match tkOrd o with Some _ => true | None => false end.

Lemma comparison_facts (o : Token) :
  isComparison o = true ->
  allowedOp o = true /\ tk_is o TK_IN = false /\ tk_is o TK_ISNULL = false
  /\ isComparison (commuteOp o) = true
  /\ Z.land (operatorMask o) WO_ALL = operatorMask o
  /\ Z.land (operatorMask o) WO_EQUIV = 0
  /\ Z.land (operatorMask o + WO_EQUIV) WO_ALL
     = Z.lor (operatorMask o) WO_EQUIV
  /\ Z.land (operatorMask o + WO_EQUIV) WO_EQUIV = WO_EQUIV.
Proof. destruct o; cbn; try discriminate; intros _; repeat split. Qed.

(** The column that [exprCommute] brings to the left. *)
Lemma commuted_left (e Rf R : Expr) :
  pRight e = Some Rf -> skipCollate Rf = Some R ->
  let pL := deref (sqlite4ExprSkipCollate (pLeft (exprCommute env e))) in
  iTable pL = iTable R /\ iColumn pL = iColumn R.
Proof.
  intros HR Hskip. cbv zeta. unfold exprCommute. rewrite HR.
  change (deref (Some Rf)) with Rf.
  assert (Hplain : iTable (deref (skipCollate Rf)) = iTable R
                   /\ iColumn (deref (skipCollate Rf)) = iColumn R)
    by (rewrite Hskip; split; reflexivity).
  destruct (eqb (expCollate Rf) (expCollate (deref (pLeft e))));
    [destruct (expCollate Rf);
     [|destruct (sqlite4ExprCollSeq env (deref (pLeft e)))]|];
    cbn [pLeft sqlite4ExprSkipCollate]; try exact Hplain.
  destruct (skipCollate_set_expCollate false Rf) as [-> ->]. exact Hplain.
Qed.

Lemma op_exprCommute (e : Expr) : op (exprCommute env e) = commuteOp (op e).
Proof.
  unfold exprCommute.
  now destruct (if eqb _ _ then _ else _) as [l r].
Qed.

Lemma fromJoin_exprCommute (e : Expr) :
  fromJoin (exprCommute env e) = fromJoin e.
Proof.
  unfold exprCommute.
  now destruct (if eqb _ _ then _ else _) as [l r].
Qed.

(** The trailing arms of [exprAnalyze] decline a term whose operator is
    a comparison. *)
Lemma trailing_arms_decline (g : WhereClause -> nat -> option WhereClause)
    (o : Token) (wc : WhereClause) (i : nat) :
  likeOnlyFunctions env ->
  isComparison (op (pExpr (getTerm wc i))) = true ->
  likeArm env g o wc i = Some wc
  /\ matchArm env wc i = wc /\ notNullArm env wc i = wc.
Proof.
  intros Hlike Hc.
  destruct (comparison_facts _ Hc) as (Ha & _).
  destruct (allowedOp_not_special _ Ha) as [Hf Hn].
  split; [now apply likeArm_declines|].
  split; [apply matchArm_declines; now apply isMatchOfColumn_function
         | now apply notNullArm_declines].
Qed.

(** X13.  A comparison with the column on the right only, [expr op T.c]
    with [expr] not a column, is commuted in place: no term is appended
    and no other term changes; the term's expression becomes the commuted
    one, with [<] and [>] and [<=] and [>=] exchanged, the term
    constrains the column [T.c] and waits for the tables of [expr].  Its
    operator is that of the commuted comparison, or none when [expr] uses
    the table of the column. *)
Theorem comparison_commuted_in_place (f : nat) (wc : WhereClause) (i : nat)
    (t : WhereTerm) (Rf R : Expr) :
  likeOnlyFunctions env ->
  a wc !! i = Some t ->
  isComparison (op (pExpr t)) = true ->
  tk_is (op (deref (sqlite4ExprSkipCollate (pLeft (pExpr t))))) TK_COLUMN
  = false ->
  pRight (pExpr t) = Some Rf -> skipCollate Rf = Some R ->
  op R = TK_COLUMN ->
  exists wc' t',
    exprAnalyze (S f) env wc i = Some wc'
    /\ length (a wc') = length (a wc)
    /\ (forall j, j <> i -> a wc' !! j = a wc !! j)
    /\ a wc' !! i = Some t'
    /\ pExpr t' = exprCommute env (pExpr t)
    /\ op (pExpr t') = commuteOp (op (pExpr t))
    /\ leftCursor t' = iTable R /\ leftColumn t' = iColumn R
    /\ eOperator t'
       = (if Z.land (exprTableUsage (sMaskSet env) Rf)
                    (exprUsage (sMaskSet env) (pLeft (pExpr t))) =? 0
          then operatorMask (commuteOp (op (pExpr t))) else 0)
    /\ prereqRight t'
       = Z.lor (exprUsage (sMaskSet env) (pLeft (pExpr t)))
               (extraRightOf env (pExpr t))
    /\ wtFlags t' = wtFlags t /\ nChild t' = nChild t /\ iParent t' = -1.
Proof.
  intros Hlike Ht Hcmp Hleft HR Hskip HRop.
  set (e := pExpr t) in *.
  destruct (comparison_facts _ Hcmp)
    as (Hallowed & Hin & Hnull & Hcc & _).
  destruct (comparison_facts _ Hcc) as (_ & _ & _ & _ & Hall & Hequiv & _).
  set (wc0 := updTerm wc i (beginTerm env e)).
  assert (H0 : a wc0 !! i = Some (beginTerm env e t))
    by (apply lookup_updTerm_eq; exact Ht).
  destruct (commuted_left e Rf R HR Hskip) as [HcT HcC].
  cbv zeta in HcT, HcC.
  set (h := fun x : WhereTerm =>
              set_eOperator
                (Z.land (operatorMask (op (exprCommute env e)) + 0)
                   (if Z.land (prereqRight (beginTerm env e t))
                         (prereqLeftOf env e) =? 0
                    then WO_ALL else WO_EQUIV))
                (set_prereqAll (prereqAllOf env e)
                   (set_prereqRight
                      (Z.lor (prereqLeftOf env e) (extraRightOf env e))
                      (set_left
                         (iTable (deref (sqlite4ExprSkipCollate
                                           (pLeft (exprCommute env e)))))
                         (iColumn (deref (sqlite4ExprSkipCollate
                                            (pLeft (exprCommute env e)))))
                         (set_pExpr (exprCommute env e) x))))).
  assert (Hfirst : analyzeCompare env wc0 i (prereqLeftOf env e)
                     (prereqAllOf env e) (extraRightOf env e)
                   = updTerm wc0 i h).
  { unfold analyzeCompare. rewrite (getTerm_lookup wc0 i _ H0).
    change (pExpr (beginTerm env e t)) with e.
    rewrite Hleft, HR. cbn [sqlite4ExprSkipCollate]. rewrite Hskip.
    rewrite (tk_is_eq _ _ HRop). cbn [negb].
    rewrite (getTerm_lookup wc0 i _ H0).
    change (leftCursor (beginTerm env e t)) with (-1).
    change (-1 >=? 0) with false. cbv iota beta. reflexivity. }
  set (wc1 := updTerm wc0 i h).
  assert (H1 : a wc1 !! i = Some (h (beginTerm env e t)))
    by (apply lookup_updTerm_eq; exact H0).
  assert (Hop1 : isComparison (op (pExpr (getTerm wc1 i))) = true).
  { rewrite (getTerm_lookup _ _ _ H1). unfold h. cbn [pExpr set_eOperator
      set_prereqAll set_prereqRight set_left set_pExpr].
    now rewrite op_exprCommute. }
  destruct (trailing_arms_decline (exprAnalyze f env) (wcOp wc) wc1 i
              Hlike Hop1) as (Hl & Hm & Hn).
  eexists _, _. split.
  { rewrite exprAnalyze_S. unfold analyzeStep.
    rewrite (getTerm_lookup wc i t Ht). fold e. fold wc0.
    rewrite Hallowed, Hfirst. fold wc1. rewrite Hl, Hm, Hn. reflexivity. }
  split; [unfold wc1, wc0; now rewrite !length_updTerm|].
  split.
  { intros j Hj. unfold wc1, wc0. now rewrite !lookup_updTerm_ne by congruence. }
  split.
  { erewrite lookup_updTerm_eq; [reflexivity | exact H1]. }
  unfold h.
  cbn [pExpr leftCursor leftColumn eOperator prereqRight wtFlags nChild
       iParent set_eOperator set_prereqAll set_prereqRight set_left
       set_pExpr beginTerm set_iParent set_leftCursor].
  rewrite op_exprCommute, HcT, HcC.
  unfold prereqRightOf, prereqLeftOf. fold e. rewrite Hin, Hnull, HR.
  cbn [exprUsage].
  repeat split.
  - rewrite Z.add_0_r.
    destruct (Z.land (exprTableUsage (sMaskSet env) Rf)
                (exprUsage (sMaskSet env) (pLeft e)) =? 0); assumption.
  - rewrite <- Z.lor_assoc. now rewrite Z.lor_diag.
Qed.

(** A clause that holds [ti] at [i], [tn] at its last index [n], and
    elsewhere the terms of [wc]. *)
Definition withTwin (wc : WhereClause) (i : nat) (ti tn : WhereTerm)
    (wcX : WhereClause) : Prop :=
  length (a wcX) = S (length (a wc))
  /\ a wcX !! i = Some ti
  /\ a wcX !! length (a wc) = Some tn
  /\ (forall j, (j < length (a wc))%nat -> j <> i ->
                a wcX !! j = a wc !! j).

Lemma withTwin_main (wc : WhereClause) (i : nat) (ti tn : WhereTerm)
    (wcX : WhereClause) (h : WhereTerm -> WhereTerm) :
  (i < length (a wc))%nat ->
  withTwin wc i ti tn wcX -> withTwin wc i (h ti) tn (updTerm wcX i h).
Proof.
  intros Hi (L & Gi & Gn & Fr). split; [now rewrite length_updTerm|].
  split; [now apply lookup_updTerm_eq|].
  split; [rewrite lookup_updTerm_ne by lia; exact Gn|].
  intros j Hj Hne. rewrite lookup_updTerm_ne by congruence. now apply Fr.
Qed.

Lemma withTwin_twin (wc : WhereClause) (i : nat) (ti tn : WhereTerm)
    (wcX : WhereClause) (h : WhereTerm -> WhereTerm) :
  (i < length (a wc))%nat ->
  withTwin wc i ti tn wcX ->
  withTwin wc i ti (h tn) (updTerm wcX (length (a wc)) h).
Proof.
  intros Hi (L & Gi & Gn & Fr). split; [now rewrite length_updTerm|].
  split; [rewrite lookup_updTerm_ne by lia; exact Gi|].
  split; [now apply lookup_updTerm_eq|].
  intros j Hj Hne. rewrite lookup_updTerm_ne by lia. now apply Fr.
Qed.

(** X14.  A comparison between two columns, [T1.a op T2.b] with [T1] a
    cursor of the FROM clause, gets a commuted twin: the term itself
    constrains [T1.a], waits for one child and is flagged
    [TERM_COPIED]; one term is appended, flagged Virtual|Dynamic, with
    the term as its parent, holding the commuted expression and
    constraining [T2.b] with the exchanged operator, its prerequisites
    being the tables of the left side.  Both operators carry [WO_EQUIV]
    for an equality outside an ON clause when the transitive
    optimisation is on, and carry nothing else when the two sides share
    a table.  No other term changes. *)
Theorem comparison_twin (f : nat) (wc : WhereClause) (i : nat)
    (t : WhereTerm) (Lf L Rf R : Expr) :
  likeOnlyFunctions env ->
  a wc !! i = Some t ->
  isComparison (op (pExpr t)) = true ->
  pLeft (pExpr t) = Some Lf -> skipCollate Lf = Some L ->
  op L = TK_COLUMN -> 0 <= iTable L ->
  pRight (pExpr t) = Some Rf -> skipCollate Rf = Some R ->
  op R = TK_COLUMN ->
  let e := pExpr t in
  let apart :=
    Z.land (exprTableUsage (sMaskSet env) Rf)
           (exprTableUsage (sMaskSet env) Lf) =? 0 in
  let extra :=
    if tk_is (op e) TK_EQ && negb (fromJoin e) && optTransitive env
    then WO_EQUIV else 0 in
  exists wc' t' tw,
    exprAnalyze (S f) env wc i = Some wc'
    /\ withTwin wc i t' tw wc'
    /\ pExpr t' = e
    /\ leftCursor t' = iTable L /\ leftColumn t' = iColumn L
    /\ eOperator t'
       = Z.lor (if apart then operatorMask (op e) else 0) extra
    /\ nChild t' = 1 /\ wtFlags t' = Z.lor (wtFlags t) TERM_COPIED
    /\ pExpr tw = exprCommute env e
    /\ op (pExpr tw) = commuteOp (op e)
    /\ wtFlags tw = vd /\ iParent tw = Z.of_nat i
    /\ leftCursor tw = iTable R /\ leftColumn tw = iColumn R
    /\ eOperator tw
       = Z.lor (if apart then operatorMask (commuteOp (op e)) else 0) extra
    /\ prereqRight tw
       = Z.lor (exprTableUsage (sMaskSet env) Lf) (extraRightOf env e)
    /\ prereqAll tw = prereqAllOf env e.
Proof.
  intros Hlike Ht Hcmp HL HskipL HLop HLcur HR HskipR HRop e apart extra.
  fold e in Hcmp, HL, HR.
  set (opMask := if apart then WO_ALL else WO_EQUIV).
  assert (Hi : (i < length (a wc))%nat) by (eapply lookup_lt_Some; eauto).
  destruct (comparison_facts _ Hcmp)
    as (Hallowed & Hin & Hnull & Hcc & Ha1 & Ha2 & _).
  destruct (comparison_facts _ Hcc)
    as (_ & _ & _ & _ & Hb1 & Hb2 & Hb3 & Hb4).
  set (wc0 := updTerm wc i (beginTerm env e)).
  assert (H0 : a wc0 !! i = Some (beginTerm env e t))
    by (apply lookup_updTerm_eq; exact Ht).
  destruct (commuted_left e Rf R HR HskipR) as [HcT HcC].
  cbv zeta in HcT, HcC.
  assert (HpR : prereqRight (beginTerm env e t)
                = exprTableUsage (sMaskSet env) Rf).
  { cbn [prereqRight beginTerm set_eOperator set_iParent set_leftCursor
         set_prereqAll set_prereqRight].
    unfold prereqRightOf. now rewrite Hin, Hnull, HR. }
  assert (HpL : prereqLeftOf env e = exprTableUsage (sMaskSet env) Lf)
    by (unfold prereqLeftOf; now rewrite HL).
  set (h1 := fun x : WhereTerm =>
               set_eOperator (Z.land (operatorMask (op e)) opMask)
                 (set_left (iTable L) (iColumn L) x)).
  set (wc1 := updTerm wc0 i h1).
  assert (H1 : a wc1 !! i = Some (h1 (beginTerm env e t)))
    by (apply lookup_updTerm_eq; exact H0).
  assert (Hlen1 : length (a wc1) = length (a wc))
    by (unfold wc1, wc0; now rewrite !length_updTerm).
  set (hc := fun x : WhereTerm => raiseFlag TERM_COPIED (set_nChild 1 x)).
  set (hq := fun x : WhereTerm =>
               set_eOperator (Z.lor (eOperator x) WO_EQUIV) x).
  set (htw := fun x : WhereTerm =>
                set_eOperator
                  (Z.land (operatorMask (op (exprCommute env e)) + extra)
                     opMask)
                  (set_prereqAll (prereqAllOf env e)
                     (set_prereqRight
                        (Z.lor (exprTableUsage (sMaskSet env) Lf)
                           (extraRightOf env e))
                        (set_left
                           (iTable (deref (sqlite4ExprSkipCollate
                                             (pLeft (exprCommute env e)))))
                           (iColumn (deref (sqlite4ExprSkipCollate
                                              (pLeft (exprCommute env e)))))
                           (set_pExpr (exprCommute env e) x))))).
  set (wcA := pushTerm wc1 (set_iParent (Z.of_nat i) (freshTerm e vd))).
  set (wcC := updTerm wcA i hc).
  set (wcD := if tk_is (op e) TK_EQ && negb (fromJoin e) && optTransitive env
              then updTerm wcC i hq else wcC).
  assert (Hfirst : analyzeCompare env wc0 i (prereqLeftOf env e)
                     (prereqAllOf env e) (extraRightOf env e)
                   = updTerm wcD (length (a wc)) htw).
  { unfold analyzeCompare. rewrite (getTerm_lookup wc0 i _ H0).
    change (pExpr (beginTerm env e t)) with e.
    rewrite HL, HR. cbn [sqlite4ExprSkipCollate].
    rewrite HskipL, HskipR. change (deref (Some L)) with L.
    rewrite (tk_is_eq _ _ HLop), (tk_is_eq _ _ HRop). cbn [negb].
    rewrite HpR, HpL. fold apart. fold opMask. fold h1. fold wc1.
    rewrite (getTerm_lookup wc1 i _ H1).
    change (leftCursor (h1 (beginTerm env e t))) with (iTable L).
    destruct (Z.geb_spec (iTable L) 0) as [_|?]; [|lia].
    change (whereClauseInsert wc1 e (Z.lor TERM_VIRTUAL TERM_DYNAMIC))
      with (pushTerm wc1 (freshTerm e vd), length (a wc1)).
    cbv beta iota. rewrite updTerm_pushTerm. fold wcA. fold hc. fold wcC.
    fold hq. rewrite Hlen1. unfold wcD, htw, extra.
    destruct (tk_is (op e) TK_EQ && negb (fromJoin e) && optTransitive env);
      reflexivity. }
  set (tI := hc (h1 (beginTerm env e t))).
  set (tI' := if tk_is (op e) TK_EQ && negb (fromJoin e)
                 && optTransitive env then hq tI else tI).
  assert (HC : withTwin wc i tI (set_iParent (Z.of_nat i) (freshTerm e vd))
                 wcC).
  { unfold wcC, tI. apply withTwin_main; [exact Hi|].
    unfold wcA. split; [now rewrite length_pushTerm, Hlen1|].
    split; [rewrite lookup_pushTerm_old by lia; exact H1|].
    split; [rewrite <- Hlen1; apply lookup_pushTerm_new|].
    intros j Hj Hne. rewrite lookup_pushTerm_old by lia.
    unfold wc1, wc0. now rewrite !lookup_updTerm_ne by congruence. }
  assert (HD : withTwin wc i tI' (set_iParent (Z.of_nat i) (freshTerm e vd))
                 wcD).
  { unfold wcD, tI'.
    destruct (tk_is (op e) TK_EQ && negb (fromJoin e) && optTransitive env);
      [now apply withTwin_main | exact HC]. }
  set (wcE := updTerm wcD (length (a wc)) htw).
  assert (HE : withTwin wc i tI'
                 (htw (set_iParent (Z.of_nat i) (freshTerm e vd))) wcE)
    by (now apply withTwin_twin).
  assert (HeI : pExpr tI' = e).
  { unfold tI'.
    destruct (tk_is (op e) TK_EQ && negb (fromJoin e) && optTransitive env);
      reflexivity. }
  assert (Hop1 : isComparison (op (pExpr (getTerm wcE i))) = true).
  { destruct HE as (_ & Gi & _). rewrite (getTerm_lookup _ _ _ Gi).
    now rewrite HeI. }
  destruct (trailing_arms_decline (exprAnalyze f env) (wcOp wc) wcE i
              Hlike Hop1) as (Hl & Hm & Hn).
  set (hr := fun x : WhereTerm =>
               set_prereqRight
                 (Z.lor (prereqRight x) (extraRightOf env e)) x).
  exists (updTerm wcE i hr), (hr tI'),
         (htw (set_iParent (Z.of_nat i) (freshTerm e vd))).
  split.
  { rewrite exprAnalyze_S. unfold analyzeStep.
    rewrite (getTerm_lookup wc i t Ht). fold e. fold wc0.
    rewrite Hallowed, Hfirst. fold wcE. rewrite Hl, Hm, Hn. reflexivity. }
  split; [now apply withTwin_main|].
  assert (Hfresh : pExpr (freshTerm e vd) = e).
  { apply pExpr_freshTerm; destruct (op e); cbn in Hcmp |- *;
      try discriminate; reflexivity. }
  unfold hr, tI', tI, hc, hq, h1, htw.
  rewrite op_exprCommute, HcT, HcC. unfold opMask.
  destruct (tk_is (op e) TK_EQ && negb (fromJoin e) && optTransitive env)
    eqn:Hx; unfold extra; rewrite ?Hx;
    cbn [pExpr leftCursor leftColumn eOperator prereqRight prereqAll wtFlags
         nChild iParent set_eOperator set_prereqAll set_prereqRight set_left
         set_pExpr set_iParent set_nChild set_wtFlags raiseFlag freshTerm];
    rewrite ?Z.add_0_r, ?Z.lor_0_r;
    destruct apart; rewrite ?Ha1, ?Ha2, ?Hb1, ?Hb2, ?Hb3, ?Hb4;
    repeat split; apply op_exprCommute.
Qed.

End Comparison.

Section ComparisonExamples.
Import Ast MaskSet Analyse.

(** [5 < t7.c1] and [t7.c1 < t9.c2], each as the only term of a WHERE
    clause. *)
Definition constLtColumn : Expr := eBin TK_LT (eLeaf 5) (eColumn 7 1).

Definition columnLtColumn : Expr := eBin TK_LT (eColumn 7 1) (eColumn 9 2).

Definition oneTerm (e : Expr) : WhereClause :=
  whereSplit whereClauseInit (Some e) TK_AND.

Lemma comparison_commuted_in_place_witness :
  exists wc' t',
    exprAnalyze 1 (likeEnv false) (oneTerm constLtColumn) 0 = Some wc'
    /\ a wc' !! 0%nat = Some t'
    /\ op (pExpr t') = TK_GT /\ leftCursor t' = 7 /\ leftColumn t' = 1.
Proof.
  destruct (comparison_commuted_in_place (likeEnv false) 0
              (oneTerm constLtColumn) 0 (freshTerm constLtColumn 0)
              (eColumn 7 1) (eColumn 7 1))
    as (wc' & t' & E & _ & _ & G & _ & Hop & Hcur & Hcol & _).
  - apply likeEnv_likeOnlyFunctions.
  - reflexivity.
  - reflexivity.
  - reflexivity.
  - reflexivity.
  - reflexivity.
  - reflexivity.
  - exists wc', t'. repeat split; assumption.
Defined.

Lemma comparison_twin_witness :
  exists wc' tw,
    exprAnalyze 1 (likeEnv false) (oneTerm columnLtColumn) 0 = Some wc'
    /\ a wc' !! 1%nat = Some tw
    /\ op (pExpr tw) = TK_GT /\ leftCursor tw = 9 /\ leftColumn tw = 2.
Proof.
  destruct (comparison_twin (likeEnv false) 0
              (oneTerm columnLtColumn) 0 (freshTerm columnLtColumn 0)
              (eColumn 7 1) (eColumn 7 1) (eColumn 9 2) (eColumn 9 2))
    as (wc' & t' & tw & E & (_ & _ & G & _) & _ & _ & _ & _ & _ & _ & _
        & Hop & _ & _ & Hcur & Hcol & _).
  - apply likeEnv_likeOnlyFunctions.
  - reflexivity.
  - reflexivity.
  - reflexivity.
  - reflexivity.
  - reflexivity.
  - cbn. lia.
  - reflexivity.
  - reflexivity.
  - reflexivity.
  - exists wc', tw. repeat split; assumption.
Defined.

End ComparisonExamples.

(** ** The terms made for IS NOT NULL and MATCH *)

Section HandMadeTerms.
Import Ast MaskSet Analyse.

Variable env : Env.

Lemma withTwin_pushed (wc wcX : WhereClause) (i : nat) (ti tn : WhereTerm) :
  length (a wcX) = length (a wc) ->
  a wcX !! i = Some ti ->
  (forall j, j <> i -> a wcX !! j = a wc !! j) ->
  withTwin wc i ti tn (pushTerm wcX tn).
Proof.
  intros L Gi Fr.
  assert (Hi : (i < length (a wc))%nat)
    by (rewrite <- L; eapply lookup_lt_Some; eauto).
  split; [now rewrite length_pushTerm, L|].
  split; [rewrite lookup_pushTerm_old by lia; exact Gi|].
  split; [rewrite <- L; apply lookup_pushTerm_new|].
  intros j Hj Hne. rewrite lookup_pushTerm_old by lia. now apply Fr.
Qed.

(** X15.  [x IS NOT NULL] on a column [x].  In a build with STAT3, with
    the STAT3 optimisation on and [x] not the rowid, the analyser appends
    the term [x > NULL], flagged Virtual|Dynamic|VNull, with the IS NOT
    NULL term as its parent, constraining the column with operator GT
    and waiting for no table; the IS NOT NULL term waits for one child
    and is flagged [TERM_COPIED].  Otherwise nothing is appended and the
    term keeps its flags and child count.  In both cases the IS NOT NULL
    term itself has no operator. *)
Theorem notnull_rewrite (f : nat) (wc : WhereClause) (i : nat)
    (t : WhereTerm) (col : Expr) :
  likeOnlyFunctions env ->
  a wc !! i = Some t ->
  op (pExpr t) = TK_NOTNULL ->
  pLeft (pExpr t) = Some col -> op col = TK_COLUMN ->
  let e := pExpr t in
  let gtNull :=
    sqlite4PExpr TK_GT (Some col) (Some (sqlite4PExpr TK_NULL None None)) in
  (buildStat3 env = true /\ optStat3 env = true /\ 0 <= iColumn col ->
   exists wc' t' tn,
     exprAnalyze (S f) env wc i = Some wc'
     /\ withTwin wc i t' tn wc'
     /\ pExpr t' = e /\ eOperator t' = 0 /\ nChild t' = 1
     /\ wtFlags t' = Z.lor (wtFlags t) TERM_COPIED
     /\ pExpr tn = gtNull
     /\ wtFlags tn = Z.lor vd (TERM_VNULL true)
     /\ iParent tn = Z.of_nat i
     /\ leftCursor tn = iTable col /\ leftColumn tn = iColumn col
     /\ eOperator tn = WO_GT /\ prereqRight tn = 0
     /\ prereqAll tn = prereqAllOf env e)
  /\ (buildStat3 env = false \/ optStat3 env = false \/ iColumn col < 0 ->
      exists wc' t',
        exprAnalyze (S f) env wc i = Some wc'
        /\ length (a wc') = length (a wc)
        /\ (forall j, j <> i -> a wc' !! j = a wc !! j)
        /\ a wc' !! i = Some t'
        /\ pExpr t' = e /\ eOperator t' = 0
        /\ nChild t' = nChild t /\ wtFlags t' = wtFlags t).
Proof.
  intros Hlike Ht Hop HL Hcol e gtNull. fold e in Hop, HL.
  assert (Hi : (i < length (a wc))%nat) by (eapply lookup_lt_Some; eauto).
  set (wc0 := updTerm wc i (beginTerm env e)).
  assert (H0 : a wc0 !! i = Some (beginTerm env e t))
    by (apply lookup_updTerm_eq; exact Ht).
  assert (Hlen0 : length (a wc0) = length (a wc)) by apply length_updTerm.
  assert (He0 : pExpr (getTerm wc0 i) = e)
    by (now rewrite (getTerm_lookup _ _ _ H0)).
  set (hr := fun x : WhereTerm =>
               set_prereqRight
                 (Z.lor (prereqRight x) (extraRightOf env e)) x).
  assert (Hstep : exprAnalyze (S f) env wc i
                  = Some (updTerm (notNullArm env wc0 i) i hr)).
  { rewrite exprAnalyze_S. unfold analyzeStep.
    rewrite (getTerm_lookup wc i t Ht). fold e. fold wc0. rewrite Hop.
    change (allowedOp TK_NOTNULL) with false.
    change (tk_is TK_NOTNULL TK_BETWEEN) with false.
    change (tk_is TK_NOTNULL TK_OR) with false. cbn [andb].
    rewrite likeArm_declines
      by (try exact Hlike; rewrite He0, Hop; reflexivity).
    rewrite matchArm_declines
      by (apply isMatchOfColumn_function; rewrite He0, Hop; reflexivity).
    reflexivity. }
  rewrite Hstep. clear Hstep.
  unfold notNullArm. rewrite He0, Hop, HL.
  change (deref (Some col)) with col.
  rewrite (tk_is_eq _ _ Hcol).
  change (tk_is TK_NOTNULL TK_NOTNULL) with true.
  split.
  - intros (Hb & Ho & Hc). rewrite Hb, Ho.
    destruct (Z.geb_spec (iColumn col) 0) as [_|?]; [|lia].
    cbn [andb]. fold gtNull.
    change (whereClauseInsert wc0 gtNull (Z.lor vd (TERM_VNULL true)))
      with (pushTerm wc0 (freshTerm gtNull (Z.lor vd (TERM_VNULL true))),
            length (a wc0)).
    cbv beta iota.
    destruct (Nat.eqb_spec (length (a wc0)) 0) as [?|_]; [lia|].
    set (tn0 := freshTerm gtNull (Z.lor vd (TERM_VNULL true))).
    set (hc := fun x : WhereTerm => raiseFlag TERM_COPIED (set_nChild 1 x)).
    set (wcB := updTerm (pushTerm wc0 tn0) i hc).
    assert (HB : withTwin wc i (hc (beginTerm env e t)) tn0 wcB).
    { unfold wcB. apply withTwin_main; [exact Hi|].
      apply withTwin_pushed; [exact Hlen0 | exact H0|].
      intros j Hj. unfold wc0. now rewrite lookup_updTerm_ne. }
    assert (HpA : prereqAll (getTerm wcB i) = prereqAllOf env e).
    { destruct HB as (_ & Gi & _). now rewrite (getTerm_lookup _ _ _ Gi). }
    rewrite HpA, Hlen0.
    set (hn := handTerm (iTable col) (iColumn col) WO_GT (Z.of_nat i) 0
                 (prereqAllOf env e)).
    eexists _, _, _. split; [reflexivity|].
    split.
    { apply withTwin_main; [exact Hi|].
      apply withTwin_twin; [exact Hi | exact HB]. }
    cbn. repeat split.
  - intros Hno.
    assert (Hcond : buildStat3 env && true && true && (iColumn col >=? 0)
                    && optStat3 env = false).
    { destruct Hno as [-> | [-> | Hc]].
      - reflexivity.
      - now rewrite andb_false_r.
      - destruct (Z.geb_spec (iColumn col) 0); [lia|].
        now rewrite andb_false_r. }
    rewrite Hcond.
    eexists _, _. split; [reflexivity|].
    split; [unfold wc0; now rewrite !length_updTerm|].
    split.
    { intros j Hj. unfold wc0. now rewrite !lookup_updTerm_ne. }
    split.
    { erewrite lookup_updTerm_eq; [reflexivity | exact H0]. }
    cbn. repeat split.
Qed.

(** X16.  [match(pat, x)], the call behind [x MATCH pat], on a column
    [x], for a function that is not a LIKE function.  When [pat] uses no
    table of [x] the analyser appends a term holding [MATCH pat],
    flagged Virtual|Dynamic, with the call as its parent, constraining
    the column with [WO_MATCH] and waiting for the tables of [pat]; the
    call waits for one child and is flagged [TERM_COPIED].  When [pat]
    uses the table of [x] nothing is appended.  The call itself has no
    operator in both cases. *)
Theorem match_rewrite (f : nat) (wc : WhereClause) (i : nat)
    (t : WhereTerm) (pat col : Expr) :
  a wc !! i = Some t ->
  op (pExpr t) = TK_FUNCTION ->
  sqlite4IsLikeFunction env (pExpr t) = None ->
  isMatchName env (zToken (pExpr t)) = true ->
  xList (pExpr t) = [pat; col] -> op col = TK_COLUMN ->
  let e := pExpr t in
  let apart :=
    Z.land (exprTableUsage (sMaskSet env) pat)
           (exprTableUsage (sMaskSet env) col) =? 0 in
  (apart = true ->
   exists wc' t' tn,
     exprAnalyze (S f) env wc i = Some wc'
     /\ withTwin wc i t' tn wc'
     /\ pExpr t' = e /\ eOperator t' = 0 /\ nChild t' = 1
     /\ wtFlags t' = Z.lor (wtFlags t) TERM_COPIED
     /\ pExpr tn = sqlite4PExpr TK_MATCH None (Some pat)
     /\ wtFlags tn = vd
     /\ iParent tn = Z.of_nat i
     /\ leftCursor tn = iTable col /\ leftColumn tn = iColumn col
     /\ eOperator tn = WO_MATCH
     /\ prereqRight tn = exprTableUsage (sMaskSet env) pat
     /\ prereqAll tn = prereqAllOf env e)
  /\ (apart = false ->
      exists wc' t',
        exprAnalyze (S f) env wc i = Some wc'
        /\ length (a wc') = length (a wc)
        /\ (forall j, j <> i -> a wc' !! j = a wc !! j)
        /\ a wc' !! i = Some t'
        /\ pExpr t' = e /\ eOperator t' = 0
        /\ nChild t' = nChild t /\ wtFlags t' = wtFlags t).
Proof.
  intros Ht Hop Hnolike Hname Hlist Hcol e apart.
  fold e in Hop, Hnolike, Hname, Hlist.
  assert (Hi : (i < length (a wc))%nat) by (eapply lookup_lt_Some; eauto).
  set (wc0 := updTerm wc i (beginTerm env e)).
  assert (H0 : a wc0 !! i = Some (beginTerm env e t))
    by (apply lookup_updTerm_eq; exact Ht).
  assert (Hlen0 : length (a wc0) = length (a wc)) by apply length_updTerm.
  assert (He0 : pExpr (getTerm wc0 i) = e)
    by (now rewrite (getTerm_lookup _ _ _ H0)).
  assert (Hmatch : isMatchOfColumn env e = true).
  { unfold isMatchOfColumn. rewrite Hop, Hname, Hlist.
    change (default nullExpr ([pat; col] !! 1%nat)) with col.
    now rewrite (tk_is_eq _ _ Hcol). }
  set (hr := fun x : WhereTerm =>
               set_prereqRight
                 (Z.lor (prereqRight x) (extraRightOf env e)) x).
  assert (Hnn : forall wcX, pExpr (getTerm wcX i) = e ->
                            notNullArm env wcX i = wcX).
  { intros wcX HX. apply notNullArm_declines. now rewrite HX, Hop. }
  assert (Hstep : exprAnalyze (S f) env wc i
                  = Some (updTerm (notNullArm env (matchArm env wc0 i) i)
                            i hr)).
  { rewrite exprAnalyze_S. unfold analyzeStep.
    rewrite (getTerm_lookup wc i t Ht). fold e. fold wc0. rewrite Hop.
    change (allowedOp TK_FUNCTION) with false.
    change (tk_is TK_FUNCTION TK_BETWEEN) with false.
    change (tk_is TK_FUNCTION TK_OR) with false. cbn [andb].
    assert (Hl : likeArm env (exprAnalyze f env) (wcOp wc) wc0 i = Some wc0).
    { unfold likeArm. destruct (tk_is (wcOp wc) TK_AND); [|reflexivity].
      rewrite He0. unfold isLikeOrGlob. now rewrite Hnolike. }
    rewrite Hl. reflexivity. }
  rewrite Hstep. clear Hstep.
  unfold matchArm. rewrite He0, Hmatch, Hlist.
  change (default nullExpr ([pat; col] !! 0%nat)) with pat.
  change (default nullExpr ([pat; col] !! 1%nat)) with col.
  fold apart.
  split.
  - intros Hap. rewrite Hap.
    set (ex := sqlite4PExpr TK_MATCH None (Some pat)).
    change (whereClauseInsert wc0 ex vd)
      with (pushTerm wc0 (freshTerm ex vd), length (a wc0)).
    cbv beta iota.
    set (tn0 := freshTerm ex vd).
    set (hc := fun x : WhereTerm => raiseFlag TERM_COPIED (set_nChild 1 x)).
    set (wcB := updTerm (pushTerm wc0 tn0) i hc).
    assert (HB : withTwin wc i (hc (beginTerm env e t)) tn0 wcB).
    { unfold wcB. apply withTwin_main; [exact Hi|].
      apply withTwin_pushed; [exact Hlen0 | exact H0|].
      intros j Hj. unfold wc0. now rewrite lookup_updTerm_ne. }
    assert (HpA : prereqAll (getTerm wcB i) = prereqAllOf env e).
    { destruct HB as (_ & Gi & _). now rewrite (getTerm_lookup _ _ _ Gi). }
    rewrite HpA, Hlen0.
    set (hn := handTerm (iTable col) (iColumn col) WO_MATCH (Z.of_nat i)
                 (exprTableUsage (sMaskSet env) pat) (prereqAllOf env e)).
    assert (HC : withTwin wc i (hc (beginTerm env e t)) (hn tn0)
                   (updTerm wcB (length (a wc)) hn))
      by (apply withTwin_twin; [exact Hi | exact HB]).
    rewrite Hnn
      by (destruct HC as (_ & Gi & _); now rewrite (getTerm_lookup _ _ _ Gi)).
    eexists _, _, _. split; [reflexivity|].
    split; [apply withTwin_main; [exact Hi | exact HC]|].
    cbn. repeat split.
  - intros Hap. rewrite Hap. rewrite (Hnn wc0 He0).
    eexists _, _. split; [reflexivity|].
    split; [unfold wc0; now rewrite !length_updTerm|].
    split.
    { intros j Hj. unfold wc0. now rewrite !lookup_updTerm_ne. }
    split.
    { erewrite lookup_updTerm_eq; [reflexivity | exact H0]. }
    cbn. repeat split.
Qed.

End HandMadeTerms.

Section HandMadeExamples.
Import Ast MaskSet Analyse.

(** A build with STAT3 and its optimisation on; every function call is
    the one named match. *)
Definition statEnv : Env :=
  mkEnv twoTables (fun e => if tk_is (op e) TK_COLUMN then 97 else 0) 97
        (fun _ => false) (fun _ => None) (fun _ => false) markCollation
        (fun _ => None) asciiFold (fun _ => true) true true true.

Lemma statEnv_likeOnlyFunctions : likeOnlyFunctions statEnv.
Proof. intros x _. reflexivity. Qed.

(** [t7.c1 IS NOT NULL] and [match('a', t7.c1)]. *)
Definition notNullColumn : Expr :=
  sqlite4PExpr TK_NOTNULL (Some (eColumn 7 1)) None.

Definition matchCall : Expr :=
  mkExpr TK_FUNCTION (TK_OTHER 0) 0 0 0 false false false
         [109; 97; 116; 99; 104] None None None [eString [97]; eColumn 7 1].

Lemma notnull_rewrite_witness :
  exists wc' tn,
    exprAnalyze 1 statEnv (oneTerm notNullColumn) 0 = Some wc'
    /\ a wc' !! 1%nat = Some tn
    /\ eOperator tn = WO_GT /\ has (wtFlags tn) (TERM_VNULL true) = true.
Proof.
  destruct (notnull_rewrite statEnv 0 (oneTerm notNullColumn) 0
              (freshTerm notNullColumn 0) (eColumn 7 1))
    as [Hyes _].
  - exact statEnv_likeOnlyFunctions.
  - reflexivity.
  - reflexivity.
  - reflexivity.
  - reflexivity.
  - destruct Hyes
      as (wc' & t' & tn & E & (_ & _ & G & _) & _ & _ & _ & _ & _ & Hfl
          & _ & _ & _ & Hop & _).
    + split; [reflexivity|]. split; [reflexivity|]. cbn. lia.
    + exists wc', tn. split; [exact E|]. split; [exact G|].
      split; [exact Hop|]. rewrite Hfl. reflexivity.
Defined.

Lemma match_rewrite_witness :
  exists wc' tn,
    exprAnalyze 1 statEnv (oneTerm matchCall) 0 = Some wc'
    /\ a wc' !! 1%nat = Some tn
    /\ eOperator tn = WO_MATCH /\ leftCursor tn = 7.
Proof.
  destruct (match_rewrite statEnv 0 (oneTerm matchCall) 0
              (freshTerm matchCall 0) (eString [97]) (eColumn 7 1))
    as [Hyes _].
  - reflexivity.
  - reflexivity.
  - reflexivity.
  - reflexivity.
  - reflexivity.
  - reflexivity.
  - destruct Hyes
      as (wc' & t' & tn & E & (_ & _ & G & _) & _ & _ & _ & _ & _ & _
          & _ & Hcur & _ & Hop & _).
    + reflexivity.
    + exists wc', tn. repeat split; assumption.
Defined.

End HandMadeExamples.

(** ** Covering indexes *)

Module Cover.

(** An [Index*] as [columnsInIndex] reads it: whether [eIndexType] is
    [SQLITE4_INDEX_PRIMARYKEY], and the columns [aiCover[0..nCover)]. *)
Record Index := mkIndex {
  isPrimaryKey : bool;
  nCover : Z;
  aiCover : list Z
}.

(** The loop [for(j=pIdx->nCover-1; j>=0; j--)], with [j] entries still
    to visit.  A negative column would shift by a negative count, which
    C leaves undefined. *)
Fixpoint coverLoop (ai : list Z) (j : nat) (m : Z) : option Z :=
  match j with
  | O => Some m
  | S j' =>
      let x := aget 0 ai (Z.of_nat j') in
      if x <? 0 then None
      else coverLoop ai j' (if x <? BMS - 1 then Z.lor m (MASKBIT x) else m)
  end.

(** [columnsInIndex]. *)
Definition columnsInIndex (pIdx : Index) : option Z :=
  if negb (isPrimaryKey pIdx)
  then coverLoop (aiCover pIdx) (Z.to_nat (nCover pIdx)) 0
  else Some 0.

(** The test [(colUsed & ~columnsInIndex(pIdx))==0] by which
    [whereLoopAddBtree] and [sqlite4WhereBegin] take an index to hold
    every column that the query uses. *)
Definition coversColumns (colUsed : Z) (pIdx : Index) : option bool :=
  match columnsInIndex pIdx with
  | Some m => Some (Z.land colUsed (bnot m) =? 0)
  | None => None
  end.

End Cover.

Section CoverFacts.
Import Cover.

(** Column [b] is one of the first [j] covered columns. *)
Definition covered (ai : list Z) (j : nat) (b : Z) : Prop :=
  exists k, 0 <= k < Z.of_nat j /\ aget 0 ai k = b.

Lemma coverLoop_bits (ai : list Z) (j : nat) :
  forall m, 0 <= m ->
    (forall k, 0 <= k < Z.of_nat j -> 0 <= aget 0 ai k) ->
    exists m',
      coverLoop ai j m = Some m' /\ 0 <= m'
      /\ forall b, 0 <= b ->
           Z.testbit m' b = true
           <-> (Z.testbit m b = true \/ (b < 63 /\ covered ai j b)).
Proof.
  induction j as [|j IH]; intros m Hm Hpos.
  - exists m. split; [reflexivity|]. split; [exact Hm|].
    intros b Hb. split; [now left|].
    intros [H|[_ (k & Hk & _)]]; [exact H|lia].
  - cbn [coverLoop]. set (x := aget 0 ai (Z.of_nat j)).
    assert (Hx : 0 <= x) by (apply Hpos; lia).
    destruct (Z.ltb_spec x 0) as [?|_]; [lia|].
    set (m1 := if x <? BMS - 1 then Z.lor m (MASKBIT x) else m).
    assert (Hm1 : 0 <= m1).
    { unfold m1. destruct (Z.ltb_spec x (BMS - 1)) as [Hlt|_]; [|exact Hm].
      apply Z.lor_nonneg. split; [exact Hm|].
      unfold BMS in Hlt. rewrite MASKBIT_pow2 by lia.
      apply Z.pow_nonneg. lia. }
    destruct (IH m1 Hm1) as (m' & R & Hm' & Hbits).
    { intros k Hk. apply Hpos. lia. }
    exists m'. split; [exact R|]. split; [exact Hm'|].
    intros b Hb. rewrite (Hbits b Hb).
    assert (H1 : Z.testbit m1 b = true
                 <-> (Z.testbit m b = true \/ (b < 63 /\ x = b))).
    { unfold m1. destruct (Z.ltb_spec x (BMS - 1)) as [Hlt|Hge];
        unfold BMS in *.
      - rewrite Z.lor_spec, MASKBIT_pow2 by lia.
        rewrite Z.pow2_bits_eqb by lia.
        destruct (Z.testbit m b); cbn [orb].
        + split; auto.
        + destruct (Z.eqb_spec x b) as [Hxb|Hxb]; split.
          * intros _. right. lia.
          * reflexivity.
          * discriminate.
          * intros [?|[_ ?]]; [discriminate | contradiction].
      - split; [now left|]. intros [H|[? ?]]; [exact H|lia]. }
    rewrite H1. split.
    + intros [[H|[Hlt Hxb]]|[Hlt (k & Hk & Hkb)]].
      * now left.
      * right. split; [exact Hlt|]. exists (Z.of_nat j). split; [lia|exact Hxb].
      * right. split; [exact Hlt|]. exists k. split; [lia|exact Hkb].
    + intros [H|[Hlt (k & Hk & Hkb)]]; [now left; left|].
      destruct (Z.eq_dec k (Z.of_nat j)) as [->|Hne].
      * left. right. split; [exact Hlt | exact Hkb].
      * right. split; [exact Hlt|]. exists k. split; [lia|exact Hkb].
Qed.

Lemma bits_below (m n : Z) :
  0 <= m -> 0 <= n -> (forall b, n <= b -> Z.testbit m b = false) ->
  m < 2 ^ n.
Proof.
  intros Hm Hn Hb. destruct (Z.eq_dec m 0) as [->|Hne].
  - apply Z.pow_pos_nonneg; lia.
  - apply Z.log2_lt_pow2; [lia|].
    destruct (Z.lt_ge_cases (Z.log2 m) n) as [?|Hge]; [assumption|].
    specialize (Hb _ Hge). rewrite (Z.bit_log2 m) in Hb by lia.
    discriminate.
Qed.

(** X17.  [columnsInIndex] on an index whose covered columns are not
    negative returns a mask below [2^63]: the bit 63, which stands for
    all the columns from the 64th on, is never set.  The bit of a column
    below 63 is set exactly when the index is not the primary key and
    the column is among [aiCover[0..nCover)].  So the covering test
    [(colUsed & ~columnsInIndex)==0] holds exactly when every column
    used is such a column; a query that uses a column beyond the 63rd is
    never taken to be covered. *)
Theorem columnsInIndex_covering (pIdx : Index) (colUsed : Z) :
  (forall k, 0 <= k < nCover pIdx -> 0 <= aget 0 (aiCover pIdx) k) ->
  0 <= colUsed < 2 ^ 64 ->
  let inCover (b : Z) : Prop :=
    isPrimaryKey pIdx = false /\ b < 63
    /\ exists k, 0 <= k < nCover pIdx /\ aget 0 (aiCover pIdx) k = b in
  exists m,
    columnsInIndex pIdx = Some m
    /\ 0 <= m < 2 ^ 63
    /\ (forall b, 0 <= b -> Z.testbit m b = true <-> inCover b)
    /\ (coversColumns colUsed pIdx = Some true
        <-> forall b, 0 <= b -> Z.testbit colUsed b = true -> inCover b)
    /\ (Z.testbit colUsed 63 = true ->
        coversColumns colUsed pIdx = Some false).
Proof.
  intros Hpos Hused inCover.
  assert (Hm : exists m,
             columnsInIndex pIdx = Some m /\ 0 <= m
             /\ forall b, 0 <= b -> Z.testbit m b = true <-> inCover b).
  { unfold columnsInIndex. destruct (isPrimaryKey pIdx) eqn:Hpk; cbn [negb].
    - exists 0. split; [reflexivity|]. split; [lia|]. intros b Hb.
      rewrite Z.bits_0. split; [discriminate|].
      unfold inCover. rewrite ?Hpk. intros (H & _). discriminate.
    - destruct (coverLoop_bits (aiCover pIdx) (Z.to_nat (nCover pIdx)) 0)
        as (m & R & Hm0 & Hbits); [lia| |].
      { intros k Hk. apply Hpos. lia. }
      exists m. split; [exact R|]. split; [exact Hm0|]. intros b Hb.
      rewrite (Hbits b Hb), Z.bits_0. unfold inCover, covered.
      rewrite ?Hpk.
      split.
      + intros [?|[Hlt (k & Hk & E)]]; [discriminate|].
        split; [reflexivity|]. split; [exact Hlt|]. exists k. split; [lia|exact E].
      + intros (_ & Hlt & k & Hk & E). right. split; [exact Hlt|].
        exists k. split; [lia|exact E]. }
  destruct Hm as (m & R & Hm0 & Hbits).
  assert (Hm63 : m < 2 ^ 63).
  { apply bits_below; [exact Hm0 | lia |]. intros b Hb.
    destruct (Z.testbit m b) eqn:E; [|reflexivity].
    apply Hbits in E; [|lia]. destruct E as (_ & ? & _). lia. }
  assert (Hnot : forall b, 0 <= b < 64 ->
            Z.testbit (bnot m) b = negb (Z.testbit m b)).
  { intros b Hb. unfold bnot, u64.
    rewrite Z.mod_pow2_bits_low by lia. apply Z.lnot_spec. lia. }
  assert (Hhigh : forall b, 64 <= b -> Z.testbit colUsed b = false).
  { intros b Hb. rewrite <- (Z.mod_small colUsed (2 ^ 64)) by lia.
    apply Z.mod_pow2_bits_high. lia. }
  assert (Hcov : Z.land colUsed (bnot m) = 0
                 <-> forall b, 0 <= b -> Z.testbit colUsed b = true ->
                               inCover b).
  { split.
    - intros H0 b Hb Hu. apply Hbits; [exact Hb|].
      assert (Hb64 : b < 64).
      { destruct (Z.lt_ge_cases b 64) as [?|Hge]; [assumption|].
        rewrite (Hhigh b Hge) in Hu. discriminate. }
      assert (E : Z.testbit (Z.land colUsed (bnot m)) b = false)
        by (rewrite H0; apply Z.bits_0).
      rewrite Z.land_spec, Hu, Hnot in E by lia. cbn [andb] in E.
      now apply negb_false_iff in E.
    - intros H. apply Z.bits_inj'. intros b Hb.
      rewrite Z.bits_0, Z.land_spec.
      destruct (Z.testbit colUsed b) eqn:Hu; [|reflexivity]. cbn [andb].
      assert (Hb64 : b < 64).
      { destruct (Z.lt_ge_cases b 64) as [?|Hge]; [assumption|].
        rewrite (Hhigh b Hge) in Hu. discriminate. }
      rewrite Hnot by lia. apply negb_false_iff, Hbits; [exact Hb|].
      now apply H. }
  exists m. split; [exact R|]. split; [lia|]. split; [exact Hbits|].
  unfold coversColumns. rewrite R. split.
  - rewrite <- Hcov. split.
    + intros [= E]. now apply Z.eqb_eq.
    + intros E. f_equal. now apply Z.eqb_eq.
  - intros H63. f_equal. apply Z.eqb_neq. intros E.
    destruct (proj1 Hcov E 63 ltac:(lia) H63) as (_ & ? & _). lia.
Qed.

Lemma columnsInIndex_covering_witness :
  coversColumns 5 {| isPrimaryKey := false; nCover := 3;
                     aiCover := [2; 0; 7] |} = Some true.
Proof.
  destruct (columnsInIndex_covering
              {| isPrimaryKey := false; nCover := 3; aiCover := [2; 0; 7] |}
              5) as (m & _ & _ & _ & Hcov & _).
  - intros k Hk. cbn [nCover aiCover] in *.
    assert (H : k = 0 \/ k = 1 \/ k = 2) by lia.
    destruct H as [-> | [-> | ->]]; vm_compute; discriminate.
  - cbn. lia.
  - apply Hcov. intros b Hb Hu. split; [reflexivity|].
    assert (Hb3 : b < 3).
    { destruct (Z.lt_ge_cases b 3) as [?|Hge]; [assumption|].
      rewrite (Z.bits_above_log2 5 b) in Hu; [discriminate | lia |].
      change (Z.log2 5) with 2. lia. }
    assert (H : b = 0 \/ b = 1 \/ b = 2) by lia.
    destruct H as [-> | [-> | ->]].
    + split; [lia|]. exists 1. split; [cbn; lia | reflexivity].
    + discriminate.
    + split; [lia|]. exists 0. split; [cbn; lia | reflexivity].
Defined.

End CoverFacts.

(** ** Moving a loop into the pool *)

Section LoopXferFacts.
Import LoopPool.

(** What [whereLoopClearUnion] would release on this loop: the string of
    a virtual-table plan that needs freeing, or the automatic index. *)
Definition releases (p : WhereLoop) : bool :=
  if has (wsFlags p) WHERE_VIRTUALTABLE then
    match u p with
    | UVtab _ needFree _ _ _ => negb (needFree =? 0)
    | UBtree _ _ => false
    end
  else if has (wsFlags p) WHERE_AUTO_INDEX then
    match u p with
    | UBtree _ (Some _) => true
    | _ => false
    end
  else false.

Lemma round_up_8 (n : Z) :
  let r := Z.land (n + 7) (Z.lnot 7) in
  n <= r < n + 8 /\ r mod 8 = 0.
Proof.
  assert (E : Z.land (n + 7) (Z.lnot 7) = (n + 7) / 8 * 8).
  { rewrite <- Z.ldiff_land. change (Z.ldiff (n + 7) 7)
      with (Z.ldiff (n + 7) (Z.ones 3)).
    rewrite Z.ldiff_ones_r by lia.
    now rewrite Z.shiftl_mul_pow2, Z.shiftr_div_pow2 by lia. }
  cbv zeta. rewrite E.
  pose proof (Z.div_mod (n + 7) 8 ltac:(lia)).
  pose proof (Z.mod_pos_bound (n + 7) 8 ltac:(lia)).
  split; [lia|]. apply Z.mod_mul. lia.
Qed.

(** X18.  [whereLoopXfer], for a [pFrom] of at most 65528 terms (the
    slot count is a [u16], and the next multiple of 8 must fit it).  When
    the allocation fails (which it only can when [pTo] has fewer slots
    than [pFrom] has terms) both loops stay as they are.  Otherwise [pTo]
    takes the plan of [pFrom] with its terms, keeps at least the slots it
    had and has room for the terms it took, the slot count growing to the
    next multiple of 8 at or above the term count when it grows; and what
    [pFrom] would have released (the string of a virtual-table plan, an
    automatic index) now belongs to [pTo] alone, [pFrom] releasing
    nothing any more. *)
Theorem whereLoopXfer_outcome (mallocOk : bool) (pTo pFrom : WhereLoop) :
  0 <= nLTerm pFrom <= 65528 ->
  (has (wsFlags pFrom) WHERE_VIRTUALTABLE = true ->
   exists a b c d e, u pFrom = UVtab a b c d e) ->
  (has (wsFlags pFrom) WHERE_VIRTUALTABLE = false ->
   exists k ix, u pFrom = UBtree k ix) ->
  let rc := fst (fst (whereLoopXfer mallocOk pTo pFrom)) in
  let pTo' := snd (fst (whereLoopXfer mallocOk pTo pFrom)) in
  let pFrom' := snd (whereLoopXfer mallocOk pTo pFrom) in
  (rc = SQLITE4_NOMEM ->
   pTo' = pTo /\ pFrom' = pFrom /\ mallocOk = false
   /\ nLSlot pTo < nLTerm pFrom)
  /\ (rc = SQLITE4_OK ->
      (prereq pTo', maskSelf pTo', iTab pTo', iSortIdx pTo')
      = (prereq pFrom, maskSelf pFrom, iTab pFrom, iSortIdx pFrom)
      /\ (rSetup pTo', rRun pTo', nOut pTo', wsFlags pTo', nLTerm pTo')
         = (rSetup pFrom, rRun pFrom, nOut pFrom, wsFlags pFrom,
            nLTerm pFrom)
      /\ aLTerm pTo' = take (Z.to_nat (nLTerm pFrom)) (aLTerm pFrom)
      /\ nLTerm pTo' <= nLSlot pTo' /\ nLSlot pTo <= nLSlot pTo'
      /\ (nLSlot pTo' = nLSlot pTo
          \/ (nLSlot pTo' mod 8 = 0 /\ nLSlot pTo' < nLTerm pFrom + 8))
      /\ releases pTo' = releases pFrom
      /\ releases pFrom' = false
      /\ wsFlags pFrom' = wsFlags pFrom /\ aLTerm pFrom' = aLTerm pFrom).
Proof.
  intros Hterms Hvt Hbt. cbv zeta. unfold whereLoopXfer, whereLoopResize.
  assert (Hrel : forall slots,
    releases
      {| prereq := prereq pFrom; maskSelf := maskSelf pFrom;
         iTab := iTab pFrom; iSortIdx := iSortIdx pFrom;
         rSetup := rSetup pFrom; rRun := rRun pFrom; nOut := nOut pFrom;
         u := u pFrom; wsFlags := wsFlags pFrom; nLTerm := nLTerm pFrom;
         nLSlot := slots;
         aLTerm := take (Z.to_nat (nLTerm pFrom)) (aLTerm pFrom) |}
    = releases pFrom) by reflexivity.
  assert (Hgone :
    releases
      {| prereq := prereq pFrom; maskSelf := maskSelf pFrom;
         iTab := iTab pFrom; iSortIdx := iSortIdx pFrom;
         rSetup := rSetup pFrom; rRun := rRun pFrom; nOut := nOut pFrom;
         u := if has (wsFlags pFrom) WHERE_VIRTUALTABLE then
                match u pFrom with
                | UVtab a _ c d e => UVtab a 0 c d e
                | other => other
                end
              else if has (wsFlags pFrom) WHERE_AUTO_INDEX then
                match u pFrom with
                | UBtree k _ => UBtree k None
                | other => other
                end
              else u pFrom;
         wsFlags := wsFlags pFrom; nLTerm := nLTerm pFrom;
         nLSlot := nLSlot pFrom; aLTerm := aLTerm pFrom |} = false).
  { unfold releases. cbn [wsFlags u].
    destruct (has (wsFlags pFrom) WHERE_VIRTUALTABLE) eqn:Ev.
    + destruct (Hvt eq_refl) as (a & b & c & d & e & ->). reflexivity.
    + destruct (Hbt eq_refl) as (k & ix & ->).
      now destruct (has (wsFlags pFrom) WHERE_AUTO_INDEX). }
  destruct (Z.geb_spec (nLSlot pTo) (nLTerm pFrom)) as [Hroom|Hsmall].
  - cbn [fst snd]. split; [discriminate|]. intros _.
    cbn [prereq maskSelf iTab iSortIdx rSetup rRun nOut wsFlags nLTerm
         nLSlot aLTerm].
    split; [reflexivity|]. split; [reflexivity|]. split; [reflexivity|].
    split; [lia|]. split; [lia|]. split; [now left|].
    split; [apply Hrel|]. split; [exact Hgone|]. split; reflexivity.
  - destruct mallocOk; cbn [fst snd].
    + split; [discriminate|]. intros _.
      destruct (round_up_8 (nLTerm pFrom)) as [Hr Hm].
      rewrite (u16_small (Z.land (nLTerm pFrom + 7) (Z.lnot 7)))
        by (apply Z.mod_divide in Hm; [destruct Hm as [k Hk] | ]; lia).
      cbn [prereq maskSelf iTab iSortIdx rSetup rRun nOut wsFlags nLTerm
           nLSlot aLTerm].
      split; [reflexivity|]. split; [reflexivity|]. split; [reflexivity|].
      split; [lia|]. split; [lia|].
      split; [right; split; [exact Hm|lia]|].
      split; [apply Hrel|]. split; [exact Hgone|]. split; reflexivity.
    + split; [|discriminate]. intros _. repeat split. lia.
Qed.

Lemma whereLoopXfer_outcome_witness :
  let pFrom :=
    {| prereq := 1; maskSelf := 2; iTab := 0; iSortIdx := 0; rSetup := 0;
       rRun := 30; nOut := 20; u := UBtree 1 (Some (mkIndex 17 0));
       wsFlags := WHERE_AUTO_INDEX; nLTerm := 5; nLSlot := 8;
       aLTerm := [3; 1; 4; 1; 5] |} in
  releases pFrom = true
  /\ releases (snd (whereLoopXfer true (whereLoopInit rawLoop) pFrom))
     = false.
Proof.
  cbv zeta. split; [reflexivity|].
  destruct (whereLoopXfer_outcome true (whereLoopInit rawLoop)
    {| prereq := 1; maskSelf := 2; iTab := 0; iSortIdx := 0; rSetup := 0;
       rRun := 30; nOut := 20; u := UBtree 1 (Some (mkIndex 17 0));
       wsFlags := WHERE_AUTO_INDEX; nLTerm := 5; nLSlot := 8;
       aLTerm := [3; 1; 4; 1; 5] |}) as [_ Hok].
  - cbn [nLTerm]. lia.
  - intros H. vm_compute in H. discriminate.
  - intros _. eexists _, _. reflexivity.
  - destruct (Hok eq_refl) as (_ & _ & _ & _ & _ & _ & _ & H & _). exact H.
Defined.

End LoopXferFacts.

(** ** What a table-usage mask says *)

Section UsageFacts.
Import Ast MaskSet Analyse.

(** The expression holds a column of cursor [T], looking where
    [exprTableUsage] looks: below a column node nothing is visited. *)
Fixpoint mentions (T : Z) (p : Expr) : bool :=
  match p with
  | mkExpr o _ it _ _ _ _ _ _ _ l r xs =>
      if tk_is o TK_COLUMN then it =? T
      else
        match r with Some e => mentions T e | None => false end
        || match l with Some e => mentions T e | None => false end
        || (fix inList (es : list Expr) : bool :=
              match es with
              | [] => false
              | e :: rest => mentions T e || inList rest
              end) xs
  end.

Variable ms : WhereMaskSet.
Variable cs : list Z.
Hypothesis Hholds : ms_holds ms cs.
Hypothesis Hdistinct : NoDup cs.
Hypothesis Hfits : (length cs <= 64)%nat.

Lemma getMask_absent (c : Z) : c ∉ cs -> getMask ms c = 0.
Proof.
  intros Hc. unfold getMask. apply getMask_loop_absent.
  destruct Hholds as (Hn & _ & _). rewrite Hn, Nat2Z.id.
  intros k Hk Heq.
  destruct (lookup_lt_is_Some_2 cs (Z.to_nat k) ltac:(lia)) as [d Hd].
  pose proof (aget_holds ms cs (Z.to_nat k) d Hholds Hd) as Ha.
  rewrite Z2Nat.id in Ha by lia. apply Hc.
  apply list_elem_of_lookup. exists (Z.to_nat k). congruence.
Qed.

Lemma getMask_bit (j : nat) (T c : Z) :
  cs !! j = Some T ->
  Z.testbit (getMask ms c) (Z.of_nat j) = (c =? T).
Proof.
  intros Hj. pose proof (lookup_lt_Some _ _ _ Hj) as Hlt.
  destruct (Z.eqb_spec c T) as [->|Hne].
  - rewrite (getMask_holds ms cs j T Hholds Hdistinct Hj).
    rewrite MASKBIT_pow2 by lia. apply Z.pow2_bits_true. lia.
  - destruct (decide (c ∈ cs)) as [Hin|Hout].
    + apply list_elem_of_lookup in Hin as [j' Hj'].
      pose proof (lookup_lt_Some _ _ _ Hj') as Hlt'.
      rewrite (getMask_holds ms cs j' c Hholds Hdistinct Hj').
      rewrite MASKBIT_pow2 by lia. apply Z.pow2_bits_false.
      intros E. apply Nat2Z.inj in E. subst j'. congruence.
    + rewrite (getMask_absent c Hout). apply Z.bits_0.
Qed.

Fixpoint usage_bit (j : nat) (T : Z) (e : Expr) {struct e} :
  cs !! j = Some T ->
  Z.testbit (exprTableUsage ms e) (Z.of_nat j) = mentions T e.
Proof.
  intros Hj.
  destruct e as [o o2 it ic ir fj ec xs zt zc l r xl].
  cbn [exprTableUsage mentions].
  destruct (tk_is o TK_COLUMN); [now apply getMask_bit|].
  rewrite !Z.lor_spec. f_equal; [f_equal|].
  - destruct r as [e|]; [now apply usage_bit | apply Z.bits_0].
  - destruct l as [e|]; [now apply usage_bit | apply Z.bits_0].
  - induction xl as [|e rest IH]; [apply Z.bits_0|].
    rewrite Z.lor_spec. f_equal; [now apply usage_bit | exact IH].
Qed.

(** X19.  The table-usage mask is exact for the cursors of the FROM
    clause.  With one distinct cursor per FROM entry interned, the bit of
    cursor [T] is set in [exprTableUsage] of an expression exactly when
    the expression holds a column of [T]; so a zero intersection with
    [getMask] of [T] means that no column of [T] occurs, and a column of
    a cursor that was never interned leaves no bit at all. *)
Theorem exprTableUsage_exact (j : nat) (T : Z) (e : Expr) :
  cs !! j = Some T ->
  getMask ms T = 2 ^ Z.of_nat j
  /\ Z.testbit (exprTableUsage ms e) (Z.of_nat j) = mentions T e
  /\ (Z.land (exprTableUsage ms e) (getMask ms T) = 0
      <-> mentions T e = false)
  /\ (forall c col, c ∉ cs -> exprTableUsage ms (eColumn c col) = 0).
Proof.
  intros Hj. pose proof (lookup_lt_Some _ _ _ Hj) as Hlt.
  assert (Hm : getMask ms T = 2 ^ Z.of_nat j).
  { rewrite (getMask_holds ms cs j T Hholds Hdistinct Hj).
    apply MASKBIT_pow2. lia. }
  split; [exact Hm|]. split; [now apply usage_bit|]. split.
  - rewrite Hm, <- (usage_bit j T e Hj). split.
    + intros H0.
      assert (E : Z.testbit (Z.land (exprTableUsage ms e) (2 ^ Z.of_nat j))
                    (Z.of_nat j) = false) by (rewrite H0; apply Z.bits_0).
      rewrite Z.land_spec, Z.pow2_bits_true in E by lia.
      now rewrite andb_true_r in E.
    + intros Hb. apply Z.bits_inj'. intros k Hk.
      rewrite Z.bits_0, Z.land_spec, Z.pow2_bits_eqb by lia.
      destruct (Z.eqb_spec (Z.of_nat j) k) as [<-|?];
        [now rewrite Hb | apply andb_false_r].
  - intros c col Hc. cbn. now apply getMask_absent.
Qed.

End UsageFacts.

Section UsageExamples.
Import Ast MaskSet Analyse.

Lemma twoTables_holds : ms_holds twoTables [7; 9].
Proof.
  split; [reflexivity|]. split; [reflexivity|].
  intros [|[|k]] c H; cbn in H; try discriminate; exact H.
Qed.

Lemma twoTables_distinct : NoDup [7; 9].
Proof.
  apply NoDup_cons. split; [|apply NoDup_singleton].
  intros H. apply list_elem_of_singleton in H. discriminate.
Qed.

Lemma exprTableUsage_exact_witness :
  Z.land (exprTableUsage twoTables columnLtColumn) (getMask twoTables 9) = 0
  <-> mentions 9 columnLtColumn = false.
Proof.
  destruct (exprTableUsage_exact twoTables [7; 9] twoTables_holds
              twoTables_distinct ltac:(cbn; lia)
              1 9 columnLtColumn eq_refl) as (_ & _ & H & _).
  exact H.
Defined.

End UsageExamples.

(** ** The affinity opcode *)

Module Affinity.

Section Code.

(** [SQLITE4_AFF_NONE], defined outside [where.c]. *)
Variable SQLITE4_AFF_NONE : Z.

(** [while( n>0 && zAff[0]==SQLITE4_AFF_NONE ){ n--; base++; zAff++; }];
    the loop runs at most [n] times. *)
Fixpoint skipFront (cnt : nat) (base n : Z) (zAff : list Z)
  : Z * Z * list Z :=
  match cnt with
  | O => (base, n, zAff)
  | S cnt' =>
      if (n >? 0) && (aget 0 zAff 0 =? SQLITE4_AFF_NONE)
      then skipFront cnt' (base + 1) (n - 1) (drop 1 zAff)
      else (base, n, zAff)
  end.

(** [while( n>1 && zAff[n-1]==SQLITE4_AFF_NONE ){ n--; }]. *)
Fixpoint skipBack (cnt : nat) (n : Z) (zAff : list Z) : Z :=
  match cnt with
  | O => n
  | S cnt' =>
      if (n >? 1) && (aget 0 zAff (n - 1) =? SQLITE4_AFF_NONE)
      then skipBack cnt' (n - 1) zAff
      else n
  end.

(** [codeApplyAffinity] on a non-null [zAff]: the operands [base], [n] of
    the [OP_Affinity] it adds and the [n] bytes that [sqlite4VdbeChangeP4]
    copies, or [None] when it adds no opcode. *)
Definition codeApplyAffinity (base n : Z) (zAff : list Z)
  : option (Z * Z * list Z) :=
  let '(base1, n1, z1) := skipFront (Z.to_nat n) base n zAff in
  let n2 := skipBack (Z.to_nat n1) n1 z1 in
  if n2 >? 0 then Some (base1, n2, take (Z.to_nat n2) z1) else None.

End Code.

End Affinity.

Section AffinityFacts.
Import Affinity.

Variable NONE : Z.

Lemma skipFront_spec (cnt : nat) :
  forall base n z,
    0 <= n -> (Z.to_nat n <= cnt)%nat ->
    let '(b1, n1, z1) := skipFront NONE cnt base n z in
    exists k,
      0 <= k <= n /\ b1 = base + k /\ n1 = n - k
      /\ z1 = drop (Z.to_nat k) z
      /\ (forall i, 0 <= i < k -> aget 0 z i = NONE)
      /\ (0 < n1 -> aget 0 z k <> NONE).
Proof.
  induction cnt as [|cnt IH]; intros base n z Hn Hc.
  - cbn [skipFront]. exists 0. assert (n = 0) by lia. subst n.
    split; [lia|]. split; [lia|]. split; [lia|].
    split; [reflexivity|]. split; intros; lia.
  - cbn [skipFront].
    destruct (Z.gtb_spec n 0) as [Hpos|Hz]; cbn [andb].
    2:{ exists 0. split; [lia|]. split; [lia|]. split; [lia|].
        split; [reflexivity|]. split; intros; lia. }
    destruct (Z.eqb_spec (aget 0 z 0) NONE) as [He|Hne].
    2:{ exists 0. split; [lia|]. split; [lia|]. split; [lia|].
        split; [reflexivity|]. split; [intros; lia | auto]. }
    specialize (IH (base + 1) (n - 1) (drop 1 z) ltac:(lia) ltac:(lia)).
    destruct (skipFront NONE cnt (base + 1) (n - 1) (drop 1 z))
      as [[b1 n1] z1].
    destruct IH as (k & Hk & Hb & Hn1 & Hz1 & Hall & Hfirst).
    assert (Hshift : forall i, 0 <= i ->
              aget 0 (drop 1 z) i = aget 0 z (i + 1)).
    { intros i Hi. unfold aget.
      destruct (Z.ltb_spec i 0), (Z.ltb_spec (i + 1) 0); try lia.
      rewrite lookup_drop. f_equal. f_equal. lia. }
    exists (k + 1). split; [lia|]. split; [lia|]. split; [lia|].
    split.
    { rewrite Hz1, drop_drop. f_equal. lia. }
    split.
    + intros i Hi. destruct (Z.eq_dec i 0) as [->|?]; [exact He|].
      replace i with (i - 1 + 1) by lia. rewrite <- Hshift by lia.
      apply Hall. lia.
    + intros Hp. rewrite <- Hshift by lia. now apply Hfirst.
Qed.

Lemma skipBack_spec (cnt : nat) :
  forall n z,
    (Z.to_nat n <= cnt)%nat ->
    let n2 := skipBack NONE cnt n z in
    (n2 = n \/ 1 <= n2 < n)
    /\ (forall i, n2 <= i < n -> aget 0 z i = NONE)
    /\ (1 < n2 -> aget 0 z (n2 - 1) <> NONE).
Proof.
  induction cnt as [|cnt IH]; intros n z Hc; cbv zeta.
  - cbn [skipBack]. split; [now left|]. split; intros; lia.
  - cbn [skipBack].
    destruct (Z.gtb_spec n 1) as [Hpos|Hz]; cbn [andb].
    2:{ split; [now left|]. split; intros; lia. }
    destruct (Z.eqb_spec (aget 0 z (n - 1)) NONE) as [He|Hne].
    2:{ split; [now left|]. split; [intros; lia | auto]. }
    specialize (IH (n - 1) z ltac:(lia)). cbv zeta in IH.
    destruct IH as (Hr & Hall & Hlast).
    split; [right; lia|]. split; [|exact Hlast].
    intros i Hi. destruct (Z.eq_dec i (n - 1)) as [->|?]; [exact He|].
    apply Hall. lia.
Qed.

(** X20.  [codeApplyAffinity] trims the no-op affinities at both ends.
    With [aff i] the affinity [zAff[i]] of register [base+i], [0 <= i < n]:
    no opcode is added exactly when every [aff i] is
    [SQLITE4_AFF_NONE]; otherwise the one opcode covers the registers
    from the first to the last whose affinity is not
    [SQLITE4_AFF_NONE], carries exactly their affinities, and every
    register it leaves out has the affinity [SQLITE4_AFF_NONE]. *)
Theorem codeApplyAffinity_trims (base n : Z) (zAff : list Z) :
  0 <= n <= Z.of_nat (length zAff) ->
  match codeApplyAffinity NONE base n zAff with
  | None => forall i, 0 <= i < n -> aget 0 zAff i = NONE
  | Some (b, m, z) =>
      exists k,
        0 <= k /\ 1 <= m /\ k + m <= n /\ b = base + k
        /\ Z.of_nat (length z) = m
        /\ (forall i, 0 <= i < m -> aget 0 z i = aget 0 zAff (k + i))
        /\ aget 0 zAff k <> NONE
        /\ aget 0 zAff (k + m - 1) <> NONE
        /\ (forall i, 0 <= i < n -> i < k \/ k + m <= i ->
                      aget 0 zAff i = NONE)
  end.
Proof.
  intros Hn. unfold codeApplyAffinity.
  pose proof (skipFront_spec (Z.to_nat n) base n zAff ltac:(lia) ltac:(lia))
    as Hf.
  destruct (skipFront NONE (Z.to_nat n) base n zAff) as [[b1 n1] z1].
  destruct Hf as (k & Hk & Hb & Hn1 & Hz1 & Hall & Hfirst).
  pose proof (skipBack_spec (Z.to_nat n1) n1 z1 ltac:(lia)) as Hbk.
  cbv zeta in Hbk. set (n2 := skipBack NONE (Z.to_nat n1) n1 z1) in *.
  destruct Hbk as (Hr & Htail & Hlast).
  assert (Hz : forall i, 0 <= i -> aget 0 z1 i = aget 0 zAff (k + i)).
  { intros i Hi. rewrite Hz1. unfold aget.
    destruct (Z.ltb_spec i 0), (Z.ltb_spec (k + i) 0); try lia.
    rewrite lookup_drop. f_equal. f_equal. lia. }
  destruct (Z.gtb_spec n2 0) as [Hpos|Hzero].
  - exists k. split; [lia|]. split; [lia|]. split; [lia|].
    split; [exact Hb|].
    split.
    { rewrite length_take, Hz1, length_drop. lia. }
    split.
    { intros i Hi. rewrite <- Hz by lia. unfold aget.
      destruct (Z.ltb_spec i 0); [lia|].
      now rewrite lookup_take_lt by lia. }
    split; [apply Hfirst; lia|].
    split.
    { destruct (Z.eq_dec n2 1) as [E|E].
      - rewrite E. replace (k + 1 - 1) with k by lia. apply Hfirst. lia.
      - replace (k + n2 - 1) with (k + (n2 - 1)) by lia.
        rewrite <- Hz by lia. apply Hlast. lia. }
    intros i Hi [Hlo|Hhi]; [apply Hall; lia|].
    replace i with (k + (i - k)) by lia. rewrite <- Hz by lia.
    apply Htail. lia.
  - assert (Hn1z : n1 = 0) by lia.
    intros i Hi. apply Hall. lia.
Qed.

End AffinityFacts.

Section AffinityExamples.
Import Affinity.

(** Five registers from 10 on with the affinities b a b c b, [b] being
    the no-op affinity. *)
Lemma codeApplyAffinity_trims_witness :
  codeApplyAffinity 98 10 5 [98; 97; 98; 99; 98] = Some (11, 3, [97; 98; 99])
  /\ exists k,
       0 <= k /\ 1 <= 3 /\ k + 3 <= 5 /\ 11 = 10 + k
       /\ Z.of_nat (length [97; 98; 99]) = 3
       /\ (forall i, 0 <= i < 3 ->
             aget 0 [97; 98; 99] i = aget 0 [98; 97; 98; 99; 98] (k + i))
       /\ aget 0 [98; 97; 98; 99; 98] k <> 98
       /\ aget 0 [98; 97; 98; 99; 98] (k + 3 - 1) <> 98
       /\ (forall i, 0 <= i < 5 -> i < k \/ k + 3 <= i ->
                     aget 0 [98; 97; 98; 99; 98] i = 98).
Proof.
  split; [reflexivity|].
  apply (codeApplyAffinity_trims 98 10 5 [98; 97; 98; 99; 98]).
  cbn. lia.
Defined.

End AffinityExamples.

(** ** [findTerm]: the search ends and what it finds is usable *)

Section FindTermFacts.
Import Ast Scan.

Variable sqlite4IndexAffinityOk : Expr -> Z -> bool.
Variable compareCollName : Expr -> string.
Variable sqlite4_stricmp : string -> string -> Z.

Variable C : Chain.
Variable x0 : Z * Z.

#[local] Abbreviation scanTerms_ :=
  (scanTerms sqlite4IndexAffinityOk compareCollName sqlite4_stricmp).
#[local] Abbreviation scanChain_ :=
  (scanChain sqlite4IndexAffinityOk compareCollName sqlite4_stricmp).
#[local] Abbreviation scanEquiv_ :=
  (scanEquiv sqlite4IndexAffinityOk compareCollName sqlite4_stricmp).
#[local] Abbreviation whereScanNext_ :=
  (whereScanNext sqlite4IndexAffinityOk compareCollName sqlite4_stricmp).
#[local] Abbreviation whereScanInit_ :=
  (whereScanInit sqlite4IndexAffinityOk compareCollName sqlite4_stricmp).
#[local] Abbreviation findTerm_loop_ :=
  (findTerm_loop sqlite4IndexAffinityOk compareCollName sqlite4_stricmp).

(** The terms of a chain of clauses, and those of its first clause. *)
Definition total (c : Chain) : Z := Z.of_nat (length (concat c)).

Definition headLen (c : Chain) : Z :=
  match c with [] => 0 | wc :: _ => Z.of_nat (length wc) end.

Lemma total_cons (wc : list WhereTerm) (c : Chain) :
  total (wc :: c) = Z.of_nat (length wc) + total c.
Proof. unfold total. cbn [concat]. rewrite length_app. lia. Qed.

Lemma total_nonneg (c : Chain) : 0 <= total c.
Proof. unfold total. lia. Qed.

Lemma headLen_total (c : Chain) : 0 <= headLen c <= total c.
Proof.
  destruct c as [|wc c]; [cbn; unfold total; cbn; lia|].
  rewrite total_cons. pose proof (total_nonneg c). cbn [headLen]. lia.
Qed.

Lemma noteEquiv_fields (s : WhereScan) (t : WhereTerm) :
  sameCursor s (noteEquiv s t).
Proof.
  unfold noteEquiv, sameCursor.
  destruct (has (eOperator t) WO_EQUIV && (nEquiv s <? nEquivSlots));
    [|auto].
  destruct (_ =? nEquiv s); auto.
Qed.

Lemma sameCursor_trans (s1 s2 s3 : WhereScan) :
  sameCursor s1 s2 -> sameCursor s2 s3 -> sameCursor s1 s3.
Proof.
  intros (A1 & A2 & A3 & A4) (B1 & B2 & B3 & B4).
  unfold sameCursor. repeat split; congruence.
Qed.

(** A term handed out by the loop over one clause carries an operator of
    the mask, and [k] has moved past it. *)
Lemma scanTerms_progress (terms : list WhereTerm) :
  forall s iCur iCol kk r s',
    scanTerms_ s iCur iCol terms kk = (r, s') ->
    sameCursor s s'
    /\ forall t, r = Some t ->
         kk + 1 <= k s' <= kk + Z.of_nat (length terms)
         /\ has (eOperator t) (opMask s) = true.
Proof.
  induction terms as [|x terms IH]; intros s iCur iCol kk r s' H.
  - cbn in H. injection H as <- <-. split; [repeat split|discriminate].
  - cbn [scanTerms] in H.
    assert (Hrec : forall s1, sameCursor s s1 ->
              scanTerms_ s1 iCur iCol terms (kk + 1) = (r, s') ->
              sameCursor s s'
              /\ forall t, r = Some t ->
                   kk + 1 <= k s' <= kk + Z.of_nat (length (x :: terms))
                   /\ has (eOperator t) (opMask s) = true).
    { intros s1 Hs1 Hrun. destruct (IH _ _ _ _ _ _ Hrun) as [Hc Ht].
      split; [eapply sameCursor_trans; eauto|].
      intros t Hr. destruct (Ht t Hr) as [Hk Hop]. cbn [length].
      split; [lia|]. destruct Hs1 as (_ & _ & _ & <-). exact Hop. }
    destruct ((leftCursor x =? iCur) && (leftColumn x =? iCol)).
    2:{ apply (Hrec s); [repeat split | exact H]. }
    pose proof (noteEquiv_fields s x) as Hn.
    destruct (has (eOperator x) (opMask (noteEquiv s x))) eqn:Hop.
    2:{ now apply (Hrec (noteEquiv s x)). }
    destruct (collMismatch _ _ _ _ _); [now apply (Hrec (noteEquiv s x))|].
    destruct (selfEquality _ _); [now apply (Hrec (noteEquiv s x))|].
    injection H as <- <-. split.
    + destruct Hn as (A1 & A2 & A3 & A4). repeat split; assumption.
    + intros t [= <-]. cbn [k set_k length]. split; [lia|].
      destruct Hn as (_ & _ & _ & <-). exact Hop.
Qed.

Lemma scanChain_progress (chain : Chain) :
  forall s iCur iCol kk r s',
    0 <= kk <= headLen chain ->
    scanChain_ s iCur iCol chain kk = (r, s') ->
    pOrigWC s' = pOrigWC s /\ iEquiv s' = iEquiv s /\ opMask s' = opMask s
    /\ match r with
       | Some t =>
           has (eOperator t) (opMask s) = true
           /\ 0 <= k s' <= headLen (pWC s')
           /\ total (pWC s') - k s' < total chain - kk
           /\ total (pWC s') <= total chain
       | None => pWC s' = []
       end.
Proof.
  induction chain as [|wc outer IH]; intros s iCur iCol kk r s' Hkk H.
  - cbn in H. injection H as <- <-. repeat split.
  - cbn [scanChain] in H. cbn [headLen] in Hkk.
    destruct (scanTerms_ (set_pWC (wc :: outer) s) iCur iCol
                (drop (Z.to_nat kk) wc) kk) as [[t|] s1] eqn:E.
    + injection H as <- <-.
      destruct (scanTerms_progress _ _ _ _ _ _ _ E)
        as [(A1 & A2 & A3 & A4) Ht].
      cbn [pOrigWC pWC iEquiv opMask set_pWC] in A1, A2, A3, A4.
      destruct (Ht t eq_refl) as [Hk Hop]. cbn [opMask set_pWC] in Hop.
      rewrite length_drop in Hk.
      split; [exact A1|]. split; [exact A3|]. split; [exact A4|].
      split; [exact Hop|]. rewrite A2. cbn [headLen].
      split; [lia|]. split; lia.
    + destruct (scanTerms_progress _ _ _ _ _ _ _ E)
        as [(A1 & A2 & A3 & A4) _].
      cbn [pOrigWC pWC iEquiv opMask set_pWC] in A1, A2, A3, A4.
      pose proof (headLen_total outer) as Hh.
      destruct (IH s1 iCur iCol 0 r s' ltac:(lia) H)
        as (B1 & B2 & B3 & B4).
      split; [congruence|]. split; [congruence|]. split; [congruence|].
      destruct r as [t|]; [|exact B4].
      destruct B4 as (D1 & D2 & D3 & D4). rewrite total_cons.
      split; [now rewrite <- A4|]. split; [exact D2|]. split; lia.
Qed.

(** The work a scan has left: rounds over the equivalent columns, then
    terms of the chain in hand. *)
Definition potential (s : WhereScan) (kk : Z) : Z :=
  (24 - iEquiv s) * (total C + 1) + total (pWC s) - kk.

Lemma scanEquiv_progress (fuel : nat) :
  forall s kk t s',
    ScanInv C x0 s -> pOrigWC s = C ->
    0 <= kk <= headLen (pWC s) -> total (pWC s) <= total C ->
    scanEquiv_ fuel s kk = Some (Some t, s') ->
    pOrigWC s' = C /\ opMask s' = opMask s
    /\ has (eOperator t) (opMask s) = true
    /\ 0 <= k s' <= headLen (pWC s') /\ total (pWC s') <= total C
    /\ potential s' (k s') < potential s kk
    /\ 0 <= potential s' (k s').
Proof.
  induction fuel as [|fuel IH]; intros s kk t s' Hinv Ho Hkk Htot Hrun;
    [discriminate|].
  cbn [scanEquiv] in Hrun.
  destruct (Z.leb_spec (iEquiv s) (nEquiv s)) as [Hle|Hgt];
    [|discriminate].
  pose proof Hinv as (He & _ & _ & e & Hie & Hepos).
  pose proof He as (_ & _ & m & Hm & Hmr & _).
  pose proof (scanChain_at sqlite4IndexAffinityOk compareCollName
                sqlite4_stricmp C x0 s kk e Hinv Hie Hle) as Hat.
  cbv zeta in Hat.
  destruct (scanChain_ s (aget 0 (aEquiv s) (iEquiv s - 2))
              (aget 0 (aEquiv s) (iEquiv s - 1)) (pWC s) kk)
    as [r1 s1] eqn:E.
  cbn [fst snd] in Hat. destruct Hat as (K1 & _ & K3 & K4 & _ & _).
  destruct (scanChain_progress _ _ _ _ _ _ _ Hkk E) as (P1 & P2 & P3 & P4).
  pose proof (total_nonneg C) as HN.
  pose proof (headLen_total (pWC s)) as Hh.
  destruct r1 as [t1|].
  - injection Hrun as <- <-. destruct P4 as (D1 & D2 & D3 & D4).
    pose proof (headLen_total (pWC s1)) as Hh1.
    split; [congruence|]. split; [exact P3|]. split; [exact D1|].
    split; [exact D2|]. split; [lia|]. unfold potential. rewrite P2.
    split; [lia|]. nia.
  - destruct (nextRound_inv C x0 s s1 e Hinv Hie Hle K1 K3 K4)
      as (N1 & N2 & _).
    set (s2 := set_iEquiv (u8 (iEquiv s1 + 2)) (set_pWC (pOrigWC s1) s1))
      in *.
    assert (Ho2 : pOrigWC s2 = C) by (cbn; congruence).
    assert (Hw2 : pWC s2 = C) by (cbn; congruence).
    pose proof (headLen_total C) as HhC.
    destruct (IH s2 0 t s' N1 Ho2) as (R1 & R2 & R3 & R4 & R5 & R6 & R7);
      [rewrite Hw2; lia | rewrite Hw2; lia | exact Hrun |].
    assert (Hm2 : opMask s2 = opMask s) by (cbn; congruence).
    split; [exact R1|]. split; [congruence|].
    split; [now rewrite <- Hm2|]. split; [exact R4|]. split; [exact R5|].
    split; [|exact R7].
    unfold potential in *. rewrite Hw2, N2 in R6. rewrite Hie. nia.
Qed.

(** What [findTerm] promises of the term it returns. *)
Definition usable (notReady opm : Z) (t : WhereTerm) : Prop :=
  withinTenHops C x0 t
  /\ Z.land (prereqRight t) notReady = 0
  /\ has (eOperator t) opm = true.

Lemma findTerm_loop_ready (notReady opm : Z) (loops : nat) :
  forall scan p pResult,
    ScanInv C x0 scan -> pOrigWC scan = C ->
    0 <= k scan <= headLen (pWC scan) -> total (pWC scan) <= total C ->
    opMask scan = opm ->
    (forall t, p = Some t ->
       withinTenHops C x0 t /\ has (eOperator t) opm = true) ->
    (forall t, pResult = Some t -> usable notReady opm t) ->
    0 <= potential scan (k scan) < Z.of_nat loops ->
    exists r,
      findTerm_loop_ loops 12 scan p notReady pResult = Some r
      /\ forall t, r = Some t -> usable notReady opm t.
Proof.
  induction loops as [|loops IH];
    intros scan p pResult Hinv Ho Hk Htot Hm Hp Hres Hpot.
  - lia.
  - destruct p as [t|]; cbn [findTerm_loop]; [|eauto].
    destruct (Hp t eq_refl) as [Hhops Hop].
    set (ready := Z.land (prereqRight t) notReady =? 0).
    destruct (ready && (prereqRight t =? 0) && has (eOperator t) WO_EQ)
      eqn:Hbest.
    { exists (Some t). split; [reflexivity|]. intros t' [= <-].
      apply andb_true_iff in Hbest as [Hb _].
      apply andb_true_iff in Hb as [Hb _]. unfold ready in Hb.
      split; [exact Hhops|]. split; [now apply Z.eqb_eq|exact Hop]. }
    set (pResult' := if ready then
                       match pResult with
                       | None => Some t
                       | Some _ => pResult
                       end
                     else pResult).
    assert (Hres' : forall t', pResult' = Some t' -> usable notReady opm t').
    { intros t' Ht'. unfold pResult' in Ht'.
      destruct ready eqn:Hr; [|now apply Hres].
      destruct pResult as [q|]; [now apply Hres|].
      injection Ht' as <-. unfold ready in Hr.
      split; [exact Hhops|]. split; [now apply Z.eqb_eq|exact Hop]. }
    destruct (ScanInv_total sqlite4IndexAffinityOk compareCollName
                sqlite4_stricmp C x0 scan Hinv) as (r & s' & Hrun).
    rewrite Hrun.
    pose proof (scanEquiv_sound sqlite4IndexAffinityOk compareCollName
                  sqlite4_stricmp C x0 12 scan (k scan) r s' Hinv Hrun)
      as (Hinv' & _ & Hten).
    destruct r as [t'|].
    + destruct (scanEquiv_progress 12 scan (k scan) t' s' Hinv Ho Hk Htot
                  Hrun) as (R1 & R2 & R3 & R4 & R5 & R6 & R7).
      apply (IH s' (Some t') pResult' Hinv' R1 R4 R5); try assumption.
      * congruence.
      * intros t1 [= <-]. split; [now apply Hten|]. now rewrite <- Hm.
      * lia.
    + destruct loops; cbn [findTerm_loop]; eauto.
Qed.

(** X21.  [findTerm] returns, once its loop may run 23 times for every
    term of the clause chain (and once more), whatever the terms are:
    the scan hands out each term at most once for each of the at most
    eleven equivalent columns.  A term it returns belongs to the chain,
    has on its left the column asked for or one tied to it by at most
    ten [WO_EQUIV] equalities, carries an operator of the mask asked
    for, and needs no table of [notReady] on its right. *)
Theorem findTerm_usable (s0 : WhereScan) (notReady opm : Z)
    (pIdx : option Index) :
  length (aEquiv s0) = 22%nat ->
  exists r,
    findTerm sqlite4IndexAffinityOk compareCollName sqlite4_stricmp
      (23 * (length (concat C) + 1)) 12 s0 C (fst x0) (snd x0)
      notReady opm pIdx = Some r
    /\ forall t, r = Some t ->
         inChain C t
         /\ (exists n : nat,
               (n <= 10)%nat /\ reach C x0 n (leftCursor t, leftColumn t))
         /\ Z.land (prereqRight t) notReady = 0
         /\ has (eOperator t) opm = true.
Proof.
  intros Hlen. unfold findTerm.
  assert (Hnone : forall loops scan,
            exists r,
              findTerm_loop_ loops 12 scan None notReady None = Some r
              /\ forall t, r = Some t -> usable notReady opm t).
  { intros loops scan. exists None.
    split; [destruct loops; reflexivity | discriminate]. }
  assert (Hfin : forall r,
            (forall t, r = Some t -> usable notReady opm t) ->
            forall t, r = Some t ->
              inChain C t
              /\ (exists n : nat,
                    (n <= 10)%nat
                    /\ reach C x0 n (leftCursor t, leftColumn t))
              /\ Z.land (prereqRight t) notReady = 0
              /\ has (eOperator t) opm = true).
  { intros r Hr t Ht. destruct (Hr t Ht) as ((Hin & Hreach) & Hrdy & Hop).
    auto. }
  destruct (whereScanInit_cases sqlite4IndexAffinityOk compareCollName
              sqlite4_stricmp C x0 12 s0 opm pIdx)
    as [(aff & zName & E)|(s1 & E)]; rewrite E.
  2:{ destruct (Hnone (23 * (length (concat C) + 1))%nat s1)
        as (r & Hr & Hu).
      exists r. split; [exact Hr | now apply Hfin]. }
  set (start := startScan C x0 s0 opm aff zName).
  pose proof (startScan_inv C x0 s0 opm aff zName Hlen) as Hinv.
  fold start in Hinv.
  destruct (ScanInv_total sqlite4IndexAffinityOk compareCollName
              sqlite4_stricmp C x0 start Hinv) as (p & s' & Hrun).
  rewrite Hrun.
  pose proof (scanEquiv_sound sqlite4IndexAffinityOk compareCollName
                sqlite4_stricmp C x0 12 start (k start) p s' Hinv Hrun)
    as (Hinv' & _ & Hten).
  destruct p as [t|].
  2:{ destruct (Hnone (23 * (length (concat C) + 1))%nat s')
        as (r & Hr & Hu).
      exists r. split; [exact Hr | now apply Hfin]. }
  pose proof (headLen_total C) as HhC.
  destruct (scanEquiv_progress 12 start (k start) t s' Hinv eq_refl)
    as (R1 & R2 & R3 & R4 & R5 & R6 & R7);
    [cbn; lia | cbn; lia | exact Hrun |].
  destruct (findTerm_loop_ready notReady opm
              (23 * (length (concat C) + 1)) s' (Some t) None
              Hinv' R1 R4 R5) as (r & Hr & Hu).
  - exact R2.
  - intros t' [= <-]. split; [now apply Hten | exact R3].
  - discriminate.
  - split; [exact R7|]. unfold potential in R6 |- *.
    cbn [iEquiv pWC k start startScan] in R6. unfold total in *. lia.
  - exists r. split; [exact Hr | now apply Hfin].
Qed.

End FindTermFacts.

Section FindTermExamples.
Import Ast Scan.

Lemma findTerm_usable_witness :
  exists r,
    findTerm anyAffinity binaryColl sameName 69 12 zeroScan shortChain
      1 0 0 WO_EQ None = Some r
    /\ forall t, r = Some t ->
         inChain shortChain t /\ has (eOperator t) WO_EQ = true.
Proof.
  destruct (findTerm_usable anyAffinity binaryColl sameName shortChain
              (1, 0) zeroScan 0 WO_EQ None eq_refl) as (r & Hr & Hu).
  exists r. split; [exact Hr|].
  intros t Ht. destruct (Hu t Ht) as (H1 & _ & _ & H2). auto.
Defined.

End FindTermExamples.

(** ** The analyser only appends, and it returns *)

Section AnalyseFrame.
Import Ast MaskSet Analyse.

Variable env : Env.

(** The operators of the terms that the analyser synthesises. *)
Definition simpleOp (o : Token) : bool := allowedOp o || tk_is o TK_MATCH.

(** What the analysis may do to the term it is called for: the
    expression stays or becomes a commuted comparison, the flags only
    gain bits, the parent stays or is reset. *)
Definition termStep (t t' : WhereTerm) : Prop :=
  (pExpr t' = pExpr t \/ simpleOp (op (pExpr t')) = true)
  /\ Z.land (wtFlags t') (wtFlags t) = wtFlags t
  /\ (iParent t' = iParent t \/ iParent t' = -1).

(** What holds of a term appended during the analysis of term [i] of a
    clause of [n] terms that has grown to [len] terms. *)
Definition newOk (i n len : nat) (t : WhereTerm) : Prop :=
  simpleOp (op (pExpr t)) = true
  /\ Z.land (wtFlags t) vd = vd
  /\ (iParent t = -1 \/ iParent t = Z.of_nat i
      \/ Z.of_nat n <= iParent t < Z.of_nat len).

Definition Step (i : nat) (wc wc' : WhereClause) : Prop :=
  wcOp wc' = wcOp wc /\ pOuter wc' = pOuter wc
  /\ (length (a wc) <= length (a wc'))%nat
  /\ (forall j, (j < length (a wc))%nat -> j <> i ->
                a wc' !! j = a wc !! j)
  /\ (forall t, a wc !! i = Some t ->
                exists t', a wc' !! i = Some t' /\ termStep t t')
  /\ (forall j t, (length (a wc) <= j)%nat -> a wc' !! j = Some t ->
                  newOk i (length (a wc)) (length (a wc')) t).

Lemma land_subset_trans (x y z : Z) :
  Z.land x y = y -> Z.land y z = z -> Z.land x z = z.
Proof.
  intros H1 H2. transitivity (Z.land x (Z.land y z)); [now rewrite H2|].
  now rewrite Z.land_assoc, H1.
Qed.

Lemma termStep_refl (t : WhereTerm) : termStep t t.
Proof. split; [now left|]. split; [apply Z.land_diag | now left]. Qed.

Lemma termStep_trans (t1 t2 t3 : WhereTerm) :
  termStep t1 t2 -> termStep t2 t3 -> termStep t1 t3.
Proof.
  intros (A1 & A2 & A3) (B1 & B2 & B3). split; [|split].
  - destruct B1 as [B1|B1]; [|now right].
    rewrite B1. exact A1.
  - eapply land_subset_trans; eauto.
  - destruct B3 as [B3|B3]; [rewrite B3; exact A3 | now right].
Qed.

Lemma Step_refl (i : nat) (wc : WhereClause) : Step i wc wc.
Proof.
  unfold Step. split; [reflexivity|]. split; [reflexivity|].
  split; [lia|]. split; [auto|]. split.
  - intros t Ht. exists t. split; [exact Ht | apply termStep_refl].
  - intros j t Hj Ht. apply lookup_lt_Some in Ht. lia.
Qed.

Lemma newOk_weaken (i n n' len len' : nat) (t : WhereTerm) :
  (n <= n')%nat -> (len' <= len)%nat ->
  newOk i n' len' t -> newOk i n len t.
Proof.
  intros Hn Hl (A1 & A2 & A3). split; [exact A1|]. split; [exact A2|].
  destruct A3 as [?|[?|?]]; [now left | right; now left | right; right; lia].
Qed.

Lemma Step_trans (i : nat) (wc wc1 wc2 : WhereClause) :
  (i < length (a wc))%nat ->
  Step i wc wc1 -> Step i wc1 wc2 -> Step i wc wc2.
Proof.
  intros Hi (A1 & A2 & A3 & A4 & A5 & A6) (B1 & B2 & B3 & B4 & B5 & B6).
  unfold Step. split; [congruence|]. split; [congruence|].
  split; [lia|]. split; [|split].
  - intros j Hj Hne. rewrite B4 by lia. now apply A4.
  - intros t Ht. destruct (A5 t Ht) as (t1 & G1 & S1).
    destruct (B5 t1 G1) as (t2 & G2 & S2).
    exists t2. split; [exact G2|]. eapply termStep_trans; eauto.
  - intros j t Hj Ht.
    destruct (Nat.lt_ge_cases j (length (a wc1))) as [Hlt|Hge].
    + rewrite B4 in Ht by lia.
      eapply newOk_weaken; [| |exact (A6 j t Hj Ht)]; lia.
    + eapply newOk_weaken; [| |exact (B6 j t Hge Ht)]; lia.
Qed.

(** An update of the term under analysis. *)
Lemma Step_main (i : nat) (wc wc1 : WhereClause)
    (h : WhereTerm -> WhereTerm) :
  (i < length (a wc))%nat ->
  (forall t, termStep t (h t)) ->
  Step i wc wc1 -> Step i wc (updTerm wc1 i h).
Proof.
  intros Hi Hh H1. apply (Step_trans i wc wc1 _ Hi H1).
  destruct H1 as (_ & _ & A3 & _).
  unfold Step. split; [reflexivity|]. split; [reflexivity|].
  split; [now rewrite length_updTerm|]. split; [|split].
  - intros j Hj Hne. now rewrite lookup_updTerm_ne by congruence.
  - intros t Ht. exists (h t). split; [now apply lookup_updTerm_eq|].
    apply Hh.
  - intros j t Hj Ht. apply lookup_lt_Some in Ht.
    rewrite length_updTerm in Ht. lia.
Qed.

(** An update of an appended term that keeps its flags and gives it an
    operator of the synthesised kind and the parent [i], if any. *)
Lemma Step_new (i j : nat) (wc wc1 : WhereClause)
    (h : WhereTerm -> WhereTerm) :
  (i < length (a wc))%nat -> (length (a wc) <= j)%nat ->
  (forall t, (simpleOp (op (pExpr t)) = true ->
              simpleOp (op (pExpr (h t))) = true)
             /\ wtFlags (h t) = wtFlags t
             /\ (iParent (h t) = iParent t
                 \/ iParent (h t) = Z.of_nat i)) ->
  Step i wc wc1 -> Step i wc (updTerm wc1 j h).
Proof.
  intros Hi Hj Hh (A1 & A2 & A3 & A4 & A5 & A6).
  unfold Step. split; [exact A1|]. split; [exact A2|].
  split; [now rewrite length_updTerm|]. split; [|split].
  - intros j' Hj' Hne. rewrite lookup_updTerm_ne by lia. now apply A4.
  - intros t Ht. rewrite lookup_updTerm_ne by lia. now apply A5.
  - intros j' t Hj' Ht. rewrite length_updTerm.
    destruct (decide (j' = j)) as [-> |Hne].
    + rewrite lookup_updTerm_same in Ht.
      destruct (a wc1 !! j) as [t0|] eqn:E; [|discriminate].
      injection Ht as <-.
      destruct (A6 j t0 Hj E) as (B1 & B2 & B3).
      destruct (Hh t0) as (C1 & C2 & C3).
      split; [now apply C1|]. split; [now rewrite C2|].
      destruct C3 as [-> | ->]; [exact B3 | right; now left].
    + rewrite lookup_updTerm_ne in Ht by congruence.
      exact (A6 j' t Hj' Ht).
Qed.

(** A term appended with the flags Virtual|Dynamic. *)
Lemma Step_push (i : nat) (wc wc1 : WhereClause) (e : Expr) (fl : Z) :
  (i < length (a wc))%nat ->
  simpleOp (op e) = true -> Z.land fl vd = vd ->
  Step i wc wc1 -> Step i wc (pushTerm wc1 (freshTerm e fl)).
Proof.
  intros Hi He Hfl (A1 & A2 & A3 & A4 & A5 & A6).
  assert (Hpe : pExpr (freshTerm e fl) = e).
  { apply pExpr_freshTerm; destruct (op e); try reflexivity;
      discriminate. }
  unfold Step. split; [exact A1|]. split; [exact A2|].
  split; [rewrite length_pushTerm; lia|]. split; [|split].
  - intros j Hj Hne. rewrite lookup_pushTerm_old by lia. now apply A4.
  - intros t Ht. rewrite lookup_pushTerm_old by lia. now apply A5.
  - intros j t Hj Ht. rewrite length_pushTerm.
    destruct (Nat.lt_ge_cases j (length (a wc1))) as [Hlt|Hge].
    + rewrite lookup_pushTerm_old in Ht by lia.
      eapply newOk_weaken; [| |exact (A6 j t Hj Ht)]; lia.
    + pose proof (lookup_lt_Some _ _ _ Ht) as Hlt.
      rewrite length_pushTerm in Hlt.
      assert (j = length (a wc1)) as -> by lia.
      rewrite lookup_pushTerm_new in Ht. injection Ht as <-.
      split; [now rewrite Hpe|]. split; [exact Hfl|]. now left.
Qed.

(** The analysis of a term appended last, seen from the term [i] that
    caused it. *)
Lemma Step_inner (i : nat) (wc wc1 wc2 : WhereClause) (n1 : nat) :
  (i < length (a wc))%nat ->
  Step i wc wc1 -> (length (a wc) <= n1 < length (a wc1))%nat ->
  Step n1 wc1 wc2 -> Step i wc wc2.
Proof.
  intros Hi (A1 & A2 & A3 & A4 & A5 & A6) Hn1
         (B1 & B2 & B3 & B4 & B5 & B6).
  unfold Step. split; [congruence|]. split; [congruence|].
  split; [lia|]. split; [|split].
  - intros j Hj Hne. rewrite B4 by lia. now apply A4.
  - intros t Ht. rewrite B4 by lia. now apply A5.
  - intros j t Hj Ht.
    destruct (Nat.lt_ge_cases j (length (a wc1))) as [Hlt|Hge].
    + destruct (decide (j = n1)) as [-> |Hne].
      * destruct (lookup_lt_is_Some_2 (a wc1) n1 ltac:(lia)) as [t0 E].
        destruct (B5 t0 E) as (t' & G & (S1 & S2 & S3)).
        rewrite G in Ht. injection Ht as <-.
        destruct (A6 n1 t0 ltac:(lia) E) as (C1 & C2 & C3).
        split; [destruct S1 as [-> | ?]; assumption|].
        split; [eapply land_subset_trans; eauto|].
        destruct S3 as [-> | ->]; [|now left].
        destruct C3 as [?|[?|?]];
          [now left | right; now left | right; right; lia].
      * rewrite B4 in Ht by lia.
        eapply newOk_weaken; [| |exact (A6 j t Hj Ht)]; lia.
    + destruct (B6 j t Hge Ht) as (C1 & C2 & C3).
      split; [exact C1|]. split; [exact C2|].
      destruct C3 as [?|[-> | ?]]; [now left | | right; right; lia].
      right; right. lia.
Qed.

(** The height of an expression tree. *)
Fixpoint height (e : Expr) : nat :=
  match e with
  | mkExpr _ _ _ _ _ _ _ _ _ _ l r xs =>
      S (Nat.max (match l with Some x => height x | None => O end)
           (Nat.max (match r with Some x => height x | None => O end)
              ((fix heights (es : list Expr) : nat :=
                  match es with
                  | [] => O
                  | x :: rest => Nat.max (height x) (heights rest)
                  end) xs)))
  end.

Lemma height_pos (e : Expr) : (1 <= height e)%nat.
Proof. destruct e. cbn [height]. lia. Qed.

Fixpoint height_skipCollate (e : Expr) :
  forall e', skipCollate e = Some e' -> (height e' <= height e)%nat.
Proof.
  destruct e as [o o2 it ic ir fj ec xs zt zc l r xl].
  intros e' H. cbn [skipCollate] in H.
  destruct (tk_is o TK_COLLATE || tk_is o TK_AS).
  - destruct l as [x|]; [|discriminate].
    pose proof (height_skipCollate x e' H). cbn [height]. lia.
  - injection H as <-. lia.
Qed.

Lemma height_stripped (e : Expr) :
  (height (deref (sqlite4ExprSkipCollate (Some e))) <= height e)%nat.
Proof.
  cbn [sqlite4ExprSkipCollate].
  destruct (skipCollate e) as [e'|] eqn:E.
  - now apply height_skipCollate.
  - apply height_pos.
Qed.

(** The terms that a split makes hold sub-expressions, proper ones when
    the expression has the operator of the split. *)
Fixpoint splitTerms_height (o : Token) (e : Expr) :
  forall t, t ∈ splitTerms o e ->
    wtFlags t = 0 /\ iParent t = -1
    /\ (exists x, pExpr t = deref (sqlite4ExprSkipCollate (Some x))
                  /\ tk_is (op x) o = false
                  /\ (height x <= height e)%nat
                  /\ (tk_is (op e) o = true -> (height x < height e)%nat)).
Proof.
  destruct e as [eo o2 it ic ir fj ec xs zt zc l r xl].
  intros t Ht. cbn [splitTerms] in Ht.
  destruct (tk_is eo o) eqn:Eo; cbn [negb] in Ht.
  - apply elem_of_app in Ht.
    destruct Ht as [Ht|Ht].
    + destruct l as [x|]; [|inversion Ht].
      destruct (splitTerms_height o x t Ht) as (A1 & A2 & y & A3 & A4 & A5 & _).
      split; [exact A1|]. split; [exact A2|]. exists y.
      split; [exact A3|]. split; [exact A4|]. cbn [height op].
      split; [lia|]. intros _. lia.
    + destruct r as [x|]; [|inversion Ht].
      destruct (splitTerms_height o x t Ht) as (A1 & A2 & y & A3 & A4 & A5 & _).
      split; [exact A1|]. split; [exact A2|]. exists y.
      split; [exact A3|]. split; [exact A4|]. cbn [height op].
      split; [lia|]. intros _. lia.
  - apply list_elem_of_singleton in Ht. subst t.
    split; [reflexivity|]. split; [reflexivity|].
    eexists. split; [reflexivity|]. cbn [op]. split; [exact Eo|].
    split; [lia|]. intros H. cbn [op] in H. congruence.
Qed.

Lemma simpleOp_plain (o : Token) :
  simpleOp o = true ->
  tk_is o TK_COLLATE = false /\ tk_is o TK_AS = false
  /\ tk_is o TK_FUNCTION = false /\ tk_is o TK_NOTNULL = false
  /\ tk_is o TK_BETWEEN = false /\ tk_is o TK_OR = false
  /\ tk_is o TK_AND = false.
Proof. destruct o; cbn; try discriminate; intros _; repeat split. Qed.

Lemma simpleOp_commute (o : Token) :
  allowedOp o = true -> simpleOp (commuteOp o) = true.
Proof. destruct o; cbn; try discriminate; reflexivity. Qed.

Lemma land_lor_keeps (f b : Z) : Z.land (Z.lor f b) f = f.
Proof. rewrite Z.lor_comm. apply land_lor_same. Qed.

Section Arms.

(** The analyser of the recursive calls, with the fuel [F]. *)
Variable F : nat.
Variable analyze : WhereClause -> nat -> option WhereClause.

(** The terms it is sure to return for. *)
Definition okExpr (x : Expr) : Prop :=
  (height x + 2 <= F)%nat \/ (simpleOp (op x) = true /\ (1 <= F)%nat).

Hypothesis analyze_steps :
  forall wc i wc', analyze wc i = Some wc' -> (i < length (a wc))%nat ->
                   Step i wc wc'.
Hypothesis analyze_returns :
  forall wc i t, a wc !! i = Some t -> okExpr (pExpr t) ->
                 exists wc', analyze wc i = Some wc'.
Hypothesis Hlike : likeOnlyFunctions env.

Lemma child_step (i : nat) (wc wc0 wcB : WhereClause) (e : Expr) (fl : Z)
    (i1 : nat) :
  (i < length (a wc))%nat -> Step i wc wc0 ->
  child analyze wc0 e fl = Some (wcB, i1) ->
  simpleOp (op e) = true -> Z.land fl vd = vd ->
  Step i wc wcB /\ i1 = length (a wc0) /\ (i1 < length (a wcB))%nat.
Proof.
  intros Hi H0 Hc He Hfl. unfold child in Hc.
  change (whereClauseInsert wc0 e fl)
    with (pushTerm wc0 (freshTerm e fl), length (a wc0)) in Hc.
  cbv beta iota in Hc.
  destruct (analyze (pushTerm wc0 (freshTerm e fl)) (length (a wc0)))
    as [wcX|] eqn:E; [|discriminate].
  injection Hc as <- <-.
  pose proof (analyze_steps _ _ _ E) as Hin.
  rewrite length_pushTerm in Hin. specialize (Hin ltac:(lia)).
  pose proof (Step_push i wc wc0 e fl Hi He Hfl H0) as Hp.
  destruct H0 as (_ & _ & L0 & _).
  split.
  - apply (Step_inner i wc _ wcX (length (a wc0)) Hi Hp);
      [rewrite length_pushTerm; lia | exact Hin].
  - split; [reflexivity|]. destruct Hin as (_ & _ & L & _).
    rewrite length_pushTerm in L. lia.
Qed.

Lemma child_returns (wc0 : WhereClause) (e : Expr) (fl : Z) :
  simpleOp (op e) = true -> (1 <= F)%nat ->
  exists wcB, child analyze wc0 e fl = Some (wcB, length (a wc0)).
Proof.
  intros He HF. unfold child.
  change (whereClauseInsert wc0 e fl)
    with (pushTerm wc0 (freshTerm e fl), length (a wc0)).
  cbv beta iota.
  destruct (analyze_returns (pushTerm wc0 (freshTerm e fl)) (length (a wc0))
              (freshTerm e fl)) as (wcX & ->).
  - apply lookup_pushTerm_new.
  - right. split; [|exact HF].
    destruct (simpleOp_plain _ He) as (H1 & H2 & _).
    now rewrite pExpr_freshTerm.
  - eauto.
Qed.

Ltac term_step :=
  intros; unfold termStep, raiseFlag, handTerm, storeOrInfo, beginTerm;
  cbn [pExpr wtFlags iParent set_eOperator set_wtFlags set_nChild
       set_iParent set_pExpr set_left set_leftCursor set_prereqRight
       set_prereqAll set_sub];
  repeat match goal with |- _ /\ _ => split end;
  first [ apply Z.land_diag | apply land_lor_keeps
        | now left | now right | reflexivity | assumption | idtac ].

Ltac len_lia :=
  cbn [a updTerm] in *; rewrite ?length_alter in *; lia.

Lemma analyzeCompare_step (i : nat) (wc wc0 : WhereClause) (pl pa er : Z) :
  (i < length (a wc))%nat -> Step i wc wc0 ->
  allowedOp (op (pExpr (getTerm wc0 i))) = true ->
  Step i wc (analyzeCompare env wc0 i pl pa er).
Proof.
  intros Hi H0 Hop. unfold analyzeCompare.
  set (e := pExpr (getTerm wc0 i)) in *.
  match goal with
  | |- context [if tk_is ?o TK_COLUMN then updTerm wc0 i ?h else wc0] =>
      set (wc1 := if tk_is o TK_COLUMN then updTerm wc0 i h else wc0)
  end.
  assert (H1 : Step i wc wc1).
  { unfold wc1. destruct (tk_is _ TK_COLUMN); [|exact H0].
    apply Step_main; [exact Hi | | exact H0]. term_step. }
  assert (Hcomm : simpleOp (op (exprCommute env e)) = true).
  { rewrite op_exprCommute. now apply simpleOp_commute. }
  assert (He : simpleOp (op e) = true)
    by (unfold simpleOp; now rewrite Hop).
  destruct (sqlite4ExprSkipCollate (pRight e)) as [pR|]; [|exact H1].
  destruct (tk_is (op pR) TK_COLUMN); cbn [negb]; [|exact H1].
  pose proof H1 as (_ & _ & L1 & _).
  destruct (leftCursor (getTerm wc1 i) >=? 0).
  - change (whereClauseInsert wc1 e (Z.lor TERM_VIRTUAL TERM_DYNAMIC))
      with (pushTerm wc1 (freshTerm e vd), length (a wc1)).
    cbv beta iota.
    assert (HC : Step i wc
                   (updTerm
                      (updTerm (pushTerm wc1 (freshTerm e vd))
                         (length (a wc1)) (set_iParent (Z.of_nat i)))
                      i (fun t => raiseFlag TERM_COPIED (set_nChild 1 t)))).
    { apply Step_main; [exact Hi | term_step |].
      apply Step_new; [exact Hi | lia | |].
      - intros t. split; [auto|]. split; [reflexivity | now right].
      - apply Step_push; [exact Hi | exact He | reflexivity | exact H1]. }
    destruct (tk_is (op e) TK_EQ && negb (fromJoin e) && optTransitive env);
      cbv beta iota.
    + apply Step_new; [exact Hi | lia | |].
      * intros t. split; [intros _; exact Hcomm|].
        split; [reflexivity | now left].
      * apply Step_main; [exact Hi | term_step | exact HC].
    + apply Step_new; [exact Hi | lia | | exact HC].
      intros t. split; [intros _; exact Hcomm|].
      split; [reflexivity | now left].
  - cbv beta iota. apply Step_main; [exact Hi | | exact H1].
    intros t. split; [right; exact Hcomm|].
    split; [apply Z.land_diag | now left].
Qed.

Lemma betweenArm_step (i : nat) (wc wc0 wc1 : WhereClause) (e : Expr) :
  (i < length (a wc))%nat -> Step i wc wc0 ->
  betweenArm analyze wc0 i e = Some wc1 -> Step i wc wc1.
Proof.
  intros Hi H0 Hb. unfold betweenArm in Hb.
  destruct (child analyze wc0 _ vd) as [[wcA i1]|] eqn:E1; [|discriminate].
  destruct (child_step i wc wc0 wcA _ vd i1 Hi H0 E1 eq_refl eq_refl)
    as (SA & -> & LA).
  pose proof H0 as (_ & _ & L0 & _).
  assert (SA' : Step i wc (updTerm wcA (length (a wc0))
                             (set_iParent (Z.of_nat i)))).
  { apply Step_new; [exact Hi | lia | | exact SA].
    intros t. split; [auto|]. split; [reflexivity | now right]. }
  destruct (child analyze _ _ vd) as [[wcB i2]|] eqn:E2; [|discriminate].
  destruct (child_step i wc _ wcB _ vd i2 Hi SA' E2 eq_refl eq_refl)
    as (SB & -> & LB).
  injection Hb as <-.
  apply Step_main; [exact Hi | term_step |].
  apply Step_new; [exact Hi | len_lia | | exact SB].
  intros t. split; [auto|]. split; [reflexivity | now right].
Qed.

Lemma likeArm_step (i : nat) (o : Token) (wc wc0 wc1 : WhereClause) :
  (i < length (a wc))%nat -> Step i wc wc0 ->
  likeArm env analyze o wc0 i = Some wc1 -> Step i wc wc1.
Proof.
  intros Hi H0 Hb. unfold likeArm in Hb.
  destruct (tk_is o TK_AND); [|now injection Hb as <-].
  destruct (isLikeOrGlob env _) as [[[pStr1 isComplete] noCase]|];
    [|now injection Hb as <-].
  destruct (child analyze wc0 _ vd) as [[wcA i1]|] eqn:E1; [|discriminate].
  destruct (child_step i wc wc0 wcA _ vd i1 Hi H0 E1 eq_refl eq_refl)
    as (SA & -> & LA).
  pose proof H0 as (_ & _ & L0 & _).
  destruct (child analyze wcA _ vd) as [[wcB i2]|] eqn:E2; [|discriminate].
  destruct (child_step i wc wcA wcB _ vd i2 Hi SA E2 eq_refl eq_refl)
    as (SB & -> & LB).
  pose proof SA as (_ & _ & LA' & _).
  destruct (if noCase && _ then false else isComplete);
    injection Hb as <-; [|exact SB].
  apply Step_main; [exact Hi | term_step |].
  apply Step_new; [exact Hi | lia | |].
  { intros t. split; [auto|]. split; [reflexivity | now right]. }
  apply Step_new; [exact Hi | lia | | exact SB].
  intros t. split; [auto|]. split; [reflexivity | now right].
Qed.

Lemma matchArm_step (i : nat) (wc wc0 : WhereClause) :
  (i < length (a wc))%nat -> Step i wc wc0 ->
  Step i wc (matchArm env wc0 i).
Proof.
  intros Hi H0. unfold matchArm.
  destruct (isMatchOfColumn env _); [|exact H0].
  destruct (Z.land _ _ =? 0); [|exact H0].
  pose proof H0 as (_ & _ & L0 & _).
  match goal with
  | |- context [whereClauseInsert wc0 ?x vd] =>
      change (whereClauseInsert wc0 x vd)
        with (pushTerm wc0 (freshTerm x vd), length (a wc0))
  end.
  cbv beta iota.
  apply Step_new; [exact Hi | lia | |].
  { intros t. unfold handTerm. cbn. split; [auto|].
    split; [reflexivity | now right]. }
  apply Step_main; [exact Hi | term_step |].
  apply Step_push; [exact Hi | reflexivity | reflexivity | exact H0].
Qed.

Lemma notNullArm_step (i : nat) (wc wc0 : WhereClause) :
  (i < length (a wc))%nat -> Step i wc wc0 ->
  Step i wc (notNullArm env wc0 i).
Proof.
  intros Hi H0. unfold notNullArm.
  destruct (buildStat3 env && _ && _ && _ && optStat3 env) eqn:Hc;
    [|exact H0].
  pose proof H0 as (_ & _ & L0 & _).
  match goal with
  | |- context [whereClauseInsert wc0 ?x ?fl] =>
      change (whereClauseInsert wc0 x fl)
        with (pushTerm wc0 (freshTerm x fl), length (a wc0))
  end.
  cbv beta iota.
  assert (Hfl : Z.land (Z.lor vd (TERM_VNULL (buildStat3 env))) vd = vd)
    by (rewrite Z.lor_comm; apply land_lor_same).
  assert (Hp : Step i wc
                 (pushTerm wc0
                    (freshTerm
                       (sqlite4PExpr TK_GT
                          (Some (deref (pLeft (pExpr (getTerm wc0 i)))))
                          (Some (sqlite4PExpr TK_NULL None None)))
                       (Z.lor vd (TERM_VNULL (buildStat3 env))))))
    by (apply Step_push; [exact Hi | reflexivity | exact Hfl | exact H0]).
  destruct (length (a wc0) =? 0)%nat; [exact Hp|].
  apply Step_new; [exact Hi | lia | |].
  { intros t. unfold handTerm. cbn. split; [auto|].
    split; [reflexivity | now right]. }
  apply Step_main; [exact Hi | term_step | exact Hp].
Qed.

Lemma op_inExpr (e : Expr) (terms : list WhereTerm) :
  op (inExpr e terms) = TK_IN.
Proof. unfold inExpr. now destruct (inOperands terms). Qed.

Lemma exprAnalyzeOrTerm_step (i : nat) (wc wc0 wc1 : WhereClause) :
  (i < length (a wc))%nat -> Step i wc wc0 ->
  exprAnalyzeOrTerm env analyze wc0 i = Some wc1 -> Step i wc wc1.
Proof.
  intros Hi H0 Hb. unfold exprAnalyzeOrTerm in Hb.
  destruct (exprAnalyzeAll analyze _) as [pOrWc|]; [|discriminate].
  destruct (orTermsLoop env analyze _ _ _ _ _) as [[[terms ix] chg]|];
    [|discriminate].
  destruct (chg =? 0).
  { injection Hb as <-. apply Step_main; [exact Hi | term_step | exact H0]. }
  destruct (chooseColumn env terms chg) as [[[terms' ok] c1] c2].
  assert (S0 : Step i wc
                 (updTerm wc0 i
                    (fun t => set_eOperator (if ix =? 0 then 0 else WO_OR)
                                (storeOrInfo pOrWc terms' ix t))))
    by (apply Step_main; [exact Hi | term_step | exact H0]).
  destruct ok; [|now injection Hb as <-].
  match type of Hb with
  | context [whereClauseInsert ?w ?x ?fl] =>
      change (whereClauseInsert w x fl)
        with (pushTerm w (freshTerm x vd), length (a w)) in Hb
  end.
  cbv beta iota in Hb.
  destruct (analyze _ _) as [wc2|] eqn:E2; [|discriminate].
  injection Hb as <-.
  pose proof S0 as (_ & _ & L0 & _).
  set (wcU := updTerm wc0 i
                (fun t => set_eOperator (if ix =? 0 then 0 else WO_OR)
                            (storeOrInfo pOrWc terms' ix t))) in *.
  pose proof (analyze_steps _ _ _ E2) as Hin.
  rewrite length_pushTerm in Hin. specialize (Hin ltac:(lia)).
  assert (S2 : Step i wc wc2).
  { apply (Step_inner i wc
             (pushTerm wcU (freshTerm (inExpr (pExpr (getTerm wc0 i)) terms')
                                      vd))
             wc2 (length (a wcU)) Hi).
    - apply Step_push; [exact Hi | | reflexivity | exact S0].
      unfold simpleOp. now rewrite op_inExpr.
    - rewrite length_pushTerm. lia.
    - exact Hin. }
  apply Step_main; [exact Hi | term_step |].
  apply Step_main; [exact Hi | term_step |].
  apply Step_new; [exact Hi | unfold wcU in *; len_lia | | exact S2].
  intros t. split; [auto|]. split; [reflexivity | now right].
Qed.

(** One call of the analyser steps, when its recursive calls do. *)
Lemma analyzeStep_step (i : nat) (wc wc' : WhereClause) :
  (i < length (a wc))%nat ->
  analyzeStep env analyze wc i = Some wc' -> Step i wc wc'.
Proof.
  intros Hi H. unfold analyzeStep in H.
  set (e := pExpr (getTerm wc i)) in *.
  set (wc0 := updTerm wc i (beginTerm env e)) in *.
  assert (H0 : Step i wc wc0).
  { unfold wc0. apply Step_main; [exact Hi | term_step | apply Step_refl]. }
  assert (He0 : pExpr (getTerm wc0 i) = e).
  { destruct (lookup_lt_is_Some_2 (a wc) i Hi) as [t Ht].
    unfold wc0, e.
    rewrite (getTerm_lookup _ _ _ (lookup_updTerm_eq wc i _ t Ht)).
    now rewrite (getTerm_lookup _ _ _ Ht). }
  match type of H with
  | match ?first with _ => _ end = _ =>
      destruct first as [wc1|] eqn:E1; [|discriminate]
  end.
  assert (H1 : Step i wc wc1).
  { destruct (allowedOp (op e)) eqn:Ha.
    - injection E1 as <-. apply analyzeCompare_step; [exact Hi | exact H0|].
      now rewrite He0.
    - destruct (tk_is (op e) TK_BETWEEN && tk_is (wcOp wc) TK_AND).
      + eapply betweenArm_step; eauto.
      + destruct (tk_is (op e) TK_OR).
        * eapply exprAnalyzeOrTerm_step; eauto.
        * now injection E1 as <-. }
  destruct (likeArm env analyze (wcOp wc) wc1 i) as [wc2|] eqn:E2;
    [|discriminate].
  injection H as <-.
  apply Step_main; [exact Hi | term_step |].
  apply notNullArm_step; [exact Hi|].
  apply matchArm_step; [exact Hi|].
  eapply likeArm_step; eauto.
Qed.

Lemma okExpr_fuel (x : Expr) : okExpr x -> (1 <= F)%nat.
Proof. intros [H|[_ H]]; [pose proof (height_pos x); lia | exact H]. Qed.

Definition allOk (terms : list WhereTerm) : Prop :=
  forall j t, terms !! j = Some t -> okExpr (pExpr t).

Lemma Step_allOk (i : nat) (wc wc' : WhereClause) :
  (i < length (a wc))%nat -> Step i wc wc' ->
  allOk (a wc) -> allOk (a wc').
Proof.
  intros Hi (_ & _ & L & Fr & Hm & Hn) Hok j t Ht.
  destruct (lookup_lt_is_Some_2 (a wc) i Hi) as [ti Hti].
  pose proof (okExpr_fuel _ (Hok i ti Hti)) as HF.
  destruct (Nat.lt_ge_cases j (length (a wc))) as [Hlt|Hge].
  - destruct (decide (j = i)) as [->|Hne].
    + destruct (Hm ti Hti) as (t' & G & ([E|E] & _)).
      * rewrite G in Ht. injection Ht as <-. rewrite E. now apply (Hok i).
      * rewrite G in Ht. injection Ht as <-. right. auto.
    + rewrite Fr in Ht by assumption. now apply (Hok j).
  - destruct (Hn j t Hge Ht) as (E & _). right. auto.
Qed.

Lemma analyzeFrom_returns (n : nat) :
  forall wc, (n <= length (a wc))%nat -> allOk (a wc) ->
    exists wc',
      analyzeFrom analyze n wc = Some wc'
      /\ allOk (a wc') /\ wcOp wc' = wcOp wc /\ pOuter wc' = pOuter wc
      /\ (length (a wc) <= length (a wc'))%nat.
Proof.
  induction n as [|n IH]; intros wc Hn Hok.
  - exists wc. cbn. repeat split; auto.
  - cbn [analyzeFrom].
    destruct (lookup_lt_is_Some_2 (a wc) n ltac:(lia)) as [t Ht].
    destruct (analyze_returns wc n t Ht (Hok n t Ht)) as (wc1 & E).
    rewrite E.
    pose proof (analyze_steps wc n wc1 E ltac:(lia)) as S1.
    pose proof S1 as (A1 & A2 & A3 & _).
    destruct (IH wc1 ltac:(lia)) as (wc' & R & B1 & B2 & B3 & B4).
    { apply (Step_allOk n wc wc1); [lia | exact S1 | exact Hok]. }
    exists wc'. split; [exact R|]. split; [exact B1|].
    split; [congruence|]. split; [congruence | lia].
Qed.

Lemma split_allOk (o : Token) (x : Expr) :
  tk_is o TK_AND || tk_is o TK_OR = true ->
  okExpr x -> allOk (splitTerms o x).
Proof.
  intros Ho Hx j t Ht. apply list_elem_of_lookup_2 in Ht.
  destruct Hx as [Hh|[Hs HF]].
  - destruct (splitTerms_height o x t Ht) as (_ & _ & y & E & _ & Hy & _).
    left. rewrite E. pose proof (height_stripped y). lia.
  - assert (Hno : tk_is (op x) o = false).
    { destruct (simpleOp_plain _ Hs) as (_ & _ & _ & _ & _ & H1 & H2).
      apply orb_true_iff in Ho as [Ho|Ho];
        unfold tk_is in *; apply bool_decide_eq_true in Ho; subst o;
        assumption. }
    destruct x as [eo o2 it ic ir fj ec xs zt zc l r xl].
    cbn [splitTerms] in Ht. cbn [op] in Hno, Hs. rewrite Hno in Ht.
    cbn [negb] in Ht. apply list_elem_of_singleton in Ht. subst t.
    right. split; [|exact HF].
    destruct (simpleOp_plain _ Hs) as (H1 & H2 & _).
    now rewrite pExpr_freshTerm.
Qed.

Lemma splitAll_returns (o : Token) (x : Expr) :
  tk_is o TK_AND || tk_is o TK_OR = true -> okExpr x ->
  exists wc',
    exprAnalyzeAll analyze (whereSplit whereClauseInit (Some x) o) = Some wc'
    /\ allOk (a wc').
Proof.
  intros Ho Hx. unfold exprAnalyzeAll.
  destruct (analyzeFrom_returns
              (length (a (whereSplit whereClauseInit (Some x) o)))
              (whereSplit whereClauseInit (Some x) o))
    as (wc' & R & Hok & _); [lia | | eauto].
  cbn [a whereSplit whereClauseInit app]. now apply split_allOk.
Qed.

Lemma orTermsLoop_returns (cnt : nat) :
  forall terms i ix ch,
    (i + cnt <= length terms)%nat -> allOk terms ->
    exists r, orTermsLoop env analyze cnt terms i ix ch = Some r.
Proof.
  induction cnt as [|cnt IH]; intros terms i ix ch Hlen Hok;
    cbn [orTermsLoop]; [eauto|].
  destruct (ix =? 0); [eauto|].
  destruct (lookup_lt_is_Some_2 terms i ltac:(lia)) as [t Ht].
  rewrite Ht. change (default noTerm (Some t)) with t.
  destruct (Z.land (eOperator t) WO_SINGLE =? 0).
  - destruct (splitAll_returns TK_AND (pExpr t) eq_refl (Hok i t Ht))
      as (andWC & -> & _).
    apply IH; [rewrite length_insert; lia|].
    intros j x Hx.
    destruct (decide (j = i)) as [->|Hne].
    + rewrite list_lookup_insert_eq in Hx by lia. injection Hx as <-.
      cbn. now apply (Hok i).
    + rewrite list_lookup_insert_ne in Hx by congruence. now apply (Hok j).
  - destruct (has (wtFlags t) TERM_COPIED); apply IH; (lia || assumption).
Qed.

Lemma exprAnalyzeOrTerm_returns (i : nat) (wc0 : WhereClause)
    (t : WhereTerm) :
  a wc0 !! i = Some t ->
  tk_is (op (pExpr t)) TK_OR = true ->
  (height (pExpr t) + 1 <= F)%nat ->
  exists wc1, exprAnalyzeOrTerm env analyze wc0 i = Some wc1.
Proof.
  intros Ht Hor Hh. unfold exprAnalyzeOrTerm.
  rewrite (getTerm_lookup _ _ _ Ht).
  assert (HF : (1 <= F)%nat) by lia.
  assert (Hsplit : allOk (splitTerms TK_OR (pExpr t))).
  { intros j x Hx. apply list_elem_of_lookup_2 in Hx.
    destruct (splitTerms_height TK_OR (pExpr t) x Hx)
      as (_ & _ & y & E & _ & _ & Hy).
    left. rewrite E. pose proof (height_stripped y).
    specialize (Hy Hor). lia. }
  destruct (analyzeFrom_returns
              (length (a (whereSplit whereClauseInit (Some (pExpr t)) TK_OR)))
              (whereSplit whereClauseInit (Some (pExpr t)) TK_OR))
    as (pOrWc & R & Hok & _); [lia | exact Hsplit |].
  unfold exprAnalyzeAll. rewrite R.
  destruct (orTermsLoop_returns (length (a pOrWc)) (a pOrWc) 0
              (bnot 0) (bnot 0) ltac:(lia) Hok) as ([[terms ix] chg] & ->).
  destruct (chg =? 0); [eauto|].
  destruct (chooseColumn env terms chg) as [[[terms' ok] c1] c2].
  destruct ok; [|eauto].
  match goal with
  | |- context [whereClauseInsert ?w ?x ?fl] =>
      change (whereClauseInsert w x fl)
        with (pushTerm w (freshTerm x vd), length (a w))
  end.
  cbv beta iota.
  match goal with
  | |- context [analyze (pushTerm ?w ?tn) ?n] =>
      destruct (analyze_returns (pushTerm w tn) n tn) as (wc2 & ->)
  end.
  - apply lookup_pushTerm_new.
  - right. split; [|exact HF].
    rewrite pExpr_freshTerm by (rewrite op_inExpr; reflexivity).
    unfold simpleOp. now rewrite op_inExpr.
  - eauto.
Qed.

Lemma betweenArm_returns (i : nat) (wc0 : WhereClause) (e : Expr) :
  (1 <= F)%nat -> exists wc1, betweenArm analyze wc0 i e = Some wc1.
Proof.
  intros HF. unfold betweenArm.
  destruct (child_returns wc0
              (sqlite4PExpr TK_GE (pLeft e)
                 (Some (default nullExpr (xList e !! 0%nat)))) vd
              eq_refl HF) as (wcA & ->).
  match goal with
  | |- context [child analyze ?w ?x vd] =>
      destruct (child_returns w x vd eq_refl HF) as (wcB & ->)
  end.
  eauto.
Qed.

Lemma likeArm_returns (i : nat) (o : Token) (wc1 : WhereClause) :
  (1 <= F)%nat -> exists wc2, likeArm env analyze o wc1 i = Some wc2.
Proof.
  intros HF. unfold likeArm.
  destruct (tk_is o TK_AND); [|eauto].
  destruct (isLikeOrGlob env _) as [[[pStr1 isComplete] noCase]|]; [|eauto].
  match goal with
  | |- context [child analyze wc1 ?x vd] =>
      destruct (child_returns wc1 x vd eq_refl HF) as (wcA & ->)
  end.
  match goal with
  | |- context [child analyze wcA ?x vd] =>
      destruct (child_returns wcA x vd eq_refl HF) as (wcB & ->)
  end.
  destruct (if noCase && _ then false else isComplete); eauto.
Qed.

(** One call of the analyser returns, when its recursive calls do. *)
Lemma analyzeStep_returns (i : nat) (wc : WhereClause) (t : WhereTerm) :
  a wc !! i = Some t ->
  (height (pExpr t) + 1 <= F)%nat \/ simpleOp (op (pExpr t)) = true ->
  exists wc', analyzeStep env analyze wc i = Some wc'.
Proof.
  intros Ht Hcase.
  assert (Hi : (i < length (a wc))%nat) by (eapply lookup_lt_Some; eauto).
  unfold analyzeStep. rewrite (getTerm_lookup _ _ _ Ht).
  set (e := pExpr t) in *.
  set (wc0 := updTerm wc i (beginTerm env e)).
  assert (H0 : a wc0 !! i = Some (beginTerm env e t))
    by (apply lookup_updTerm_eq; exact Ht).
  assert (S0 : Step i wc wc0).
  { unfold wc0. apply Step_main; [exact Hi | term_step | apply Step_refl]. }
  assert (Hfirst : exists wc1,
    (if allowedOp (op e) then
       Some (analyzeCompare env wc0 i (prereqLeftOf env e)
               (prereqAllOf env e) (extraRightOf env e))
     else if tk_is (op e) TK_BETWEEN && tk_is (wcOp wc) TK_AND then
       betweenArm analyze wc0 i e
     else if tk_is (op e) TK_OR then exprAnalyzeOrTerm env analyze wc0 i
     else Some wc0) = Some wc1 /\ Step i wc wc1).
  { destruct (allowedOp (op e)) eqn:Ha.
    - eexists. split; [reflexivity|].
      apply analyzeCompare_step; [exact Hi | exact S0|].
      now rewrite (getTerm_lookup _ _ _ H0).
    - assert (Hh : (height e + 1 <= F)%nat
                   \/ (tk_is (op e) TK_BETWEEN = false
                       /\ tk_is (op e) TK_OR = false)).
      { destruct Hcase as [?|Hs]; [now left|]. right.
        destruct (simpleOp_plain _ Hs) as (_ & _ & _ & _ & ? & ? & _).
        auto. }
      destruct (tk_is (op e) TK_BETWEEN && tk_is (wcOp wc) TK_AND) eqn:Hb.
      + destruct Hh as [Hh|[Hh _]].
        2:{ rewrite Hh in Hb. discriminate. }
        pose proof (height_pos e).
        destruct (betweenArm_returns i wc0 e ltac:(lia)) as (wc1 & E).
        exists wc1. split; [exact E|]. eapply betweenArm_step; eauto.
      + destruct (tk_is (op e) TK_OR) eqn:Hor.
        * destruct Hh as [Hh|[_ Hh]]; [|congruence].
          destruct (exprAnalyzeOrTerm_returns i wc0 (beginTerm env e t) H0)
            as (wc1 & E); [exact Hor | exact Hh |].
          exists wc1. split; [exact E|].
          eapply exprAnalyzeOrTerm_step; eauto.
        * exists wc0. split; [reflexivity | exact S0]. }
  destruct Hfirst as (wc1 & -> & S1).
  assert (Hl : exists wc2, likeArm env analyze (wcOp wc) wc1 i = Some wc2).
  { destruct (Nat.eq_dec F O) as [EF|EF].
    - destruct Hcase as [Hh|Hs]; [pose proof (height_pos e); lia|].
      exists wc1. apply likeArm_declines; [exact Hlike|].
      destruct S1 as (_ & _ & _ & _ & Hm & _).
      destruct (Hm t Ht) as (t1 & G & ([E|E] & _)).
      + rewrite (getTerm_lookup _ _ _ G), E.
        now destruct (simpleOp_plain _ Hs) as (_ & _ & ? & _).
      + rewrite (getTerm_lookup _ _ _ G).
        now destruct (simpleOp_plain _ E) as (_ & _ & ? & _).
    - apply likeArm_returns. lia. }
  destruct Hl as (wc2 & ->). eauto.
Qed.

End Arms.

(** The analyser with its fuel: it steps, and it returns for every
    expression whose height the fuel covers. *)
Lemma exprAnalyze_facts (f : nat) :
  likeOnlyFunctions env ->
  (forall wc i wc', exprAnalyze f env wc i = Some wc' ->
                    (i < length (a wc))%nat -> Step i wc wc')
  /\ (forall wc i t, a wc !! i = Some t -> okExpr f (pExpr t) ->
                     exists wc', exprAnalyze f env wc i = Some wc').
Proof.
  intros Hlike. induction f as [|f [IH1 IH2]].
  - split; [discriminate|].
    intros wc i t _ [H|[_ H]]; [pose proof (height_pos (pExpr t))|]; lia.
  - split.
    + intros wc i wc' H Hi. rewrite exprAnalyze_S in H.
      now apply (analyzeStep_step (exprAnalyze f env) IH1).
    + intros wc i t Ht Hok. rewrite exprAnalyze_S.
      apply (analyzeStep_returns f (exprAnalyze f env) IH1 IH2 Hlike i wc t Ht).
      destruct Hok as [H|[H _]]; [left; lia | now right].
Qed.

(** X22.  [exprAnalyze] returns, and it only appends.  With
    [sqlite4IsLikeFunction] accepting function calls only, the analysis
    of a term ends once the fuel exceeds the height of the term's
    expression by two, whatever the nesting of OR, AND, BETWEEN and LIKE
    in it.  The clause keeps its operator and its terms other than the
    one analysed; the expression of that term keeps the operator at its
    root or is a commuted comparison, and its flags only gain bits;
    every term appended is flagged Virtual|Dynamic, holds a comparison,
    IN, IS NULL or MATCH, and has as parent the term analysed or a term
    appended in the same call, or none. *)
Theorem exprAnalyze_returns_and_appends (f : nat) (wc : WhereClause)
    (i : nat) (t : WhereTerm) :
  likeOnlyFunctions env ->
  a wc !! i = Some t ->
  (height (pExpr t) + 2 <= f)%nat ->
  exists wc',
    exprAnalyze f env wc i = Some wc'
    /\ wcOp wc' = wcOp wc /\ pOuter wc' = pOuter wc
    /\ (length (a wc) <= length (a wc'))%nat
    /\ (forall j, (j < length (a wc))%nat -> j <> i ->
                  a wc' !! j = a wc !! j)
    /\ (exists t',
          a wc' !! i = Some t'
          /\ (op (pExpr t') = op (pExpr t)
              \/ simpleOp (op (pExpr t')) = true)
          /\ Z.land (wtFlags t') (wtFlags t) = wtFlags t)
    /\ (forall j x, (length (a wc) <= j)%nat -> a wc' !! j = Some x ->
          simpleOp (op (pExpr x)) = true
          /\ has (wtFlags x) TERM_VIRTUAL = true
          /\ has (wtFlags x) TERM_DYNAMIC = true
          /\ (iParent x = -1 \/ iParent x = Z.of_nat i
              \/ Z.of_nat (length (a wc)) <= iParent x
                 < Z.of_nat (length (a wc')))).
Proof.
  intros Hlike Ht Hf.
  assert (Hi : (i < length (a wc))%nat) by (eapply lookup_lt_Some; eauto).
  destruct (exprAnalyze_facts f Hlike) as [Hstep Hret].
  destruct (Hret wc i t Ht ltac:(now left)) as (wc' & E).
  exists wc'. split; [exact E|].
  destruct (Hstep wc i wc' E Hi) as (A1 & A2 & A3 & A4 & A5 & A6).
  split; [exact A1|]. split; [exact A2|]. split; [exact A3|].
  split; [exact A4|]. split.
  - destruct (A5 t Ht) as (t' & G & (B1 & B2 & _)).
    exists t'. split; [exact G|]. split; [|exact B2].
    destruct B1 as [-> | B1]; [now left | now right].
  - intros j x Hj Hx. destruct (A6 j x Hj Hx) as (B1 & B2 & B3).
    split; [exact B1|].
    assert (Hbit : forall b, Z.land vd b = b -> b <> 0 ->
                             has (wtFlags x) b = true).
    { intros b Hb Hnz. unfold has.
      rewrite (land_subset_trans _ _ _ B2 Hb).
      now destruct (Z.eqb_spec b 0). }
    split; [now apply Hbit|]. split; [now apply Hbit | exact B3].
Qed.

(** The terms of a clause under [exprAnalyzeAll]: those of the split
    have no parent, those appended point into the clause. *)
Definition settled (n0 : nat) (wc : WhereClause) : Prop :=
  (n0 <= length (a wc))%nat
  /\ (forall j x, (j < n0)%nat -> a wc !! j = Some x -> iParent x = -1)
  /\ (forall j x, (n0 <= j)%nat -> a wc !! j = Some x ->
        Z.land (wtFlags x) vd = vd
        /\ -1 <= iParent x < Z.of_nat (length (a wc))).

Lemma Step_settled (n0 i : nat) (wc wc' : WhereClause) :
  (i < n0)%nat -> Step i wc wc' -> settled n0 wc -> settled n0 wc'.
Proof.
  intros Hi (_ & _ & L & Fr & Hm & Hn) (S1 & S2 & S3).
  split; [lia|]. split.
  - intros j x Hj Hx. destruct (decide (j = i)) as [->|Hne].
    + destruct (lookup_lt_is_Some_2 (a wc) i ltac:(lia)) as [t Ht].
      destruct (Hm t Ht) as (t' & G & (_ & _ & B3)).
      rewrite G in Hx. injection Hx as <-.
      destruct B3 as [-> | ->]; [now apply (S2 i) | reflexivity].
    + rewrite Fr in Hx by lia. now apply (S2 j).
  - intros j x Hj Hx.
    destruct (Nat.lt_ge_cases j (length (a wc))) as [Hlt|Hge].
    + rewrite Fr in Hx by lia. destruct (S3 j x Hj Hx) as [B1 B2].
      split; [exact B1 | lia].
    + destruct (Hn j x Hge Hx) as (_ & B2 & B3).
      split; [exact B2 | lia].
Qed.

Lemma analyzeFrom_settled (f n0 : nat) (Hlike : likeOnlyFunctions env)
    (n : nat) :
  forall wc, (n <= n0)%nat -> settled n0 wc -> allOk f (a wc) ->
    exists wc',
      analyzeFrom (exprAnalyze f env) n wc = Some wc'
      /\ settled n0 wc' /\ allOk f (a wc')
      /\ wcOp wc' = wcOp wc.
Proof.
  destruct (exprAnalyze_facts f Hlike) as [Hstep Hret].
  induction n as [|n IH]; intros wc Hn Hs Hok.
  - exists wc. cbn. auto.
  - cbn [analyzeFrom]. pose proof Hs as (S1 & _).
    destruct (lookup_lt_is_Some_2 (a wc) n ltac:(lia)) as [t Ht].
    destruct (Hret wc n t Ht (Hok n t Ht)) as (wc1 & E). rewrite E.
    pose proof (Hstep wc n wc1 E ltac:(lia)) as St.
    destruct (IH wc1 ltac:(lia)) as (wc' & R & B1 & B2 & B3).
    + apply (Step_settled n0 n wc wc1); [lia | exact St | exact Hs].
    + apply (Step_allOk f n wc wc1); [lia | exact St | exact Hok].
    + exists wc'. split; [exact R|]. split; [exact B1|].
      split; [exact B2|]. destruct St as (A1 & _). congruence.
Qed.

End AnalyseFrame.

(** ** An analysed WHERE clause can be disabled term by term *)

Section AnalysedClause.
Import Ast MaskSet Analyse Disable.

Variable env : Env.

(** X23.  Splitting a WHERE expression by AND and analysing every term
    ([whereSplit], then [exprAnalyzeAll]) returns once the fuel exceeds
    the height of the expression by two.  The terms of the split come
    first and have no parent; the terms behind them are flagged
    Virtual and point to a parent inside the clause, or to none.  So
    every parent index lies in the clause, and [disableTerm] on any term
    of it returns, however deep the cascade through the parents. *)
Theorem analysed_clause_disables (e : Expr) (f : nat) (iLeftJoin : Z) :
  likeOnlyFunctions env ->
  (height e + 2 <= f)%nat ->
  let wc := whereSplit whereClauseInit (Some e) TK_AND in
  exists wc',
    exprAnalyzeAll (exprAnalyze f env) wc = Some wc'
    /\ wcOp wc' = TK_AND
    /\ (length (a wc) <= length (a wc'))%nat
    /\ (forall j x, (j < length (a wc))%nat -> a wc' !! j = Some x ->
                    iParent x = -1)
    /\ (forall j x, (length (a wc) <= j)%nat -> a wc' !! j = Some x ->
                    has (wtFlags x) TERM_VIRTUAL = true
                    /\ -1 <= iParent x < Z.of_nat (length (a wc')))
    /\ parentsInside (a wc')
    /\ (forall i, (i < length (a wc'))%nat ->
          exists ts',
            disableTerm (S (length (a wc'))) iLeftJoin (a wc') (Some i)
            = Some ts'
            /\ length ts' = length (a wc')).
Proof.
  intros Hlike Hf wc.
  assert (Hsplit : forall j x, a wc !! j = Some x ->
            iParent x = -1 /\ okExpr f (pExpr x)).
  { intros j x Hx. apply list_elem_of_lookup_2 in Hx.
    cbn [a wc whereSplit whereClauseInit app] in Hx.
    destruct (splitTerms_height TK_AND e x Hx)
      as (_ & Hp & y & E & _ & Hy & _).
    split; [exact Hp|]. left. rewrite E.
    pose proof (height_stripped y). lia. }
  destruct (analyzeFrom_settled env f (length (a wc)) Hlike
              (length (a wc)) wc) as (wc' & R & (S1 & S2 & S3) & _ & Hop).
  - lia.
  - split; [lia|]. split.
    + intros j x _ Hx. now destruct (Hsplit j x Hx).
    + intros j x Hj Hx. apply lookup_lt_Some in Hx. lia.
  - intros j x Hx. now destruct (Hsplit j x Hx).
  - assert (Hpar : parentsInside (a wc')).
    { intros j x Hx Hp.
      destruct (Nat.lt_ge_cases j (length (a wc))) as [Hlt|Hge].
      - rewrite (S2 j x Hlt Hx) in Hp. lia.
      - destruct (S3 j x Hge Hx) as [_ B]. lia. }
    exists wc'. split; [exact R|]. split; [exact Hop|].
    split; [exact S1|]. split; [exact S2|]. split.
    { intros j x Hj Hx. destruct (S3 j x Hj Hx) as [B1 B2].
      split; [|exact B2]. unfold has.
      rewrite (land_subset_trans _ vd TERM_VIRTUAL B1 eq_refl).
      reflexivity. }
    split; [exact Hpar|].
    intros i Hi.
    destruct (disableTerm_general iLeftJoin (S (length (a wc'))) (a wc')
                (Some i) Hpar) as (ts' & Rd & [L _] & _).
    + pose proof (uncoded_le (a wc')). lia.
    + now intros ? [= <-].
    + exists ts'. split; [exact Rd | exact L].
Qed.

End AnalysedClause.

Section AnalysedClauseExamples.
Import Ast MaskSet Analyse Disable.

(** [t7.c1 BETWEEN 3 AND 9 AND (t7.c1 < t9.c2 OR 5 < t7.c1)]. *)
Definition mixedWhere : Expr :=
  eBin TK_AND betweenCall (eBin TK_OR columnLtColumn constLtColumn).

Lemma exprAnalyze_returns_and_appends_witness :
  exists wc',
    exprAnalyze 5 (likeEnv false) (oneTerm mixedWhere) 1 = Some wc'
    /\ (length (a (oneTerm mixedWhere)) <= length (a wc'))%nat.
Proof.
  destruct (exprAnalyze_returns_and_appends (likeEnv false) 5
              (oneTerm mixedWhere) 1
              (freshTerm (eBin TK_OR columnLtColumn constLtColumn) 0))
    as (wc' & E & _ & _ & L & _).
  - apply likeEnv_likeOnlyFunctions.
  - reflexivity.
  - vm_compute. lia.
  - exists wc'. split; [exact E | exact L].
Defined.

Lemma analysed_clause_disables_witness :
  exists wc',
    exprAnalyzeAll (exprAnalyze 6 (likeEnv false))
      (whereSplit whereClauseInit (Some mixedWhere) TK_AND) = Some wc'
    /\ parentsInside (a wc').
Proof.
  destruct (analysed_clause_disables (likeEnv false) mixedWhere 6 0)
    as (wc' & E & _ & _ & _ & _ & Hp & _).
  - apply likeEnv_likeOnlyFunctions.
  - vm_compute. lia.
  - exists wc'. split; [exact E | exact Hp].
Defined.

End AnalysedClauseExamples.

(** ** The OR term that stays a union *)

Section OrUnion.
Import Ast MaskSet Analyse.

Variable env : Env.

(** The table [T] that every disjunct constrains. *)
Variable T : Z.
Hypothesis T_known : getMask (sMaskSet env) T <> 0.

(** A disjunct [T.c op R] with an allowed operator: the left side is a
    column of [T], what [sqlite4ExprSkipCollate] finds on the right is
    no column, and the right side uses no column of [T]. *)
Definition constraintOn (e : Expr) : bool :=
  allowedOp (op e)
  && match pLeft e with
     | Some L => tk_is (op L) TK_COLUMN && (iTable L =? T)
     | None => false
     end
  && match sqlite4ExprSkipCollate (pRight e) with
     | Some r => negb (tk_is (op r) TK_COLUMN)
     | None => true
     end
  && (Z.land (prereqRightOf env e) (getMask (sMaskSet env) T) =? 0).

(** What the analysis leaves of such a disjunct. *)
Definition analysedOn (e : Expr) (m : WhereTerm) : Prop :=
  pExpr m = e /\ leftCursor m = T
  /\ leftColumn m = iColumn (deref (pLeft e))
  /\ eOperator m = operatorMask (op e)
  /\ wtFlags m = 0.

(** The OR term afterwards: operator OR, the table [T] as the only
    indexable one, and the analysed disjuncts in its [pOrInfo]. *)
Definition OrUnion (es : list Expr) (t tOR : WhereTerm) : Prop :=
  pExpr tOR = pExpr t
  /\ eOperator tOR = WO_OR
  /\ has (wtFlags tOR) TERM_ORINFO = true
  /\ uTag tOR = UOrInfo
  /\ indexable tOR = getMask (sMaskSet env) T
  /\ nChild tOR = nChild t
  /\ subOp tOR = TK_OR
  /\ length (subTerms tOR) = length es
  /\ (forall j e, es !! j = Some e ->
        exists m, subTerms tOR !! j = Some m /\ analysedOn e m).

Lemma operatorMask_single (o : Token) :
  allowedOp o = true ->
  Z.land (operatorMask o) WO_ALL = operatorMask o
  /\ (Z.land (operatorMask o) WO_SINGLE =? 0) = false.
Proof. destruct o; try discriminate; intros _; split; reflexivity. Qed.

Lemma operatorMask_not_eq (o : Token) :
  allowedOp o = true -> tk_is o TK_EQ = false ->
  (Z.land (operatorMask o) WO_EQ =? 0) = true.
Proof.
  destruct o; try discriminate; intros _ H; reflexivity.
Qed.

Lemma constraintOn_inv (e : Expr) :
  constraintOn e = true ->
  allowedOp (op e) = true
  /\ (exists L, pLeft e = Some L /\ op L = TK_COLUMN /\ iTable L = T)
  /\ (sqlite4ExprSkipCollate (pRight e) = None
      \/ exists r, sqlite4ExprSkipCollate (pRight e) = Some r
                   /\ tk_is (op r) TK_COLUMN = false)
  /\ Z.land (prereqRightOf env e) (getMask (sMaskSet env) T) = 0.
Proof.
  unfold constraintOn. intros H.
  apply andb_true_iff in H as [H H4].
  apply andb_true_iff in H as [H H3].
  apply andb_true_iff in H as [H1 H2].
  split; [exact H1|]. split; [|split; [|lia]].
  - destruct (pLeft e) as [L|]; [|discriminate].
    apply andb_true_iff in H2 as [H2 H2'].
    exists L. split; [reflexivity|]. split; [|lia].
    unfold tk_is in H2. now apply bool_decide_eq_true in H2.
  - destruct (sqlite4ExprSkipCollate (pRight e)) as [r|]; [|now left].
    right. exists r. split; [reflexivity|].
    now apply negb_true_iff in H3.
Qed.

Lemma allowedOp_plain (e : Expr) :
  allowedOp (op e) = true ->
  tk_is (op e) TK_COLLATE = false /\ tk_is (op e) TK_AS = false.
Proof. destruct (op e); try discriminate; intros _; split; reflexivity. Qed.

(** The analysis of a disjunct on [T]. *)
Lemma simpleResult_constraint (e : Expr) :
  constraintOn e = true ->
  analysedOn e (simpleResult env e (freshTerm e 0)).
Proof.
  intros H.
  destruct (constraintOn_inv e H)
    as (Hal & (L & HL & HLop & HLt) & _ & Hdis).
  destruct (allowedOp_plain e Hal) as [Hc Ha].
  pose proof (pExpr_freshTerm e 0 Hc Ha) as Hfresh.
  destruct (operatorMask_single (op e) Hal) as [Hall _].
  assert (HpL : deref (sqlite4ExprSkipCollate (pLeft e)) = L).
  { rewrite HL. cbn [sqlite4ExprSkipCollate].
    rewrite skipCollate_plain by (rewrite HLop; reflexivity). reflexivity. }
  assert (Hleft : prereqLeftOf env e = getMask (sMaskSet env) T).
  { unfold prereqLeftOf. rewrite HL. cbn [exprUsage].
    destruct L. cbn [exprTableUsage]. cbn [op] in HLop. rewrite HLop.
    cbn [iTable] in HLt. now rewrite HLt. }
  unfold analysedOn, simpleResult.
  rewrite HpL, Hleft, Hdis, (tk_is_eq _ _ HLop), HLt.
  change (0 =? 0) with true. cbv iota zeta. rewrite Hall.
  cbn [pExpr wtFlags leftCursor leftColumn eOperator set_prereqRight
       set_eOperator set_left beginTerm set_iParent set_leftCursor
       set_prereqAll].
  rewrite HL. repeat split; try reflexivity. exact Hfresh.
Qed.

(** The disjuncts [es] in the clause of the OR: those before [k] as
    [whereSplit] left them, those from [k] on analysed. *)
Definition Constraints (es : list Expr) (k : nat) (wcX : WhereClause)
  : Prop :=
  wcOp wcX = TK_OR
  /\ length (a wcX) = length es
  /\ (forall j e, (j < k)%nat -> es !! j = Some e ->
                   a wcX !! j = Some (freshTerm e 0))
  /\ (forall j e, (k <= j)%nat -> es !! j = Some e ->
                   exists m, a wcX !! j = Some m /\ analysedOn e m).

Lemma analyzeFrom_constraints
    (g : WhereClause -> nat -> option WhereClause)
    (es : list Expr) (k : nat) (wcX : WhereClause) :
  likeOnlyFunctions env ->
  forallb constraintOn es = true ->
  (k <= length es)%nat ->
  Constraints es k wcX ->
  exists wcY, analyzeFrom (analyzeStep env g) k wcX = Some wcY
              /\ Constraints es 0 wcY.
Proof.
  intros Hlike Hes. revert wcX.
  induction k as [|k IH]; intros wcX Hk Hinv.
  - exists wcX. split; [reflexivity | exact Hinv].
  - destruct Hinv as (D1 & D2 & D3 & D4).
    destruct (lookup_lt_is_Some_2 es k) as [e He]; [lia|].
    assert (Hc : constraintOn e = true).
    { rewrite forallb_forall in Hes. apply Hes.
      apply list_elem_of_In. apply list_elem_of_lookup. eauto. }
    destruct (constraintOn_inv e Hc) as (Hal & _ & Hright & _).
    destruct (allowedOp_plain e Hal) as [Hco Has].
    pose proof (pExpr_freshTerm e 0 Hco Has) as Hfresh.
    pose proof (D3 k e (Nat.lt_succ_diag_r k) He) as Hk0.
    cbn [analyzeFrom].
    rewrite (analyzeStep_simple env g wcX k (freshTerm e 0) Hlike Hk0)
      by (rewrite Hfresh; assumption).
    rewrite Hfresh.
    apply IH; [lia|].
    unfold Constraints. repeat split.
    + exact D1.
    + now rewrite length_updTerm.
    + intros j e' Hj He'. rewrite lookup_updTerm_ne by lia.
      apply D3; [lia | exact He'].
    + intros j e' Hj He'.
      destruct (decide (j = k)) as [->|Hne].
      * assert (e' = e) by congruence. subst e'.
        exists (simpleResult env e (freshTerm e 0)). split.
        -- now rewrite lookup_updTerm_same, Hk0.
        -- now apply simpleResult_constraint.
      * rewrite lookup_updTerm_ne by congruence.
        apply D4; [lia | exact He'].
Qed.

(** The loop over the analysed disjuncts changes none of them, leaves
    [T] alone in [indexable], and clears [chngToIN] once it has met a
    disjunct that is no equality. *)
Lemma orTermsLoop_constraints
    (g : WhereClause -> nat -> option WhereClause)
    (es : list Expr) (wcX : WhereClause) :
  forallb constraintOn es = true ->
  Constraints es 0 wcX ->
  forall cnt i ind chg,
    (i + cnt = length (a wcX))%nat ->
    ind = bnot 0 \/ ind = getMask (sMaskSet env) T ->
    chg = 0
    \/ (exists j e, (i <= j)%nat /\ es !! j = Some e
                    /\ tk_is (op e) TK_EQ = false) ->
    orTermsLoop env g cnt (a wcX) i ind chg
    = Some (a wcX,
            match cnt with O => ind | S _ => getMask (sMaskSet env) T end,
            0).
Proof.
  intros Hes (D1 & D2 & D3 & D4).
  set (mT := getMask (sMaskSet env) T) in *.
  induction cnt as [|cnt IH]; intros i ind chg Hlen Hind Hchg.
  - cbn [orTermsLoop]. destruct Hchg as [->|(j & e & Hj & He & _)].
    + reflexivity.
    + apply lookup_lt_Some in He. lia.
  - cbn [orTermsLoop].
    assert (Hnz : (ind =? 0) = false).
    { destruct Hind as [-> | ->]; [reflexivity|]. apply Z.eqb_neq.
      exact T_known. }
    rewrite Hnz.
    destruct (lookup_lt_is_Some_2 es i) as [e He]; [lia|].
    destruct (D4 i e (Nat.le_0_l i) He) as (m & Hm & M1 & M2 & M3 & M4 & M5).
    rewrite Hm. change (default noTerm (Some m)) with m.
    assert (Hc : constraintOn e = true).
    { rewrite forallb_forall in Hes. apply Hes.
      apply list_elem_of_In. apply list_elem_of_lookup. eauto. }
    destruct (constraintOn_inv e Hc) as (Hal & _).
    destruct (operatorMask_single (op e) Hal) as [_ Hs].
    rewrite M4, Hs, M5.
    change (has 0 TERM_COPIED) with false.
    change (has 0 TERM_VIRTUAL) with false. cbv iota.
    rewrite M2. fold mT.
    assert (Hind' : Z.land ind mT = mT).
    { destruct Hind as [-> | ->];
        [apply land_all_getMask | apply Z.land_diag]. }
    rewrite Hind'.
    set (chg' := if Z.land (operatorMask (op e)) WO_EQ =? 0 then 0
                 else Z.land chg mT).
    assert (Hchg' : chg' = 0
                    \/ (exists j e', (S i <= j)%nat /\ es !! j = Some e'
                                      /\ tk_is (op e') TK_EQ = false)).
    { unfold chg'. destruct Hchg as [->|(j & e' & Hj & He' & Hne)].
      - left. rewrite Z.land_0_l.
        destruct (Z.land (operatorMask (op e)) WO_EQ =? 0); reflexivity.
      - destruct (decide (j = i)) as [->|Hji].
        + assert (e' = e) by congruence. subst e'.
          left. now rewrite (operatorMask_not_eq (op e) Hal Hne).
        + right. exists j, e'.
          repeat split; [lia | assumption | assumption]. }
    rewrite (IH (S i) mT chg'); [destruct cnt; reflexivity | lia | | exact Hchg'].
    now right.
Qed.

Lemma split_constraints (E : Expr) (es : list Expr) :
  splitTerms TK_OR E = map (fun e => freshTerm e 0) es ->
  Constraints es (length es) (whereSplit whereClauseInit (Some E) TK_OR).
Proof.
  intros Hsplit. unfold Constraints, whereSplit.
  cbn [wcOp a pOuter whereClauseInit app]. rewrite Hsplit.
  repeat split.
  - now rewrite length_map.
  - intros j e _ He. now rewrite list_lookup_fmap, He.
  - intros j e Hj He. apply lookup_lt_Some in He. lia.
Qed.

(** X24.  Let the term [i] of a clause be an OR whose disjuncts [es] are
    all comparisons, IN or IS NULL tests on columns of one table [T] of
    the FROM clause, with right sides that are no columns and use no
    column of [T], and let one disjunct at least be no equality.  Then
    the analyser returns, appends nothing and changes no other term; the
    OR term keeps its expression and its children count, its operator is
    OR, it carries the flag OrInfo, [T] is its one indexable table, and
    its [pOrInfo] holds the disjuncts in order, each analysed in place
    with cursor [T], its column, and the operator of its comparison. *)
Theorem or_union_indexable (f : nat) (wc : WhereClause) (i : nat)
    (t : WhereTerm) (es : list Expr) :
  likeOnlyFunctions env ->
  a wc !! i = Some t ->
  op (pExpr t) = TK_OR ->
  splitTerms TK_OR (pExpr t) = map (fun e => freshTerm e 0) es ->
  forallb constraintOn es = true ->
  existsb (fun e => negb (tk_is (op e) TK_EQ)) es = true ->
  exists wc' tOR,
    exprAnalyze (S (S f)) env wc i = Some wc'
    /\ wcOp wc' = wcOp wc
    /\ length (a wc') = length (a wc)
    /\ a wc' !! i = Some tOR
    /\ OrUnion es t tOR
    /\ (forall j, j <> i -> a wc' !! j = a wc !! j).
Proof.
  intros Hlike Ht Hop Hsplit Hes Hne.
  assert (Hi : (i < length (a wc))%nat) by (eapply lookup_lt_Some; eauto).
  rewrite exprAnalyze_S. unfold analyzeStep.
  rewrite (getTerm_lookup wc i t Ht), Hop.
  cbn [allowedOp]. change (tk_is TK_OR TK_BETWEEN) with false.
  cbn [andb]. change (tk_is TK_OR TK_OR) with true. cbv iota.
  set (E := pExpr t) in *.
  set (wc0 := updTerm wc i (beginTerm env E)).
  assert (H0 : a wc0 !! i = Some (beginTerm env E t)).
  { unfold wc0. now rewrite lookup_updTerm_same, Ht. }
  unfold exprAnalyzeOrTerm. rewrite (getTerm_lookup wc0 i _ H0).
  change (pExpr (beginTerm env E t)) with E.
  unfold exprAnalyzeAll.
  change (exprAnalyze (S f) env) with (analyzeStep env (exprAnalyze f env)).
  pose proof (split_constraints E es Hsplit) as Hd0.
  assert (Hlen0 : length (a (whereSplit whereClauseInit (Some E) TK_OR))
                  = length es) by apply Hd0.
  rewrite Hlen0.
  destruct (analyzeFrom_constraints (exprAnalyze f env) es (length es) _
              Hlike Hes (Nat.le_refl _) Hd0) as (pOrWc & Hall & Hd).
  rewrite Hall.
  assert (Hsome : exists j e, (0 <= j)%nat /\ es !! j = Some e
                              /\ tk_is (op e) TK_EQ = false).
  { apply existsb_exists in Hne as (e & Hin & Hq).
    apply list_elem_of_In, list_elem_of_lookup in Hin as [j Hj].
    exists j, e. repeat split; [lia | exact Hj |].
    now apply negb_true_iff in Hq. }
  assert (Hlen : length (a pOrWc) = length es) by apply Hd.
  assert (Hpos : (0 < length es)%nat).
  { destruct Hsome as (j & e & _ & Hj & _).
    apply lookup_lt_Some in Hj. lia. }
  rewrite (orTermsLoop_constraints
             (analyzeStep env (exprAnalyze f env)) es pOrWc Hes Hd
             (length (a pOrWc)) 0 (bnot 0) (bnot 0) eq_refl
             (or_introl eq_refl) (or_intror Hsome)).
  destruct (length (a pOrWc)) as [|n] eqn:En; [lia|].
  change (0 =? 0) with true. cbv iota.
  destruct (getMask (sMaskSet env) T =? 0) eqn:Em; [lia|].
  set (hOr := fun t0 => set_eOperator WO_OR
                (storeOrInfo pOrWc (a pOrWc) (getMask (sMaskSet env) T) t0)).
  set (wcR := updTerm wc0 i hOr).
  assert (HR : a wcR !! i = Some (hOr (beginTerm env E t))).
  { unfold wcR. now rewrite lookup_updTerm_same, H0. }
  assert (HeR : pExpr (getTerm wcR i) = E)
    by now rewrite (getTerm_lookup _ _ _ HR).
  rewrite likeArm_declines by (try assumption; rewrite HeR, Hop; reflexivity).
  rewrite matchArm_declines
    by (apply isMatchOfColumn_function; rewrite HeR, Hop; reflexivity).
  rewrite notNullArm_declines by (rewrite HeR, Hop; reflexivity).
  eexists. eexists. split; [reflexivity|].
  split; [reflexivity|].
  split; [unfold wcR, wc0; now rewrite !length_updTerm|].
  split; [now rewrite lookup_updTerm_same, HR|].
  split.
  - destruct Hd as (D1 & D2 & D3 & D4).
    unfold OrUnion, hOr, storeOrInfo. cbn.
    repeat split; try assumption.
    + apply has_raised. discriminate.
    + intros j e He. apply (D4 j e); [lia | exact He].
  - intros j Hj. rewrite lookup_updTerm_ne by congruence.
    unfold wcR. rewrite lookup_updTerm_ne by congruence.
    unfold wc0. now rewrite lookup_updTerm_ne by congruence.
Qed.

End OrUnion.

Section OrUnionExamples.
Import Ast MaskSet Analyse.

(** [t7.c0 < 1 OR t7.c1 = 3 OR t7.c0 >= 9] as the only term of a WHERE
    clause. *)
Definition rangeDisjuncts : list Expr :=
  [eBin TK_LT (eColumn 7 0) (eLeaf 1);
   eBin TK_EQ (eColumn 7 1) (eLeaf 3);
   eBin TK_GE (eColumn 7 0) (eLeaf 9)].

Definition orOfRanges : Expr :=
  eBin TK_OR
    (eBin TK_OR (eBin TK_LT (eColumn 7 0) (eLeaf 1))
                (eBin TK_EQ (eColumn 7 1) (eLeaf 3)))
    (eBin TK_GE (eColumn 7 0) (eLeaf 9)).

Definition rangeClause : WhereClause :=
  whereSplit whereClauseInit (Some orOfRanges) TK_AND.

Lemma or_union_indexable_witness :
  exists wc' tOR,
    exprAnalyze 2 (likeEnv false) rangeClause 0 = Some wc'
    /\ wcOp wc' = wcOp rangeClause
    /\ length (a wc') = length (a rangeClause)
    /\ a wc' !! 0%nat = Some tOR
    /\ OrUnion (likeEnv false) 7 rangeDisjuncts
               (freshTerm orOfRanges 0) tOR
    /\ (forall j, j <> 0%nat -> a wc' !! j = a rangeClause !! j).
Proof.
  apply (or_union_indexable (likeEnv false) 7
           ltac:(vm_compute; discriminate) 0 rangeClause 0
           (freshTerm orOfRanges 0) rangeDisjuncts).
  - apply likeEnv_likeOnlyFunctions.
  - reflexivity.
  - reflexivity.
  - reflexivity.
  - reflexivity.
  - reflexivity.
Defined.

End OrUnionExamples.
